(** * HugeInt: a fixed-width signed integer on base-2^32 digits

    Shallow embedding of [HugeInt.h] / [HugeInt.cpp] (radix 2^32 version).
    A [HugeInt] is an array of [numDigits_] unsigned 32-bit digits, least
    significant first; negative numbers are stored as their radix
    complement.  Machine integers are modelled as [Z] with the wrap-around
    of every conversion written out. *)

From Stdlib Require Import ZArith Lia String Ascii.
From stdpp Require Import base tactics option list.

Local Open Scope Z_scope.

(** ** Machine integers *)

(** Conversion to [std::uint32_t], [std::uint64_t] and [std::int64_t]. *)
Definition u32 (z : Z) : Z := z mod 2 ^ 32.
Definition u64 (z : Z) : Z := z mod 2 ^ 64.
Definition i64 (z : Z) : Z := (z + 2 ^ 63) mod 2 ^ 64 - 2 ^ 63.

(** [static const std::size_t numDigits_{300}] and
    [static const std::uint64_t base_{1ULL << 32}]. *)
Definition numDigits_ : nat := 300.
Definition base_ : Z := Z.shiftl 1 32.

(** ** Loops *)

(** [for (i = lo; i < lo + n; ++i) s = body i s]. *)
Fixpoint for_up {S : Type} (lo n : nat) (body : nat -> S -> S) (s : S) : S :=
  match n with
  | O => s
  | Datatypes.S n' => for_up (Datatypes.S lo) n' body (body lo s)
  end.

(** [for (i = n - 1; i >= 0; --i) s = body i s]. *)
Fixpoint for_down {S : Type} (n : nat) (body : nat -> S -> S) (s : S) : S :=
  match n with
  | O => s
  | Datatypes.S i => for_down i body (body i s)
  end.

(** ** The class *)

(** [std::uint32_t digits_[numDigits_]{0}]. *)
Record HugeInt : Type := mkHugeInt { digits_ : list Z }.

(** Reading [digits_[i]] for an index that the caller keeps in range. *)
Definition digit (ds : list Z) (i : nat) : Z := default 0 (ds !! i).

(** [HugeInt() = default]: every digit is zero. *)
Definition zero_digits : list Z := replicate numDigits_ 0.
Definition HugeInt_default : HugeInt := mkHugeInt zero_digits.

(** A well-formed object: [numDigits_] digits, each a [std::uint32_t]. *)
Definition valid_digits (ds : list Z) : bool :=
  forallb (fun d => (0 <=? d) && (d <? base_)) ds.
Definition valid (x : HugeInt) : bool :=
  (length (digits_ x) =? numDigits_)%nat && valid_digits (digits_ x).
Definition wf (x : HugeInt) : Prop := valid x = true.

(** *** Private utility functions *)

(** The loop [for ( ; i > 0 && digits_[i - 1] == 0; --i);] started at
    [i]: the value of [i] when it stops. *)
Fixpoint trim (ds : list Z) (i : nat) : nat :=
  match i with
  | O => O
  | Datatypes.S j => if digit ds j =? 0 then trim ds j else i
  end.

(** [bool HugeInt::isZero() const]. *)
Definition isZero (x : HugeInt) : bool :=
  (trim (digits_ x) numDigits_ =? 0)%nat.

(** [bool HugeInt::isNegative() const]. *)
Definition isNegative (x : HugeInt) : bool :=
  base_ / 2 <=? digit (digits_ x) (numDigits_ - 1).

(** [HugeInt& HugeInt::radixComplement()]; the loop state is
    [(digits_, sum)]. *)
Definition radixComplement (x : HugeInt) : HugeInt :=
  if negb (isZero x) then
    let '(ds, _) :=
      for_up 0 numDigits_
        (fun i '(ds, sum) =>
           let sum := u64 (sum + u64 (u64 (base_ - 1) - digit ds i)) in
           (<[i := u32 sum]> ds, Z.shiftr sum 32))
        (digits_ x, 1) in
    mkHugeInt ds
  else x.

(** [HugeInt HugeInt::shortMultiply(std::uint32_t multiplier) const]. *)
Definition shortMultiply (x : HugeInt) (multiplier : Z) : HugeInt :=
  let '(product, _) :=
    for_up 0 numDigits_
      (fun i '(product, partial) =>
         let partial := u64 (partial + u64 (digit (digits_ x) i * multiplier)) in
         (<[i := u32 partial]> product, Z.shiftr partial 32))
      (zero_digits, 0) in
  mkHugeInt product.

(** [HugeInt HugeInt::shortDivide(std::uint32_t divisor,
    std::uint32_t* const remainder) const]: the quotient and the value
    stored through [remainder].  [divisor] is not zero. *)
Definition shortDivide (x : HugeInt) (divisor : Z) : HugeInt * Z :=
  let '(quotient, partial) :=
    for_down numDigits_
      (fun i '(quotient, partial) =>
         let partial := u64 (u64 (base_ * partial) + digit (digits_ x) i) in
         (<[i := u32 (partial / divisor)]> quotient, partial mod divisor))
      (zero_digits, 0) in
  (mkHugeInt quotient, u32 partial).

(** [HugeInt& HugeInt::shiftLeftDigits(int num)], for
    [0 <= num <= numDigits_]. *)
Definition shiftLeftDigits (x : HugeInt) (num : nat) : HugeInt :=
  if (num =? 0)%nat then x
  else
    let ds := for_down (numDigits_ - num)
                (fun i ds => <[(i + num)%nat := digit ds i]> ds) (digits_ x) in
    mkHugeInt (for_up 0 num (fun i ds => <[i := 0]> ds) ds).

(** *** Constructors, negation, sum and difference *)

(** The loop [while (xp > 0) { digits_[i++] = xp % base_; xp /= base_; }];
    a [long long] is spent after two rounds. *)
Fixpoint ll_digits (fuel : nat) (xp : Z) (i : nat) (ds : list Z) : list Z :=
  match fuel with
  | O => ds
  | Datatypes.S fuel' =>
      if 0 <? xp
      then ll_digits fuel' (xp / base_) (Datatypes.S i) (<[i := u32 (xp mod base_)]> ds)
      else ds
  end.

(** [HugeInt::HugeInt(long long int x)], for [x] other than [LLONG_MIN]
    (whose [llabs] is undefined). *)
Definition HugeInt_ll (x : Z) : HugeInt :=
  if x =? 0 then HugeInt_default
  else
    let r := mkHugeInt (ll_digits 2 (Z.abs x) 0 zero_digits) in
    if x <? 0 then radixComplement r else r.

(** [HugeInt HugeInt::operator-() const]. *)
Definition neg (x : HugeInt) : HugeInt := radixComplement x.

(** [HugeInt operator+(const HugeInt& a, const HugeInt& b)]. *)
Definition add (a b : HugeInt) : HugeInt :=
  let '(sum, _) :=
    for_up 0 numDigits_
      (fun i '(sum, partial) =>
         let partial :=
           u64 (partial + u64 (digit (digits_ a) i + digit (digits_ b) i)) in
         (<[i := u32 partial]> sum, Z.shiftr partial 32))
      (zero_digits, 0) in
  mkHugeInt sum.

(** [HugeInt operator-(const HugeInt& a, const HugeInt& b)]. *)
Definition sub (a b : HugeInt) : HugeInt := add a (neg b).

(** [HugeInt operator*(const HugeInt& a, const HugeInt& b)]. *)
Definition mul (a b : HugeInt) : HugeInt :=
  for_up 0 numDigits_
    (fun i product =>
       let partial := shortMultiply a (digit (digits_ b) i) in
       add product (shiftLeftDigits partial i))
    HugeInt_default.

(** *** Relational operators *)

(** [operator==], [operator!=], [operator<], [operator>], [operator<=],
    [operator>=]. *)
Definition eq_op (lhs rhs : HugeInt) : bool := isZero (sub rhs lhs).
Definition ne_op (lhs rhs : HugeInt) : bool := negb (eq_op rhs lhs).
Definition lt_op (lhs rhs : HugeInt) : bool := isNegative (sub lhs rhs).
Definition gt_op (lhs rhs : HugeInt) : bool := lt_op rhs lhs.
Definition le_op (lhs rhs : HugeInt) : bool := negb (gt_op lhs rhs).
Definition ge_op (lhs rhs : HugeInt) : bool := negb (lt_op lhs rhs).

(** ** Long division *)

(** What running a piece of code with checked array accesses and
    checked divisions gives: a value, an access outside the array or a
    division by zero (both undefined behaviour in C++), or a loop that
    was cut off. *)
Inductive outcome (A : Type) : Type :=
  | Done (a : A)
  | OutOfBounds (i : Z)
  | DivisionByZero
  | OutOfFuel.
Arguments Done {A} a.
Arguments OutOfBounds {A} i.
Arguments DivisionByZero {A}.
Arguments OutOfFuel {A}.

#[global] Instance outcome_ret : MRet outcome := fun _ a => Done a.
#[global] Instance outcome_bind : MBind outcome := fun _ _ f c =>
  match c with
  | Done a => f a
  | OutOfBounds i => OutOfBounds i
  | DivisionByZero => DivisionByZero
  | OutOfFuel => OutOfFuel
  end.

(** [a / b] and [a % b] on unsigned operands. *)
Definition divide (a b : Z) : outcome Z :=
  if b =? 0 then DivisionByZero else Done (a / b).
Definition modulo (a b : Z) : outcome Z :=
  if b =? 0 then DivisionByZero else Done (a mod b).

(** [ds[i]] and [ds[i] = v] on an array whose extent is the list's
    length; [i] is an [int]. *)
Definition get (ds : list Z) (i : Z) : outcome Z :=
  if i <? 0 then OutOfBounds i
  else match ds !! Z.to_nat i with
       | Some d => Done d
       | None => OutOfBounds i
       end.

Definition set (ds : list Z) (i : Z) (v : Z) : outcome (list Z) :=
  if (0 <=? i) && (i <? Z.of_nat (length ds))
  then Done (<[Z.to_nat i := v]> ds)
  else OutOfBounds i.

(** [for (int i = lo; i < hi; ++i)] and [for (int i = hi; i >= lo; --i)]
    over code that may fail. *)
Fixpoint upto_ {S : Type} (n : nat) (lo : Z) (body : Z -> S -> outcome S)
    (s : S) : outcome S :=
  match n with
  | O => Done s
  | Datatypes.S n' => s' ← body lo s; upto_ n' (lo + 1) body s'
  end.
Definition for_upto {S : Type} (lo hi : Z) (body : Z -> S -> outcome S)
    (s : S) : outcome S :=
  upto_ (Z.to_nat (hi - lo)) lo body s.

Fixpoint downto_ {S : Type} (n : nat) (hi : Z) (body : Z -> S -> outcome S)
    (s : S) : outcome S :=
  match n with
  | O => Done s
  | Datatypes.S n' => s' ← body hi s; downto_ n' (hi - 1) body s'
  end.
Definition for_downto {S : Type} (hi lo : Z) (body : Z -> S -> outcome S)
    (s : S) : outcome S :=
  downto_ (Z.to_nat (hi - lo + 1)) hi body s.

(** The trimming loops of [unsigned_divide],
    [for ( ; n > 0 && digits_[n - 1] == 0; --n);]. *)
Fixpoint significant (ds : list Z) (n : nat) : outcome Z :=
  match n with
  | O => Done 0
  | Datatypes.S j =>
      d ← get ds (Z.of_nat j);
      if d =? 0 then significant ds j else Done (Z.of_nat n)
  end.

(** [while (vn < (HugeInt::base_ >> 1)) { vn <<= 1; ++shifts; }]. *)
Fixpoint normalising_shift (fuel : nat) (vn shifts : Z) : outcome Z :=
  match fuel with
  | O => OutOfFuel
  | Datatypes.S fuel' =>
      if vn <? Z.shiftr base_ 1
      then normalising_shift fuel' (u32 (Z.shiftl vn 1)) (shifts + 1)
      else Done shifts
  end.

(** The left shift of the [m] low digits of an array by [shifts] bits,
    bits moving into the next digit. *)
Definition shift_digits_left (ds : list Z) (m shifts : Z) : outcome (list Z) :=
  ds ← for_downto (m - 1) 1
          (fun i ds =>
             di ← get ds i;
             dj ← get ds (i - 1);
             set ds i (u32 (Z.lor (u32 (Z.shiftl di shifts))
                                  (Z.shiftr dj (32 - shifts)))))
          ds;
  d0 ← get ds 0;
  set ds 0 (u32 (Z.shiftl d0 shifts)).

(** The second-order test on the estimate,
    [while (rhat < base_ && qhat * divisor[n - 2]
                              > base_ * rhat + dividend[k + n - 2])]. *)
Fixpoint refine_qhat (fuel : nat) (dividend divisor : list Z) (k n : Z)
    (qhat rhat : Z) : outcome (Z * Z) :=
  match fuel with
  | O => OutOfFuel
  | Datatypes.S fuel' =>
      if rhat <? base_ then
        v2 ← get divisor (n - 2);
        u2 ← get dividend (k + n - 2);
        if u64 (u64 (base_ * rhat) + u2) <? u64 (qhat * v2) then
          v1 ← get divisor (n - 1);
          refine_qhat fuel' dividend divisor k n
            (u64 (qhat - 1)) (u64 (rhat + v1))
        else Done (qhat, rhat)
      else Done (qhat, rhat)
  end.

(** One round of the main loop of Algorithm D, for quotient digit [k]. *)
Definition divide_step (divisor : list Z) (n : Z) (k : Z)
    (st : list Z * list Z) : outcome (list Z * list Z) :=
  let '(dividend, quotient) := st in
  ukn ← get dividend (k + n);
  ukn1 ← get dividend (k + n - 1);
  let rhat := u64 (u64 (ukn * base_) + ukn1) in
  v1 ← get divisor (n - 1);
  qhat ← divide rhat v1;
  v1 ← get divisor (n - 1);
  rhat ← modulo rhat v1;
  '(qhat, rhat) ←
    (if qhat =? base_
     then v1 ← get divisor (n - 1); Done (u64 (qhat - 1), u64 (rhat + v1))
     else Done (qhat, rhat));
  '(qhat, rhat) ← refine_qhat 4 dividend divisor k n qhat rhat;
  (* multiply and subtract *)
  '(dividend, carry) ←
    for_upto 0 n
      (fun i '(dividend, carry) =>
         vi ← get divisor i;
         let product := u64 (u32 qhat * vi) in
         uki ← get dividend (k + i);
         let widedigit :=
           i64 (u64 (i64 (uki + carry)) - Z.land product 4294967295) in
         dividend ← set dividend (k + i) (u32 widedigit);
         Done (dividend,
               i64 (u64 (Z.shiftr widedigit 32) - Z.shiftr product 32)))
      (dividend, 0);
  ukn ← get dividend (k + n);
  let widedigit := i64 (ukn + carry) in
  dividend ← set dividend (k + n) (u32 widedigit);
  quotient ← set quotient k (u32 qhat);
  if widedigit <? 0 then
    qk ← get quotient k;
    quotient ← set quotient k (u32 (qk - 1));
    '(dividend, _) ←
      for_upto 0 n
        (fun i '(dividend, widedigit) =>
           uki ← get dividend (k + i);
           vi ← get divisor i;
           let widedigit := i64 (u64 widedigit + u64 (uki + vi)) in
           dividend ← set dividend (k + i) (u32 widedigit);
           Done (dividend, Z.shiftr widedigit 32))
        (dividend, 0);
    ukn ← get dividend (k + n);
    dividend ← set dividend (k + n) (u32 (i64 (ukn + carry)));
    Done (dividend, quotient)
  else Done (dividend, quotient).

(** [HugeInt unsigned_divide(const HugeInt& a, const HugeInt& b,
    HugeInt* const remainder)].  [remainder] is [None] for [nullptr] and
    the caller's object otherwise; the result is the quotient and the
    caller's object after the call.  The statement
    [if ( *remainder != 0) { *remainder == 0LL; }] compares and stores
    nothing, so it leaves no trace here. *)
Definition unsigned_divide (a b : HugeInt) (remainder : option HugeInt)
    : outcome (HugeInt * option HugeInt) :=
  let dividend := digits_ a in
  let divisor := digits_ b in
  n ← significant divisor numDigits_;
  m ← significant dividend numDigits_;
  let quotient := zero_digits in
  if m <? n then
    (* CASE 1 *)
    match remainder with
    | Some r =>
        rd ← for_upto 0 m
               (fun i rd => d ← get dividend i; set rd i d) (digits_ r);
        Done (mkHugeInt quotient, Some (mkHugeInt rd))
    | None => Done (mkHugeInt quotient, None)
    end
  else if n <? 2 then
    (* CASE 2 *)
    '(quotient, partial) ←
      for_downto (m - 1) 0
        (fun i '(quotient, partial) =>
           d ← get dividend i;
           let partial := u64 (u64 (base_ * partial) + d) in
           d0 ← get divisor 0;
           q ← divide partial d0;
           quotient ← set quotient i (u32 q);
           d0 ← get divisor 0;
           partial ← modulo partial d0;
           Done (quotient, partial))
        (quotient, 0);
    match remainder with
    | Some r =>
        rd ← set (digits_ r) 0 (u32 partial);
        Done (mkHugeInt quotient, Some (mkHugeInt rd))
    | None => Done (mkHugeInt quotient, None)
    end
  else
    (* CASE 3 *)
    vn ← get divisor (n - 1);
    shifts ← normalising_shift 33 vn 0;
    divisor ← shift_digits_left divisor n shifts;
    dm1 ← get dividend (m - 1);
    dividend ← set dividend m (u32 (Z.shiftr dm1 (32 - shifts)));
    dividend ← shift_digits_left dividend m shifts;
    '(dividend, quotient) ←
      for_downto (m - n) 0 (divide_step divisor n) (dividend, quotient);
    match remainder with
    | Some r =>
        rd ← for_upto 0 (n - 1)
               (fun i rd =>
                  di ← get dividend i;
                  dj ← get dividend (i + 1);
                  set rd i (u32 (Z.lor (Z.shiftr di shifts)
                                       (u64 (Z.shiftl dj (32 - shifts))))))
               (digits_ r);
        dn1 ← get dividend (n - 1);
        rd ← set rd (n - 1) (Z.shiftr dn1 shifts);
        Done (mkHugeInt quotient, Some (mkHugeInt rd))
    | None => Done (mkHugeInt quotient, None)
    end.

(** [HugeInt operator/(const HugeInt& a, const HugeInt& b)]. *)
Definition div (a b : HugeInt) : outcome HugeInt :=
  if lt_op a (HugeInt_ll 0) then
    if lt_op b (HugeInt_ll 0) then
      '(q, _) ← unsigned_divide (neg a) (neg b) None; Done q
    else
      '(q, _) ← unsigned_divide (neg a) b None; Done (neg q)
  else
    if lt_op b (HugeInt_ll 0) then
      '(q, _) ← unsigned_divide a (neg b) None; Done (neg q)
    else
      '(q, _) ← unsigned_divide a b None; Done q.

(** [HugeInt operator%(const HugeInt& a, const HugeInt& b)]. *)
Definition rem (a b : HugeInt) : outcome HugeInt :=
  let remainder := HugeInt_default in
  if lt_op a (HugeInt_ll 0) then
    if lt_op b (HugeInt_ll 0) then
      '(_, r) ← unsigned_divide (neg a) (neg b) (Some remainder);
      Done (neg (default remainder r))
    else
      '(_, r) ← unsigned_divide (neg a) b (Some remainder);
      Done (neg (default remainder r))
  else
    if lt_op b (HugeInt_ll 0) then
      '(_, r) ← unsigned_divide a (neg b) (Some remainder);
      Done (default remainder r)
    else
      '(_, r) ← unsigned_divide a b (Some remainder);
      Done (default remainder r).

(** ** Decimal text *)

Local Open Scope string_scope.
Local Open Scope Z_scope.

(** A [const char*] is a [string] read up to its first NUL. *)
Definition is_nul (c : ascii) : bool := (N_of_ascii c =? 0)%N.

(** [std::strlen]. *)
Fixpoint strlen (str : string) : nat :=
  match str with
  | EmptyString => O
  | String c rest => if is_nul c then O else Datatypes.S (strlen rest)
  end.

(** [str[i]] for [i <= strlen(str)] (the terminator included). *)
Definition char_at (str : string) (i : nat) : ascii :=
  default Ascii.zero (String.get i str).

(** [str + offset]. *)
Fixpoint advance (offset : nat) (str : string) : string :=
  match offset, str with
  | Datatypes.S k, String _ rest => advance k rest
  | _, _ => str
  end.

(** [std::isdigit] in the "C" locale. *)
Definition isdigit (c : ascii) : bool :=
  ((48 <=? N_of_ascii c) && (N_of_ascii c <=? 57))%N.

(** The loop of [is_all_digits] over the characters before the NUL. *)
Fixpoint digits_only (str : string) : bool :=
  match str with
  | EmptyString => true
  | String c rest =>
      if is_nul c then true
      else if isdigit c then digits_only rest else false
  end.

(** [inline bool is_all_digits(const char *const str)]. *)
Definition is_all_digits (str : string) : bool :=
  if (strlen str =? 0)%nat then false else digits_only str.

(** A call that returns or throws [std::invalid_argument]. *)
Inductive thrown (A : Type) : Type :=
  | Returned (a : A)
  | invalid_argument (what : string).
Arguments Returned {A} a.
Arguments invalid_argument {A} what.

(** [HugeInt::HugeInt(const char *const str)]. *)
Definition HugeInt_str (str : string) : thrown HugeInt :=
  let len := strlen str in
  if (len =? 0)%nat then
    invalid_argument "empty decimal string in constructor."
  else
    let flagNegative := false in
    let numDecimalDigits := len in
    let offset := O in
    let '(numDecimalDigits, offset) :=
      if Ascii.eqb (char_at str 0) "+"
      then ((numDecimalDigits - 1)%nat, Datatypes.S offset)
      else (numDecimalDigits, offset) in
    let '(flagNegative, numDecimalDigits, offset) :=
      if Ascii.eqb (char_at str 0) "-"
      then (true, (numDecimalDigits - 1)%nat, Datatypes.S offset)
      else (flagNegative, numDecimalDigits, offset) in
    if negb (is_all_digits (advance offset str)) then
      invalid_argument "string contains non-digit in constructor."
    else
      let '(theNumber, _) :=
        for_up 0 numDecimalDigits
          (fun i '(theNumber, powerOfTen) =>
             let digitValue :=
               u32 (Z.of_N (N_of_ascii (char_at str (len - 1 - i))) - 48) in
             (add theNumber (shortMultiply powerOfTen digitValue),
              shortMultiply powerOfTen 10))
          (HugeInt_default, HugeInt_ll 1) in
      let theNumber :=
        if flagNegative then radixComplement theNumber else theNumber in
      Returned
        (mkHugeInt
           (for_up 0 numDigits_
              (fun i ds => <[i := digit (digits_ theNumber) i]> ds)
              zero_digits)).

(** [static_cast<int>(HugeInt::numDigits_ * 3.211) + 2]. *)
Definition numTriples : nat := 965.

(** A [std::uint32_t] sent to the stream: its decimal digits. *)
Fixpoint decimal_ (fuel : nat) (n : Z) (acc : string) : string :=
  match fuel with
  | O => acc
  | Datatypes.S fuel' =>
      let acc := String (ascii_of_N (Z.to_N (48 + n mod 10))) acc in
      if n / 10 =? 0 then acc else decimal_ fuel' (n / 10) acc
  end.
Definition decimal (n : Z) : string := decimal_ 10 n "".

(** The same under [std::setfill('0')] and [std::setw(3)]. *)
Definition decimal_w3 (n : Z) : string :=
  let s := decimal n in
  match String.length s with
  | 1%nat => "00" ++ s
  | 2%nat => "0" ++ s
  | _ => s
  end.

(** [while (copy != 0) { copy = copy.shortDivide(1000, &remainder);
    triples[i++] = remainder; }]. *)
Fixpoint triples_loop (fuel : nat) (copy : HugeInt) (i : Z)
    (triples : list Z) : outcome (list Z * Z) :=
  match fuel with
  | O => OutOfFuel
  | Datatypes.S fuel' =>
      if ne_op copy (HugeInt_ll 0) then
        let '(copy, remainder) := shortDivide copy 1000 in
        triples ← set triples i remainder;
        triples_loop fuel' copy (i + 1) triples
      else Done (triples, i)
  end.

(** [std::ostream& operator<<(std::ostream& output, const HugeInt& x)]
    on a stream in its initial state: the characters written, which is
    also the value of [toDecimalString()].  The array [triples] is full
    before the loop can run [numTriples + 1] times. *)
Definition toDecimalString (x : HugeInt) : outcome string :=
  if eq_op x (HugeInt_ll 0) then Done "0"
  else
    let '(output, copy) :=
      if lt_op x (HugeInt_ll 0) then ("-", neg x) else ("", x) in
    '(triples, i) ←
      triples_loop (Datatypes.S numTriples) copy 0 (replicate numTriples 0%Z);
    let i := (i - 1)%Z in
    t ← get triples i;
    let output := output ++ decimal t in
    for_downto (i - 1) 0
      (fun j output =>
         t ← get triples j;
         Done (output ++ "," ++ decimal_w3 t))
      output.


(** [HugeInt HugeInt::getMinimum()] and [HugeInt HugeInt::getMaximum()]. *)
Definition getMinimum : HugeInt :=
  mkHugeInt (<[(numDigits_ - 1)%nat := u32 (base_ / 2)]> zero_digits).
Definition getMaximum : HugeInt :=
  sub (mkHugeInt (<[(numDigits_ - 1)%nat := u32 (base_ / 2)]> zero_digits))
      (HugeInt_ll 1).

(** *** Copying, compound assignment, increment and decrement *)

(** [HugeInt::HugeInt(const HugeInt& other)]: the digits of the new
    object, zero by their initialiser, are overwritten one by one. *)
Definition HugeInt_copy (other : HugeInt) : HugeInt :=
  mkHugeInt
    (for_up 0 numDigits_
       (fun i ds => <[i := digit (digits_ other) i]> ds) zero_digits).

(** [const HugeInt& HugeInt::operator=(const HugeInt& rhs)]: the object
    after the call, which is also what the returned reference denotes. *)
Definition assign (this rhs : HugeInt) : HugeInt :=
  mkHugeInt
    (for_up 0 numDigits_
       (fun i ds => <[i := digit (digits_ rhs) i]> ds) (digits_ this)).

(** [operator+=], [operator-=], [operator*=], [operator/=] and
    [operator%=]: the object after the call. *)
Definition add_assign (this increment : HugeInt) : HugeInt :=
  assign this (add this increment).
Definition sub_assign (this decrement : HugeInt) : HugeInt :=
  assign this (sub this decrement).
Definition mul_assign (this multiplier : HugeInt) : HugeInt :=
  assign this (mul this multiplier).
Definition div_assign (this divisor : HugeInt) : outcome HugeInt :=
  q ← div this divisor; Done (assign this q).
Definition rem_assign (this divisor : HugeInt) : outcome HugeInt :=
  r ← rem this divisor; Done (assign this r).

(** [HugeInt& HugeInt::operator++()] and [HugeInt& HugeInt::operator--()]:
    the object after the call. *)
Definition pre_increment (this : HugeInt) : HugeInt :=
  assign this (add this (HugeInt_ll 1)).
Definition pre_decrement (this : HugeInt) : HugeInt :=
  assign this (sub this (HugeInt_ll 1)).

(** [HugeInt HugeInt::operator++(int)] and [HugeInt HugeInt::operator--(int)]:
    the value returned and the object after the call. *)
Definition post_increment (this : HugeInt) : HugeInt * HugeInt :=
  let retval := HugeInt_copy this in
  let this := pre_increment this in
  (retval, this).
Definition post_decrement (this : HugeInt) : HugeInt * HugeInt :=
  let retval := HugeInt_copy this in
  let this := pre_decrement this in
  (retval, this).

(** *** The raw format *)

(** The loop [for ( ; istart >= 0 && digits_[istart] == 0; --istart);]
    entered with [istart = n - 1]: the value of [istart] when it stops. *)
Fixpoint raw_start (ds : list Z) (n : nat) : Z :=
  match n with
  | O => -1
  | Datatypes.S j => if digit ds j =? 0 then raw_start ds j else Z.of_nat j
  end.

(** Filling on the left, as [std::setw] and [std::setfill] ask. *)
Fixpoint fill (n : nat) (c : ascii) (s : string) : string :=
  match n with
  | O => s
  | Datatypes.S k => String c (fill k c s)
  end.

(** A [std::uint32_t] under [std::setw(10)] and [std::setfill('0')]. *)
Definition decimal_w10 (n : Z) : string :=
  let s := decimal n in fill (10 - String.length s) "0" s.

(** [std::string HugeInt::toRawString() const]. *)
Definition toRawString (x : HugeInt) : outcome string :=
  let istart := raw_start (digits_ x) numDigits_ in
  if istart =? -1 then
    d ← get (digits_ x) 0; Done (decimal d)
  else
    for_downto istart 0
      (fun i oss => d ← get (digits_ x) i; Done (oss ++ decimal_w10 d ++ " "))
      "".

(** ** The driver's functions ([main.cpp]) *)

(** [iota::HugeInt factorial_recursive(const iota::HugeInt& n)]; [fuel]
    bounds the depth of the recursion. *)
Fixpoint factorial_recursive (fuel : nat) (n : HugeInt) : outcome HugeInt :=
  match fuel with
  | O => OutOfFuel
  | Datatypes.S fuel' =>
      let one := HugeInt_ll 1 in
      if le_op n one then Done one
      else r ← factorial_recursive fuel' (sub n one); Done (mul n r)
  end.

(** The loop [for (iota::HugeInt i = n; i >= 1; --i) { result *= i; }]. *)
Fixpoint factorial_loop (fuel : nat) (i result : HugeInt) : outcome HugeInt :=
  match fuel with
  | O => OutOfFuel
  | Datatypes.S fuel' =>
      if ge_op i (HugeInt_ll 1) then
        let result := mul_assign result i in
        factorial_loop fuel' (pre_decrement i) result
      else Done result
  end.

(** [iota::HugeInt factorial_iterative(const iota::HugeInt& n)]. *)
Definition factorial_iterative (fuel : nat) (n : HugeInt) : outcome HugeInt :=
  let result := HugeInt_ll 1 in
  if eq_op n (HugeInt_ll 0) then Done result
  else factorial_loop fuel (HugeInt_copy n) result.

(** [iota::HugeInt fibonacci_recursive(const iota::HugeInt& n)]. *)
Fixpoint fibonacci_recursive (fuel : nat) (n : HugeInt) : outcome HugeInt :=
  match fuel with
  | O => OutOfFuel
  | Datatypes.S fuel' =>
      let zero := HugeInt_default in
      let one := HugeInt_ll 1 in
      if eq_op n zero || eq_op n one then Done n
      else
        a ← fibonacci_recursive fuel' (sub n (HugeInt_ll 1));
        b ← fibonacci_recursive fuel' (sub n (HugeInt_ll 2));
        Done (add a b)
  end.

(** The loop [for (iota::HugeInt i = 2; i <= n; ++i) { retval = fib_nm1
    + fib_nm2; fib_nm2 = fib_nm1; fib_nm1 = retval; }]. *)
Fixpoint fibonacci_loop (fuel : nat) (n i retval fib_nm1 fib_nm2 : HugeInt)
    : outcome HugeInt :=
  match fuel with
  | O => OutOfFuel
  | Datatypes.S fuel' =>
      if le_op i n then
        let retval := assign retval (add fib_nm1 fib_nm2) in
        let fib_nm2 := assign fib_nm2 fib_nm1 in
        let fib_nm1 := assign fib_nm1 retval in
        fibonacci_loop fuel' n (pre_increment i) retval fib_nm1 fib_nm2
      else Done retval
  end.

(** [iota::HugeInt fibonacci_iterative(const iota::HugeInt& n)]. *)
Definition fibonacci_iterative (fuel : nat) (n : HugeInt) : outcome HugeInt :=
  let zero := HugeInt_default in
  let one := HugeInt_ll 1 in
  if eq_op n zero || eq_op n one then Done n
  else
    fibonacci_loop fuel n (HugeInt_ll 2) HugeInt_default
      (HugeInt_copy one) (HugeInt_copy zero).

(** [const iota::HugeInt FACTORIAL_LIMIT{1100LL};] and
    [const iota::HugeInt FIBONACCI_LIMIT{13000LL};], the largest
    arguments the driver accepts. *)
Definition FACTORIAL_LIMIT : HugeInt := HugeInt_ll 1100.
Definition FIBONACCI_LIMIT : HugeInt := HugeInt_ll 13000.

(** * Verification *)

(** ** The value of a digit array *)

(** The unsigned value [sum (digit[i] * (2^32)^i)] of an array. *)
Fixpoint uval (ds : list Z) : Z :=
  match ds with
  | [] => 0
  | d :: rest => d + base_ * uval rest
  end.

(** The modulus [(2^32)^N] of the ring the class computes in. *)
Definition modulus : Z := base_ ^ Z.of_nat numDigits_.

(** The semantic value: arrays whose top digit is at least [2^31]
    denote [uval - (2^32)^N]. *)
Definition value (x : HugeInt) : Z :=
  if isNegative x then uval (digits_ x) - modulus else uval (digits_ x).

(** Reduction into the representable range
    [-(2^32)^N/2 .. (2^32)^N/2 - 1]. *)
Definition wrap (z : Z) : Z :=
  (z + modulus / 2) mod modulus - modulus / 2.

Definition digits_ok (ds : list Z) : Prop :=
  Forall (fun d => 0 <= d < base_) ds.

(** ** What a decimal string denotes *)

(** The characters of a C string: those before its first NUL. *)
Fixpoint c_chars (str : string) : list ascii :=
  match str with
  | EmptyString => []
  | String c rest => if is_nul c then [] else c :: c_chars rest
  end.

Definition digit_value (c : ascii) : Z := Z.of_N (N_of_ascii c) - 48.

(** The number a run of decimal digits denotes. *)
Definition decimal_value (cs : list ascii) : Z :=
  fold_left (fun acc c => 10 * acc + digit_value c) cs 0.

Definition is_sign (c : ascii) : bool :=
  Ascii.eqb c "+" || Ascii.eqb c "-".

(** The strings of the form [[+|-]?[0-9]+]. *)
Definition matches_decimal (cs : list ascii) : bool :=
  match cs with
  | [] => false
  | c :: rest =>
      if is_sign c
      then match rest with [] => false | _ => forallb isdigit rest end
      else forallb isdigit cs
  end.

(** The number such a string denotes. *)
Definition denoted (cs : list ascii) : Z :=
  match cs with
  | [] => 0
  | c :: rest =>
      if Ascii.eqb c "-" then - decimal_value rest
      else if Ascii.eqb c "+" then decimal_value rest
      else decimal_value cs
  end.

(** The strings that are empty or hold, after an optional leading sign,
    a character that is not a digit (a sign elsewhere is one). *)
Definition empty_or_stray (cs : list ascii) : bool :=
  match cs with
  | [] => true
  | c :: rest =>
      existsb (fun c => negb (isdigit c)) (if is_sign c then rest else cs)
  end.

(** A sign and nothing else. *)
Definition lone_sign (cs : list ascii) : bool :=
  match cs with
  | [c] => is_sign c
  | _ => false
  end.

(** Strictly positive: neither negative nor zero. *)
Definition strictly_positive (x : HugeInt) : bool :=
  negb (isNegative x) && negb (isZero x).

(** The values of magnitude below [(2^32)^N / 4]: the difference of two
    of them is representable. *)
Definition in_half_range (x : HugeInt) : bool :=
  valid x && (- (modulus / 4) <=? value x) && (value x <? modulus / 4).


(** ** Inputs used below *)

(** A dividend and a three-digit divisor whose second quotient digit is
    estimated as [base_ + 1]: the dividend is [(divisor - 1) * 2^32]. *)
Definition estimate_divisor : HugeInt :=
  mkHugeInt ([1; 4294967295; 2147483648] ++ replicate 297 0).
Definition estimate_dividend : HugeInt :=
  mkHugeInt ([0; 0; 4294967295; 2147483648] ++ replicate 296 0).

(** [(2^32)^(N-1)], a non-negative dividend that fills the array, and
    the two-digit divisor [2^32]. *)
Definition full_dividend : HugeInt :=
  mkHugeInt (replicate 299 0 ++ [1]).
Definition two_digit_divisor : HugeInt :=
  mkHugeInt ([0; 1] ++ replicate 298 0).

(** ** What a rendering denotes *)

(** The number a run of groups of three digits denotes, the most
    significant group first. *)
Definition thousands (ts : list Z) : Z :=
  fold_left (fun acc t => 1000 * acc + t) ts 0.

(** The groups after the first as the stream shows them: each behind a
    separator, filled to three digits. *)
Fixpoint separated (ts : list Z) : string :=
  match ts with
  | [] => ""
  | t :: rest => "," ++ decimal_w3 t ++ separated rest
  end.

(** A text with its separators taken out. *)
Fixpoint without_separators (s : string) : string :=
  match s with
  | EmptyString => EmptyString
  | String c rest =>
      if Ascii.eqb c "," then without_separators rest
      else String c (without_separators rest)
  end.

(** Digits as the raw format shows them, in the order given: ten
    decimal places and a blank each. *)
Fixpoint spaced (ds : list Z) : string :=
  match ds with
  | [] => ""
  | d :: rest => decimal_w10 d ++ " " ++ spaced rest
  end.

(** The factorial and the Fibonacci numbers. *)
Fixpoint factorial (n : nat) : Z :=
  match n with
  | O => 1
  | Datatypes.S k => Z.of_nat n * factorial k
  end.

Fixpoint fibonacci (n : nat) : Z :=
  match n with
  | O => 0
  | Datatypes.S m =>
      match m with
      | O => 1
      | Datatypes.S k => fibonacci m + fibonacci k
      end
  end.

(** An upper bound [m * 2^e] of the factorial, as the pair [(m, e)]
    with a mantissa [m] of some 64 bits: the mantissa is multiplied by
    the next factor and, when it has grown beyond 64 bits, rounded up
    to a multiple of [2^11] and shortened by 11 bits. *)
Definition bound_step (k : Z) (me : Z * Z) : Z * Z :=
  let '(m, e) := me in
  let p := k * m in
  if p <? 2 ^ 64 then (p, e) else (p / 2 ^ 11 + 1, e + 11).

Fixpoint factorial_bound (n : nat) : Z * Z :=
  match n with
  | O => (1, 0)
  | Datatypes.S k => bound_step (Z.of_nat n) (factorial_bound k)
  end.

(** ** The digits of the long division *)

(** What [shift_digits_left] leaves in digit [i]. *)
Definition shifted_left (ds : list Z) (s : Z) (i : nat) : Z :=
  (digit ds i * 2 ^ s) mod base_
  + match i with O => 0 | S j => digit ds j / 2 ^ (32 - s) end.

(** What the loop that takes the normalisation back leaves in digit
    [i] of the [n] digits of the remainder. *)
Definition shifted_right (ds : list Z) (s : Z) (n i : nat) : Z :=
  if (S i =? n)%nat then digit ds i / 2 ^ s
  else digit ds i / 2 ^ s + digit ds (S i) mod 2 ^ s * 2 ^ (32 - s).

Lemma base_eq : base_ = 4294967296.
Proof. reflexivity. Qed.

Lemma base_pow_pos n : 0 < base_ ^ Z.of_nat n.
Proof. apply Z.pow_pos_nonneg; [rewrite base_eq|]; lia. Qed.

Lemma base_pow_S n : base_ ^ Z.of_nat (S n) = base_ * base_ ^ Z.of_nat n.
Proof. rewrite Nat2Z.inj_succ, Z.pow_succ_r by lia. reflexivity. Qed.

Lemma modulus_pos : 0 < modulus.
Proof. apply base_pow_pos. Qed.

Lemma modulus_half : modulus = 2 * (modulus / 2).
Proof.
  unfold modulus. change numDigits_ with (S 299). rewrite base_pow_S.
  rewrite base_eq. generalize (4294967296 ^ Z.of_nat 299). intros z.
  replace (4294967296 * z) with ((2147483648 * z) * 2) by ring.
  rewrite Z.div_mul by lia. ring.
Qed.

Lemma valid_digits_ok ds : valid_digits ds = true <-> digits_ok ds.
Proof.
  unfold valid_digits, digits_ok. rewrite forallb_forall, Forall_forall.
  split; intros H d Hd.
  - apply list_elem_of_In, H in Hd. lia.
  - apply list_elem_of_In, H in Hd. lia.
Qed.

Lemma wf_spec x :
  wf x <-> length (digits_ x) = numDigits_ /\ digits_ok (digits_ x).
Proof.
  unfold wf, valid. rewrite andb_true_iff, Nat.eqb_eq, valid_digits_ok.
  reflexivity.
Qed.

Lemma digits_ok_lookup ds i d : digits_ok ds -> ds !! i = Some d -> 0 <= d < base_.
Proof. intros H Hd. exact (proj1 (Forall_lookup _ ds) H i d Hd). Qed.

Lemma digit_lookup ds i : (i < length ds)%nat -> ds !! i = Some (digit ds i).
Proof.
  intros H. unfold digit. destruct (lookup_lt_is_Some_2 ds i H) as [d ->].
  reflexivity.
Qed.

Lemma digit_range ds i : digits_ok ds -> 0 <= digit ds i < base_.
Proof.
  intros H. unfold digit. destruct (ds !! i) as [d|] eqn:E; simpl.
  - eapply digits_ok_lookup; eauto.
  - rewrite base_eq. lia.
Qed.

Lemma digits_ok_insert ds i v :
  digits_ok ds -> 0 <= v < base_ -> digits_ok (<[i := v]> ds).
Proof. intros H Hv. apply Forall_insert; assumption. Qed.

Lemma digits_ok_replicate n : digits_ok (replicate n 0).
Proof. apply Forall_replicate. rewrite base_eq. lia. Qed.

Lemma uval_app a b :
  uval (a ++ b) = uval a + base_ ^ Z.of_nat (length a) * uval b.
Proof.
  induction a as [|d a IH]; [simpl; lia|].
  change (length (d :: a)) with (S (length a)). rewrite base_pow_S.
  simpl. rewrite IH. ring.
Qed.

Lemma uval_bound ds :
  digits_ok ds -> 0 <= uval ds < base_ ^ Z.of_nat (length ds).
Proof.
  induction 1 as [|d ds Hd _ IH]; [simpl; lia|].
  change (length (d :: ds)) with (S (length ds)). rewrite base_pow_S.
  simpl. rewrite base_eq in *. nia.
Qed.

Lemma uval_replicate n : uval (replicate n 0) = 0.
Proof. induction n as [|n IH]; simpl; [|rewrite IH]; lia. Qed.

Lemma uval_inj a b :
  length a = length b -> digits_ok a -> digits_ok b ->
  uval a = uval b -> a = b.
Proof.
  revert b. induction a as [|x a IH]; intros [|y b] Hl Ha Hb Hv;
    try discriminate; [reflexivity|].
  inversion Ha as [|? ? Hx Ha']; inversion Hb as [|? ? Hy Hb']; subst.
  simpl in Hv. rewrite base_eq in *.
  assert (x = y) by lia. subst y.
  f_equal. apply IH; auto. lia.
Qed.

Lemma uval_take_S ds i d :
  ds !! i = Some d ->
  uval (take (S i) ds) = uval (take i ds) + base_ ^ Z.of_nat i * d.
Proof.
  intros H. rewrite (take_S_r _ _ _ H), uval_app.
  rewrite length_take_le by (apply lookup_lt_Some in H; lia).
  simpl. ring.
Qed.

Lemma uval_drop ds i d :
  ds !! i = Some d -> uval (drop i ds) = d + base_ * uval (drop (S i) ds).
Proof. intros H. rewrite (drop_S _ _ _ H). reflexivity. Qed.

(** ** Loop invariants *)

Lemma for_up_ind {S : Type} (P : nat -> S -> Prop) body n :
  forall lo s,
    P lo s ->
    (forall i s, (lo <= i < lo + n)%nat -> P i s -> P (Datatypes.S i) (body i s)) ->
    P (lo + n)%nat (for_up lo n body s).
Proof.
  induction n as [|n IH]; intros lo s H0 Hstep; simpl.
  - rewrite Nat.add_0_r. exact H0.
  - replace (lo + Datatypes.S n)%nat with (Datatypes.S lo + n)%nat by lia.
    apply IH.
    + apply Hstep; [lia|assumption].
    + intros i s' Hi. apply Hstep. lia.
Qed.

Lemma for_down_ind {S : Type} (P : nat -> S -> Prop) body n :
  forall s,
    P n s ->
    (forall i s, (i < n)%nat -> P (Datatypes.S i) s -> P i (body i s)) ->
    P O (for_down n body s).
Proof.
  induction n as [|n IH]; intros s H0 Hstep; simpl; [exact H0|].
  apply IH.
  - apply Hstep; [lia|assumption].
  - intros i s' Hi. apply Hstep. lia.
Qed.

(** ** Machine arithmetic *)

Lemma u64_small z : 0 <= z < 18446744073709551616 -> u64 z = z.
Proof. intros H. unfold u64. apply Z.mod_small. exact H. Qed.

Lemma u32_range z : 0 <= u32 z < base_.
Proof. unfold u32. rewrite base_eq. apply Z.mod_pos_bound. lia. Qed.

Lemma split32 z : z = u32 z + base_ * Z.shiftr z 32.
Proof.
  unfold u32. rewrite Z.shiftr_div_pow2 by lia. rewrite base_eq.
  change (2 ^ 32) with 4294967296.
  pose proof (Z.div_mod z 4294967296). lia.
Qed.

Lemma shiftr32_range z hi :
  0 <= z < base_ * hi -> 0 <= Z.shiftr z 32 < hi.
Proof.
  intros H. rewrite Z.shiftr_div_pow2 by lia. change (2 ^ 32) with base_.
  split.
  - apply Z.div_pos; [lia|rewrite base_eq; lia].
  - apply Z.div_lt_upper_bound; [rewrite base_eq; lia|lia].
Qed.

(** ** Sum, complement and difference *)

(** One round of a carry chain: digit [i] receives the low half of the
    accumulator and the high half is carried on. *)
Lemma carry_step (ds : list Z) i acc pre (t : Z) hi :
  (i < length ds)%nat ->
  digits_ok ds ->
  0 <= acc < base_ * hi ->
  uval (take i ds) + base_ ^ Z.of_nat i * acc = pre + base_ ^ Z.of_nat i * t ->
  length (<[i := u32 acc]> ds) = length ds /\
  digits_ok (<[i := u32 acc]> ds) /\
  uval (take (S i) (<[i := u32 acc]> ds))
    + base_ ^ Z.of_nat (S i) * Z.shiftr acc 32 = pre + base_ ^ Z.of_nat i * t /\
  0 <= Z.shiftr acc 32 < hi.
Proof.
  intros Hi Hok Hacc Hinv.
  split; [apply length_insert|].
  split; [apply digits_ok_insert; [assumption|apply u32_range]|].
  split; [|apply shiftr32_range; assumption].
  rewrite (uval_take_S _ i (u32 acc)) by (apply list_lookup_insert_eq; exact Hi).
  rewrite take_insert_ge by lia. rewrite base_pow_S.
  pose proof (split32 acc) as Hs.
  rewrite <- Hinv. rewrite Hs at 3. ring.
Qed.

Lemma add_spec a b :
  wf a -> wf b ->
  wf (add a b) /\
  uval (digits_ (add a b)) = (uval (digits_ a) + uval (digits_ b)) mod modulus.
Proof.
  rewrite !wf_spec. intros [Hla Ha] [Hlb Hb]. unfold add.
  set (body := fun (i : nat) '(sum, partial) => _).
  pose (P := fun (i : nat) (s : list Z * Z) =>
    length (fst s) = numDigits_ /\ digits_ok (fst s) /\
    uval (take i (fst s)) + base_ ^ Z.of_nat i * snd s
      = uval (take i (digits_ a)) + uval (take i (digits_ b)) /\
    0 <= snd s < 2).
  assert (H : P (0 + numDigits_)%nat (for_up 0 numDigits_ body (zero_digits, 0))).
  { apply for_up_ind.
    - unfold P, zero_digits; cbn [fst snd]. rewrite length_replicate.
      split; [reflexivity|]. split; [apply digits_ok_replicate|].
      rewrite !take_0. cbn [uval]. lia.
    - intros i [sum partial] Hi (Hl & Hok & Hinv & Hp). unfold P, body; cbn [fst snd] in *.
      pose proof (digit_range (digits_ a) i Ha) as Hai.
      pose proof (digit_range (digits_ b) i Hb) as Hbi.
      rewrite base_eq in Hai, Hbi.
      rewrite (u64_small (digit _ i + digit _ i)) by lia.
      rewrite u64_small by lia.
      rewrite (uval_take_S (digits_ a) i (digit (digits_ a) i))
        by (apply digit_lookup; lia).
      rewrite (uval_take_S (digits_ b) i (digit (digits_ b) i))
        by (apply digit_lookup; lia).
      destruct (carry_step sum i (partial + (digit (digits_ a) i + digit (digits_ b) i))
                  (uval (take i (digits_ a)) + uval (take i (digits_ b)))
                  (digit (digits_ a) i + digit (digits_ b) i) 2)
        as (H1 & H2 & H3 & H4).
      { lia. }
      { assumption. }
      { rewrite base_eq. lia. }
      { rewrite <- Hinv. ring. }
      rewrite H1. repeat split; try assumption; try lia. }
  destruct (for_up 0 numDigits_ body (zero_digits, 0)) as [sum partial].
  destruct H as (Hl & Hok & Hinv & Hp). cbn [fst snd digits_ plus] in *.
  rewrite !take_ge in Hinv by lia.
  split; [cbn [digits_]; auto|].
  pose proof (uval_bound sum Hok) as Hbs. rewrite Hl in Hbs.
  fold modulus in Hbs, Hinv. rewrite <- Hinv.
  pose proof modulus_pos.
  replace (uval sum + modulus * partial) with (uval sum + partial * modulus) by ring.
  rewrite Z.mod_add by lia.
  symmetry. apply Z.mod_small. exact Hbs.
Qed.

Lemma numDigits_pos : (0 < numDigits_)%nat.
Proof. unfold numDigits_. lia. Qed.

Lemma uval_zero_iff ds :
  digits_ok ds -> (uval ds = 0 <-> forall j, (j < length ds)%nat -> digit ds j = 0).
Proof.
  induction 1 as [|d ds Hd Hds IH].
  - cbn [uval length]. split; [intros _ j Hj; lia|reflexivity].
  - pose proof (uval_bound ds Hds) as Hb. cbn [uval length].
    rewrite base_eq in *. split.
    + intros H0 [|j] Hj.
      * unfold digit; cbn. nia.
      * unfold digit; cbn. apply IH; [nia|lia].
    + intros Hz. pose proof (Hz O ltac:(lia)) as H0. unfold digit in H0; cbn in H0.
      assert (uval ds = 0) as ->; [|lia].
      apply IH. intros j Hj. apply (Hz (S j)). lia.
Qed.

Lemma trim_zero_iff ds n :
  trim ds n = O <-> forall j, (j < n)%nat -> digit ds j = 0.
Proof.
  induction n as [|n IH]; cbn [trim].
  - split; [intros _ j Hj; lia|reflexivity].
  - destruct (Z.eqb_spec (digit ds n) 0) as [E|E].
    + rewrite IH. split; intros H j Hj.
      * destruct (decide (j = n)) as [->|]; [assumption|apply H; lia].
      * apply H. lia.
    + split; [discriminate|]. intros H. exfalso. apply E, H. lia.
Qed.

Lemma isZero_spec x : wf x -> (isZero x = true <-> uval (digits_ x) = 0).
Proof.
  rewrite wf_spec. intros [Hl Hok]. unfold isZero.
  rewrite Nat.eqb_eq, trim_zero_iff, (uval_zero_iff _ Hok), Hl. reflexivity.
Qed.

Lemma uval_top ds :
  length ds = numDigits_ ->
  uval ds = uval (take (numDigits_ - 1) ds)
            + base_ ^ Z.of_nat (numDigits_ - 1) * digit ds (numDigits_ - 1).
Proof.
  intros Hl. pose proof numDigits_pos.
  rewrite <- (uval_take_S ds (numDigits_ - 1)) by (apply digit_lookup; lia).
  rewrite take_ge by lia. reflexivity.
Qed.

Lemma modulus_top : modulus = base_ * base_ ^ Z.of_nat (numDigits_ - 1).
Proof.
  unfold modulus. pose proof numDigits_pos.
  replace numDigits_ with (S (numDigits_ - 1)) at 1 by lia. apply base_pow_S.
Qed.

Lemma isNegative_spec x :
  wf x -> (isNegative x = true <-> modulus / 2 <= uval (digits_ x)).
Proof.
  rewrite wf_spec. intros [Hl Hok]. unfold isNegative.
  rewrite Z.leb_le, (uval_top _ Hl).
  assert (Hlow : digits_ok (take (numDigits_ - 1) (digits_ x))).
  { apply Forall_take. exact Hok. }
  apply uval_bound in Hlow. rewrite length_take_le in Hlow by lia.
  pose proof (digit_range (digits_ x) (numDigits_ - 1) Hok) as Htop.
  pose proof modulus_half as Hh. rewrite modulus_top in Hh at 1.
  revert Hlow Htop Hh. rewrite base_eq.
  generalize (uval (take (numDigits_ - 1) (digits_ x))).
  generalize (digit (digits_ x) (numDigits_ - 1)).
  generalize (modulus / 2).
  generalize (4294967296 ^ Z.of_nat (numDigits_ - 1)).
  intros P h t l Hlow Htop Hh.
  change (4294967296 / 2) with 2147483648.
  assert (h = 2147483648 * P) by lia. subst h. nia.
Qed.

Lemma uval_range x : wf x -> 0 <= uval (digits_ x) < modulus.
Proof.
  rewrite wf_spec. intros [Hl Hok]. pose proof (uval_bound _ Hok) as H.
  rewrite Hl in H. exact H.
Qed.

Lemma wf_eq x y : wf x -> wf y -> uval (digits_ x) = uval (digits_ y) -> x = y.
Proof.
  rewrite !wf_spec. intros [Hlx Hx] [Hly Hy] H.
  destruct x as [xs], y as [ys]; cbn [digits_] in *. f_equal.
  apply uval_inj; auto. congruence.
Qed.

Lemma radixComplement_spec x :
  wf x ->
  wf (radixComplement x) /\
  uval (digits_ (radixComplement x)) = (- uval (digits_ x)) mod modulus.
Proof.
  intros Hwf. pose proof (isZero_spec x Hwf) as Hz. pose proof modulus_pos.
  unfold radixComplement. destruct (isZero x); cbn [negb].
  { split; [assumption|]. rewrite (proj1 Hz eq_refl). reflexivity. }
  apply wf_spec in Hwf as [Hl Hok].
  set (body := fun (i : nat) '(ds, sum) => _).
  pose (P := fun (i : nat) (s : list Z * Z) =>
    length (fst s) = numDigits_ /\ digits_ok (fst s) /\
    drop i (fst s) = drop i (digits_ x) /\
    uval (take i (fst s)) + base_ ^ Z.of_nat i * snd s
      = base_ ^ Z.of_nat i - uval (take i (digits_ x)) /\
    0 <= snd s < 2).
  assert (HP : P (0 + numDigits_)%nat (for_up 0 numDigits_ body (digits_ x, 1))).
  { apply for_up_ind.
    - unfold P; cbn [fst snd]. rewrite !take_0. cbn [uval].
      change (Z.of_nat 0) with 0. rewrite Z.pow_0_r. repeat split; auto; lia.
    - intros i [ds sum] Hi (Hl' & Hok' & Hdrop & Hinv & Hs).
      unfold P, body; cbn [fst snd] in *.
      assert (Hdi : digit ds i = digit (digits_ x) i).
      { unfold digit. rewrite <- (Nat.add_0_r i).
        rewrite <- !lookup_drop, Hdrop. reflexivity. }
      pose proof (digit_range (digits_ x) i Hok) as Hxi.
      assert (Hacc : u64 (sum + u64 (u64 (base_ - 1) - digit ds i))
                     = sum + (base_ - 1 - digit (digits_ x) i)).
      { rewrite Hdi. rewrite base_eq in *.
        rewrite (u64_small (4294967296 - 1)) by lia.
        rewrite (u64_small (_ - digit _ i)) by lia.
        apply u64_small. lia. }
      rewrite Hacc.
      destruct (carry_step ds i (sum + (base_ - 1 - digit (digits_ x) i))
                  (base_ ^ Z.of_nat i - uval (take i (digits_ x)))
                  (base_ - 1 - digit (digits_ x) i) 2)
        as (H1 & H2 & H3 & H4).
      { lia. }
      { assumption. }
      { rewrite base_eq in *. lia. }
      { rewrite <- Hinv. ring. }
      rewrite H1. split; [assumption|]. split; [assumption|].
      split.
      { rewrite drop_insert_lt by lia.
        replace (S i) with (i + 1)%nat by lia.
        rewrite <- (drop_drop ds 1 i), <- (drop_drop (digits_ x) 1 i), Hdrop.
        reflexivity. }
      split; [|assumption].
      rewrite H3. rewrite (uval_take_S (digits_ x) i (digit (digits_ x) i))
        by (apply digit_lookup; lia).
      rewrite base_pow_S. ring. }
  destruct (for_up 0 numDigits_ body (digits_ x, 1)) as [ds sum].
  destruct HP as (Hl' & Hok' & _ & Hinv & Hs). cbn [fst snd digits_ plus] in *.
  rewrite !take_ge in Hinv by lia. fold modulus in Hinv.
  split; [apply wf_spec; cbn [digits_]; auto|].
  pose proof (uval_bound ds Hok') as Hb. rewrite Hl' in Hb. fold modulus in Hb.
  apply Z.mod_unique_pos with (q := sum - 1); [exact Hb|lia].
Qed.

Lemma neg_spec x :
  wf x -> wf (neg x) /\ uval (digits_ (neg x)) = (- uval (digits_ x)) mod modulus.
Proof. apply radixComplement_spec. Qed.

Lemma sub_spec a b :
  wf a -> wf b ->
  wf (sub a b) /\
  uval (digits_ (sub a b)) = (uval (digits_ a) - uval (digits_ b)) mod modulus.
Proof.
  intros Ha Hb. destruct (neg_spec b Hb) as [Hn Hv].
  destruct (add_spec a (neg b) Ha Hn) as [Hs Hu]. unfold sub.
  split; [assumption|]. rewrite Hu, Hv. pose proof modulus_pos.
  rewrite Zplus_mod_idemp_r. f_equal; lia.
Qed.

(** ** Signed values *)

Lemma wrap_range z : - (modulus / 2) <= wrap z < modulus / 2.
Proof.
  unfold wrap. pose proof modulus_pos. pose proof modulus_half.
  pose proof (Z.mod_pos_bound (z + modulus / 2) modulus). lia.
Qed.

Lemma wrap_small z : - (modulus / 2) <= z < modulus / 2 -> wrap z = z.
Proof.
  intros Hz. unfold wrap. pose proof modulus_half.
  rewrite Z.mod_small by lia. lia.
Qed.

Lemma wrap_mod z : wrap (z mod modulus) = wrap z.
Proof.
  unfold wrap. pose proof modulus_pos.
  rewrite Zplus_mod_idemp_l. reflexivity.
Qed.

Lemma wrap_shift z k : wrap (z + k * modulus) = wrap z.
Proof.
  unfold wrap. pose proof modulus_pos.
  replace (z + k * modulus + modulus / 2) with (z + modulus / 2 + k * modulus) by lia.
  rewrite Z.mod_add by lia. reflexivity.
Qed.

Lemma wrap_mod_modulus z : wrap z mod modulus = z mod modulus.
Proof.
  unfold wrap. pose proof modulus_pos.
  rewrite Zminus_mod_idemp_l. f_equal. lia.
Qed.

Lemma value_wrap x : wf x -> value x = wrap (uval (digits_ x)).
Proof.
  intros Hwf. pose proof (isNegative_spec x Hwf) as Hn.
  pose proof (uval_range x Hwf) as Hr. pose proof modulus_half.
  unfold value. destruct (isNegative x).
  - pose proof (proj1 Hn eq_refl).
    rewrite <- (wrap_shift (uval (digits_ x)) (-1)).
    rewrite wrap_small; lia.
  - assert (~ modulus / 2 <= uval (digits_ x)) by (intros ?%Hn; discriminate).
    rewrite wrap_small; lia.
Qed.

Lemma value_range x : wf x -> - (modulus / 2) <= value x < modulus / 2.
Proof. intros Hwf. rewrite (value_wrap x Hwf). apply wrap_range. Qed.

Lemma value_mod x : wf x -> value x mod modulus = uval (digits_ x).
Proof.
  intros Hwf. rewrite (value_wrap x Hwf), wrap_mod_modulus.
  apply Z.mod_small, uval_range, Hwf.
Qed.

Lemma value_inj x y : wf x -> wf y -> value x = value y -> x = y.
Proof.
  intros Hx Hy H. apply wf_eq; auto.
  rewrite <- (value_mod x Hx), <- (value_mod y Hy), H. reflexivity.
Qed.

Lemma isNegative_value x : wf x -> (isNegative x = true <-> value x < 0).
Proof.
  intros Hwf. pose proof (isNegative_spec x Hwf) as Hn.
  pose proof (uval_range x Hwf). pose proof modulus_half.
  unfold value. destruct (isNegative x).
  - split; [lia|reflexivity].
  - split; [discriminate|]. intros Hlt.
    assert (~ modulus / 2 <= uval (digits_ x)) by (intros ?%Hn; discriminate). lia.
Qed.

Lemma isZero_value x : wf x -> (isZero x = true <-> value x = 0).
Proof.
  intros Hwf. rewrite (isZero_spec x Hwf).
  pose proof (isNegative_spec x Hwf) as Hn.
  pose proof (uval_range x Hwf). pose proof modulus_half.
  unfold value. destruct (isNegative x); [|reflexivity].
  pose proof (proj1 Hn eq_refl). lia.
Qed.

Lemma add_value a b :
  wf a -> wf b -> value (add a b) = wrap (value a + value b).
Proof.
  intros Ha Hb. destruct (add_spec a b Ha Hb) as [Hs Hu].
  rewrite (value_wrap _ Hs), Hu, wrap_mod.
  rewrite <- (wrap_mod (value a + value b)), Zplus_mod.
  rewrite (value_mod a Ha), (value_mod b Hb), wrap_mod.
  reflexivity.
Qed.

Lemma neg_value x : wf x -> value (neg x) = wrap (- value x).
Proof.
  intros Hx. destruct (neg_spec x Hx) as [Hs Hu].
  rewrite (value_wrap _ Hs), Hu, wrap_mod.
  rewrite <- (wrap_mod (- value x)).
  rewrite <- (wrap_mod (- uval (digits_ x))). f_equal.
  rewrite <- (value_mod x Hx) at 1.
  pose proof modulus_pos.
  rewrite <- (Z.sub_0_l (value x mod modulus)), <- (Z.sub_0_l (value x)).
  rewrite Zminus_mod_idemp_r. reflexivity.
Qed.

Lemma sub_value a b :
  wf a -> wf b -> value (sub a b) = wrap (value a - value b).
Proof.
  intros Ha Hb. destruct (sub_spec a b Ha Hb) as [Hs Hu].
  rewrite (value_wrap _ Hs), Hu, wrap_mod.
  rewrite <- (wrap_mod (value a - value b)), Zminus_mod.
  rewrite (value_mod a Ha), (value_mod b Hb), wrap_mod.
  reflexivity.
Qed.

Lemma eq_op_uval a b :
  wf a -> wf b -> (eq_op a b = true <-> uval (digits_ a) = uval (digits_ b)).
Proof.
  intros Ha Hb. destruct (sub_spec b a Hb Ha) as [Hs Hu].
  unfold eq_op. rewrite (isZero_spec _ Hs), Hu.
  pose proof (uval_range a Ha). pose proof (uval_range b Hb).
  pose proof modulus_pos. split.
  - intros Hm. apply Z.mod_divide in Hm; [|lia]. destruct Hm as [k Hk].
    assert (k = 0) by nia. lia.
  - intros ->. rewrite Z.sub_diag. apply Z.mod_0_l. lia.
Qed.

Lemma eq_op_eq a b : wf a -> wf b -> (eq_op a b = true <-> a = b).
Proof.
  intros Ha Hb. rewrite (eq_op_uval a b Ha Hb). split.
  - apply wf_eq; assumption.
  - intros ->. reflexivity.
Qed.

Lemma lt_op_value a b :
  wf a -> wf b -> (lt_op a b = true <-> wrap (value a - value b) < 0).
Proof.
  intros Ha Hb. destruct (sub_spec a b Ha Hb) as [Hs _].
  unfold lt_op. rewrite (isNegative_value _ Hs), (sub_value a b Ha Hb).
  reflexivity.
Qed.

(** ** Short multiplication and division *)

Lemma shortMultiply_spec x m :
  wf x -> 0 <= m < base_ ->
  wf (shortMultiply x m) /\
  uval (digits_ (shortMultiply x m)) = (uval (digits_ x) * m) mod modulus.
Proof.
  rewrite !wf_spec. intros [Hl Hok] Hm. unfold shortMultiply.
  set (body := fun (i : nat) '(product, partial) => _).
  pose (P := fun (i : nat) (s : list Z * Z) =>
    length (fst s) = numDigits_ /\ digits_ok (fst s) /\
    uval (take i (fst s)) + base_ ^ Z.of_nat i * snd s
      = uval (take i (digits_ x)) * m /\
    0 <= snd s < base_).
  assert (H : P (0 + numDigits_)%nat (for_up 0 numDigits_ body (zero_digits, 0))).
  { apply for_up_ind.
    - unfold P, zero_digits; cbn [fst snd]. rewrite length_replicate.
      split; [reflexivity|]. split; [apply digits_ok_replicate|].
      rewrite !take_0. cbn [uval]. rewrite base_eq. lia.
    - intros i [product partial] Hi (Hl' & Hok' & Hinv & Hp).
      unfold P, body; cbn [fst snd] in *.
      pose proof (digit_range (digits_ x) i Hok) as Hxi.
      assert (Hacc : u64 (partial + u64 (digit (digits_ x) i * m))
                     = partial + digit (digits_ x) i * m
                     /\ 0 <= partial + digit (digits_ x) i * m < base_ * base_).
      { rewrite base_eq in *.
        rewrite (u64_small (digit _ i * m)) by nia.
        rewrite u64_small by nia. nia. }
      destruct Hacc as [-> Hacc].
      destruct (carry_step product i (partial + digit (digits_ x) i * m)
                  (uval (take i (digits_ x)) * m)
                  (digit (digits_ x) i * m) base_)
        as (H1 & H2 & H3 & H4).
      { lia. }
      { assumption. }
      { assumption. }
      { rewrite <- Hinv. ring. }
      rewrite H1, H3.
      rewrite (uval_take_S (digits_ x) i (digit (digits_ x) i))
        by (apply digit_lookup; lia).
      repeat split; try assumption; try lia. }
  destruct (for_up 0 numDigits_ body (zero_digits, 0)) as [product partial].
  destruct H as (Hl' & Hok' & Hinv & Hp). cbn [fst snd digits_ plus] in *.
  rewrite !take_ge in Hinv by lia.
  split; [auto|].
  pose proof (uval_bound product Hok') as Hbs. rewrite Hl' in Hbs.
  fold modulus in Hbs, Hinv. rewrite <- Hinv.
  pose proof modulus_pos.
  replace (uval product + modulus * partial)
    with (uval product + partial * modulus) by ring.
  rewrite Z.mod_add by lia.
  symmetry. apply Z.mod_small. exact Hbs.
Qed.

Lemma shortDivide_spec x d :
  wf x -> 0 < d < base_ ->
  wf (fst (shortDivide x d)) /\
  uval (digits_ (fst (shortDivide x d))) = uval (digits_ x) / d /\
  snd (shortDivide x d) = uval (digits_ x) mod d.
Proof.
  rewrite !wf_spec. intros [Hl Hok] Hd. unfold shortDivide.
  set (body := fun (i : nat) '(quotient, partial) => _).
  pose (P := fun (i : nat) (s : list Z * Z) =>
    length (fst s) = numDigits_ /\ digits_ok (fst s) /\
    uval (drop i (fst s)) = uval (drop i (digits_ x)) / d /\
    snd s = uval (drop i (digits_ x)) mod d).
  assert (H : P O (for_down numDigits_ body (zero_digits, 0))).
  { apply for_down_ind.
    - unfold P, zero_digits; cbn [fst snd]. rewrite length_replicate.
      split; [reflexivity|]. split; [apply digits_ok_replicate|].
      rewrite !drop_ge by (rewrite ?length_replicate; lia). cbn [uval].
      rewrite Z.div_0_l, Z.mod_0_l by lia. auto.
    - intros i [quotient partial] Hi (Hl' & Hok' & Hq & Hp).
      unfold P, body; cbn [fst snd] in *.
      pose proof (digit_range (digits_ x) i Hok) as Hxi.
      set (U := uval (drop (S i) (digits_ x))) in *.
      pose proof (Z.mod_pos_bound U d ltac:(lia)) as Hmod.
      assert (Hacc : u64 (u64 (base_ * partial) + digit (digits_ x) i)
                     = base_ * (U mod d) + digit (digits_ x) i
                     /\ 0 <= base_ * (U mod d) + digit (digits_ x) i < base_ * d).
      { subst partial. rewrite base_eq in *.
        rewrite (u64_small (4294967296 * _)) by nia.
        rewrite u64_small by nia. nia. }
      destruct Hacc as [-> Hacc].
      assert (Hx : uval (drop i (digits_ x))
                   = base_ * (U mod d) + digit (digits_ x) i + (base_ * (U / d)) * d).
      { rewrite (uval_drop (digits_ x) i (digit (digits_ x) i))
          by (apply digit_lookup; lia).
        fold U. pose proof (Z.div_mod U d ltac:(lia)). nia. }
      assert (Hqi : 0 <= (base_ * (U mod d) + digit (digits_ x) i) / d < base_).
      { split; [apply Z.div_pos; lia|].
        apply Z.div_lt_upper_bound; lia. }
      rewrite length_insert. split; [assumption|].
      split; [apply digits_ok_insert; [assumption|apply u32_range]|].
      rewrite Hx, Z.div_add, Z.mod_add by lia. split; [|reflexivity].
      rewrite (uval_drop _ i (u32 ((base_ * (U mod d) + digit (digits_ x) i) / d)))
        by (apply list_lookup_insert_eq; lia).
      rewrite drop_insert_lt by lia. rewrite Hq.
      unfold u32. change (2 ^ 32) with base_. rewrite Z.mod_small by assumption.
      ring. }
  destruct (for_down numDigits_ body (zero_digits, 0)) as [quotient partial].
  destruct H as (Hl' & Hok' & Hq & Hp). cbn [fst snd digits_] in *.
  rewrite !drop_0 in *.
  split; [auto|]. split; [assumption|].
  subst partial. unfold u32. change (2 ^ 32) with base_.
  apply Z.mod_small.
  pose proof (Z.mod_pos_bound (uval (digits_ x)) d ltac:(lia)). lia.
Qed.

(** ** Construction from a decimal string *)

Lemma strlen_c_chars str : strlen str = length (c_chars str).
Proof.
  induction str as [|c rest IH]; cbn [strlen c_chars]; [reflexivity|].
  destruct (is_nul c); cbn [length]; congruence.
Qed.

Lemma char_at_c_chars str j :
  (j < strlen str)%nat -> c_chars str !! j = Some (char_at str j).
Proof.
  revert j. induction str as [|c rest IH]; intros j; cbn [strlen c_chars].
  - lia.
  - destruct (is_nul c); [lia|]. destruct j as [|j]; intros Hj.
    + reflexivity.
    + cbn. unfold char_at in IH. cbn in IH. apply IH. lia.
Qed.

Lemma digits_only_c_chars str : digits_only str = forallb isdigit (c_chars str).
Proof.
  induction str as [|c rest IH]; cbn [digits_only c_chars]; [reflexivity|].
  destruct (is_nul c); [reflexivity|]. cbn [forallb].
  destruct (isdigit c); [exact IH|reflexivity].
Qed.

Lemma is_all_digits_c_chars str :
  is_all_digits str =
  match c_chars str with [] => false | cs => forallb isdigit cs end.
Proof.
  unfold is_all_digits. rewrite strlen_c_chars, digits_only_c_chars.
  destruct (c_chars str); reflexivity.
Qed.

Lemma isdigit_value c : isdigit c = true -> 0 <= digit_value c < 10.
Proof.
  unfold isdigit, digit_value. rewrite andb_true_iff, N.leb_le, N.leb_le. lia.
Qed.

Lemma decimal_value_acc cs acc :
  fold_left (fun acc c => 10 * acc + digit_value c) cs acc
  = acc * 10 ^ Z.of_nat (length cs) + decimal_value cs.
Proof.
  unfold decimal_value. revert acc.
  induction cs as [|c cs IH]; intros acc; cbn [fold_left length].
  - change (Z.of_nat 0) with 0. rewrite Z.pow_0_r. lia.
  - rewrite IH, (IH (10 * 0 + digit_value c)).
    rewrite Nat2Z.inj_succ, Z.pow_succ_r by lia. ring.
Qed.

Lemma decimal_value_cons c cs :
  decimal_value (c :: cs)
  = digit_value c * 10 ^ Z.of_nat (length cs) + decimal_value cs.
Proof.
  unfold decimal_value at 1. cbn [fold_left]. rewrite decimal_value_acc. ring.
Qed.

Lemma copy_loop src :
  length src = numDigits_ ->
  for_up 0 numDigits_ (fun i ds => <[i := digit src i]> ds) zero_digits = src.
Proof.
  intros Hl.
  pose (P := fun (i : nat) (ds : list Z) =>
    length ds = numDigits_ /\ take i ds = take i src).
  assert (H : P (0 + numDigits_)%nat
                (for_up 0 numDigits_ (fun i ds => <[i := digit src i]> ds)
                   zero_digits)).
  { apply for_up_ind.
    - unfold P, zero_digits. rewrite length_replicate, !take_0. auto.
    - intros i ds Hi [Hl' Ht]. unfold P. rewrite length_insert.
      split; [assumption|].
      rewrite (take_S_r _ i (digit src i)) by (apply list_lookup_insert_eq; lia).
      rewrite (take_S_r src i (digit src i)) by (apply digit_lookup; lia).
      rewrite take_insert_ge by lia. rewrite Ht. reflexivity. }
  destruct H as [Hl' Ht]. cbn [plus] in Ht.
  rewrite !take_ge in Ht by lia. exact Ht.
Qed.

Lemma wf_default : wf HugeInt_default.
Proof.
  apply wf_spec. cbn [HugeInt_default digits_]. unfold zero_digits.
  rewrite length_replicate. split; [reflexivity|apply digits_ok_replicate].
Qed.

Lemma uval_default : uval (digits_ HugeInt_default) = 0.
Proof. apply uval_replicate. Qed.

Lemma wf_one : wf (HugeInt_ll 1).
Proof. vm_compute. reflexivity. Qed.

Lemma uval_one : uval (digits_ (HugeInt_ll 1)) = 1.
Proof. vm_compute. reflexivity. Qed.

(** The accumulation loop of the string constructor over the digits
    [drop offset cs] of the string. *)
Lemma accumulate_spec str offset nd :
  strlen str = (offset + nd)%nat ->
  forallb isdigit (drop offset (c_chars str)) = true ->
  let r :=
    for_up 0 nd
      (fun i '(theNumber, powerOfTen) =>
         let digitValue :=
           u32 (Z.of_N (N_of_ascii (char_at str (strlen str - 1 - i))) - 48) in
         (add theNumber (shortMultiply powerOfTen digitValue),
          shortMultiply powerOfTen 10))
      (HugeInt_default, HugeInt_ll 1) in
  wf (fst r) /\
  uval (digits_ (fst r)) = decimal_value (drop offset (c_chars str)) mod modulus.
Proof.
  intros Hlen Hdig r. subst r.
  set (body := fun (i : nat) '(theNumber, powerOfTen) => _).
  pose (P := fun (i : nat) (s : HugeInt * HugeInt) =>
    wf (fst s) /\ wf (snd s) /\
    uval (digits_ (fst s))
      = decimal_value (drop (offset + nd - i) (c_chars str)) mod modulus /\
    uval (digits_ (snd s)) = 10 ^ Z.of_nat i mod modulus).
  pose proof modulus_pos as HM.
  assert (H : P (0 + nd)%nat (for_up 0 nd body (HugeInt_default, HugeInt_ll 1))).
  { apply for_up_ind.
    - unfold P; cbn [fst snd]. split; [apply wf_default|].
      split; [apply wf_one|]. rewrite uval_default, uval_one.
      rewrite Nat.sub_0_r, drop_ge by (rewrite <- strlen_c_chars; lia).
      change (Z.of_nat 0) with 0. rewrite Z.pow_0_r.
      cbn [decimal_value fold_left]. rewrite Z.mod_0_l by lia.
      split; [reflexivity|]. symmetry. apply Z.mod_small.
      pose proof modulus_half. unfold modulus in *.
      assert (1 < base_ ^ Z.of_nat numDigits_); [|lia].
      change numDigits_ with (S 299). rewrite base_pow_S.
      pose proof (base_pow_pos 299). rewrite base_eq in *. lia.
    - intros i [theNumber powerOfTen] Hi (Ht & Hp & Hvt & Hvp).
      unfold P, body; cbn [fst snd] in *.
      set (c := char_at str (strlen str - 1 - i)).
      assert (Hc : c_chars str !! (offset + nd - S i)%nat = Some c).
      { subst c. replace (offset + nd - S i)%nat with (strlen str - 1 - i)%nat by lia.
        apply char_at_c_chars. lia. }
      assert (Hcd : isdigit c = true).
      { rewrite forallb_forall in Hdig. apply Hdig.
        apply list_elem_of_In, list_elem_of_lookup.
        exists (nd - S i)%nat. rewrite lookup_drop, <- Hc. f_equal. lia. }
      pose proof (isdigit_value c Hcd) as Hv. fold (digit_value c).
      assert (Hu : u32 (digit_value c) = digit_value c).
      { unfold u32. apply Z.mod_small. lia. }
      rewrite Hu.
      destruct (shortMultiply_spec powerOfTen (digit_value c) Hp) as [Hw1 Hu1];
        [rewrite base_eq; lia|].
      destruct (shortMultiply_spec powerOfTen 10 Hp) as [Hw2 Hu2];
        [rewrite base_eq; lia|].
      destruct (add_spec theNumber _ Ht Hw1) as [Hw3 Hu3].
      split; [assumption|]. split; [assumption|]. split.
      + rewrite Hu3, Hu1, Hvt, Hvp.
        rewrite (drop_S _ c (offset + nd - S i)) by exact Hc.
        replace (S (offset + nd - S i)) with (offset + nd - i)%nat by lia.
        rewrite decimal_value_cons, length_drop, <- strlen_c_chars.
        replace (strlen str - (offset + nd - i))%nat with i by lia.
        rewrite Zmult_mod_idemp_l, <- Zplus_mod. f_equal. ring.
      + rewrite Hu2, Hvp, Zmult_mod_idemp_l. f_equal.
        rewrite Nat2Z.inj_succ, Z.pow_succ_r by lia. ring. }
  destruct (for_up 0 nd body (HugeInt_default, HugeInt_ll 1)) as [t p].
  destruct H as (Ht & _ & Hvt & _). cbn [fst snd plus] in *.
  split; [assumption|]. rewrite Hvt. do 2 f_equal. f_equal. lia.
Qed.

Lemma c_chars_advance k str :
  (k <= strlen str)%nat -> c_chars (advance k str) = drop k (c_chars str).
Proof.
  revert str. induction k as [|k IH]; intros str Hk.
  - destruct str; reflexivity.
  - destruct str as [|c rest]; cbn [strlen] in Hk; [lia|].
    cbn [advance c_chars]. destruct (is_nul c); [lia|].
    cbn [drop]. apply IH. lia.
Qed.

Lemma neg_mod_modulus z : (- (z mod modulus)) mod modulus = (- z) mod modulus.
Proof.
  pose proof modulus_pos.
  rewrite <- (Z.sub_0_l (z mod modulus)), <- (Z.sub_0_l z).
  apply Zminus_mod_idemp_r.
Qed.

Lemma mkHugeInt_digits x : mkHugeInt (digits_ x) = x.
Proof. destruct x; reflexivity. Qed.

Lemma HugeInt_str_spec str :
  if matches_decimal (c_chars str)
  then exists h, HugeInt_str str = Returned h /\ wf h /\
         uval (digits_ h) = denoted (c_chars str) mod modulus
  else exists what, HugeInt_str str = invalid_argument what.
Proof.
  pose proof (strlen_c_chars str) as Hlen.
  pose proof (char_at_c_chars str O) as Hc0.
  unfold HugeInt_str. cbv zeta.
  destruct (c_chars str) as [|c crest] eqn:Hcs.
  { cbn [length] in Hlen. rewrite Hlen. cbn. eauto. }
  cbn [length] in Hlen.
  destruct (Nat.eqb_spec (strlen str) 0) as [E|_]; [lia|].
  specialize (Hc0 ltac:(lia)). cbn in Hc0. injection Hc0 as <-.
  assert (Hfin : forall (flag : bool) offset nd,
    strlen str = (offset + nd)%nat ->
    forallb isdigit (drop offset (c :: crest)) = true ->
    exists h,
      (let '(theNumber, _) :=
         for_up 0 nd
           (fun i '(theNumber, powerOfTen) =>
              let digitValue :=
                u32 (Z.of_N (N_of_ascii (char_at str (strlen str - 1 - i))) - 48) in
              (add theNumber (shortMultiply powerOfTen digitValue),
               shortMultiply powerOfTen 10))
           (HugeInt_default, HugeInt_ll 1) in
       let theNumber :=
         if flag then radixComplement theNumber else theNumber in
       Returned
         (mkHugeInt
            (for_up 0 numDigits_
               (fun i ds => <[i := digit (digits_ theNumber) i]> ds)
               zero_digits))) = Returned h /\ wf h /\
      uval (digits_ h)
      = (if flag then - decimal_value (drop offset (c :: crest))
         else decimal_value (drop offset (c :: crest))) mod modulus).
  { intros flag offset nd Hl Hd. rewrite <- Hcs in Hd.
    pose proof (accumulate_spec str offset nd Hl Hd) as Hacc. cbv zeta in Hacc.
    rewrite Hcs in Hacc.
    destruct (for_up 0 nd _ (HugeInt_default, HugeInt_ll 1)) as [t p].
    cbn [fst] in Hacc. destruct Hacc as [Ht Hv].
    destruct flag.
    - destruct (radixComplement_spec t Ht) as [Hr Hu].
      exists (radixComplement t). cbv zeta.
      rewrite copy_loop by (apply wf_spec in Hr; tauto).
      rewrite mkHugeInt_digits. split; [reflexivity|]. split; [assumption|].
      rewrite Hu, Hv. apply neg_mod_modulus.
    - exists t. cbv zeta. rewrite copy_loop by (apply wf_spec in Ht; tauto).
      rewrite mkHugeInt_digits. auto. }
  cbn [matches_decimal denoted]. unfold is_sign.
  destruct (Ascii.eqb_spec c "+") as [Ep|Np].
  - rewrite Ep. cbn [Ascii.eqb Bool.eqb orb]. cbv beta iota.
    rewrite is_all_digits_c_chars, c_chars_advance, Hcs by lia.
      cbn [drop]; rewrite ?drop_0.
    destruct crest as [|c1 crest]; [cbn; eauto|].
    destruct (forallb isdigit (c1 :: crest)) eqn:Hd; cbn [negb]; [|eauto].
    refine (Hfin false 1%nat (strlen str - 1)%nat _ Hd); lia.
  - destruct (Ascii.eqb_spec c "-") as [Em|Nm].
    + rewrite Em. cbn [Ascii.eqb Bool.eqb orb]. cbv beta iota.
      rewrite is_all_digits_c_chars, c_chars_advance, Hcs by lia.
      cbn [drop]; rewrite ?drop_0.
      destruct crest as [|c1 crest]; [cbn; eauto|].
      destruct (forallb isdigit (c1 :: crest)) eqn:Hd; cbn [negb]; [|eauto].
      refine (Hfin true 1%nat (strlen str - 1)%nat _ Hd); lia.
    + cbn [orb]. cbv beta iota.
      rewrite is_all_digits_c_chars, c_chars_advance, Hcs by lia.
      cbn [drop]; rewrite ?drop_0.
      destruct (forallb isdigit (c :: crest)) eqn:Hd; cbn [negb]; [|eauto].
      refine (Hfin false 0%nat (strlen str) _ Hd); lia.
Qed.

(** ** Writing small values and reading them back *)

Lemma HugeInt_ll_0 : HugeInt_ll 0 = HugeInt_default.
Proof. reflexivity. Qed.

Lemma eq_op_default x :
  wf x -> eq_op x HugeInt_default = true <-> uval (digits_ x) = 0.
Proof.
  intros Hx. rewrite (eq_op_uval x _ Hx wf_default), uval_default. reflexivity.
Qed.

Lemma ne_op_default x :
  wf x -> ne_op x HugeInt_default = true <-> uval (digits_ x) <> 0.
Proof.
  intros Hx. unfold ne_op. rewrite negb_true_iff, <- not_true_iff_false.
  rewrite (eq_op_uval _ x wf_default Hx), uval_default. split; intros H E; auto.
Qed.

Lemma lt_op_default x :
  wf x -> lt_op x HugeInt_default = true <-> value x < 0.
Proof.
  intros Hx. rewrite (lt_op_value x _ Hx wf_default).
  assert (value HugeInt_default = 0) as ->.
  { apply isZero_value; [apply wf_default|].
    apply isZero_spec; [apply wf_default|apply uval_default]. }
  rewrite Z.sub_0_r, wrap_small by (apply value_range, Hx). reflexivity.
Qed.


(** The loop that collects the groups of three digits, for a value
    below 1000: one round. *)
Lemma triples_loop_S fuel copy i triples :
  triples_loop (S fuel) copy i triples
  = if ne_op copy (HugeInt_ll 0) then
      let '(copy, remainder) := shortDivide copy 1000 in
      triples ← set triples i remainder;
      triples_loop fuel copy (i + 1) triples
    else Done (triples, i).
Proof. reflexivity. Qed.



(** ** Long multiplication *)

Lemma shiftLeftDigits_digits x num :
  length (digits_ x) = numDigits_ -> (num <= numDigits_)%nat ->
  digits_ (shiftLeftDigits x num)
  = (replicate num 0 ++ take (numDigits_ - num) (digits_ x))%list.
Proof.
  intros Hl Hnum. unfold shiftLeftDigits.
  destruct (Nat.eqb_spec num 0) as [->|Hn].
  { rewrite Nat.sub_0_r, take_ge by lia. reflexivity. }
  cbn [digits_].
  pose (P := fun (i : nat) (ds : list Z) =>
    length ds = numDigits_ /\
    forall j, (j < numDigits_)%nat ->
      ds !! j = if decide (i + num <= j)%nat
                then digits_ x !! (j - num)%nat else digits_ x !! j).
  assert (H1 : P O (for_down (numDigits_ - num)
                      (fun i ds => <[(i + num)%nat := digit ds i]> ds) (digits_ x))).
  { apply for_down_ind.
    - split; [assumption|]. intros j Hj. case_decide; [lia|reflexivity].
    - intros i ds Hi [Hl' Hds]. split; [rewrite length_insert; assumption|].
      intros j HjN.
      assert (Hdi : digit ds i = digit (digits_ x) i).
      { unfold digit. rewrite Hds by lia. case_decide; [lia|reflexivity]. }
      destruct (decide (j = i + num)%nat) as [->|Hj].
      + rewrite list_lookup_insert_eq by lia. case_decide; [|lia].
        rewrite Hdi. replace (i + num - num)%nat with i by lia.
        symmetry. apply digit_lookup. lia.
      + rewrite list_lookup_insert_ne by lia. rewrite Hds by lia.
        repeat case_decide; try lia; reflexivity. }
  destruct H1 as [Hl1 Hds1].
  set (ds1 := for_down _ _ _) in *.
  pose (Q := fun (i : nat) (ds : list Z) =>
    length ds = numDigits_ /\
    forall j, ds !! j = if decide (j < i)%nat then Some 0 else ds1 !! j).
  assert (H2 : Q (0 + num)%nat (for_up 0 num (fun i ds => <[i := 0]> ds) ds1)).
  { apply for_up_ind.
    - split; [assumption|]. intros j. case_decide; [lia|reflexivity].
    - intros i ds Hi [Hl' Hds]. split; [rewrite length_insert; assumption|].
      intros j. destruct (decide (j = i)) as [->|Hj].
      + rewrite list_lookup_insert_eq by lia. case_decide; [reflexivity|lia].
      + rewrite list_lookup_insert_ne by lia. rewrite Hds.
        repeat case_decide; try lia; reflexivity. }
  destruct H2 as [Hl2 Hds2]. cbn [plus] in Hds2.
  apply list_eq. intros j. rewrite Hds2.
  destruct (decide (j < num)%nat) as [Hj|Hj].
  - rewrite lookup_app_l by (rewrite length_replicate; lia).
    symmetry. apply lookup_replicate. auto.
  - rewrite lookup_app_r by (rewrite length_replicate; lia).
    rewrite length_replicate.
    destruct (decide (j < numDigits_)%nat).
    + rewrite Hds1 by lia. case_decide; [|lia].
      rewrite lookup_take_lt by lia. reflexivity.
    + rewrite lookup_take_ge by lia. apply lookup_ge_None_2. lia.
Qed.

Lemma shiftLeftDigits_spec x num :
  wf x -> (num <= numDigits_)%nat ->
  wf (shiftLeftDigits x num) /\
  uval (digits_ (shiftLeftDigits x num))
  = (base_ ^ Z.of_nat num * uval (digits_ x)) mod modulus.
Proof.
  intros Hx Hnum. apply wf_spec in Hx as [Hl Hok].
  rewrite wf_spec, (shiftLeftDigits_digits x num Hl Hnum).
  assert (Hlow : digits_ok (take (numDigits_ - num) (digits_ x)))
    by (apply Forall_take; exact Hok).
  split; [split|].
  - rewrite length_app, length_replicate, length_take_le by lia. lia.
  - apply Forall_app. split; [apply digits_ok_replicate|exact Hlow].
  - rewrite uval_app, uval_replicate, length_replicate, Z.add_0_l.
    rewrite <- (take_drop (numDigits_ - num) (digits_ x)) at 2.
    rewrite uval_app, length_take_le by lia.
    apply uval_bound in Hlow. rewrite length_take_le in Hlow by lia.
    pose proof (base_pow_pos num) as Hp1.
    pose proof (base_pow_pos (numDigits_ - num)) as Hp2.
    assert (HM : modulus = base_ ^ Z.of_nat num * base_ ^ Z.of_nat (numDigits_ - num)).
    { unfold modulus. rewrite <- Z.pow_add_r by lia. f_equal. lia. }
    apply Z.mod_unique_pos
      with (q := uval (drop (numDigits_ - num) (digits_ x))).
    + rewrite HM. nia.
    + rewrite HM. ring.
Qed.

Lemma mul_spec a b :
  wf a -> wf b ->
  wf (mul a b) /\
  uval (digits_ (mul a b)) = (uval (digits_ a) * uval (digits_ b)) mod modulus.
Proof.
  intros Ha Hb. pose proof Hb as Hb'. apply wf_spec in Hb' as [Hlb Hokb].
  unfold mul. pose proof modulus_pos as HM.
  set (body := fun (i : nat) (product : HugeInt) => _).
  pose (P := fun (i : nat) (product : HugeInt) =>
    wf product /\
    uval (digits_ product)
    = (uval (digits_ a) * uval (take i (digits_ b))) mod modulus).
  assert (H : P (0 + numDigits_)%nat (for_up 0 numDigits_ body HugeInt_default)).
  { apply for_up_ind.
    - split; [apply wf_default|]. rewrite uval_default, take_0. cbn [uval].
      rewrite Z.mul_0_r, Z.mod_0_l by lia. reflexivity.
    - intros i product Hi [Hp Hu]. unfold P, body.
      pose proof (digit_range (digits_ b) i Hokb) as Hbi.
      destruct (shortMultiply_spec a (digit (digits_ b) i) Ha Hbi) as [Hs Hus].
      destruct (shiftLeftDigits_spec _ i Hs ltac:(lia)) as [Hsh Hush].
      destruct (add_spec product _ Hp Hsh) as [Hadd Huadd].
      split; [assumption|].
      rewrite Huadd, Hush, Hus, Hu.
      rewrite (uval_take_S (digits_ b) i (digit (digits_ b) i))
        by (apply digit_lookup; lia).
      rewrite Zmult_mod_idemp_r, <- Zplus_mod. f_equal. ring. }
  destruct H as [Hw Hu]. cbn [plus] in Hu. rewrite take_ge in Hu by lia.
  split; assumption.
Qed.

Lemma mul_value a b :
  wf a -> wf b -> value (mul a b) = wrap (value a * value b).
Proof.
  intros Ha Hb. destruct (mul_spec a b Ha Hb) as [Hs Hu].
  rewrite (value_wrap _ Hs), Hu, wrap_mod.
  rewrite <- (wrap_mod (value a * value b)), Zmult_mod.
  rewrite (value_mod a Ha), (value_mod b Hb), wrap_mod. reflexivity.
Qed.

(** ** Further facts used by the main results *)

Lemma modulus_quarter : modulus / 2 = 2 * (modulus / 4).
Proof.
  unfold modulus. change numDigits_ with (S 299). rewrite base_pow_S.
  rewrite base_eq. generalize (4294967296 ^ Z.of_nat 299). intros z.
  replace (4294967296 * z) with ((2147483648 * z) * 2) by ring.
  rewrite Z.div_mul by lia.
  replace (2147483648 * z * 2) with ((1073741824 * z) * 4) by ring.
  rewrite Z.div_mul by lia. ring.
Qed.

Lemma in_half_range_spec x :
  in_half_range x = true <->
  wf x /\ - (modulus / 4) <= value x < modulus / 4.
Proof.
  unfold in_half_range, wf. split.
  - intros H. apply andb_prop in H as [H H3]. apply andb_prop in H as [H1 H2].
    apply Z.leb_le in H2. apply Z.ltb_lt in H3. auto.
  - intros (H1 & H2 & H3). apply Z.leb_le in H2. apply Z.ltb_lt in H3.
    rewrite H1, H2, H3. reflexivity.
Qed.

Lemma strictly_positive_value x :
  wf x -> (strictly_positive x = true <-> 0 < value x).
Proof.
  intros Hx. unfold strictly_positive.
  rewrite andb_true_iff, !negb_true_iff, <- !not_true_iff_false.
  rewrite (isNegative_value x Hx), (isZero_value x Hx). lia.
Qed.

Lemma lt_op_small_difference a b :
  wf a -> wf b -> - (modulus / 2) < value a - value b < modulus / 2 ->
  (lt_op a b = true <-> value a < value b) /\
  (lt_op a b = true <-> strictly_positive (sub b a) = true).
Proof.
  intros Ha Hb Hd. destruct (sub_spec b a Hb Ha) as [Hs _].
  rewrite (strictly_positive_value _ Hs), (sub_value b a Hb Ha).
  rewrite (lt_op_value a b Ha Hb), !wrap_small by lia. lia.
Qed.

Lemma forallb_existsb {A} (f : A -> bool) l :
  forallb f l = negb (existsb (fun a => negb (f a)) l).
Proof.
  induction l as [|a l IH]; [reflexivity|]. cbn [forallb existsb].
  rewrite IH. destruct (f a); reflexivity.
Qed.

Lemma matches_decimal_rejected cs :
  matches_decimal cs = negb (empty_or_stray cs || lone_sign cs).
Proof.
  destruct cs as [|c rest]; [reflexivity|].
  cbn [matches_decimal empty_or_stray lone_sign].
  destruct (is_sign c) eqn:Hs.
  - destruct rest as [|c1 rest]; [reflexivity|].
    rewrite orb_false_r. apply forallb_existsb.
  - rewrite forallb_existsb. destruct rest; rewrite ?Hs, orb_false_r; reflexivity.
Qed.

(** ** Writing any value *)

Lemma isdigit_not_nul c : isdigit c = true -> is_nul c = false.
Proof.
  unfold isdigit, is_nul. rewrite andb_true_iff, N.leb_le, N.leb_le.
  intros [H1 H2]. apply N.eqb_neq. lia.
Qed.

Lemma isdigit_not_sign c : isdigit c = true -> is_sign c = false.
Proof.
  intros H. unfold is_sign.
  destruct (Ascii.eqb_spec c "+") as [->|_]; [discriminate H|].
  destruct (Ascii.eqb_spec c "-") as [->|_]; [discriminate H|]. reflexivity.
Qed.

Lemma decimal_char_isdigit n :
  isdigit (ascii_of_N (Z.to_N (48 + n mod 10))) = true.
Proof.
  pose proof (Z.mod_pos_bound n 10 ltac:(lia)) as Hm.
  assert (H : forallb (fun k => isdigit (ascii_of_N (Z.to_N (48 + Z.of_nat k))))
                (seq 0 10) = true) by (vm_compute; reflexivity).
  rewrite forallb_forall in H. rewrite <- (Z2Nat.id (n mod 10)) by lia.
  apply H, in_seq. lia.
Qed.



Lemma c_chars_app_digits s t :
  forallb isdigit (list_ascii_of_string s) = true ->
  c_chars (s ++ t) = (list_ascii_of_string s ++ c_chars t)%list.
Proof.
  induction s as [|c s IH]; cbn [list_ascii_of_string forallb]; [reflexivity|].
  rewrite andb_true_iff. intros [Hc Hs].
  change (String c s ++ t) with (String c (s ++ t)). cbn [c_chars].
  rewrite (isdigit_not_nul c Hc), (IH Hs). reflexivity.
Qed.



(** [2^9600 = (2^199)^48 * 2^48 <= (1000^20)^48 * 1000^5 = 1000^965]. *)
Lemma modulus_below_triples : modulus <= 1000 ^ 965.
Proof.
  assert (Hm : modulus = (2 ^ 199) ^ 48 * 2 ^ 48).
  { unfold modulus. change (Z.of_nat numDigits_) with 300. rewrite base_eq.
    change 4294967296 with (2 ^ 32).
    rewrite <- !Z.pow_mul_r, <- Z.pow_add_r by lia. reflexivity. }
  assert (Ht : 1000 ^ 965 = (1000 ^ 20) ^ 48 * 1000 ^ 5).
  { rewrite <- !Z.pow_mul_r, <- Z.pow_add_r by lia. reflexivity. }
  rewrite Hm, Ht. clear Hm Ht. apply Z.mul_le_mono_nonneg.
  - apply Z.pow_nonneg, Z.pow_nonneg. discriminate.
  - apply Z.pow_le_mono_l. split; [apply Z.pow_nonneg; discriminate|].
    apply Z.leb_le. reflexivity.
  - apply Z.pow_nonneg. discriminate.
  - apply Z.leb_le. reflexivity.
Qed.


Lemma string_app_assoc (a b c : string) : (a ++ b) ++ c = a ++ (b ++ c).
Proof.
  induction a as [|x a IH]; [reflexivity|].
  change ((String x a ++ b) ++ c) with (String x ((a ++ b) ++ c)).
  rewrite IH. reflexivity.
Qed.

Lemma string_app_nil_r (a : string) : a ++ "" = a.
Proof.
  induction a as [|x a IH]; [reflexivity|].
  change (String x a ++ "") with (String x (a ++ "")). rewrite IH. reflexivity.
Qed.

Lemma get_in_range ds j :
  0 <= j < Z.of_nat (length ds) -> get ds j = Done (digit ds (Z.to_nat j)).
Proof.
  intros Hj. unfold get. destruct (Z.ltb_spec j 0) as [|_]; [lia|].
  rewrite (digit_lookup ds (Z.to_nat j)) by lia. reflexivity.
Qed.


Lemma absolute_copy x :
  wf x ->
  exists copy,
    wf copy /\ uval (digits_ copy) = Z.abs (value x) /\
    (if lt_op x HugeInt_default then ("-", neg x) else ("", x))
    = ((if value x <? 0 then "-" else ""), copy).
Proof.
  intros Hx. pose proof (lt_op_default x Hx) as Hlt.
  pose proof modulus_half as Hh. pose proof (value_range x Hx) as Hr.
  pose proof modulus_pos as Hp.
  destruct (lt_op x HugeInt_default).
  - pose proof (proj1 Hlt eq_refl) as Hneg.
    destruct (Z.ltb_spec (value x) 0) as [_|]; [|lia].
    exists (neg x). destruct (neg_spec x Hx) as [Hn Hu].
    split; [assumption|]. split; [|reflexivity].
    rewrite Hu, <- (value_mod x Hx), neg_mod_modulus.
    rewrite Z.mod_small by lia. lia.
  - assert (~ value x < 0) by (intros ?%Hlt; discriminate).
    destruct (Z.ltb_spec (value x) 0) as [|_]; [lia|].
    exists x. split; [assumption|]. split; [|reflexivity].
    rewrite <- (value_mod x Hx), Z.mod_small by lia. lia.
Qed.



(** ** Unsigned division: the two short cases *)

Lemma trim_le ds n : (trim ds n <= n)%nat.
Proof.
  induction n as [|n IH]; cbn [trim]; [lia|].
  destruct (digit ds n =? 0); lia.
Qed.

Lemma trim_zero_above ds n j :
  (trim ds n <= j < n)%nat -> digit ds j = 0.
Proof.
  induction n as [|n IH]; cbn [trim]; [lia|].
  destruct (Z.eqb_spec (digit ds n) 0) as [E|E]; [|lia].
  intros Hj. destruct (decide (j = n)) as [->|]; [exact E|apply IH; lia].
Qed.

Lemma trim_top_nonzero ds n k : trim ds n = S k -> digit ds k <> 0.
Proof.
  induction n as [|n IH]; cbn [trim]; [discriminate|].
  destruct (Z.eqb_spec (digit ds n) 0) as [E|E]; [exact IH|].
  intros [= ->]. exact E.
Qed.

Lemma significant_trim ds n :
  (n <= length ds)%nat -> significant ds n = Done (Z.of_nat (trim ds n)).
Proof.
  induction n as [|n IH]; intros Hn; cbn [significant trim]; [reflexivity|].
  unfold get. destruct (Z.ltb_spec (Z.of_nat n) 0) as [|_]; [lia|].
  rewrite Nat2Z.id, (digit_lookup ds n) by lia. cbn [mbind outcome_bind].
  destruct (digit ds n =? 0); [apply IH; lia|reflexivity].
Qed.

Lemma uval_drop_zero ds m :
  (forall j, (m <= j < length ds)%nat -> digit ds j = 0) ->
  uval (drop m ds) = 0.
Proof.
  intros Hz. remember (length ds - m)%nat as k eqn:Hk.
  revert m Hz Hk. induction k as [|k IH]; intros m Hz Hk.
  - rewrite drop_ge by lia. reflexivity.
  - rewrite (uval_drop ds m (digit ds m)) by (apply digit_lookup; lia).
    rewrite (Hz m) by lia. rewrite IH; [lia| |lia].
    intros j Hj. apply Hz. lia.
Qed.

Lemma uval_take_significant ds m :
  (forall j, (m <= j < length ds)%nat -> digit ds j = 0) ->
  uval ds = uval (take m ds).
Proof.
  intros Hz. rewrite <- (take_drop m ds) at 1.
  rewrite uval_app, (uval_drop_zero ds m Hz). lia.
Qed.

Lemma uval_ge_top ds k :
  digits_ok ds -> (k < length ds)%nat ->
  base_ ^ Z.of_nat k * digit ds k <= uval ds.
Proof.
  intros Hok Hk. rewrite <- (take_drop k ds) at 2. rewrite uval_app.
  rewrite length_take_le by lia.
  rewrite (uval_drop ds k (digit ds k)) by (apply digit_lookup; lia).
  assert (H1 : digits_ok (take k ds)) by (apply Forall_take; exact Hok).
  assert (H2 : digits_ok (drop (S k) ds)) by (apply Forall_drop; exact Hok).
  apply uval_bound in H1, H2. pose proof (base_pow_pos k).
  rewrite base_eq in *. nia.
Qed.

(** The loop [for (int i = 0; i < m; ++i) remainder->digits_[i] =
    dividend.digits_[i];]. *)
Lemma copy_digits_loop src n :
  forall lo rd,
    (lo + n <= length src)%nat -> length rd = length src ->
    upto_ n (Z.of_nat lo) (fun i rd => d ← get src i; set rd i d) rd
    = Done (take lo rd ++ take n (drop lo src) ++ drop (lo + n) rd)%list.
Proof.
  induction n as [|n IH]; intros lo rd Hlo Hl; cbn [upto_].
  - rewrite Nat.add_0_r, take_0, app_nil_l, take_drop. reflexivity.
  - rewrite (get_in_range src (Z.of_nat lo)) by lia.
    cbn [mbind outcome_bind]. unfold set.
    destruct (Z.leb_spec 0 (Z.of_nat lo)) as [_|]; [|lia].
    destruct (Z.ltb_spec (Z.of_nat lo) (Z.of_nat (length rd))) as [_|]; [|lia].
    cbn [andb mbind outcome_bind]. rewrite Nat2Z.id.
    replace (Z.of_nat lo + 1) with (Z.of_nat (S lo)) by lia.
    rewrite IH by (rewrite ?length_insert; lia). f_equal.
    rewrite (take_S_r _ lo (digit src lo)) by (apply list_lookup_insert_eq; lia).
    rewrite take_insert_ge by lia.
    rewrite drop_insert_lt by lia.
    rewrite (drop_S src (digit src lo) lo) by (apply digit_lookup; lia).
    replace (lo + S n)%nat with (S lo + n)%nat by lia.
    cbn [take]. rewrite <- app_assoc. reflexivity.
Qed.

(** Case 1: fewer significant digits in the dividend than in the
    divisor.  The quotient is zero and the digits of the dividend are
    copied over the low digits of the caller's object. *)
Lemma unsigned_divide_case_1 a b remainder :
  wf a -> wf b ->
  (forall r0, remainder = Some r0 -> length (digits_ r0) = numDigits_) ->
  (trim (digits_ a) numDigits_ < trim (digits_ b) numDigits_)%nat ->
  unsigned_divide a b remainder
  = Done (HugeInt_default,
          match remainder with
          | Some r0 =>
              Some (mkHugeInt
                      (take (trim (digits_ a) numDigits_) (digits_ a)
                       ++ drop (trim (digits_ a) numDigits_) (digits_ r0)))
          | None => None
          end).
Proof.
  intros Ha Hb Hr Hmn. apply wf_spec in Ha as [Hla _]. apply wf_spec in Hb as [Hlb _].
  unfold unsigned_divide.
  rewrite !significant_trim by lia. cbn [mbind outcome_bind].
  destruct (Z.ltb_spec (Z.of_nat (trim (digits_ a) numDigits_))
              (Z.of_nat (trim (digits_ b) numDigits_))) as [_|]; [|lia].
  destruct remainder as [r0|]; [|reflexivity].
  specialize (Hr r0 eq_refl).
  unfold for_upto. rewrite Z.sub_0_r, Nat2Z.id.
  pose proof (trim_le (digits_ a) numDigits_).
  rewrite (copy_digits_loop (digits_ a) _ O) by lia.
  cbn [mbind outcome_bind]. rewrite take_0, drop_0. reflexivity.
Qed.

(** The loop of case 2, started with [c] digits still to divide. *)
Lemma short_division_loop dividend divisor d0
    (body : Z -> list Z * Z -> outcome (list Z * Z)) c :
  (forall i quotient partial,
     body i (quotient, partial)
     = (d ← get dividend i;
        let partial := u64 (u64 (base_ * partial) + d) in
        d0 ← get divisor 0;
        q ← divide partial d0;
        quotient ← set quotient i (u32 q);
        d0 ← get divisor 0;
        partial ← modulo partial d0;
        Done (quotient, partial))) ->
  get divisor 0 = Done d0 ->
  0 < d0 < base_ ->
  digits_ok dividend ->
  forall quotient partial,
    digits_ok quotient ->
    length quotient = length dividend -> (c <= length dividend)%nat ->
    uval (drop c quotient) = uval (drop c dividend) / d0 ->
    partial = uval (drop c dividend) mod d0 ->
    exists q p,
      downto_ c (Z.of_nat c - 1) body (quotient, partial) = Done (q, p) /\
      length q = length dividend /\ digits_ok q /\
      uval q = uval dividend / d0 /\ p = uval dividend mod d0.
Proof.
  intros Hbody Hd0 Hd Hok.
  induction c as [|c IH];
    intros quotient partial Hokq Hl Hc Hq Hp; cbn [downto_].
  { rewrite !drop_0 in *. eauto 10. }
  replace (Z.of_nat (S c) - 1) with (Z.of_nat c) by lia.
  rewrite Hbody.
  rewrite (get_in_range dividend (Z.of_nat c)) by lia.
  cbn [mbind outcome_bind]. rewrite Hd0. cbn [mbind outcome_bind].
  unfold divide, modulo.
  destruct (Z.eqb_spec d0 0) as [|_]; [lia|]. cbn [mbind outcome_bind].
  rewrite Nat2Z.id.
  pose proof (digit_range dividend c Hok) as Hxi.
  set (U := uval (drop (S c) dividend)) in *.
  pose proof (Z.mod_pos_bound U d0 ltac:(lia)) as Hmod.
  assert (Hacc : u64 (u64 (base_ * partial) + digit dividend c)
                 = base_ * (U mod d0) + digit dividend c
                 /\ 0 <= base_ * (U mod d0) + digit dividend c < base_ * d0).
  { subst partial. rewrite base_eq in *.
    rewrite (u64_small (4294967296 * _)) by nia.
    rewrite u64_small by nia. nia. }
  destruct Hacc as [-> Hacc].
  assert (Hx : uval (drop c dividend)
               = base_ * (U mod d0) + digit dividend c + (base_ * (U / d0)) * d0).
  { rewrite (uval_drop dividend c (digit dividend c))
      by (apply digit_lookup; lia).
    fold U. pose proof (Z.div_mod U d0 ltac:(lia)). nia. }
  assert (Hqi : 0 <= (base_ * (U mod d0) + digit dividend c) / d0 < base_).
  { split; [apply Z.div_pos; lia|].
    apply Z.div_lt_upper_bound; lia. }
  unfold set.
  destruct (Z.leb_spec 0 (Z.of_nat c)) as [_|]; [|lia].
  destruct (Z.ltb_spec (Z.of_nat c) (Z.of_nat (length quotient))) as [_|]; [|lia].
  cbn [andb mbind outcome_bind]. rewrite Nat2Z.id.
  apply IH.
  - apply digits_ok_insert; [assumption|apply u32_range].
  - rewrite length_insert. assumption.
  - lia.
  - rewrite Hx, Z.div_add by lia.
    rewrite (uval_drop _ c (u32 ((base_ * (U mod d0) + digit dividend c) / d0)))
      by (apply list_lookup_insert_eq; lia).
    rewrite drop_insert_lt by lia. rewrite Hq.
    unfold u32. change (2 ^ 32) with base_. rewrite Z.mod_small by assumption.
    ring.
  - rewrite Hx, Z.mod_add by lia. reflexivity.
Qed.

Lemma uval_insert_0_zero v :
  uval (<[O := v]> zero_digits) = v.
Proof.
  unfold zero_digits. pose proof numDigits_pos.
  replace numDigits_ with (S (numDigits_ - 1)) by lia.
  change (replicate (S (numDigits_ - 1)) 0)
    with (0 :: replicate (numDigits_ - 1) 0).
  change (<[O := v]> (0 :: replicate (numDigits_ - 1) 0))
    with (v :: replicate (numDigits_ - 1) 0).
  cbn [uval]. rewrite uval_replicate. lia.
Qed.

(** Case 2: a divisor of one digit.  The quotient is that of the
    division by the digit, and the remainder is stored in digit 0 of
    the caller's object. *)
Lemma unsigned_divide_case_2 a b remainder :
  wf a -> wf b ->
  (forall r0, remainder = Some r0 -> length (digits_ r0) = numDigits_) ->
  trim (digits_ b) numDigits_ = 1%nat ->
  (1 <= trim (digits_ a) numDigits_)%nat ->
  exists q,
    unsigned_divide a b remainder
    = Done (q,
            match remainder with
            | Some r0 =>
                Some (mkHugeInt
                        (<[O := uval (digits_ a) mod uval (digits_ b)]>
                           (digits_ r0)))
            | None => None
            end) /\
    wf q /\
    uval (digits_ b) = digit (digits_ b) 0 /\ 0 < uval (digits_ b) < base_ /\
    uval (digits_ q) = uval (digits_ a) / uval (digits_ b).
Proof.
  intros Ha Hb Hrem Hn Hm.
  apply wf_spec in Ha as [Hla Hoka]. apply wf_spec in Hb as [Hlb Hokb].
  pose proof numDigits_pos as HN.
  pose proof (trim_le (digits_ a) numDigits_) as Hmle.
  set (d0 := digit (digits_ b) 0).
  assert (Hd0 : 0 < d0 < base_).
  { pose proof (digit_range (digits_ b) 0 Hokb).
    pose proof (trim_top_nonzero _ _ _ Hn). subst d0. lia. }
  assert (Hub : uval (digits_ b) = d0).
  { rewrite (uval_take_significant (digits_ b) 1).
    - rewrite (take_S_r _ 0 d0) by (apply digit_lookup; lia).
      rewrite take_0. cbn [app uval]. lia.
    - intros j Hj. apply (trim_zero_above _ numDigits_). lia. }
  unfold unsigned_divide.
  rewrite !significant_trim by lia. cbn [mbind outcome_bind]. rewrite Hn.
  destruct (Z.ltb_spec (Z.of_nat (trim (digits_ a) numDigits_)) (Z.of_nat 1))
    as [|_]; [lia|].
  change (Z.of_nat 1 <? 2) with true. cbv iota.
  unfold for_downto.
  replace (Z.to_nat (Z.of_nat (trim (digits_ a) numDigits_) - 1 - 0 + 1))
    with (trim (digits_ a) numDigits_) by lia.
  edestruct (short_division_loop (digits_ a) (digits_ b) d0)
    as (q & p & -> & Hlq & Hokq & Huq & Hp).
  - intros i quotient partial. reflexivity.
  - rewrite (get_in_range (digits_ b) 0) by lia. reflexivity.
  - exact Hd0.
  - exact Hoka.
  - apply digits_ok_replicate.
  - unfold zero_digits. rewrite length_replicate. lia.
  - lia.
  - unfold zero_digits. rewrite drop_replicate, uval_replicate.
    rewrite uval_drop_zero, Z.div_0_l by
      (try lia; intros j Hj; apply (trim_zero_above _ numDigits_); lia).
    reflexivity.
  - rewrite uval_drop_zero, Z.mod_0_l by
      (try lia; intros j Hj; apply (trim_zero_above _ numDigits_); lia).
    reflexivity.
  - cbn [mbind outcome_bind]. exists (mkHugeInt q).
    assert (Hq : wf (mkHugeInt q)).
    { apply wf_spec; cbn [digits_]; split; [lia|assumption]. }
    cbn [digits_]. rewrite Hub.
    split; [|split; [exact Hq|split; [reflexivity|split; assumption]]].
    destruct remainder as [r0|]; [|reflexivity].
    specialize (Hrem r0 eq_refl). unfold set. rewrite Hrem.
    destruct (Z.ltb_spec 0 (Z.of_nat numDigits_)) as [_|]; [|lia].
    cbn [Z.leb Z.compare andb mbind outcome_bind Z.to_nat].
    pose proof (Z.mod_pos_bound (uval (digits_ a)) d0 ltac:(lia)) as Hmod.
    assert (Hu32 : u32 p = p).
    { unfold u32. change (2 ^ 32) with base_. apply Z.mod_small. lia. }
    rewrite Hu32, Hp. reflexivity.
Qed.

(** The two short cases together: for a positive divisor with one
    significant digit, or with more significant digits than the
    dividend, and a zero-initialised remainder object, the call returns
    [q] and [r] with [a = q * b + r] and [0 <= r < b]. *)
Lemma unsigned_divide_short_cases a b :
  wf a -> wf b -> 0 < uval (digits_ b) ->
  (trim (digits_ a) numDigits_ < trim (digits_ b) numDigits_)%nat \/
  (trim (digits_ b) numDigits_ < 2)%nat ->
  exists q r,
    unsigned_divide a b (Some HugeInt_default) = Done (q, Some r) /\
    wf q /\ wf r /\
    uval (digits_ a) = uval (digits_ q) * uval (digits_ b) + uval (digits_ r) /\
    0 <= uval (digits_ r) < uval (digits_ b).
Proof.
  intros Ha Hb Hpos Hcase.
  pose proof Ha as Ha'. pose proof Hb as Hb'.
  apply wf_spec in Ha' as [Hla Hoka]. apply wf_spec in Hb' as [Hlb Hokb].
  pose proof (trim_le (digits_ a) numDigits_) as Hmle.
  pose proof (trim_le (digits_ b) numDigits_) as Hnle.
  destruct (Nat.lt_ge_cases (trim (digits_ a) numDigits_)
              (trim (digits_ b) numDigits_)) as [Hlt|Hge].
  - exists HugeInt_default, a.
    rewrite (unsigned_divide_case_1 a b (Some HugeInt_default) Ha Hb)
      by (try exact Hlt; intros r0 [= <-];
          unfold HugeInt_default, zero_digits; cbn [digits_];
          apply length_replicate).
    assert (Hz : forall j, (trim (digits_ a) numDigits_ <= j < length (digits_ a))%nat ->
                           digit (digits_ a) j = 0).
    { intros j Hj. apply (trim_zero_above _ numDigits_). lia. }
    assert (Hr : mkHugeInt
                   (take (trim (digits_ a) numDigits_) (digits_ a)
                    ++ drop (trim (digits_ a) numDigits_) (digits_ HugeInt_default))
                 = a).
    { rewrite <- (mkHugeInt_digits a) at 4. f_equal.
      cbn [HugeInt_default digits_]. unfold zero_digits.
      set (m := trim (digits_ a) numDigits_) in *.
      apply list_eq. intros j.
      destruct (decide (j < m)%nat).
      - rewrite lookup_app_l by (rewrite length_take_le; lia).
        apply lookup_take_lt. lia.
      - rewrite lookup_app_r by (rewrite length_take_le; lia).
        rewrite length_take_le, lookup_drop by lia.
        replace (m + (j - m))%nat with j by lia.
        destruct (decide (j < numDigits_)%nat).
        + rewrite lookup_replicate_2 by lia.
          rewrite (digit_lookup (digits_ a)) by lia. f_equal. symmetry.
          apply Hz. lia.
        + rewrite (lookup_ge_None_2 (replicate numDigits_ 0) j)
            by (rewrite length_replicate; lia).
          symmetry. apply lookup_ge_None_2. lia. }
    rewrite Hr. split; [reflexivity|].
    split; [apply wf_default|]. split; [exact Ha|].
    rewrite uval_default. split; [lia|].
    split; [apply uval_range, Ha|].
    destruct (trim (digits_ b) numDigits_) as [|k] eqn:Hk; [lia|].
    pose proof (trim_top_nonzero _ _ _ Hk) as Htop.
    pose proof (digit_range (digits_ b) k Hokb) as Hrk.
    pose proof (uval_ge_top (digits_ b) k Hokb ltac:(lia)) as Hge.
    rewrite (uval_take_significant (digits_ a) _ Hz).
    assert (Hlow : digits_ok (take (trim (digits_ a) numDigits_) (digits_ a)))
      by (apply Forall_take; exact Hoka).
    apply uval_bound in Hlow. rewrite length_take_le in Hlow by lia.
    assert (base_ ^ Z.of_nat (trim (digits_ a) numDigits_) <= base_ ^ Z.of_nat k).
    { apply Z.pow_le_mono_r; [rewrite base_eq|]; lia. }
    pose proof (base_pow_pos k). nia.
  - destruct Hcase as [|Hn2]; [lia|].
    assert (Hn : trim (digits_ b) numDigits_ = 1%nat).
    { destruct (trim (digits_ b) numDigits_) as [|[|n]] eqn:E; [|reflexivity|lia].
      exfalso. rewrite (proj2 (uval_zero_iff _ Hokb)) in Hpos; [lia|].
      intros j Hj. apply trim_zero_iff with (n := numDigits_); [exact E|lia]. }
    destruct (unsigned_divide_case_2 a b (Some HugeInt_default) Ha Hb)
      as (q & Hd & Hq & _ & Hbr & Huq);
      [intros r0 [= <-]; unfold HugeInt_default, zero_digits; cbn [digits_];
       apply length_replicate|exact Hn|lia|].
    pose proof (Z.mod_pos_bound (uval (digits_ a)) (uval (digits_ b)) ltac:(lia))
      as Hmod.
    exists q, (mkHugeInt (<[O := uval (digits_ a) mod uval (digits_ b)]> zero_digits)).
    split; [exact Hd|]. split; [exact Hq|].
    split.
    { apply wf_spec; cbn [digits_]. rewrite length_insert.
      split; [apply length_replicate|].
      apply digits_ok_insert; [apply digits_ok_replicate|lia]. }
    cbn [digits_]. rewrite uval_insert_0_zero, Huq.
    pose proof (Z.div_mod (uval (digits_ a)) (uval (digits_ b)) ltac:(lia)).
    pose proof (Z.mod_pos_bound (uval (digits_ a)) (uval (digits_ b)) ltac:(lia)).
    split; [lia|lia].
Qed.

(** ** Signed division by a divisor of one digit *)

Lemma trim_single_digit ds :
  length ds = numDigits_ -> digits_ok ds -> 0 < uval ds < base_ ->
  trim ds numDigits_ = 1%nat.
Proof.
  intros Hl Hok Hu. pose proof numDigits_pos.
  destruct (trim ds numDigits_) as [|[|k]] eqn:E; [|reflexivity|].
  - exfalso. rewrite (proj2 (uval_zero_iff _ Hok)) in Hu; [lia|].
    intros j Hj. apply trim_zero_iff with (n := numDigits_); [exact E|lia].
  - exfalso. pose proof (trim_top_nonzero _ _ _ E) as Hnz.
    pose proof (trim_le ds numDigits_) as Hle.
    pose proof (digit_range ds (S k) Hok) as Hr.
    pose proof (uval_ge_top ds (S k) Hok ltac:(lia)) as Hge.
    rewrite base_pow_S in Hge. pose proof (base_pow_pos k).
    rewrite base_eq in *. nia.
Qed.

Lemma unsigned_divide_single_digit a b :
  wf a -> wf b -> 0 < uval (digits_ b) < base_ ->
  exists q r,
    unsigned_divide a b None = Done (q, None) /\
    unsigned_divide a b (Some HugeInt_default) = Done (q, Some r) /\
    wf q /\ wf r /\
    uval (digits_ q) = uval (digits_ a) / uval (digits_ b) /\
    uval (digits_ r) = uval (digits_ a) mod uval (digits_ b).
Proof.
  intros Ha Hb Hub.
  pose proof Ha as Ha'. pose proof Hb as Hb'.
  apply wf_spec in Ha' as [Hla Hoka]. apply wf_spec in Hb' as [Hlb Hokb].
  pose proof (trim_single_digit _ Hlb Hokb Hub) as Hn.
  assert (Hdef : forall r0, Some HugeInt_default = Some r0 ->
                            length (digits_ r0) = numDigits_).
  { intros r0 [= <-]. unfold HugeInt_default, zero_digits; cbn [digits_].
    apply length_replicate. }
  destruct (trim (digits_ a) numDigits_) as [|m] eqn:Hm.
  - assert (Hua : uval (digits_ a) = 0).
    { apply (uval_zero_iff _ Hoka). intros j Hj.
      apply trim_zero_iff with (n := numDigits_); [exact Hm|lia]. }
    exists HugeInt_default, HugeInt_default.
    rewrite (unsigned_divide_case_1 a b None Ha Hb) by (try discriminate; lia).
    rewrite (unsigned_divide_case_1 a b (Some HugeInt_default) Ha Hb Hdef) by lia.
    rewrite Hm, take_0, drop_0. cbn [app].
    split; [reflexivity|]. split; [reflexivity|].
    split; [apply wf_default|]. split; [apply wf_default|].
    rewrite uval_default, Hua, Z.div_0_l, Z.mod_0_l by lia. auto.
  - destruct (unsigned_divide_case_2 a b None Ha Hb) as (q & Hd & Hq & _ & _ & Huq);
      [discriminate|exact Hn|lia|].
    destruct (unsigned_divide_case_2 a b (Some HugeInt_default) Ha Hb Hdef Hn)
      as (q' & Hd' & Hq' & _ & _ & Huq'); [lia|].
    assert (q' = q) as -> by (apply wf_eq; [assumption|assumption|congruence]).
    pose proof (Z.mod_pos_bound (uval (digits_ a)) (uval (digits_ b)) ltac:(lia))
      as Hmod.
    exists q, (mkHugeInt (<[O := uval (digits_ a) mod uval (digits_ b)]> zero_digits)).
    split; [exact Hd|]. split; [exact Hd'|]. split; [exact Hq|].
    split.
    { apply wf_spec; cbn [digits_]. rewrite length_insert.
      split; [apply length_replicate|].
      apply digits_ok_insert; [apply digits_ok_replicate|lia]. }
    cbn [digits_]. rewrite uval_insert_0_zero. auto.
Qed.

Lemma magnitude_operand x :
  wf x ->
  wf (if lt_op x (HugeInt_ll 0) then neg x else x) /\
  uval (digits_ (if lt_op x (HugeInt_ll 0) then neg x else x)) = Z.abs (value x) /\
  (lt_op x (HugeInt_ll 0) = (value x <? 0)).
Proof.
  intros Hx. rewrite HugeInt_ll_0.
  destruct (absolute_copy x Hx) as (copy & Hc & Hu & Hpair).
  pose proof (lt_op_default x Hx) as Hlt.
  destruct (lt_op x HugeInt_default); injection Hpair as Hs <-.
  - split; [exact Hc|]. split; [exact Hu|].
    symmetry. apply Z.ltb_lt, Hlt. reflexivity.
  - split; [exact Hc|]. split; [exact Hu|].
    symmetry. apply Z.ltb_ge. destruct (Z.lt_ge_cases (value x) 0) as [H|H]; [|exact H].
    apply Hlt in H. discriminate H.
Qed.

Lemma truncated_division va vb :
  vb <> 0 ->
  Z.quot va vb
  = (if xorb (va <? 0) (vb <? 0)
     then - (Z.abs va / Z.abs vb) else Z.abs va / Z.abs vb) /\
  Z.rem va vb
  = (if va <? 0 then - (Z.abs va mod Z.abs vb) else Z.abs va mod Z.abs vb).
Proof.
  intros Hb.
  destruct (Z.ltb_spec va 0) as [Ha|Ha], (Z.ltb_spec vb 0) as [Hb'|Hb'];
    cbn [xorb].
  - rewrite <- (Z.opp_involutive va) at 1 3. rewrite <- (Z.opp_involutive vb) at 1 3.
    rewrite Z.quot_opp_opp, Z.rem_opp_opp by lia.
    rewrite Z.quot_div_nonneg, Z.rem_mod_nonneg by lia.
    rewrite !Z.abs_neq by lia. auto.
  - rewrite <- (Z.opp_involutive va) at 1 3.
    rewrite Z.quot_opp_l, Z.rem_opp_l by lia.
    rewrite Z.quot_div_nonneg, Z.rem_mod_nonneg by lia.
    rewrite (Z.abs_neq va), (Z.abs_eq vb) by lia. auto.
  - rewrite <- (Z.opp_involutive vb) at 1 3.
    rewrite Z.quot_opp_r, Z.rem_opp_r by lia.
    rewrite Z.quot_div_nonneg, Z.rem_mod_nonneg by lia.
    rewrite (Z.abs_eq va), (Z.abs_neq vb) by lia. auto.
  - rewrite Z.quot_div_nonneg, Z.rem_mod_nonneg by lia.
    rewrite !Z.abs_eq by lia. auto.
Qed.

Lemma wrap_add_l x y : wrap (wrap x + y) = wrap (x + y).
Proof.
  rewrite <- (wrap_mod (wrap x + y)), Zplus_mod, wrap_mod_modulus.
  rewrite <- Zplus_mod, wrap_mod. reflexivity.
Qed.

Lemma value_of_small x :
  wf x -> uval (digits_ x) < modulus / 2 -> value x = uval (digits_ x).
Proof.
  intros Hx Hu. rewrite (value_wrap x Hx). apply wrap_small.
  pose proof (uval_range x Hx). lia.
Qed.

(** Signed division by a divisor of one digit: [a / b] and [a % b] are
    the quotient and the remainder of the division truncated toward
    zero, and [(a / b) * b + (a % b) == a]. *)
Lemma div_rem_single_digit a b :
  wf a -> wf b ->
  - (modulus / 2) < value a -> 0 < Z.abs (value b) < base_ ->
  exists q r,
    div a b = Done q /\ rem a b = Done r /\ wf q /\ wf r /\
    value q = Z.quot (value a) (value b) /\
    value r = Z.rem (value a) (value b) /\
    eq_op (add (mul q b) r) a = true.
Proof.
  intros Ha Hb Hmin Hvb.
  pose proof modulus_half as Hh. pose proof (value_range a Ha) as Hra.
  pose proof modulus_top as Htop. pose proof (base_pow_pos (numDigits_ - 1)) as Hpp.
  assert (Hbig : base_ <= modulus / 2).
  { pose proof numDigits_pos.
    assert (base_ ^ Z.of_nat (numDigits_ - 1) = base_ * base_ ^ Z.of_nat (numDigits_ - 2)) as E.
    { replace (numDigits_ - 1)%nat with (S (numDigits_ - 2))
        by (unfold numDigits_; lia).
      apply base_pow_S. }
    pose proof (base_pow_pos (numDigits_ - 2)). rewrite base_eq in *. nia. }
  destruct (magnitude_operand a Ha) as (Haa & Hua & Hsa).
  destruct (magnitude_operand b Hb) as (Hbb & Hub & Hsb).
  set (a' := if lt_op a (HugeInt_ll 0) then neg a else a) in *.
  set (b' := if lt_op b (HugeInt_ll 0) then neg b else b) in *.
  destruct (unsigned_divide_single_digit a' b' Haa Hbb ltac:(lia))
    as (q0 & r0 & Hd1 & Hd2 & Hq0 & Hr0 & Huq & Hur).
  rewrite Hua, Hub in Huq, Hur.
  set (A := Z.abs (value a)) in *. set (Bv := Z.abs (value b)) in *.
  pose proof (Z.mod_pos_bound A Bv ltac:(lia)) as Hmod.
  assert (HqA : 0 <= A / Bv <= A).
  { split; [apply Z.div_pos; lia|].
    apply Z.div_le_upper_bound; [lia|]. nia. }
  assert (Hvq0 : value q0 = A / Bv).
  { rewrite (value_of_small q0 Hq0); lia. }
  assert (Hvr0 : value r0 = A mod Bv).
  { rewrite (value_of_small r0 Hr0); lia. }
  assert (Hnq : wf (neg q0) /\ value (neg q0) = - (A / Bv)).
  { destruct (neg_spec q0 Hq0) as [Hw _]. split; [exact Hw|].
    rewrite (neg_value q0 Hq0), Hvq0. apply wrap_small. lia. }
  assert (Hnr : wf (neg r0) /\ value (neg r0) = - (A mod Bv)).
  { destruct (neg_spec r0 Hr0) as [Hw _]. split; [exact Hw|].
    rewrite (neg_value r0 Hr0), Hvr0. apply wrap_small. lia. }
  destruct (truncated_division (value a) (value b) ltac:(lia)) as [Hquot Hrem].
  fold A Bv in Hquot, Hrem.
  assert (Hres : exists q r,
    div a b = Done q /\ rem a b = Done r /\ wf q /\ wf r /\
    value q = Z.quot (value a) (value b) /\
    value r = Z.rem (value a) (value b)).
  { unfold div, rem. subst a' b'. rewrite Hquot, Hrem.
    destruct (lt_op a (HugeInt_ll 0)), (lt_op b (HugeInt_ll 0));
      rewrite <- Hsa, <- Hsb; cbn [xorb];
      rewrite Hd1, Hd2; cbn [mbind outcome_bind default];
      [exists q0, (neg r0)|exists (neg q0), (neg r0)
      |exists (neg q0), r0|exists q0, r0]; tauto. }
  destruct Hres as (q & r & Hdq & Hdr & Hq & Hr & Hvq & Hvr).
  exists q, r. repeat (split; [assumption|]).
  destruct (mul_spec q b Hq Hb) as [Hm _].
  destruct (add_spec _ r Hm Hr) as [Hs _].
  apply (eq_op_eq _ _ Hs Ha), value_inj; [exact Hs|exact Ha|].
  rewrite (add_value _ _ Hm Hr), (mul_value q b Hq Hb), wrap_add_l.
  rewrite Hvq, Hvr. pose proof (Z.quot_rem' (value a) (value b)) as Hqr.
  transitivity (wrap (value a)); [f_equal; lia|apply wrap_small; lia].
Qed.

(** * Main results *)

(** C1.  Unsigned division does not always return the quotient and the
    remainder: on the non-negative dividend [estimate_dividend] and the
    positive three-digit divisor [estimate_divisor], with a
    zero-initialised remainder object, [unsigned_divide] returns
    quotient 0 and a remainder that is not below the divisor, so
    [a = q * b + r] and [r < b] both fail.  (The estimate [qhat] is
    [base_ + 1] there; only [qhat == base_] is corrected before the
    digit is truncated to 32 bits.  The cases [m < n] and [n = 1] are
    right, see [unsigned_divide_short_cases].) *)
Theorem unsigned_divide_estimate_defect :
  wf estimate_dividend /\ wf estimate_divisor /\
  0 <= value estimate_dividend /\ 0 < value estimate_divisor /\
  exists q r,
    unsigned_divide estimate_dividend estimate_divisor (Some HugeInt_default)
      = Done (q, Some r) /\
    uval (digits_ q) = 0 /\
    uval (digits_ estimate_dividend)
      <> uval (digits_ q) * uval (digits_ estimate_divisor) + uval (digits_ r) /\
    uval (digits_ estimate_divisor) <= uval (digits_ r).
Proof.
  split; [vm_compute; reflexivity|]. split; [vm_compute; reflexivity|].
  split; [vm_compute; discriminate|]. split; [vm_compute; reflexivity|].
  exists HugeInt_default,
    (mkHugeInt ([0; 0; 4294967295] ++ replicate 297 0)).
  split; [vm_compute; reflexivity|]. split; [vm_compute; reflexivity|].
  split; vm_compute; discriminate.
Qed.

(** C2.  The identity [(a / b) * b + (a % b) == a] fails for
    [estimate_dividend] and [estimate_divisor] (both far below the range
    limit): [a / b] is 0 instead of [2^32 - 1], and the reassembled
    value differs from [a].  (For divisors of one digit the identity and
    the signs are right, see [div_rem_single_digit].) *)
Theorem division_identity_defect :
  exists q r,
    div estimate_dividend estimate_divisor = Done q /\
    rem estimate_dividend estimate_divisor = Done r /\
    isZero q = true /\
    eq_op (add (mul q estimate_divisor) r) estimate_dividend = false /\
    value estimate_dividend
      <> value q * value estimate_divisor + value r.
Proof.
  exists HugeInt_default,
    (mkHugeInt ([0; 0; 4294967295] ++ replicate 297 0)).
  set (r := mkHugeInt _).
  assert (Ha : wf estimate_dividend) by (vm_compute; reflexivity).
  assert (Hb : wf estimate_divisor) by (vm_compute; reflexivity).
  assert (Hr : wf r) by (vm_compute; reflexivity).
  split; [vm_compute; reflexivity|]. split; [vm_compute; reflexivity|].
  split; [vm_compute; reflexivity|]. split.
  - destruct (mul_spec _ _ wf_default Hb) as [Hm Hum].
    destruct (add_spec _ _ Hm Hr) as [Hs Hus].
    apply not_true_iff_false. intros E.
    apply (eq_op_uval _ _ Hs Ha) in E. rewrite Hus, Hum in E.
    vm_compute in E. discriminate E.
  - vm_compute. discriminate.
Qed.

(** [estimate_dividend] and [estimate_divisor] are what the string
    constructor builds from their decimal notation. *)
Example estimate_operands_from_text :
  HugeInt_str "170141183539697394227504897235718504448"
  = Returned estimate_dividend /\
  HugeInt_str "39614081275578912866186559489" = Returned estimate_divisor.
Proof.
  split.
  - pose proof (HugeInt_str_spec "170141183539697394227504897235718504448") as H.
    assert (Hm : matches_decimal
                   (c_chars "170141183539697394227504897235718504448") = true)
      by (vm_compute; reflexivity).
    rewrite Hm in H. destruct H as (h & -> & Hwf & Hu). f_equal.
    apply wf_eq; [exact Hwf|vm_compute; reflexivity|].
    rewrite Hu. vm_compute. reflexivity.
  - pose proof (HugeInt_str_spec "39614081275578912866186559489") as H.
    assert (Hm : matches_decimal
                   (c_chars "39614081275578912866186559489") = true)
      by (vm_compute; reflexivity).
    rewrite Hm in H. destruct H as (h & -> & Hwf & Hu). f_equal.
    apply wf_eq; [exact Hwf|vm_compute; reflexivity|].
    rewrite Hu. vm_compute. reflexivity.
Qed.

(** Division by zero is not guarded: the routine divides by the zero
    digit. *)
Example div_by_zero :
  div (HugeInt_ll 5) (HugeInt_ll 0) = DivisionByZero /\
  rem (HugeInt_ll 5) (HugeInt_ll 0) = DivisionByZero.
Proof. split; vm_compute; reflexivity. Qed.

(** The scenarios of the specification: [100 / 7 = 14], [100 % 7 = 2],
    [-100 / 7 = -14] and [-100 % 7 = -2]. *)
Example div_rem_100_7 :
  div (HugeInt_ll 100) (HugeInt_ll 7) = Done (HugeInt_ll 14) /\
  rem (HugeInt_ll 100) (HugeInt_ll 7) = Done (HugeInt_ll 2) /\
  div (HugeInt_ll (-100)) (HugeInt_ll 7) = Done (HugeInt_ll (-14)) /\
  rem (HugeInt_ll (-100)) (HugeInt_ll 7) = Done (HugeInt_ll (-2)).
Proof. split; [|split; [|split]]; vm_compute; reflexivity. Qed.

(** A zero quotient carries no sign: [-1 / 7] is [0]. *)
Example div_minus_1_7 :
  div (HugeInt_ll (-1)) (HugeInt_ll 7) = Done (HugeInt_ll 0) /\
  rem (HugeInt_ll (-1)) (HugeInt_ll 7) = Done (HugeInt_ll (-1)).
Proof. split; vm_compute; reflexivity. Qed.




(** C4.  The sum of two objects is the sum of their values reduced
    modulo [(2^32)^N] into [-(2^32)^N/2 .. (2^32)^N/2 - 1]: the carry
    out of the top digit is dropped and every pair of operands gets a
    well-formed result. *)
Theorem add_wraps a b :
  wf a -> wf b ->
  wf (add a b) /\
  value (add a b) = wrap (value a + value b) /\
  - (modulus / 2) <= value (add a b) < modulus / 2 /\
  uval (digits_ (add a b))
  = (uval (digits_ a) + uval (digits_ b)) mod modulus.
Proof.
  intros Ha Hb. destruct (add_spec a b Ha Hb) as [Hs Hu].
  split; [assumption|]. split; [apply add_value; assumption|].
  split; [apply value_range; assumption|assumption].
Qed.

Lemma add_wraps_witness :
  wf (add getMaximum (HugeInt_ll 1)) /\
  value (add getMaximum (HugeInt_ll 1))
  = wrap (value getMaximum + value (HugeInt_ll 1)) /\
  - (modulus / 2) <= value (add getMaximum (HugeInt_ll 1)) < modulus / 2 /\
  uval (digits_ (add getMaximum (HugeInt_ll 1)))
  = (uval (digits_ getMaximum) + uval (digits_ (HugeInt_ll 1))) mod modulus.
Proof.
  apply (add_wraps getMaximum (HugeInt_ll 1)); vm_compute; reflexivity.
Defined.

(** The largest value plus one is the smallest. *)
Example add_maximum_one : add getMaximum (HugeInt_ll 1) = getMinimum.
Proof. vm_compute. reflexivity. Qed.

(** C5 (as amended).  The string constructor throws exactly for the
    strings that are empty, that consist of a sign only, or that hold a
    character other than a digit after the optional leading sign (a sign
    further on included); [""], ["12a3"] and ["--5"] are such.  Every
    string [[+|-]?[0-9]+] gives the well-formed object whose value is the
    denoted number reduced modulo [(2^32)^N] into the representable
    range, hence the denoted number itself when that is representable. *)
Theorem HugeInt_str_format str :
  let cs := c_chars str in
  ((exists what, HugeInt_str str = invalid_argument what) <->
   empty_or_stray cs = true \/ lone_sign cs = true) /\
  ((exists h, HugeInt_str str = Returned h /\ wf h /\
              value h = wrap (denoted cs) /\
              (- (modulus / 2) <= denoted cs < modulus / 2 ->
               value h = denoted cs)) <->
   matches_decimal cs = true) /\
  (matches_decimal cs = true <->
   empty_or_stray cs = false /\ lone_sign cs = false) /\
  (exists what, HugeInt_str "" = invalid_argument what) /\
  (exists what, HugeInt_str "12a3" = invalid_argument what) /\
  (exists what, HugeInt_str "--5" = invalid_argument what).
Proof.
  intros cs. pose proof (HugeInt_str_spec str) as Hs. fold cs in Hs.
  pose proof (matches_decimal_rejected cs) as Hm.
  assert (Hiff : matches_decimal cs = true <->
                 empty_or_stray cs = false /\ lone_sign cs = false).
  { rewrite Hm, negb_true_iff, orb_false_iff. reflexivity. }
  split; [|split; [|split; [exact Hiff|]]].
  - destruct (matches_decimal cs).
    + destruct Hs as (h & Hh & _). split.
      * intros [what Hw]. congruence.
      * intros [H|H]; destruct (proj1 Hiff eq_refl); congruence.
    + split; [|intros _; exact Hs]. intros _.
      symmetry in Hm. rewrite negb_false_iff, orb_true_iff in Hm. exact Hm.
  - destruct (matches_decimal cs).
    + split; [reflexivity|]. intros _.
      destruct Hs as (h & Hh & Hwf & Hu). exists h.
      split; [assumption|]. split; [assumption|].
      assert (Hv : value h = wrap (denoted cs)).
      { rewrite (value_wrap h Hwf), Hu. apply wrap_mod. }
      split; [exact Hv|]. intros Hr. rewrite Hv. apply wrap_small, Hr.
    + split; [|discriminate]. intros (h & Hh & _).
      destruct Hs as [what Hw]. congruence.
  - split; [|split]; eexists; vm_compute; reflexivity.
Qed.

(** C5 as stated fails for a lone sign: ["+"] is not empty and holds no
    stray character, yet the constructor throws. *)
Lemma HugeInt_str_lone_sign :
  empty_or_stray (c_chars "+") = false /\
  HugeInt_str "+"
  = invalid_argument "string contains non-digit in constructor.".
Proof. split; vm_compute; reflexivity. Qed.

(** C6 (as amended).  [a < b] returns the sign of the wrapped difference
    [a - b]: it holds iff the value of [a - b], which is the difference
    of the values reduced into the representable range, is negative.
    Whenever that difference is not the minimum, [a < b] holds iff
    [b - a] is strictly positive; when it is the minimum, [a < b] and
    [b < a] both hold and [b - a] is not strictly positive.  On values
    whose pairwise differences are representable, those of magnitude
    below [(2^32)^N / 4] among them, [a < b] is the order of the
    values, hence a strict weak order: irreflexive, asymmetric,
    transitive, with a transitive incomparability. *)
Theorem lt_op_order a b c :
  wf a -> wf b -> wf c ->
  (lt_op a b = true <-> value (sub a b) < 0) /\
  value (sub a b) = wrap (value a - value b) /\
  lt_op a a = false /\
  (sub a b <> getMinimum ->
   (lt_op a b = true <-> strictly_positive (sub b a) = true)) /\
  (sub a b = getMinimum ->
   lt_op a b = true /\ lt_op b a = true /\
   strictly_positive (sub b a) = false) /\
  (- (modulus / 2) < value a - value b < modulus / 2 ->
   - (modulus / 2) < value b - value c < modulus / 2 ->
   - (modulus / 2) < value a - value c < modulus / 2 ->
   (lt_op a b = true <-> value a < value b) /\
   (lt_op a b = true <-> strictly_positive (sub b a) = true) /\
   (lt_op a b = true -> lt_op b a = false) /\
   (lt_op a b = true -> lt_op b c = true -> lt_op a c = true) /\
   (lt_op a b = false -> lt_op b a = false ->
    lt_op b c = false -> lt_op c b = false ->
    lt_op a c = false /\ lt_op c a = false)) /\
  (in_half_range a = true -> in_half_range b = true ->
   - (modulus / 2) < value a - value b < modulus / 2).
Proof.
  intros Ha Hb Hc. pose proof modulus_half as Hh. pose proof modulus_pos as Hp.
  destruct (sub_spec a b Ha Hb) as [Hab Huab].
  destruct (sub_spec b a Hb Ha) as [Hba Huba].
  pose proof (value_range _ Hab) as Hr.
  assert (Hopp : value (sub b a) = wrap (- value (sub a b))).
  { rewrite (sub_value b a Hb Ha).
    rewrite <- (wrap_mod (- value (sub a b))), <- (wrap_mod (value b - value a)).
    f_equal. rewrite (sub_value a b Ha Hb).
    rewrite <- neg_mod_modulus, wrap_mod_modulus, neg_mod_modulus.
    f_equal. lia. }
  assert (Hmin : sub a b = getMinimum <-> value (sub a b) = - (modulus / 2)).
  { split.
    - intros E. rewrite E. vm_compute. reflexivity.
    - intros E. apply value_inj; [exact Hab|vm_compute; reflexivity|].
      rewrite E. vm_compute. reflexivity. }
  split; [unfold lt_op; apply (isNegative_value _ Hab)|].
  split; [apply (sub_value a b Ha Hb)|].
  split.
  { apply not_true_iff_false. rewrite (lt_op_value a a Ha Ha), Z.sub_diag.
    rewrite wrap_small; lia. }
  split.
  { intros Hne. rewrite (strictly_positive_value _ Hba). unfold lt_op.
    rewrite (isNegative_value _ Hab).
    assert (value (sub a b) <> - (modulus / 2)) by (intros E; apply Hne, Hmin, E).
    rewrite Hopp, wrap_small by lia. lia. }
  split.
  { intros E0. pose proof (proj1 Hmin E0) as E. clear E0.
    assert (Hv : value (sub b a) = - (modulus / 2)).
    { rewrite Hopp, E.
      replace (- - (modulus / 2)) with (- (modulus / 2) + 1 * modulus) by lia.
      rewrite wrap_shift. apply wrap_small. lia. }
    split; [unfold lt_op; apply (isNegative_value _ Hab); lia|].
    split; [unfold lt_op; apply (isNegative_value _ Hba); lia|].
    apply not_true_iff_false. rewrite (strictly_positive_value _ Hba). lia. }
  split.
  { intros Dab Dbc Dac.
    destruct (lt_op_small_difference a b Ha Hb ltac:(lia)) as [Lab Lab'].
    destruct (lt_op_small_difference b c Hb Hc ltac:(lia)) as [Lbc _].
    destruct (lt_op_small_difference a c Ha Hc ltac:(lia)) as [Lac _].
    destruct (lt_op_small_difference b a Hb Ha ltac:(lia)) as [Lba _].
    destruct (lt_op_small_difference c b Hc Hb ltac:(lia)) as [Lcb _].
    destruct (lt_op_small_difference c a Hc Ha ltac:(lia)) as [Lca _].
    split; [exact Lab|]. split; [exact Lab'|]. split; [|split].
    - rewrite <- not_true_iff_false, Lab, Lba. lia.
    - rewrite Lab, Lbc, Lac. lia.
    - rewrite <- !not_true_iff_false, Lab, Lba, Lbc, Lcb, Lac, Lca. lia. }
  intros [_ Hra]%in_half_range_spec [_ Hrb]%in_half_range_spec.
  pose proof modulus_quarter as Hq. lia.
Qed.

Lemma lt_op_order_witness :
  (lt_op (HugeInt_ll (-5)) (HugeInt_ll 3) = true <->
   value (sub (HugeInt_ll (-5)) (HugeInt_ll 3)) < 0) /\
  value (sub (HugeInt_ll (-5)) (HugeInt_ll 3))
  = wrap (value (HugeInt_ll (-5)) - value (HugeInt_ll 3)) /\
  lt_op (HugeInt_ll (-5)) (HugeInt_ll (-5)) = false /\
  (lt_op (HugeInt_ll (-5)) (HugeInt_ll 3) = true <->
   strictly_positive (sub (HugeInt_ll 3) (HugeInt_ll (-5))) = true) /\
  (lt_op (HugeInt_ll (-5)) (HugeInt_ll 3) = true <->
   value (HugeInt_ll (-5)) < value (HugeInt_ll 3)) /\
  (lt_op (HugeInt_ll (-5)) (HugeInt_ll 3) = true ->
   lt_op (HugeInt_ll 3) (HugeInt_ll (-5)) = false) /\
  (lt_op (HugeInt_ll (-5)) (HugeInt_ll 3) = true ->
   lt_op (HugeInt_ll 3) (HugeInt_ll 7) = true ->
   lt_op (HugeInt_ll (-5)) (HugeInt_ll 7) = true) /\
  (lt_op (HugeInt_ll (-5)) (HugeInt_ll 3) = false ->
   lt_op (HugeInt_ll 3) (HugeInt_ll (-5)) = false ->
   lt_op (HugeInt_ll 3) (HugeInt_ll 7) = false ->
   lt_op (HugeInt_ll 7) (HugeInt_ll 3) = false ->
   lt_op (HugeInt_ll (-5)) (HugeInt_ll 7) = false /\
   lt_op (HugeInt_ll 7) (HugeInt_ll (-5)) = false) /\
  (- (modulus / 2) < value (HugeInt_ll (-5)) - value (HugeInt_ll 3) < modulus / 2).
Proof.
  destruct (lt_op_order (HugeInt_ll (-5)) (HugeInt_ll 3) (HugeInt_ll 7))
    as (Hsign & Hval & Hirr & Hpos & _ & Hord & Hquarter);
    try (vm_compute; reflexivity).
  split; [exact Hsign|]. split; [exact Hval|]. split; [exact Hirr|]. split.
  - apply Hpos. intros E.
    apply (f_equal (fun x => digit (digits_ x) 0)) in E.
    vm_compute in E. discriminate E.
  - destruct Hord as (H1 & _ & H2 & H3 & H4);
      try (vm_compute; split; reflexivity).
    split; [exact H1|]. split; [exact H2|]. split; [exact H3|].
    split; [exact H4|].
    apply Hquarter; vm_compute; reflexivity.
Defined.

(** C6 as stated fails between the minimum and zero: each is below the
    other, and [0 - minimum] is not strictly positive although
    [minimum < 0]. *)
Lemma lt_op_minimum_zero :
  wf getMinimum /\ wf (HugeInt_ll 0) /\
  lt_op getMinimum (HugeInt_ll 0) = true /\
  lt_op (HugeInt_ll 0) getMinimum = true /\
  strictly_positive (sub (HugeInt_ll 0) getMinimum) = false.
Proof. split; [|split; [|split; [|split]]]; vm_compute; reflexivity. Qed.

(** The order also breaks away from the minimum: [0 < (2^32)^N/4] and
    [(2^32)^N/4 < -(2^32)^N/4 - 1] hold, [0 < -(2^32)^N/4 - 1] does not. *)
Example lt_op_not_transitive :
  let quarter := mkHugeInt (replicate 299 0 ++ [1073741824]) in
  let low := sub (neg quarter) (HugeInt_ll 1) in
  lt_op (HugeInt_ll 0) quarter = true /\
  lt_op quarter low = true /\
  lt_op (HugeInt_ll 0) low = false.
Proof. cbv zeta. split; [|split]; vm_compute; reflexivity. Qed.

(** C7.  [a == b], computed from the difference [b - a], holds exactly
    when the two arrays agree digit by digit. *)
Theorem eq_op_structural a b :
  wf a -> wf b ->
  (eq_op a b = true <->
   forall i, (i < numDigits_)%nat ->
     digit (digits_ a) i = digit (digits_ b) i) /\
  (eq_op a b = true <-> digits_ a = digits_ b).
Proof.
  intros Ha Hb.
  assert (Hd : eq_op a b = true <-> digits_ a = digits_ b).
  { rewrite (eq_op_eq a b Ha Hb). split; [intros ->; reflexivity|].
    destruct a as [da], b as [db]; cbn [digits_]. intros ->. reflexivity. }
  split; [|exact Hd]. rewrite Hd.
  apply wf_spec in Ha as [Hla _]. apply wf_spec in Hb as [Hlb _].
  split; [intros ->; reflexivity|]. intros H. apply list_eq. intros i.
  destruct (Nat.lt_ge_cases i numDigits_) as [Hi|Hi].
  - rewrite (digit_lookup (digits_ a) i), (digit_lookup (digits_ b) i) by lia.
    f_equal. apply H, Hi.
  - rewrite !lookup_ge_None_2 by lia. reflexivity.
Qed.

Lemma eq_op_structural_witness :
  (eq_op (HugeInt_ll (-7)) (HugeInt_ll 7) = true <->
   forall i, (i < numDigits_)%nat ->
     digit (digits_ (HugeInt_ll (-7))) i = digit (digits_ (HugeInt_ll 7)) i) /\
  (eq_op (HugeInt_ll (-7)) (HugeInt_ll 7) = true <->
   digits_ (HugeInt_ll (-7)) = digits_ (HugeInt_ll 7)).
Proof.
  apply (eq_op_structural (HugeInt_ll (-7)) (HugeInt_ll 7));
    vm_compute; reflexivity.
Defined.

(** C8.  The radix complement undoes itself, and leaves zero as it is. *)
Theorem radixComplement_involutive x :
  wf x ->
  radixComplement (radixComplement x) = x /\
  (isZero x = true -> radixComplement x = x) /\
  radixComplement HugeInt_default = HugeInt_default.
Proof.
  intros Hx. destruct (radixComplement_spec x Hx) as [H1 Hu1].
  destruct (radixComplement_spec _ H1) as [H2 Hu2].
  split; [|split].
  - apply wf_eq; [assumption|assumption|].
    rewrite Hu2, Hu1, neg_mod_modulus, Z.opp_involutive.
    apply Z.mod_small, uval_range, Hx.
  - intros Hz. unfold radixComplement. rewrite Hz. reflexivity.
  - vm_compute. reflexivity.
Qed.

Lemma radixComplement_involutive_witness :
  radixComplement (radixComplement (HugeInt_ll 100)) = HugeInt_ll 100 /\
  (isZero (HugeInt_ll 100) = true ->
   radixComplement (HugeInt_ll 100) = HugeInt_ll 100) /\
  radixComplement HugeInt_default = HugeInt_default.
Proof.
  apply (radixComplement_involutive (HugeInt_ll 100)). vm_compute. reflexivity.
Defined.

(** C9.  Long division writes outside the dividend when the dividend
    fills the array: for the non-negative dividend [(2^32)^(N-1)] and
    the two-digit divisor [2^32], the digit that normalisation appends
    is stored at index [numDigits_ = 300] of an array of 300 digits. *)
Theorem unsigned_divide_out_of_bounds :
  wf full_dividend /\ wf two_digit_divisor /\
  0 <= value full_dividend /\ 0 < value two_digit_divisor /\
  significant (digits_ two_digit_divisor) numDigits_ = Done 2 /\
  significant (digits_ full_dividend) numDigits_ = Done 300 /\
  unsigned_divide full_dividend two_digit_divisor None = OutOfBounds 300 /\
  unsigned_divide full_dividend two_digit_divisor (Some HugeInt_default)
  = OutOfBounds 300 /\
  div full_dividend two_digit_divisor = OutOfBounds 300.
Proof.
  split; [vm_compute; reflexivity|]. split; [vm_compute; reflexivity|].
  split; [vm_compute; discriminate|]. split; [vm_compute; reflexivity|].
  split; [vm_compute; reflexivity|]. split; [vm_compute; reflexivity|].
  split; [vm_compute; reflexivity|]. split; vm_compute; reflexivity.
Qed.

(** No object has a value below that of [getMinimum()], and none has
    its magnitude as a positive value. *)
Lemma getMinimum_least x :
  wf x -> value getMinimum <= value x < - value getMinimum.
Proof.
  intros Hx. pose proof (value_range x Hx) as Hr.
  assert (Hm : isNegative getMinimum = true) by (vm_compute; reflexivity).
  assert (Hw : wf getMinimum) by (vm_compute; reflexivity).
  assert (Hu : uval (digits_ getMinimum) = modulus / 2).
  { pose proof modulus_half as Hh. rewrite modulus_top in Hh at 1.
    unfold getMinimum, zero_digits; cbn [digits_].
    pose proof numDigits_pos.
    rewrite (uval_top _ ltac:(rewrite length_insert; apply length_replicate)).
    unfold digit. rewrite list_lookup_insert_eq
      by (rewrite length_replicate; lia).
    rewrite take_insert_ge, take_replicate, uval_replicate by lia.
    cbn [default]. change (u32 (base_ / 2)) with 2147483648.
    unfold id. rewrite base_eq in *. lia. }
  assert (Hv : value getMinimum = - (modulus / 2)).
  { unfold value. rewrite Hm, Hu. pose proof modulus_half. lia. }
  rewrite Hv. lia.
Qed.

(** C10.  The minimum is its own negation: [-getMinimum() ==
    getMinimum()], the minimum being [-(2^32)^N / 2]. *)
Theorem neg_getMinimum :
  neg getMinimum = getMinimum /\
  eq_op (neg getMinimum) getMinimum = true /\
  value getMinimum = - (modulus / 2) /\
  isNegative (neg getMinimum) = true.
Proof.
  split; [vm_compute; reflexivity|]. split; [vm_compute; reflexivity|].
  split; vm_compute; reflexivity.
Qed.

(** * Further properties *)

Lemma modulus_large : 2 ^ 126 <= modulus / 4.
Proof.
  unfold modulus. change numDigits_ with (S (S (S (S 296)))).
  do 4 rewrite base_pow_S. pose proof (base_pow_pos 296) as Hz.
  rewrite base_eq in *.
  generalize dependent (4294967296 ^ Z.of_nat 296). intros z Hz.
  replace (4294967296 * (4294967296 * (4294967296 * (4294967296 * z))))
    with ((85070591730234615865843651857942052864 * z) * 4) by ring.
  rewrite Z.div_mul by lia. lia.
Qed.

Lemma ll_digits_spent fuel v :
  0 <= v < 2 ^ 64 ->
  ll_digits (2 + fuel) v 0 zero_digits = ll_digits 2 v 0 zero_digits /\
  ll_digits 2 v 0 zero_digits
  = ([v mod base_; v / base_] ++ replicate (numDigits_ - 2) 0)%list.
Proof.
  intros Hv. rewrite base_eq.
  assert (Hq : 0 <= v / 4294967296 < 4294967296).
  { split; [apply Z.div_pos; lia|apply Z.div_lt_upper_bound; lia]. }
  assert (Hqq : v / 4294967296 / 4294967296 = 0) by (apply Z.div_small; lia).
  pose proof (Z.mod_pos_bound v 4294967296 ltac:(lia)) as Hm.
  change (2 + fuel)%nat with (S (S fuel)).
  cbn [ll_digits]. rewrite base_eq. unfold u32.
  change (2 ^ 32) with 4294967296.
  rewrite !(Z.mod_small (v mod 4294967296)) by lia.
  destruct (0 <? v) eqn:E1.
  - destruct (0 <? v / 4294967296) eqn:E2.
    + rewrite !(Z.mod_small (v / 4294967296)) by lia.
      assert (E3 : (0 <? v / 4294967296 / 4294967296) = false)
        by (rewrite Hqq; reflexivity).
      split; [destruct fuel; cbn [ll_digits]; rewrite ?base_eq, ?E3; reflexivity|].
      reflexivity.
    + apply Z.ltb_ge in E2. assert (v / 4294967296 = 0) as -> by lia.
      split; reflexivity.
  - apply Z.ltb_ge in E1. assert (v = 0) as -> by lia.
    split; reflexivity.
Qed.

Lemma HugeInt_ll_spec x :
  - 2 ^ 63 < x < 2 ^ 63 ->
  wf (HugeInt_ll x) /\ value (HugeInt_ll x) = x.
Proof.
  intros Hx. pose proof modulus_large as HM. pose proof modulus_quarter as HQ.
  pose proof modulus_half as HH.
  assert (Habs : 0 <= Z.abs x < 2 ^ 64) by lia.
  destruct (ll_digits_spent 0 (Z.abs x) Habs) as [_ Hd].
  set (r := mkHugeInt (ll_digits 2 (Z.abs x) 0 zero_digits)).
  assert (Hq : 0 <= Z.abs x / base_ < base_).
  { rewrite base_eq. split; [apply Z.div_pos; lia|apply Z.div_lt_upper_bound; lia]. }
  pose proof (Z.mod_pos_bound (Z.abs x) base_ ltac:(rewrite base_eq; lia)) as Hm.
  assert (Hr : wf r /\ uval (digits_ r) = Z.abs x).
  { subst r. cbn [digits_]. rewrite Hd. split.
    - apply wf_spec. cbn [digits_]. split.
      + rewrite length_app, length_replicate. reflexivity.
      + apply Forall_app. split; [|apply digits_ok_replicate].
        repeat constructor; lia.
    - rewrite uval_app, uval_replicate. cbn [uval].
      pose proof (Z.div_mod (Z.abs x) base_ ltac:(rewrite base_eq; lia)). lia. }
  destruct Hr as [Hwr Hur].
  unfold HugeInt_ll. destruct (x =? 0) eqn:E0.
  - apply Z.eqb_eq in E0. subst x. split; [apply wf_default|].
    rewrite (value_of_small _ wf_default); rewrite uval_default; lia.
  - apply Z.eqb_neq in E0. fold r. destruct (x <? 0) eqn:E1.
    + apply Z.ltb_lt in E1.
      destruct (radixComplement_spec r Hwr) as [Hwc Huc].
      split; [exact Hwc|].
      rewrite (value_wrap _ Hwc), Huc, wrap_mod, Hur, wrap_small; lia.
    + apply Z.ltb_ge in E1. split; [exact Hwr|].
      rewrite (value_of_small _ Hwr); lia.
Qed.

Lemma wf_getMinimum : wf getMinimum.
Proof. vm_compute. reflexivity. Qed.

Lemma uval_getMinimum : uval (digits_ getMinimum) = modulus / 2.
Proof.
  pose proof modulus_half as Hh. rewrite modulus_top in Hh at 1.
  unfold getMinimum, zero_digits; cbn [digits_].
  pose proof numDigits_pos.
  rewrite (uval_top _ ltac:(rewrite length_insert; apply length_replicate)).
  unfold digit. rewrite list_lookup_insert_eq
    by (rewrite length_replicate; lia).
  rewrite take_insert_ge, take_replicate, uval_replicate by lia.
  cbn [default]. change (u32 (base_ / 2)) with 2147483648.
  unfold id. rewrite base_eq in *. lia.
Qed.

Lemma value_getMinimum : value getMinimum = - (modulus / 2).
Proof.
  rewrite (value_wrap _ wf_getMinimum), uval_getMinimum.
  pose proof modulus_half. pose proof modulus_pos.
  rewrite <- (wrap_shift _ (-1)). rewrite wrap_small; lia.
Qed.

Lemma wf_getMaximum : wf getMaximum.
Proof. apply sub_spec; [apply wf_getMinimum|apply wf_one]. Qed.

Lemma value_one : value (HugeInt_ll 1) = 1.
Proof. apply HugeInt_ll_spec. lia. Qed.

Lemma value_default : value HugeInt_default = 0.
Proof. apply (HugeInt_ll_spec 0). lia. Qed.

Lemma value_getMaximum : value getMaximum = modulus / 2 - 1.
Proof.
  unfold getMaximum. fold getMinimum.
  rewrite (sub_value _ _ wf_getMinimum wf_one), value_getMinimum, value_one.
  pose proof modulus_half. pose proof modulus_large. pose proof modulus_quarter.
  rewrite <- (wrap_shift _ 1). rewrite wrap_small; lia.
Qed.

Lemma not_getMinimum x :
  wf x -> x <> getMinimum -> - (modulus / 2) < value x.
Proof.
  intros Hx Hne. pose proof (value_range x Hx).
  destruct (Z.eq_dec (value x) (- (modulus / 2))) as [E|]; [|lia].
  exfalso. apply Hne. apply value_inj; [exact Hx|apply wf_getMinimum|].
  rewrite value_getMinimum. exact E.
Qed.

(** Objects are equal as soon as their values are congruent. *)
Lemma wf_congruent x y :
  wf x -> wf y ->
  uval (digits_ x) mod modulus = uval (digits_ y) mod modulus -> x = y.
Proof.
  intros Hx Hy H. apply wf_eq; [exact Hx|exact Hy|].
  rewrite !Z.mod_small in H by (apply uval_range; assumption). exact H.
Qed.

(** X2.  Unary minus: the result is well formed, its value is [- x] reduced
    into the representable range, exactly [- x] for every [x] other than
    the minimum, and [x + (- x)] is the zero object. *)
Theorem neg_negates x :
  wf x ->
  wf (neg x) /\
  value (neg x) = wrap (- value x) /\
  (x <> getMinimum -> value (neg x) = - value x) /\
  add x (neg x) = HugeInt_default.
Proof.
  intros Hx. destruct (neg_spec x Hx) as [Hn Hu].
  split; [exact Hn|]. split; [apply neg_value, Hx|]. split.
  - intros Hne. rewrite (neg_value x Hx).
    pose proof (not_getMinimum x Hx Hne). pose proof (value_range x Hx).
    apply wrap_small. lia.
  - destruct (add_spec x (neg x) Hx Hn) as [Ha Hs].
    apply wf_eq; [exact Ha|apply wf_default|].
    rewrite Hs, Hu, uval_default. pose proof modulus_pos.
    rewrite Zplus_mod_idemp_r, Z.add_opp_diag_r. apply Z.mod_0_l. lia.
Qed.

Lemma neg_negates_witness :
  wf (neg (HugeInt_ll 5)) /\
  value (neg (HugeInt_ll 5)) = wrap (- value (HugeInt_ll 5)) /\
  (HugeInt_ll 5 <> getMinimum -> value (neg (HugeInt_ll 5)) = - value (HugeInt_ll 5)) /\
  add (HugeInt_ll 5) (neg (HugeInt_ll 5)) = HugeInt_default.
Proof. apply (neg_negates (HugeInt_ll 5)). vm_compute. reflexivity. Defined.

(** X3.  Binary minus: the difference is well formed, its value is the
    difference of the values reduced into the representable range (the
    exact difference when that is representable), and [(a - b) + b] is
    [a] again, also when the difference wrapped. *)
Theorem sub_wraps a b :
  wf a -> wf b ->
  wf (sub a b) /\
  value (sub a b) = wrap (value a - value b) /\
  (- (modulus / 2) <= value a - value b < modulus / 2 ->
   value (sub a b) = value a - value b) /\
  add (sub a b) b = a.
Proof.
  intros Ha Hb. destruct (sub_spec a b Ha Hb) as [Hs Hu].
  split; [exact Hs|]. split; [apply sub_value; assumption|]. split.
  - intros Hr. rewrite (sub_value a b Ha Hb). apply wrap_small, Hr.
  - destruct (add_spec (sub a b) b Hs Hb) as [Hw Hv].
    apply wf_eq; [exact Hw|exact Ha|].
    rewrite Hv, Hu, Zplus_mod_idemp_l.
    replace (uval (digits_ a) - uval (digits_ b) + uval (digits_ b))
      with (uval (digits_ a)) by lia.
    apply Z.mod_small, uval_range, Ha.
Qed.

Lemma sub_wraps_witness :
  wf (sub (HugeInt_ll 3) (HugeInt_ll 10)) /\
  value (sub (HugeInt_ll 3) (HugeInt_ll 10))
  = wrap (value (HugeInt_ll 3) - value (HugeInt_ll 10)) /\
  (- (modulus / 2) <= value (HugeInt_ll 3) - value (HugeInt_ll 10) < modulus / 2 ->
   value (sub (HugeInt_ll 3) (HugeInt_ll 10))
   = value (HugeInt_ll 3) - value (HugeInt_ll 10)) /\
  add (sub (HugeInt_ll 3) (HugeInt_ll 10)) (HugeInt_ll 10) = HugeInt_ll 3.
Proof.
  apply (sub_wraps (HugeInt_ll 3) (HugeInt_ll 10)); vm_compute; reflexivity.
Defined.

(** X4.  The product: it is well formed, its digits hold the product of the
    unsigned values modulo [(2^32)^N], and its value is the product of
    the values reduced into the representable range, so it is exact
    whenever it is representable, whatever the signs. *)
Theorem mul_wraps a b :
  wf a -> wf b ->
  wf (mul a b) /\
  uval (digits_ (mul a b)) = (uval (digits_ a) * uval (digits_ b)) mod modulus /\
  value (mul a b) = wrap (value a * value b) /\
  (- (modulus / 2) <= value a * value b < modulus / 2 ->
   value (mul a b) = value a * value b).
Proof.
  intros Ha Hb. destruct (mul_spec a b Ha Hb) as [Hm Hu].
  split; [exact Hm|]. split; [exact Hu|].
  split; [apply mul_value; assumption|].
  intros Hr. rewrite (mul_value a b Ha Hb). apply wrap_small, Hr.
Qed.

Lemma mul_wraps_witness :
  wf (mul (HugeInt_ll (-6)) (HugeInt_ll 7)) /\
  uval (digits_ (mul (HugeInt_ll (-6)) (HugeInt_ll 7)))
  = (uval (digits_ (HugeInt_ll (-6))) * uval (digits_ (HugeInt_ll 7))) mod modulus /\
  value (mul (HugeInt_ll (-6)) (HugeInt_ll 7))
  = wrap (value (HugeInt_ll (-6)) * value (HugeInt_ll 7)) /\
  (- (modulus / 2) <= value (HugeInt_ll (-6)) * value (HugeInt_ll 7) < modulus / 2 ->
   value (mul (HugeInt_ll (-6)) (HugeInt_ll 7))
   = value (HugeInt_ll (-6)) * value (HugeInt_ll 7)).
Proof.
  apply (mul_wraps (HugeInt_ll (-6)) (HugeInt_ll 7)); vm_compute; reflexivity.
Defined.

(** X5.  Sum and product obey the laws of a commutative ring as functions on
    objects, overflow included: both are commutative and associative, 0
    and 1 are neutral, [a * 0] is 0, the product distributes over the
    sum, and [a * (- b)] is [- (a * b)]. *)
Theorem ring_laws a b c :
  wf a -> wf b -> wf c ->
  add a b = add b a /\
  add (add a b) c = add a (add b c) /\
  add a (HugeInt_ll 0) = a /\
  mul a b = mul b a /\
  mul (mul a b) c = mul a (mul b c) /\
  mul a (HugeInt_ll 1) = a /\
  mul a (HugeInt_ll 0) = HugeInt_ll 0 /\
  mul a (add b c) = add (mul a b) (mul a c) /\
  mul a (neg b) = neg (mul a b).
Proof.
  intros Ha Hb Hc. pose proof modulus_pos as HM.
  destruct (add_spec a b Ha Hb) as [Wab Uab].
  destruct (add_spec b a Hb Ha) as [Wba Uba].
  destruct (add_spec b c Hb Hc) as [Wbc Ubc].
  destruct (add_spec _ _ Wab Hc) as [Wab_c Uab_c].
  destruct (add_spec _ _ Ha Wbc) as [Wa_bc Ua_bc].
  destruct (add_spec a _ Ha wf_default) as [Wa0 Ua0].
  destruct (mul_spec a b Ha Hb) as [Mab Vab].
  destruct (mul_spec b a Hb Ha) as [Mba Vba].
  destruct (mul_spec b c Hb Hc) as [Mbc Vbc].
  destruct (mul_spec a c Ha Hc) as [Mac Vac].
  destruct (mul_spec _ _ Mab Hc) as [Mab_c Vab_c].
  destruct (mul_spec _ _ Ha Mbc) as [Ma_bc Va_bc].
  destruct (mul_spec a _ Ha wf_one) as [Ma1 Va1].
  destruct (mul_spec a _ Ha wf_default) as [Ma0 Va0].
  destruct (mul_spec _ _ Ha Wbc) as [Md Vd].
  destruct (add_spec _ _ Mab Mac) as [Wd Ud].
  destruct (neg_spec b Hb) as [Nb Unb].
  destruct (mul_spec _ _ Ha Nb) as [Man Van].
  destruct (neg_spec _ Mab) as [Nab Unab].
  pose proof (uval_range a Ha) as Ra.
  set (ua := uval (digits_ a)) in *. set (ub := uval (digits_ b)) in *.
  set (uc := uval (digits_ c)) in *.
  rewrite HugeInt_ll_0.
  split.
  { apply wf_eq; [exact Wab|exact Wba|]. rewrite Uab, Uba. f_equal. lia. }
  split.
  { apply wf_eq; [exact Wab_c|exact Wa_bc|]. rewrite Uab_c, Ua_bc, Uab, Ubc.
    rewrite Zplus_mod_idemp_l, Zplus_mod_idemp_r. f_equal. lia. }
  split.
  { apply wf_eq; [exact Wa0|exact Ha|].
    rewrite Ua0, uval_default, Z.add_0_r. apply Z.mod_small. exact Ra. }
  split.
  { apply wf_eq; [exact Mab|exact Mba|]. rewrite Vab, Vba. f_equal. lia. }
  split.
  { apply wf_eq; [exact Mab_c|exact Ma_bc|]. rewrite Vab_c, Va_bc, Vab, Vbc.
    rewrite Zmult_mod_idemp_l, Zmult_mod_idemp_r. f_equal. lia. }
  split.
  { apply wf_eq; [exact Ma1|exact Ha|].
    rewrite Va1, uval_one, Z.mul_1_r. apply Z.mod_small. exact Ra. }
  split.
  { apply wf_eq; [exact Ma0|exact wf_default|].
    rewrite Va0, uval_default, Z.mul_0_r. apply Z.mod_0_l. lia. }
  split.
  { apply wf_eq; [exact Md|exact Wd|]. rewrite Vd, Ud, Ubc, Vab, Vac.
    rewrite Zmult_mod_idemp_r, <- Zplus_mod. f_equal. lia. }
  apply wf_eq; [exact Man|exact Nab|]. rewrite Van, Unab, Unb, Vab.
  rewrite Zmult_mod_idemp_r, neg_mod_modulus. f_equal. lia.
Qed.

Lemma ring_laws_witness :
  add (HugeInt_ll (-3)) (HugeInt_ll 4) = add (HugeInt_ll 4) (HugeInt_ll (-3)) /\
  add (add (HugeInt_ll (-3)) (HugeInt_ll 4)) getMaximum
  = add (HugeInt_ll (-3)) (add (HugeInt_ll 4) getMaximum) /\
  add (HugeInt_ll (-3)) (HugeInt_ll 0) = HugeInt_ll (-3) /\
  mul (HugeInt_ll (-3)) (HugeInt_ll 4) = mul (HugeInt_ll 4) (HugeInt_ll (-3)) /\
  mul (mul (HugeInt_ll (-3)) (HugeInt_ll 4)) getMaximum
  = mul (HugeInt_ll (-3)) (mul (HugeInt_ll 4) getMaximum) /\
  mul (HugeInt_ll (-3)) (HugeInt_ll 1) = HugeInt_ll (-3) /\
  mul (HugeInt_ll (-3)) (HugeInt_ll 0) = HugeInt_ll 0 /\
  mul (HugeInt_ll (-3)) (add (HugeInt_ll 4) getMaximum)
  = add (mul (HugeInt_ll (-3)) (HugeInt_ll 4)) (mul (HugeInt_ll (-3)) getMaximum) /\
  mul (HugeInt_ll (-3)) (neg (HugeInt_ll 4))
  = neg (mul (HugeInt_ll (-3)) (HugeInt_ll 4)).
Proof.
  refine (ring_laws (HugeInt_ll (-3)) (HugeInt_ll 4) getMaximum _ _ _);
    vm_compute; reflexivity.
Defined.

(** X1.  The constructor from [long long]: for every [x] other than
    [LLONG_MIN] the object is well formed and its value is [x], and the
    digit loop is finished after two rounds. *)
Theorem HugeInt_ll_exact x :
  - 2 ^ 63 < x < 2 ^ 63 ->
  wf (HugeInt_ll x) /\ value (HugeInt_ll x) = x /\
  forall fuel,
    ll_digits (2 + fuel) (Z.abs x) 0 zero_digits
    = ll_digits 2 (Z.abs x) 0 zero_digits.
Proof.
  intros Hx. destruct (HugeInt_ll_spec x Hx) as [Hw Hv].
  split; [exact Hw|]. split; [exact Hv|].
  intros fuel. apply ll_digits_spent. lia.
Qed.

Lemma HugeInt_ll_exact_witness :
  wf (HugeInt_ll (-9223372036854775807)) /\
  value (HugeInt_ll (-9223372036854775807)) = -9223372036854775807 /\
  forall fuel,
    ll_digits (2 + fuel) (Z.abs (-9223372036854775807)) 0 zero_digits
    = ll_digits 2 (Z.abs (-9223372036854775807)) 0 zero_digits.
Proof. apply (HugeInt_ll_exact (-9223372036854775807)). lia. Defined.

(** X6.  [shortMultiply] by a 32-bit multiplier [m]: the result is well
    formed and holds the unsigned value times [m] modulo [(2^32)^N]; its
    value is the value times [m] reduced into the representable range. *)
Theorem shortMultiply_exact x m :
  wf x -> 0 <= m < base_ ->
  wf (shortMultiply x m) /\
  uval (digits_ (shortMultiply x m)) = (uval (digits_ x) * m) mod modulus /\
  value (shortMultiply x m) = wrap (value x * m).
Proof.
  intros Hx Hm. destruct (shortMultiply_spec x m Hx Hm) as [Hw Hu].
  split; [exact Hw|]. split; [exact Hu|].
  rewrite (value_wrap _ Hw), Hu, wrap_mod.
  rewrite <- (wrap_mod (value x * m)), <- Zmult_mod_idemp_l.
  rewrite (value_mod x Hx), wrap_mod. reflexivity.
Qed.

Lemma shortMultiply_exact_witness :
  wf (shortMultiply (HugeInt_ll (-12)) 4294967295) /\
  uval (digits_ (shortMultiply (HugeInt_ll (-12)) 4294967295))
  = (uval (digits_ (HugeInt_ll (-12))) * 4294967295) mod modulus /\
  value (shortMultiply (HugeInt_ll (-12)) 4294967295)
  = wrap (value (HugeInt_ll (-12)) * 4294967295).
Proof.
  apply (shortMultiply_exact (HugeInt_ll (-12)) 4294967295);
    [vm_compute; reflexivity|rewrite base_eq; lia].
Defined.

(** X7.  [shortDivide] by a nonzero 32-bit divisor [d]: the result is the
    quotient of the unsigned value by [d], the remainder stored is the
    unsigned value modulo [d], and quotient times [d] plus remainder is
    the unsigned value; for a non-negative object these are the quotient
    and the remainder of its value. *)
Theorem shortDivide_exact x divisor :
  wf x -> 0 < divisor < base_ ->
  wf (fst (shortDivide x divisor)) /\
  uval (digits_ (fst (shortDivide x divisor))) = uval (digits_ x) / divisor /\
  snd (shortDivide x divisor) = uval (digits_ x) mod divisor /\
  uval (digits_ x)
  = uval (digits_ (fst (shortDivide x divisor))) * divisor
    + snd (shortDivide x divisor) /\
  (0 <= value x ->
   value (fst (shortDivide x divisor)) = value x / divisor /\
   snd (shortDivide x divisor) = value x mod divisor).
Proof.
  intros Hx Hd. destruct (shortDivide_spec x divisor Hx Hd) as (Hw & Hq & Hr).
  split; [exact Hw|]. split; [exact Hq|]. split; [exact Hr|].
  pose proof (uval_range x Hx) as Hu.
  split.
  { rewrite Hq, Hr. pose proof (Z.div_mod (uval (digits_ x)) divisor). lia. }
  intros Hnn.
  assert (Hv : value x = uval (digits_ x)).
  { pose proof (isNegative_value x Hx) as Hn. unfold value in *.
    destruct (isNegative x); [|reflexivity].
    pose proof (proj1 Hn eq_refl). lia. }
  assert (Hlt : uval (digits_ x) < modulus / 2).
  { pose proof (value_range x Hx). lia. }
  rewrite Hv. split; [|exact Hr].
  rewrite value_of_small; [exact Hq|exact Hw|].
  rewrite Hq. apply Z.le_lt_trans with (uval (digits_ x)); [|exact Hlt].
  apply Z.div_le_upper_bound; [lia|nia].
Qed.

Lemma shortDivide_exact_witness :
  wf (fst (shortDivide (HugeInt_ll 1000003) 1000)) /\
  uval (digits_ (fst (shortDivide (HugeInt_ll 1000003) 1000)))
  = uval (digits_ (HugeInt_ll 1000003)) / 1000 /\
  snd (shortDivide (HugeInt_ll 1000003) 1000)
  = uval (digits_ (HugeInt_ll 1000003)) mod 1000 /\
  uval (digits_ (HugeInt_ll 1000003))
  = uval (digits_ (fst (shortDivide (HugeInt_ll 1000003) 1000))) * 1000
    + snd (shortDivide (HugeInt_ll 1000003) 1000) /\
  (0 <= value (HugeInt_ll 1000003) ->
   value (fst (shortDivide (HugeInt_ll 1000003) 1000))
   = value (HugeInt_ll 1000003) / 1000 /\
   snd (shortDivide (HugeInt_ll 1000003) 1000)
   = value (HugeInt_ll 1000003) mod 1000).
Proof.
  apply (shortDivide_exact (HugeInt_ll 1000003) 1000);
    [vm_compute; reflexivity|rewrite base_eq; lia].
Defined.

(** X8.  [shiftLeftDigits] by [num] places, [num] at most [N]: the digits move
    [num] places up, the low [num] digits are zero and the top [num]
    digits are dropped, so the object holds [(2^32)^num] times the
    unsigned value modulo [(2^32)^N]. *)
Theorem shiftLeftDigits_exact x num :
  wf x -> (num <= numDigits_)%nat ->
  wf (shiftLeftDigits x num) /\
  digits_ (shiftLeftDigits x num)
  = (replicate num 0 ++ take (numDigits_ - num) (digits_ x))%list /\
  uval (digits_ (shiftLeftDigits x num))
  = (base_ ^ Z.of_nat num * uval (digits_ x)) mod modulus.
Proof.
  intros Hx Hn. destruct (shiftLeftDigits_spec x num Hx Hn) as [Hw Hu].
  split; [exact Hw|]. split; [|exact Hu].
  apply shiftLeftDigits_digits; [|exact Hn]. apply wf_spec, Hx.
Qed.

Lemma shiftLeftDigits_exact_witness :
  wf (shiftLeftDigits (HugeInt_ll (-1)) 299) /\
  digits_ (shiftLeftDigits (HugeInt_ll (-1)) 299)
  = (replicate 299 0 ++ take (numDigits_ - 299) (digits_ (HugeInt_ll (-1))))%list /\
  uval (digits_ (shiftLeftDigits (HugeInt_ll (-1)) 299))
  = (base_ ^ Z.of_nat 299 * uval (digits_ (HugeInt_ll (-1)))) mod modulus.
Proof.
  apply (shiftLeftDigits_exact (HugeInt_ll (-1)) 299);
    [vm_compute; reflexivity|unfold numDigits_; lia].
Defined.

Lemma gt_op_value a b :
  wf a -> wf b -> (gt_op a b = true <-> wrap (value b - value a) < 0).
Proof. intros Ha Hb. unfold gt_op. apply lt_op_value; assumption. Qed.

Lemma eq_op_value a b :
  wf a -> wf b -> (eq_op a b = true <-> value a = value b).
Proof.
  intros Ha Hb. rewrite (eq_op_eq a b Ha Hb). split; [intros ->; reflexivity|].
  apply value_inj; assumption.
Qed.

(** X9.  The sign tests: [isZero] and [x == 0] hold exactly when the value is
    0, [isNegative] and [x < 0] exactly when it is negative; [x > 0]
    holds exactly when the value is positive for every [x] other than
    the minimum, and [getMinimum() > 0] is true. *)
Theorem sign_tests x :
  wf x ->
  (isZero x = true <-> value x = 0) /\
  (isNegative x = true <-> value x < 0) /\
  (eq_op x (HugeInt_ll 0) = true <-> value x = 0) /\
  (lt_op x (HugeInt_ll 0) = true <-> value x < 0) /\
  (x <> getMinimum -> (gt_op x (HugeInt_ll 0) = true <-> 0 < value x)) /\
  gt_op getMinimum (HugeInt_ll 0) = true.
Proof.
  intros Hx. rewrite HugeInt_ll_0.
  split; [apply isZero_value, Hx|]. split; [apply isNegative_value, Hx|].
  split; [rewrite (eq_op_value x _ Hx wf_default), value_default; reflexivity|].
  split; [apply lt_op_default, Hx|].
  split; [|vm_compute; reflexivity].
  intros Hne. rewrite (gt_op_value x _ Hx wf_default), value_default.
  pose proof (not_getMinimum x Hx Hne). pose proof (value_range x Hx).
  rewrite wrap_small by lia. lia.
Qed.

Lemma sign_tests_witness :
  (isZero (HugeInt_ll (-1)) = true <-> value (HugeInt_ll (-1)) = 0) /\
  (isNegative (HugeInt_ll (-1)) = true <-> value (HugeInt_ll (-1)) < 0) /\
  (eq_op (HugeInt_ll (-1)) (HugeInt_ll 0) = true <-> value (HugeInt_ll (-1)) = 0) /\
  (lt_op (HugeInt_ll (-1)) (HugeInt_ll 0) = true <-> value (HugeInt_ll (-1)) < 0) /\
  (HugeInt_ll (-1) <> getMinimum ->
   (gt_op (HugeInt_ll (-1)) (HugeInt_ll 0) = true <-> 0 < value (HugeInt_ll (-1)))) /\
  gt_op getMinimum (HugeInt_ll 0) = true.
Proof. apply (sign_tests (HugeInt_ll (-1))). vm_compute. reflexivity. Defined.

(** X10.  When the difference of the two values lies strictly between
    [-(2^32)^N/2] and [(2^32)^N/2], the six relational operators decide
    the corresponding relations between the values. *)
Theorem relational_operators_agree a b :
  wf a -> wf b ->
  - (modulus / 2) < value a - value b < modulus / 2 ->
  (lt_op a b = true <-> value a < value b) /\
  (gt_op a b = true <-> value a > value b) /\
  (le_op a b = true <-> value a <= value b) /\
  (ge_op a b = true <-> value a >= value b) /\
  (eq_op a b = true <-> value a = value b) /\
  (ne_op a b = true <-> value a <> value b).
Proof.
  intros Ha Hb Hd.
  pose proof (lt_op_value a b Ha Hb) as Hlt.
  pose proof (gt_op_value a b Ha Hb) as Hgt.
  rewrite wrap_small in Hlt by lia. rewrite wrap_small in Hgt by lia.
  pose proof (eq_op_value a b Ha Hb) as Heq.
  pose proof (eq_op_value b a Hb Ha) as Heq'.
  unfold le_op, ge_op, ne_op.
  destruct (lt_op a b), (gt_op a b), (eq_op a b), (eq_op b a); cbn [negb];
    repeat split; intros; try discriminate; try reflexivity; try lia.
Qed.

Lemma relational_operators_agree_witness :
  (lt_op (HugeInt_ll (-4)) getMinimum = true
   <-> value (HugeInt_ll (-4)) < value getMinimum) /\
  (gt_op (HugeInt_ll (-4)) getMinimum = true
   <-> value (HugeInt_ll (-4)) > value getMinimum) /\
  (le_op (HugeInt_ll (-4)) getMinimum = true
   <-> value (HugeInt_ll (-4)) <= value getMinimum) /\
  (ge_op (HugeInt_ll (-4)) getMinimum = true
   <-> value (HugeInt_ll (-4)) >= value getMinimum) /\
  (eq_op (HugeInt_ll (-4)) getMinimum = true
   <-> value (HugeInt_ll (-4)) = value getMinimum) /\
  (ne_op (HugeInt_ll (-4)) getMinimum = true
   <-> value (HugeInt_ll (-4)) <> value getMinimum).
Proof.
  apply (relational_operators_agree (HugeInt_ll (-4)) getMinimum);
    [vm_compute; reflexivity|apply wf_getMinimum|].
  rewrite value_getMinimum, (proj2 (HugeInt_ll_spec (-4) ltac:(lia))).
  pose proof modulus_large. pose proof modulus_quarter. lia.
Defined.

Lemma wrap_opp z : wrap (- wrap z) = wrap (- z).
Proof.
  rewrite <- (wrap_mod (- wrap z)), <- (wrap_mod (- z)). f_equal.
  pose proof modulus_pos.
  rewrite <- (Z.sub_0_l (wrap z)), <- (Z.sub_0_l z).
  rewrite <- Zminus_mod_idemp_r, wrap_mod_modulus, Zminus_mod_idemp_r.
  reflexivity.
Qed.

Lemma wrap_half : wrap (modulus / 2) = - (modulus / 2).
Proof.
  pose proof modulus_half. pose proof modulus_pos.
  rewrite <- (wrap_shift _ (-1)). rewrite wrap_small; lia.
Qed.

(** X11.  When the wrapped difference [a - b] is not the minimum, exactly one
    of [a < b], [a == b] and [a > b] holds, [a <= b] is [a < b || a == b]
    and [a >= b] is [a > b || a == b]; when it is the minimum, [a < b]
    and [a > b] are both true and [a <= b], [a >= b] and [a == b] are
    all false. *)
Theorem comparison_trichotomy a b :
  wf a -> wf b ->
  (sub a b <> getMinimum ->
   ((lt_op a b = true /\ eq_op a b = false /\ gt_op a b = false) \/
    (lt_op a b = false /\ eq_op a b = true /\ gt_op a b = false) \/
    (lt_op a b = false /\ eq_op a b = false /\ gt_op a b = true)) /\
   le_op a b = lt_op a b || eq_op a b /\
   ge_op a b = gt_op a b || eq_op a b) /\
  (sub a b = getMinimum ->
   lt_op a b = true /\ gt_op a b = true /\ eq_op a b = false /\
   le_op a b = false /\ ge_op a b = false).
Proof.
  intros Ha Hb.
  destruct (sub_spec a b Ha Hb) as [Hs _].
  destruct (sub_spec b a Hb Ha) as [Hs' _].
  pose proof (isNegative_value _ Hs) as Hlt.
  pose proof (isNegative_value _ Hs') as Hgt.
  pose proof (isZero_value _ Hs') as Heq.
  pose proof (value_range _ Hs) as Hr.
  assert (Hd : value (sub b a) = wrap (- value (sub a b))).
  { rewrite (sub_value b a Hb Ha), (sub_value a b Ha Hb), wrap_opp.
    f_equal. lia. }
  unfold le_op, ge_op, gt_op, lt_op, eq_op.
  pose proof modulus_half as HH. pose proof modulus_pos as HP.
  split.
  - intros Hne. pose proof (not_getMinimum _ Hs Hne) as Hm.
    rewrite wrap_small in Hd by lia.
    clear Hne Hs Hs'. revert Hlt Hgt Heq Hd Hm Hr.
    generalize (value (sub a b)) (value (sub b a)).
    generalize (isNegative (sub a b)) (isNegative (sub b a)) (isZero (sub b a)).
    clear. intros l g e d d' Hlt Hgt Heq Hd Hm Hr.
    destruct l, g, e; cbn [negb orb];
      repeat match goal with
             | |- _ /\ _ => split
             | |- ?x = ?x => reflexivity
             end;
      first [ left; split; [reflexivity|split; reflexivity]
            | right; left; split; [reflexivity|split; reflexivity]
            | right; right; split; [reflexivity|split; reflexivity]
            | exfalso; lia ].
  - intros E.
    assert (Hv : value (sub a b) = - (modulus / 2))
      by (rewrite E; apply value_getMinimum).
    rewrite Hv, Z.opp_involutive, wrap_half in Hd. rewrite Hv in Hlt.
    clear E Hs Hs' Hr Hv. revert Hlt Hgt Heq Hd.
    generalize (value (sub b a)).
    generalize (isNegative (sub a b)) (isNegative (sub b a)) (isZero (sub b a)).
    revert HH HP. generalize modulus. clear.
    intros M HH HP l g e d' Hlt Hgt Heq Hd.
    destruct l, g, e; cbn [negb orb];
      repeat match goal with
             | |- _ /\ _ => split
             | |- ?x = ?x => reflexivity
             end; exfalso; lia.
Qed.

Lemma comparison_trichotomy_witness :
  (sub (HugeInt_ll 2) (HugeInt_ll 9) <> getMinimum ->
   ((lt_op (HugeInt_ll 2) (HugeInt_ll 9) = true /\
     eq_op (HugeInt_ll 2) (HugeInt_ll 9) = false /\
     gt_op (HugeInt_ll 2) (HugeInt_ll 9) = false) \/
    (lt_op (HugeInt_ll 2) (HugeInt_ll 9) = false /\
     eq_op (HugeInt_ll 2) (HugeInt_ll 9) = true /\
     gt_op (HugeInt_ll 2) (HugeInt_ll 9) = false) \/
    (lt_op (HugeInt_ll 2) (HugeInt_ll 9) = false /\
     eq_op (HugeInt_ll 2) (HugeInt_ll 9) = false /\
     gt_op (HugeInt_ll 2) (HugeInt_ll 9) = true)) /\
   le_op (HugeInt_ll 2) (HugeInt_ll 9)
   = lt_op (HugeInt_ll 2) (HugeInt_ll 9) || eq_op (HugeInt_ll 2) (HugeInt_ll 9) /\
   ge_op (HugeInt_ll 2) (HugeInt_ll 9)
   = gt_op (HugeInt_ll 2) (HugeInt_ll 9) || eq_op (HugeInt_ll 2) (HugeInt_ll 9)) /\
  (sub (HugeInt_ll 2) (HugeInt_ll 9) = getMinimum ->
   lt_op (HugeInt_ll 2) (HugeInt_ll 9) = true /\
   gt_op (HugeInt_ll 2) (HugeInt_ll 9) = true /\
   eq_op (HugeInt_ll 2) (HugeInt_ll 9) = false /\
   le_op (HugeInt_ll 2) (HugeInt_ll 9) = false /\
   ge_op (HugeInt_ll 2) (HugeInt_ll 9) = false).
Proof.
  apply (comparison_trichotomy (HugeInt_ll 2) (HugeInt_ll 9));
    vm_compute; reflexivity.
Defined.

Lemma modulus_eq : modulus = 2 ^ 9600.
Proof.
  unfold modulus. rewrite base_eq. change 4294967296 with (2 ^ 32).
  rewrite <- Z.pow_mul_r by lia. reflexivity.
Qed.

Lemma modulus_half_eq : modulus / 2 = 2 ^ 9599.
Proof.
  rewrite modulus_eq. change 9600 with (Z.succ 9599).
  rewrite Z.pow_succ_r by lia. rewrite Z.mul_comm. apply Z.div_mul. lia.
Qed.

(** X12.  The extreme values: [getMinimum()] and [getMaximum()] are well formed
    with values [-2^9599] and [2^9599 - 1], the value of every
    well-formed object lies between them, the maximum plus 1 is the
    minimum, the minimum less 1 is the maximum, and the negated maximum
    is the minimum plus 1. *)
Theorem extreme_values :
  wf getMinimum /\ wf getMaximum /\
  value getMinimum = - 2 ^ 9599 /\
  value getMaximum = 2 ^ 9599 - 1 /\
  (forall x, wf x -> value getMinimum <= value x <= value getMaximum) /\
  add getMaximum (HugeInt_ll 1) = getMinimum /\
  sub getMinimum (HugeInt_ll 1) = getMaximum /\
  neg getMaximum = add getMinimum (HugeInt_ll 1).
Proof.
  pose proof wf_getMinimum as Wmin. pose proof wf_getMaximum as Wmax.
  pose proof value_getMinimum as Vmin. pose proof value_getMaximum as Vmax.
  pose proof modulus_half as HH. pose proof modulus_large as HL.
  pose proof modulus_quarter as HQ.
  split; [exact Wmin|]. split; [exact Wmax|].
  split; [rewrite Vmin, modulus_half_eq; reflexivity|].
  split; [rewrite Vmax, modulus_half_eq; reflexivity|].
  split.
  { intros x Hx. pose proof (value_range x Hx). rewrite Vmin, Vmax. lia. }
  split.
  { destruct (add_spec _ _ Wmax wf_one) as [W _].
    apply value_inj; [exact W|exact Wmin|].
    rewrite (add_value _ _ Wmax wf_one), Vmax, value_one, Vmin.
    replace (modulus / 2 - 1 + 1) with (modulus / 2) by lia.
    apply wrap_half. }
  split; [unfold getMaximum, getMinimum; exact eq_refl|].
  destruct (neg_spec _ Wmax) as [W _].
  destruct (add_spec _ _ Wmin wf_one) as [W' _].
  apply value_inj; [exact W|exact W'|].
  rewrite (neg_value _ Wmax), (add_value _ _ Wmin wf_one), Vmax, Vmin, value_one.
  replace (- (modulus / 2 - 1)) with (- (modulus / 2) + 1) by lia.
  exact eq_refl.
Qed.

Lemma trim_below ds k :
  digits_ok ds -> length ds = numDigits_ ->
  uval ds < base_ ^ Z.of_nat k -> (trim ds numDigits_ <= k)%nat.
Proof.
  intros Hok Hlen Hlt.
  destruct (trim ds numDigits_) as [|j] eqn:E; [lia|].
  destruct (Nat.le_gt_cases (S j) k) as [|Hgt]; [assumption|exfalso].
  pose proof (trim_top_nonzero _ _ _ E) as Hnz.
  pose proof (trim_le ds numDigits_) as Hle. rewrite E in Hle.
  pose proof (uval_ge_top ds j Hok ltac:(lia)) as Hge.
  pose proof (digit_range ds j Hok) as Hr.
  assert (base_ ^ Z.of_nat k <= base_ ^ Z.of_nat j).
  { apply Z.pow_le_mono_r; [rewrite base_eq|]; lia. }
  pose proof (base_pow_pos j). nia.
Qed.

Lemma trim_above ds k :
  digits_ok ds -> length ds = numDigits_ ->
  base_ ^ Z.of_nat k <= uval ds -> (k < trim ds numDigits_)%nat.
Proof.
  intros Hok Hlen Hge.
  destruct (Nat.le_gt_cases (trim ds numDigits_) k) as [Hle|]; [exfalso|assumption].
  pose proof (trim_le ds numDigits_) as Hm.
  assert (Hz : forall j, (trim ds numDigits_ <= j < length ds)%nat -> digit ds j = 0).
  { intros j Hj. apply (trim_zero_above _ numDigits_). lia. }
  rewrite (uval_take_significant ds _ Hz) in Hge.
  assert (Hlow : digits_ok (take (trim ds numDigits_) ds)) by (apply Forall_take; exact Hok).
  apply uval_bound in Hlow. rewrite length_take_le in Hlow by lia.
  assert (base_ ^ Z.of_nat (trim ds numDigits_) <= base_ ^ Z.of_nat k).
  { apply Z.pow_le_mono_r; [rewrite base_eq|]; lia. }
  lia.
Qed.

Lemma length_default : length (digits_ HugeInt_default) = numDigits_.
Proof. apply length_replicate. Qed.

(** X15.  The short paths of [unsigned_divide]: for a nonzero divisor of one
    digit, and for a dividend of fewer digits than the divisor, the
    quotient returned is the quotient of the unsigned values and the
    remainder left in a zero-initialised object is their remainder,
    whether a remainder is asked for or not. *)
Theorem unsigned_divide_short_exact a b k :
  wf a -> wf b ->
  0 < uval (digits_ b) < base_ \/
  uval (digits_ a) < base_ ^ Z.of_nat k <= uval (digits_ b) ->
  exists q r,
    unsigned_divide a b None = Done (q, None) /\
    unsigned_divide a b (Some HugeInt_default) = Done (q, Some r) /\
    wf q /\ wf r /\
    uval (digits_ q) = uval (digits_ a) / uval (digits_ b) /\
    uval (digits_ r) = uval (digits_ a) mod uval (digits_ b).
Proof.
  intros Ha Hb [Hone|Hfew].
  - destruct (unsigned_divide_single_digit a b Ha Hb Hone)
      as (q & r & H1 & H2 & Hq & Hr & Huq & Hur).
    exists q, r. repeat split; assumption.
  - pose proof Ha as Ha'. pose proof Hb as Hb'.
    apply wf_spec in Ha' as [Hla Hoka]. apply wf_spec in Hb' as [Hlb Hokb].
    pose proof (trim_below _ k Hoka Hla ltac:(lia)) as Hm.
    pose proof (trim_above _ k Hokb Hlb ltac:(lia)) as Hn.
    pose proof (base_pow_pos k) as Hk.
    pose proof (uval_range a Ha) as Hra.
    destruct (unsigned_divide_short_cases a b Ha Hb ltac:(lia) ltac:(left; lia))
      as (q & r & Hd & Hq & Hr & Hid & Hrem).
    pose proof (uval_range q Hq) as Hrq.
    assert (Hq0 : uval (digits_ q) = 0) by nia.
    assert (q = HugeInt_default) as ->
      by (apply wf_eq; [exact Hq|apply wf_default|rewrite uval_default; exact Hq0]).
    exists HugeInt_default, r.
    split.
    { apply (unsigned_divide_case_1 a b None Ha Hb); [intros r0 [=]|lia]. }
    split; [exact Hd|]. split; [exact Hq|]. split; [exact Hr|].
    rewrite uval_default in *.
    rewrite Z.div_small, Z.mod_small by lia. lia.
Qed.

Lemma unsigned_divide_short_exact_witness :
  exists q r,
    unsigned_divide (HugeInt_ll 1000000007) (HugeInt_ll 97) None = Done (q, None) /\
    unsigned_divide (HugeInt_ll 1000000007) (HugeInt_ll 97) (Some HugeInt_default)
    = Done (q, Some r) /\
    wf q /\ wf r /\
    uval (digits_ q)
    = uval (digits_ (HugeInt_ll 1000000007)) / uval (digits_ (HugeInt_ll 97)) /\
    uval (digits_ r)
    = uval (digits_ (HugeInt_ll 1000000007)) mod uval (digits_ (HugeInt_ll 97)).
Proof.
  apply (unsigned_divide_short_exact (HugeInt_ll 1000000007) (HugeInt_ll 97) 0);
    [vm_compute; reflexivity|vm_compute; reflexivity|].
  left. vm_compute. split; reflexivity.
Defined.

(** X16.  Signed division by a nonzero divisor of one digit, for every
    dividend other than the minimum: [a / b] and [a % b] are the
    quotient and the remainder truncated toward zero, the value of [a]
    is quotient times divisor plus remainder, and
    [(a / b) * b + (a % b) == a]. *)
Theorem div_rem_one_digit_divisor a b :
  wf a -> wf b ->
  - (modulus / 2) < value a -> 0 < Z.abs (value b) < base_ ->
  exists q r,
    div a b = Done q /\ rem a b = Done r /\ wf q /\ wf r /\
    value q = Z.quot (value a) (value b) /\
    value r = Z.rem (value a) (value b) /\
    value a = value q * value b + value r /\
    eq_op (add (mul q b) r) a = true.
Proof.
  intros Ha Hb Hmin Hone.
  destruct (div_rem_single_digit a b Ha Hb Hmin Hone)
    as (q & r & Hd & Hr & Wq & Wr & Vq & Vr & Hid).
  exists q, r. split; [exact Hd|]. split; [exact Hr|].
  split; [exact Wq|]. split; [exact Wr|]. split; [exact Vq|].
  split; [exact Vr|]. split; [|exact Hid].
  rewrite Vq, Vr. pose proof (Z.quot_rem' (value a) (value b)). lia.
Qed.

Lemma div_rem_one_digit_divisor_witness :
  exists q r,
    div (HugeInt_ll (-100)) (HugeInt_ll 7) = Done q /\
    rem (HugeInt_ll (-100)) (HugeInt_ll 7) = Done r /\ wf q /\ wf r /\
    value q = Z.quot (value (HugeInt_ll (-100))) (value (HugeInt_ll 7)) /\
    value r = Z.rem (value (HugeInt_ll (-100))) (value (HugeInt_ll 7)) /\
    value (HugeInt_ll (-100)) = value q * value (HugeInt_ll 7) + value r /\
    eq_op (add (mul q (HugeInt_ll 7)) r) (HugeInt_ll (-100)) = true.
Proof.
  apply (div_rem_one_digit_divisor (HugeInt_ll (-100)) (HugeInt_ll 7));
    [vm_compute; reflexivity|vm_compute; reflexivity| |].
  - rewrite (proj2 (HugeInt_ll_spec (-100) ltac:(lia))).
    pose proof modulus_large. pose proof modulus_quarter. lia.
  - rewrite (proj2 (HugeInt_ll_spec 7 ltac:(lia))), base_eq. lia.
Defined.

Lemma unsigned_divide_by_zero a b remainder :
  wf a -> wf b -> uval (digits_ b) = 0 -> uval (digits_ a) <> 0 ->
  unsigned_divide a b remainder = DivisionByZero.
Proof.
  intros Ha Hb Hb0 Ha0.
  apply wf_spec in Ha as [Hla Hoka]. apply wf_spec in Hb as [Hlb Hokb].
  pose proof numDigits_pos as HN.
  pose proof (proj1 (uval_zero_iff _ Hokb) Hb0) as Hbz.
  assert (Hn : trim (digits_ b) numDigits_ = O).
  { apply trim_zero_iff. intros j Hj. apply Hbz. lia. }
  assert (Hm : trim (digits_ a) numDigits_ <> O).
  { intros E. apply Ha0. apply uval_zero_iff; [exact Hoka|].
    intros j Hj. apply (proj1 (trim_zero_iff _ _) E). lia. }
  pose proof (trim_le (digits_ a) numDigits_) as Hmle.
  unfold unsigned_divide.
  rewrite !significant_trim by lia. cbn [mbind outcome_bind]. rewrite Hn.
  destruct (trim (digits_ a) numDigits_) as [|m]; [congruence|].
  destruct (Z.ltb_spec (Z.of_nat (S m)) (Z.of_nat 0)) as [|_]; [lia|].
  change (Z.of_nat 0 <? 2) with true. cbv iota.
  unfold for_downto.
  replace (Z.to_nat (Z.of_nat (S m) - 1 - 0 + 1)) with (S m) by lia.
  cbn [downto_].
  rewrite (get_in_range (digits_ a)) by lia. cbn [mbind outcome_bind].
  rewrite (get_in_range (digits_ b) 0) by lia. cbn [mbind outcome_bind].
  change (Z.to_nat 0) with O. rewrite (Hbz O) by lia.
  reflexivity.
Qed.

(** X17.  Division by zero is not guarded: for every nonzero [a], whatever
    its sign, [a / 0] and [a % 0] divide by the zero digit of the
    divisor; [0 / 0] and [0 % 0] divide nothing, the dividend having no
    significant digit, and return 0. *)
Theorem division_by_zero a :
  wf a ->
  (a <> HugeInt_ll 0 ->
   div a (HugeInt_ll 0) = DivisionByZero /\
   rem a (HugeInt_ll 0) = DivisionByZero) /\
  div (HugeInt_ll 0) (HugeInt_ll 0) = Done (HugeInt_ll 0) /\
  rem (HugeInt_ll 0) (HugeInt_ll 0) = Done (HugeInt_ll 0).
Proof.
  intros Ha. split; [|split; vm_compute; reflexivity].
  intros Hne.
  destruct (magnitude_operand a Ha) as (Hw & Hu & Hs).
  assert (Hnz : uval (digits_ (if lt_op a (HugeInt_ll 0) then neg a else a)) <> 0).
  { rewrite Hu. intros E. apply Hne. rewrite HugeInt_ll_0.
    apply value_inj; [exact Ha|apply wf_default|]. rewrite value_default. lia. }
  assert (Hb : lt_op (HugeInt_ll 0) (HugeInt_ll 0) = false)
    by (vm_compute; reflexivity).
  unfold div, rem. rewrite Hb.
  destruct (lt_op a (HugeInt_ll 0)); cbv iota in Hw, Hnz;
    pose proof (unsigned_divide_by_zero _ (HugeInt_ll 0) None
                  Hw wf_default uval_default Hnz) as E1;
    pose proof (unsigned_divide_by_zero _ (HugeInt_ll 0) (Some HugeInt_default)
                  Hw wf_default uval_default Hnz) as E2;
    rewrite E1, E2; split; exact eq_refl.
Qed.

Lemma division_by_zero_witness :
  (getMinimum <> HugeInt_ll 0 ->
   div getMinimum (HugeInt_ll 0) = DivisionByZero /\
   rem getMinimum (HugeInt_ll 0) = DivisionByZero) /\
  div (HugeInt_ll 0) (HugeInt_ll 0) = Done (HugeInt_ll 0) /\
  rem (HugeInt_ll 0) (HugeInt_ll 0) = Done (HugeInt_ll 0).
Proof. apply (division_by_zero getMinimum). vm_compute. reflexivity. Defined.

Lemma overwrite_loop src dst :
  length src = numDigits_ -> length dst = numDigits_ ->
  for_up 0 numDigits_ (fun i ds => <[i := digit src i]> ds) dst = src.
Proof.
  intros Hl Hd.
  pose (P := fun (i : nat) (ds : list Z) =>
    length ds = numDigits_ /\ take i ds = take i src).
  assert (H : P (0 + numDigits_)%nat
                (for_up 0 numDigits_ (fun i ds => <[i := digit src i]> ds) dst)).
  { apply for_up_ind.
    - unfold P. rewrite !take_0. auto.
    - intros i ds Hi [Hl' Ht]. unfold P. rewrite length_insert.
      split; [assumption|].
      rewrite (take_S_r _ i (digit src i)) by (apply list_lookup_insert_eq; lia).
      rewrite (take_S_r src i (digit src i)) by (apply digit_lookup; lia).
      rewrite take_insert_ge by lia. rewrite Ht. reflexivity. }
  destruct H as [Hl' Ht]. cbn [plus] in Ht.
  rewrite !take_ge in Ht by lia. exact Ht.
Qed.

Lemma HugeInt_copy_spec x : length (digits_ x) = numDigits_ -> HugeInt_copy x = x.
Proof.
  intros Hl. unfold HugeInt_copy. rewrite overwrite_loop.
  - apply mkHugeInt_digits.
  - exact Hl.
  - apply length_replicate.
Qed.

Lemma assign_spec this rhs :
  length (digits_ this) = numDigits_ -> length (digits_ rhs) = numDigits_ ->
  assign this rhs = rhs.
Proof.
  intros Ht Hr. unfold assign. rewrite overwrite_loop by assumption.
  apply mkHugeInt_digits.
Qed.

Lemma wf_length x : wf x -> length (digits_ x) = numDigits_.
Proof. intros H. apply wf_spec in H. tauto. Qed.

Lemma not_getMaximum x :
  wf x -> x <> getMaximum -> value x < modulus / 2 - 1.
Proof.
  intros Hx Hne. pose proof (value_range x Hx).
  destruct (Z.eq_dec (value x) (modulus / 2 - 1)) as [E|]; [|lia].
  exfalso. apply Hne. apply value_inj; [exact Hx|apply wf_getMaximum|].
  rewrite value_getMaximum. exact E.
Qed.

(** X13.  Increment and decrement: the prefix forms leave a well-formed object
    whose value is the old value plus or less 1, reduced into the
    representable range (exact but at the maximum and at the minimum,
    where they wrap to the other end), each undoes the other, and the
    postfix forms return the old object and leave what the prefix forms
    leave. *)
Theorem increment_decrement x :
  wf x ->
  wf (pre_increment x) /\ wf (pre_decrement x) /\
  value (pre_increment x) = wrap (value x + 1) /\
  value (pre_decrement x) = wrap (value x - 1) /\
  (x <> getMaximum -> value (pre_increment x) = value x + 1) /\
  (x <> getMinimum -> value (pre_decrement x) = value x - 1) /\
  pre_decrement (pre_increment x) = x /\
  pre_increment (pre_decrement x) = x /\
  post_increment x = (x, pre_increment x) /\
  post_decrement x = (x, pre_decrement x) /\
  pre_increment getMaximum = getMinimum /\
  pre_decrement getMinimum = getMaximum.
Proof.
  intros Hx. pose proof (wf_length x Hx) as Hl.
  destruct (add_spec x _ Hx wf_one) as [Wi Ui].
  destruct (sub_spec x _ Hx wf_one) as [Wd Ud].
  pose proof (assign_spec x _ Hl (wf_length _ Wi)) as Ei.
  pose proof (assign_spec x _ Hl (wf_length _ Wd)) as Ed.
  change (assign x (add x (HugeInt_ll 1))) with (pre_increment x) in Ei.
  change (assign x (sub x (HugeInt_ll 1))) with (pre_decrement x) in Ed.
  pose proof modulus_half as HH.
  split; [rewrite Ei; exact Wi|]. split; [rewrite Ed; exact Wd|].
  split; [rewrite Ei, (add_value _ _ Hx wf_one), value_one; reflexivity|].
  split; [rewrite Ed, (sub_value _ _ Hx wf_one), value_one; reflexivity|].
  split.
  { intros Hne. rewrite Ei, (add_value _ _ Hx wf_one), value_one.
    pose proof (not_getMaximum x Hx Hne). pose proof (value_range x Hx).
    apply wrap_small. lia. }
  split.
  { intros Hne. rewrite Ed, (sub_value _ _ Hx wf_one), value_one.
    pose proof (not_getMinimum x Hx Hne). pose proof (value_range x Hx).
    apply wrap_small. lia. }
  split.
  { unfold pre_decrement. rewrite assign_spec.
    - rewrite Ei. destruct (sub_spec _ _ Wi wf_one) as [W U].
      apply wf_eq; [exact W|exact Hx|].
      rewrite U, Ui, uval_one, Zminus_mod_idemp_l.
      replace (uval (digits_ x) + 1 - 1) with (uval (digits_ x)) by lia.
      apply Z.mod_small, uval_range, Hx.
    - rewrite Ei. apply wf_length, Wi.
    - rewrite Ei. apply wf_length. apply sub_spec; [exact Wi|apply wf_one]. }
  split.
  { unfold pre_increment. rewrite assign_spec.
    - rewrite Ed. destruct (add_spec _ _ Wd wf_one) as [W U].
      apply wf_eq; [exact W|exact Hx|].
      rewrite U, Ud, uval_one, Zplus_mod_idemp_l.
      replace (uval (digits_ x) - 1 + 1) with (uval (digits_ x)) by lia.
      apply Z.mod_small, uval_range, Hx.
    - rewrite Ed. apply wf_length, Wd.
    - rewrite Ed. apply wf_length. apply add_spec; [exact Wd|apply wf_one]. }
  split; [unfold post_increment; rewrite (HugeInt_copy_spec x Hl); reflexivity|].
  split; [unfold post_decrement; rewrite (HugeInt_copy_spec x Hl); reflexivity|].
  split.
  - unfold pre_increment. rewrite assign_spec.
    + destruct (add_spec _ _ wf_getMaximum wf_one) as [W _].
      apply value_inj; [exact W|apply wf_getMinimum|].
      rewrite (add_value _ _ wf_getMaximum wf_one), value_getMaximum, value_one,
        value_getMinimum.
      replace (modulus / 2 - 1 + 1) with (modulus / 2) by lia.
      apply wrap_half.
    + apply wf_length, wf_getMaximum.
    + apply wf_length. apply add_spec; [apply wf_getMaximum|apply wf_one].
  - unfold pre_decrement. rewrite assign_spec.
    + unfold getMaximum, getMinimum. exact eq_refl.
    + apply wf_length, wf_getMinimum.
    + apply wf_length. apply sub_spec; [apply wf_getMinimum|apply wf_one].
Qed.

Lemma increment_decrement_witness :
  wf (pre_increment (HugeInt_ll (-1))) /\ wf (pre_decrement (HugeInt_ll (-1))) /\
  value (pre_increment (HugeInt_ll (-1))) = wrap (value (HugeInt_ll (-1)) + 1) /\
  value (pre_decrement (HugeInt_ll (-1))) = wrap (value (HugeInt_ll (-1)) - 1) /\
  (HugeInt_ll (-1) <> getMaximum ->
   value (pre_increment (HugeInt_ll (-1))) = value (HugeInt_ll (-1)) + 1) /\
  (HugeInt_ll (-1) <> getMinimum ->
   value (pre_decrement (HugeInt_ll (-1))) = value (HugeInt_ll (-1)) - 1) /\
  pre_decrement (pre_increment (HugeInt_ll (-1))) = HugeInt_ll (-1) /\
  pre_increment (pre_decrement (HugeInt_ll (-1))) = HugeInt_ll (-1) /\
  post_increment (HugeInt_ll (-1))
  = (HugeInt_ll (-1), pre_increment (HugeInt_ll (-1))) /\
  post_decrement (HugeInt_ll (-1))
  = (HugeInt_ll (-1), pre_decrement (HugeInt_ll (-1))) /\
  pre_increment getMaximum = getMinimum /\
  pre_decrement getMinimum = getMaximum.
Proof. apply (increment_decrement (HugeInt_ll (-1))). vm_compute. reflexivity. Defined.

(** X14.  Compound assignment: [a += b], [a -= b] and [a *= b] leave in [a]
    the object [a + b], [a - b], [a * b]; [a += b] followed by [a -= b]
    restores [a]; for a nonzero divisor of one digit and [a] other than
    the minimum, [a /= b] and [a %= b] leave the quotient and the
    remainder truncated toward zero. *)
Theorem compound_assignment a b :
  wf a -> wf b ->
  add_assign a b = add a b /\ sub_assign a b = sub a b /\
  mul_assign a b = mul a b /\
  value (add_assign a b) = wrap (value a + value b) /\
  value (sub_assign a b) = wrap (value a - value b) /\
  value (mul_assign a b) = wrap (value a * value b) /\
  sub_assign (add_assign a b) b = a /\
  (0 < Z.abs (value b) < base_ -> - (modulus / 2) < value a ->
   exists q r,
     div_assign a b = Done q /\ rem_assign a b = Done r /\
     value q = Z.quot (value a) (value b) /\
     value r = Z.rem (value a) (value b)).
Proof.
  intros Ha Hb. pose proof (wf_length a Ha) as Hl.
  destruct (add_spec a b Ha Hb) as [Wa Ua].
  destruct (sub_spec a b Ha Hb) as [Ws Us].
  destruct (mul_spec a b Ha Hb) as [Wm Um].
  pose proof (assign_spec a _ Hl (wf_length _ Wa)) as Ea.
  pose proof (assign_spec a _ Hl (wf_length _ Ws)) as Es.
  pose proof (assign_spec a _ Hl (wf_length _ Wm)) as Em.
  change (assign a (add a b)) with (add_assign a b) in Ea.
  change (assign a (sub a b)) with (sub_assign a b) in Es.
  change (assign a (mul a b)) with (mul_assign a b) in Em.
  split; [exact Ea|]. split; [exact Es|]. split; [exact Em|].
  split; [rewrite Ea; apply add_value; assumption|].
  split; [rewrite Es; apply sub_value; assumption|].
  split; [rewrite Em; apply mul_value; assumption|].
  split.
  { unfold sub_assign. rewrite assign_spec.
    - rewrite Ea. destruct (sub_spec _ _ Wa Hb) as [W U].
      apply wf_eq; [exact W|exact Ha|].
      rewrite U, Ua, Zminus_mod_idemp_l.
      replace (uval (digits_ a) + uval (digits_ b) - uval (digits_ b))
        with (uval (digits_ a)) by lia.
      apply Z.mod_small, uval_range, Ha.
    - rewrite Ea. apply wf_length, Wa.
    - rewrite Ea. apply wf_length. apply sub_spec; [exact Wa|exact Hb]. }
  intros Hone Hmin.
  destruct (div_rem_single_digit a b Ha Hb Hmin Hone)
    as (q & r & Hd & Hr & Wq & Wr & Vq & Vr & _).
  exists q, r. unfold div_assign, rem_assign. rewrite Hd, Hr.
  cbn [mbind outcome_bind].
  rewrite !assign_spec by (try exact Hl; apply wf_length; assumption).
  split; [reflexivity|]. split; [reflexivity|]. split; assumption.
Qed.

Lemma compound_assignment_witness :
  add_assign (HugeInt_ll (-20)) (HugeInt_ll 6) = add (HugeInt_ll (-20)) (HugeInt_ll 6) /\
  sub_assign (HugeInt_ll (-20)) (HugeInt_ll 6) = sub (HugeInt_ll (-20)) (HugeInt_ll 6) /\
  mul_assign (HugeInt_ll (-20)) (HugeInt_ll 6) = mul (HugeInt_ll (-20)) (HugeInt_ll 6) /\
  value (add_assign (HugeInt_ll (-20)) (HugeInt_ll 6))
  = wrap (value (HugeInt_ll (-20)) + value (HugeInt_ll 6)) /\
  value (sub_assign (HugeInt_ll (-20)) (HugeInt_ll 6))
  = wrap (value (HugeInt_ll (-20)) - value (HugeInt_ll 6)) /\
  value (mul_assign (HugeInt_ll (-20)) (HugeInt_ll 6))
  = wrap (value (HugeInt_ll (-20)) * value (HugeInt_ll 6)) /\
  sub_assign (add_assign (HugeInt_ll (-20)) (HugeInt_ll 6)) (HugeInt_ll 6)
  = HugeInt_ll (-20) /\
  (0 < Z.abs (value (HugeInt_ll 6)) < base_ ->
   - (modulus / 2) < value (HugeInt_ll (-20)) ->
   exists q r,
     div_assign (HugeInt_ll (-20)) (HugeInt_ll 6) = Done q /\
     rem_assign (HugeInt_ll (-20)) (HugeInt_ll 6) = Done r /\
     value q = Z.quot (value (HugeInt_ll (-20))) (value (HugeInt_ll 6)) /\
     value r = Z.rem (value (HugeInt_ll (-20))) (value (HugeInt_ll 6))).
Proof.
  apply (compound_assignment (HugeInt_ll (-20)) (HugeInt_ll 6));
    vm_compute; reflexivity.
Defined.

(** ** Decimal digits of a machine integer *)

Lemma list_ascii_app (s t : string) :
  list_ascii_of_string (s ++ t)
  = (list_ascii_of_string s ++ list_ascii_of_string t)%list.
Proof.
  induction s as [|c s IH]; [reflexivity|].
  change (String c s ++ t) with (String c (s ++ t)).
  cbn [list_ascii_of_string]. rewrite IH. reflexivity.
Qed.

Lemma decimal_value_app ds es :
  decimal_value (ds ++ es)
  = decimal_value ds * 10 ^ Z.of_nat (length es) + decimal_value es.
Proof.
  unfold decimal_value at 1. rewrite fold_left_app.
  fold (decimal_value ds). apply decimal_value_acc.
Qed.

Lemma decimal_char_value n :
  digit_value (ascii_of_N (Z.to_N (48 + n mod 10))) = n mod 10.
Proof.
  pose proof (Z.mod_pos_bound n 10 ltac:(lia)) as Hm.
  unfold digit_value. rewrite N_ascii_embedding.
  - rewrite Z2N.id by lia. lia.
  - apply N2Z.inj_lt. rewrite Z2N.id by lia. cbn. lia.
Qed.

Lemma decimal__spec fuel :
  forall n acc,
    (0 < fuel)%nat -> 0 <= n < 10 ^ Z.of_nat fuel ->
    exists ds,
      list_ascii_of_string (decimal_ fuel n acc)
      = (ds ++ list_ascii_of_string acc)%list /\
      forallb isdigit ds = true /\
      decimal_value ds = n /\
      (0 < length ds <= fuel)%nat /\
      (n < 10 -> length ds = 1%nat) /\
      (10 <= n -> 10 ^ Z.of_nat (length ds - 1) <= n < 10 ^ Z.of_nat (length ds)).
Proof.
  induction fuel as [|fuel IH]; intros n acc Hf Hn; [lia|].
  cbn [decimal_].
  set (c := ascii_of_N (Z.to_N (48 + n mod 10))).
  pose proof (Z.mod_pos_bound n 10 ltac:(lia)) as Hm.
  pose proof (Z.div_mod n 10 ltac:(lia)) as Hdm.
  destruct (Z.eqb_spec (n / 10) 0) as [E|E].
  - exists [c]. cbn [list_ascii_of_string app forallb length].
    split; [reflexivity|].
    split; [subst c; rewrite decimal_char_isdigit; reflexivity|].
    split; [unfold decimal_value; cbn [fold_left]; subst c;
            rewrite decimal_char_value; lia|].
    split; [lia|]. split; [reflexivity|]. intros Hbig. lia.
  - assert (Hq : 0 <= n / 10 < 10 ^ Z.of_nat fuel).
    { rewrite Nat2Z.inj_succ, Z.pow_succ_r in Hn by lia.
      split; [apply Z.div_pos; lia|apply Z.div_lt_upper_bound; lia]. }
    assert (Hf' : (0 < fuel)%nat).
    { destruct fuel; [|lia]. cbn in Hq. lia. }
    destruct (IH (n / 10) (String c acc) Hf' Hq)
      as (ds & Hds & Hdig & Hval & Hlen & Hsmall & Hbig).
    exists (ds ++ [c])%list.
    split; [rewrite Hds; cbn [list_ascii_of_string]; rewrite <- app_assoc;
            reflexivity|].
    split; [rewrite forallb_app, Hdig; cbn [forallb]; subst c;
            rewrite decimal_char_isdigit; reflexivity|].
    split.
    { rewrite decimal_value_app, Hval. cbn [length].
      unfold decimal_value; cbn [fold_left]. subst c.
      rewrite decimal_char_value. change (10 ^ Z.of_nat 1) with 10. lia. }
    rewrite length_app; cbn [length].
    split; [lia|]. split; [intros; lia|]. intros _.
    replace (length ds + 1 - 1)%nat with (length ds) by lia.
    replace (Z.of_nat (length ds + 1)) with (Z.succ (Z.of_nat (length ds))) by lia.
    rewrite Z.pow_succ_r by lia.
    destruct (Z.lt_ge_cases (n / 10) 10) as [Hlt|Hge].
    + rewrite (Hsmall Hlt). change (10 ^ Z.of_nat 1) with 10. lia.
    + specialize (Hbig Hge).
      replace (Z.of_nat (length ds)) with (Z.succ (Z.of_nat (length ds - 1))) at 1 by lia.
      rewrite Z.pow_succ_r by lia. lia.
Qed.

Lemma decimal_spec n :
  0 <= n < 10 ^ 10 ->
  exists ds,
    list_ascii_of_string (decimal n) = ds /\
    forallb isdigit ds = true /\ decimal_value ds = n /\
    (0 < length ds <= 10)%nat /\
    (n < 10 -> length ds = 1%nat) /\
    (10 <= n -> 10 ^ Z.of_nat (length ds - 1) <= n < 10 ^ Z.of_nat (length ds)).
Proof.
  intros Hn. destruct (decimal__spec 10 n "" ltac:(lia) Hn) as (ds & H & Hrest).
  exists ds. cbn [list_ascii_of_string] in H. rewrite app_nil_r in H.
  split; [exact H|exact Hrest].
Qed.

Lemma string_length_list s : String.length s = length (list_ascii_of_string s).
Proof. induction s as [|c s IH]; cbn; [|rewrite IH]; reflexivity. Qed.

Lemma decimal_value_zero_l ds : decimal_value ("0"%char :: ds) = decimal_value ds.
Proof. rewrite decimal_value_cons. change (digit_value "0") with 0. lia. Qed.

(** A group below 1000 is shown by three digits. *)
Lemma decimal_w3_spec t :
  0 <= t < 1000 ->
  exists ds,
    list_ascii_of_string (decimal_w3 t) = ds /\
    forallb isdigit ds = true /\ decimal_value ds = t /\ length ds = 3%nat.
Proof.
  intros Ht.
  destruct (decimal_spec t ltac:(lia)) as (ds & Hds & Hdig & Hval & Hlen & Hsmall & Hbig).
  unfold decimal_w3. rewrite string_length_list, Hds.
  assert (Hl3 : (length ds <= 3)%nat).
  { destruct (Z.lt_ge_cases t 10) as [Hlt|Hge]; [rewrite (Hsmall Hlt); lia|].
    specialize (Hbig Hge).
    destruct (Nat.le_gt_cases (length ds) 3) as [|Hgt]; [assumption|exfalso].
    assert (10 ^ 3 <= 10 ^ Z.of_nat (length ds - 1))
      by (apply Z.pow_le_mono_r; lia).
    lia. }
  destruct (length ds) as [|[|[|[|k]]]] eqn:E; try lia.
  - exists ("0"%char :: "0"%char :: ds)%list.
    change ("00" ++ decimal t) with (String "0" (String "0" (decimal t))).
    cbn [list_ascii_of_string forallb length]. rewrite Hds, Hdig, E.
    rewrite !decimal_value_zero_l. repeat split; try reflexivity. exact Hval.
  - exists ("0"%char :: ds)%list.
    change ("0" ++ decimal t) with (String "0" (decimal t)).
    cbn [list_ascii_of_string forallb length]. rewrite Hds, Hdig, E.
    rewrite !decimal_value_zero_l. repeat split; try reflexivity. exact Hval.
  - exists ds. rewrite Hds. repeat split; assumption.
Qed.

Lemma thousands_snoc ts t : thousands (ts ++ [t]) = 1000 * thousands ts + t.
Proof. unfold thousands. rewrite fold_left_app. reflexivity. Qed.

(** The loop that collects the groups: it stores the base-1000 digits
    of [copy], least significant first, from index [i] on. *)
Lemma triples_loop_groups fuel :
  forall copy i triples,
    wf copy ->
    uval (digits_ copy) < 1000 ^ (Z.of_nat fuel - 1) ->
    (i + fuel <= length triples + 1)%nat ->
    exists groups,
      triples_loop fuel copy (Z.of_nat i) triples
      = Done ((take i triples ++ reverse groups
               ++ drop (i + length groups) triples)%list,
              Z.of_nat (i + length groups)) /\
      (i + length groups <= length triples)%nat /\
      thousands groups = uval (digits_ copy) /\
      Forall (fun t => 0 <= t < 1000) groups /\
      match groups with [] => True | t :: _ => 0 < t end.
Proof.
  induction fuel as [|fuel IH]; intros copy i triples Hc Hu Hlen.
  { pose proof (uval_range copy Hc). cbn in Hu. lia. }
  pose proof (uval_range copy Hc) as Hr.
  rewrite triples_loop_S, HugeInt_ll_0.
  destruct (Z.eq_dec (uval (digits_ copy)) 0) as [E|E].
  { assert (ne_op copy HugeInt_default = false) as ->.
    { apply not_true_iff_false. rewrite (ne_op_default copy Hc). lia. }
    exists []. cbn [reverse length app]. rewrite Nat.add_0_r.
    change (reverse []) with (@nil Z). cbn [app].
    rewrite take_drop. split; [reflexivity|].
    split; [lia|]. split; [symmetry; exact E|]. split; [constructor|exact I]. }
  rewrite (proj2 (ne_op_default copy Hc) E).
  assert (Hf : (0 < fuel)%nat).
  { destruct fuel; [|lia]. cbn in Hu. lia. }
  replace (Z.of_nat (S fuel) - 1) with (Z.succ (Z.of_nat fuel - 1)) in Hu by lia.
  rewrite Z.pow_succ_r in Hu by lia.
  destruct (shortDivide_spec copy 1000 Hc) as (Hq & Huq & Hrem);
    [rewrite base_eq; lia|].
  destruct (shortDivide copy 1000) as [q r]. cbn [fst snd] in *.
  pose proof (Z.mod_pos_bound (uval (digits_ copy)) 1000 ltac:(lia)) as Hmod.
  pose proof (Z.div_mod (uval (digits_ copy)) 1000 ltac:(lia)) as Hdm.
  unfold set.
  destruct (Z.leb_spec 0 (Z.of_nat i)) as [_|]; [|lia].
  destruct (Z.ltb_spec (Z.of_nat i) (Z.of_nat (length triples))) as [_|]; [|lia].
  cbn [andb mbind outcome_bind]. rewrite Nat2Z.id.
  destruct (IH q (S i) (<[i := r]> triples)) as (groups & Hk & Hl' & Hval & Hall & Hhead).
  - exact Hq.
  - rewrite Huq. apply Z.div_lt_upper_bound; lia.
  - rewrite length_insert. lia.
  - rewrite length_insert in Hl'.
    replace (Z.of_nat i + 1) with (Z.of_nat (S i)) by lia. rewrite Hk.
    exists (groups ++ [r])%list. rewrite length_app. cbn [length].
    split.
    { f_equal. f_equal; [|f_equal; lia].
      rewrite reverse_app. change (reverse [r]) with [r]. cbn [app].
      rewrite (take_S_r _ i r) by (apply list_lookup_insert_eq; lia).
      rewrite take_insert_ge by lia.
      rewrite drop_insert_lt by lia.
      rewrite <- app_assoc. cbn [app].
      replace (i + (length groups + 1))%nat with (S i + length groups)%nat by lia.
      reflexivity. }
    split; [lia|]. split; [rewrite thousands_snoc, Hval; lia|].
    split; [apply Forall_app; split; [exact Hall|repeat constructor; lia]|].
    destruct groups as [|t rest]; cbn [app]; [|exact Hhead].
    unfold thousands in Hval. cbn [fold_left] in Hval. lia.
Qed.

(** The loop that writes the groups after the first. *)
Lemma separated_loop triples n :
  forall output,
    (n <= length triples)%nat ->
    downto_ n (Z.of_nat n - 1)
      (fun j output => t ← get triples j; Done (output ++ "," ++ decimal_w3 t))
      output
    = Done (output ++ separated (reverse (take n triples))).
Proof.
  induction n as [|n IH]; intros output Hn; cbn [downto_].
  { rewrite take_0. change (reverse []) with (@nil Z). cbn [separated].
    rewrite string_app_nil_r. reflexivity. }
  rewrite (get_in_range triples) by lia. cbn [mbind outcome_bind].
  replace (Z.to_nat (Z.of_nat (S n) - 1)) with n by lia.
  replace (Z.of_nat (S n) - 1 - 1) with (Z.of_nat n - 1) by lia.
  rewrite IH by lia.
  rewrite (take_S_r _ n (digit triples n)) by (apply digit_lookup; lia).
  rewrite reverse_app. change (reverse [digit triples n]) with [digit triples n].
  cbn [app separated]. rewrite !string_app_assoc. reflexivity.
Qed.

Lemma toDecimalString_spec x :
  wf x ->
  (value x = 0 -> toDecimalString x = Done "0") /\
  (value x <> 0 ->
   exists t ts,
     toDecimalString x
     = Done ((if value x <? 0 then "-" else "") ++ decimal t ++ separated ts) /\
     0 < t < 1000 /\ Forall (fun t => 0 <= t < 1000) ts /\
     thousands (t :: ts) = Z.abs (value x)).
Proof.
  intros Hx. unfold toDecimalString. rewrite HugeInt_ll_0.
  pose proof (eq_op_default x Hx) as Hz.
  rewrite <- (isZero_spec x Hx), (isZero_value x Hx) in Hz.
  split.
  { intros E. rewrite (proj2 Hz E). reflexivity. }
  intros Hnz.
  assert (eq_op x HugeInt_default = false) as ->
    by (apply not_true_iff_false; rewrite Hz; exact Hnz).
  destruct (absolute_copy x Hx) as (copy & Hc & Hu & ->).
  destruct (triples_loop_groups (S numTriples) copy 0 (replicate numTriples 0))
    as (groups & Hloop & Hk & Hval & Hall & Hhead).
  { exact Hc. }
  { replace (Z.of_nat (S numTriples) - 1) with 965 by (unfold numTriples; lia).
    eapply Z.lt_le_trans; [apply uval_range, Hc|apply modulus_below_triples]. }
  { rewrite length_replicate. lia. }
  change (Z.of_nat 0) with 0 in Hloop. rewrite Hloop.
  cbn [mbind outcome_bind]. rewrite take_0. cbn [app plus].
  destruct groups as [|t ts].
  { unfold thousands in Hval. cbn [fold_left] in Hval. lia. }
  cbn [length] in *. rewrite length_replicate in Hk.
  set (triples := (reverse (t :: ts) ++ drop (S (length ts)) (replicate numTriples 0))%list).
  assert (Hlt : length triples = numTriples).
  { subst triples. rewrite length_app, length_reverse, length_drop, length_replicate.
    cbn [length]. lia. }
  assert (Htake : take (length ts) triples = reverse ts).
  { subst triples. rewrite reverse_cons, <- app_assoc.
    rewrite take_app_length'; [reflexivity|symmetry; apply length_reverse]. }
  assert (Htop : digit triples (length ts) = t).
  { subst triples. unfold digit. rewrite reverse_cons, <- app_assoc.
    rewrite lookup_app_r by (rewrite length_reverse; lia).
    rewrite length_reverse, Nat.sub_diag. reflexivity. }
  replace (Z.of_nat (S (length ts)) - 1) with (Z.of_nat (length ts)) by lia.
  rewrite (get_in_range triples) by lia. cbn [mbind outcome_bind].
  rewrite Nat2Z.id, Htop.
  unfold for_downto.
  replace (Z.to_nat (Z.of_nat (length ts) - 1 - 0 + 1)) with (length ts) by lia.
  rewrite separated_loop by lia. rewrite Htake, reverse_involutive.
  exists t, ts. rewrite string_app_assoc. split; [reflexivity|].
  apply Forall_cons in Hall as [Ht Hts].
  split; [lia|]. split; [exact Hts|]. rewrite Hval, Hu. reflexivity.
Qed.

Lemma isdigit_not_separator c : isdigit c = true -> Ascii.eqb c "," = false.
Proof.
  intros H. destruct (Ascii.eqb_spec c ","%char) as [->|]; [|reflexivity].
  vm_compute in H. discriminate.
Qed.

Lemma without_separators_app s t :
  without_separators (s ++ t) = without_separators s ++ without_separators t.
Proof.
  induction s as [|c s IH]; [reflexivity|].
  change (String c s ++ t) with (String c (s ++ t)). cbn [without_separators].
  rewrite IH. destruct (Ascii.eqb c ","); reflexivity.
Qed.

Lemma without_separators_digits s :
  forallb isdigit (list_ascii_of_string s) = true -> without_separators s = s.
Proof.
  induction s as [|c s IH]; [reflexivity|].
  cbn [list_ascii_of_string forallb without_separators].
  rewrite andb_true_iff. intros [Hc Hs].
  rewrite (isdigit_not_separator c Hc), (IH Hs). reflexivity.
Qed.

Lemma c_chars_digits s :
  forallb isdigit (list_ascii_of_string s) = true ->
  c_chars s = list_ascii_of_string s.
Proof.
  intros H. rewrite <- (string_app_nil_r s) at 1.
  rewrite (c_chars_app_digits s "" H). cbn [c_chars]. apply app_nil_r.
Qed.

(** The groups after the first, read without their separators. *)
Lemma separated_digits ts :
  Forall (fun t => 0 <= t < 1000) ts ->
  forall pre,
    forallb isdigit
      (list_ascii_of_string (without_separators (separated ts))) = true /\
    decimal_value
      (pre ++ list_ascii_of_string (without_separators (separated ts)))
    = fold_left (fun acc t => 1000 * acc + t) ts (decimal_value pre).
Proof.
  induction 1 as [|t ts Ht Hts IH]; intros pre.
  { cbn [separated without_separators list_ascii_of_string fold_left forallb].
    rewrite app_nil_r. split; reflexivity. }
  destruct (decimal_w3_spec t Ht) as (ds & Hds & Hdig & Hval & Hlen).
  cbn [separated fold_left].
  change ("," ++ decimal_w3 t ++ separated ts)
    with (String "," (decimal_w3 t ++ separated ts)).
  cbn [without_separators]. change (Ascii.eqb "," ",") with true. cbv iota.
  rewrite without_separators_app.
  rewrite (without_separators_digits (decimal_w3 t)) by (rewrite Hds; exact Hdig).
  rewrite list_ascii_app, Hds.
  destruct (IH (pre ++ ds)%list) as [Hd Hv].
  split; [rewrite forallb_app, Hdig, Hd; reflexivity|].
  rewrite app_assoc, Hv. f_equal.
  rewrite decimal_value_app, Hval, Hlen. change (10 ^ Z.of_nat 3) with 1000. lia.
Qed.

(** X22.  Round trip: the rendering of every value, with its commas taken
    out, is accepted by the string constructor and gives the value
    back. *)
Theorem render_parse_round_trip x :
  wf x ->
  exists s,
    toDecimalString x = Done s /\
    HugeInt_str (without_separators s) = Returned x.
Proof.
  intros Hx. destruct (toDecimalString_spec x Hx) as [Hzero Hnz].
  destruct (Z.eq_dec (value x) 0) as [E|E].
  { exists "0". split; [exact (Hzero E)|].
    assert (x = HugeInt_default) as ->.
    { apply value_inj; [exact Hx|apply wf_default|].
      rewrite value_default. exact E. }
    vm_compute. reflexivity. }
  destruct (Hnz E) as (t & ts & Hs & Ht & Hts & Hval). clear Hzero Hnz.
  exists ((if value x <? 0 then "-" else "") ++ decimal t ++ separated ts).
  split; [exact Hs|].
  destruct (decimal_spec t ltac:(lia)) as (dt & Hdt & Hdig & Hdv & Hlen & _).
  destruct (separated_digits ts Hts dt) as [Hwd Hwv].
  set (w := without_separators (separated ts)) in *.
  assert (Hbody : without_separators (decimal t ++ separated ts) = decimal t ++ w).
  { rewrite without_separators_app, without_separators_digits
      by (rewrite Hdt; exact Hdig). reflexivity. }
  assert (Hall : forallb isdigit (list_ascii_of_string (decimal t ++ w)) = true).
  { rewrite list_ascii_app, forallb_app, Hdt, Hdig, Hwd. reflexivity. }
  assert (Hchars : c_chars (decimal t ++ w)
                   = (dt ++ list_ascii_of_string w)%list).
  { rewrite (c_chars_digits _ Hall), list_ascii_app, Hdt. reflexivity. }
  assert (Hnum : decimal_value (dt ++ list_ascii_of_string w) = Z.abs (value x)).
  { rewrite Hwv, Hdv, <- Hval. unfold thousands. cbn [fold_left]. f_equal. }
  assert (Hne : exists c cs, (dt ++ list_ascii_of_string w)%list = c :: cs).
  { destruct dt as [|c cs]; [cbn in Hlen; lia|]. cbn [app]. eauto. }
  assert (Hdd : forallb isdigit (dt ++ list_ascii_of_string w) = true)
    by (rewrite forallb_app, Hdig, Hwd; reflexivity).
  pose proof (uval_range x Hx) as Hr. pose proof (value_mod x Hx) as Hm.
  destruct (Z.ltb_spec (value x) 0) as [Hneg|Hpos].
  - change ("-" ++ decimal t ++ separated ts)
      with (String "-" (decimal t ++ separated ts)).
    cbn [without_separators]. change (Ascii.eqb "-" ",") with false. cbv iota.
    rewrite Hbody.
    pose proof (HugeInt_str_spec (String "-" (decimal t ++ w))) as Hp.
    cbn [c_chars] in Hp. change (is_nul "-") with false in Hp. cbv iota in Hp.
    rewrite Hchars in Hp. destruct Hne as (c & cs & Hcs).
    assert (Hm1 : matches_decimal ("-"%char :: dt ++ list_ascii_of_string w) = true).
    { cbn [matches_decimal]. change (is_sign "-") with true. cbv iota.
      rewrite Hcs. cbv iota. rewrite <- Hcs. exact Hdd. }
    assert (Hd1 : denoted ("-"%char :: dt ++ list_ascii_of_string w)
                  = - Z.abs (value x)).
    { cbn [denoted]. change (Ascii.eqb "-" "-") with true. cbv iota.
      rewrite Hnum. reflexivity. }
    rewrite Hm1, Hd1 in Hp.
    destruct Hp as (h & -> & Hh & Hu). f_equal.
    apply wf_eq; [exact Hh|exact Hx|]. rewrite Hu, <- Hm. f_equal. lia.
  - change ("" ++ decimal t ++ separated ts) with (decimal t ++ separated ts).
    rewrite Hbody.
    pose proof (HugeInt_str_spec (decimal t ++ w)) as Hp.
    rewrite Hchars in Hp. destruct Hne as (c & cs & Hcs).
    assert (Hc : is_sign c = false).
    { apply isdigit_not_sign. rewrite Hcs in Hdd. cbn [forallb] in Hdd.
      apply andb_true_iff in Hdd. tauto. }
    assert (Hm1 : matches_decimal (dt ++ list_ascii_of_string w) = true).
    { rewrite Hcs. cbn [matches_decimal]. rewrite Hc, <- Hcs. exact Hdd. }
    assert (Hd1 : denoted (dt ++ list_ascii_of_string w) = Z.abs (value x)).
    { rewrite <- Hnum, Hcs. cbn [denoted]. unfold is_sign in Hc.
      apply orb_false_iff in Hc as [-> ->]. reflexivity. }
    rewrite Hm1, Hd1 in Hp.
    destruct Hp as (h & -> & Hh & Hu). f_equal.
    apply wf_eq; [exact Hh|exact Hx|]. rewrite Hu, <- Hm. f_equal. lia.
Qed.

Lemma raw_start_trim ds n : raw_start ds n = Z.of_nat (trim ds n) - 1.
Proof.
  induction n as [|n IH]; [reflexivity|]. cbn [raw_start trim].
  destruct (digit ds n =? 0); [exact IH|lia].
Qed.

Lemma fill_list n c s :
  list_ascii_of_string (fill n c s)
  = (replicate n c ++ list_ascii_of_string s)%list.
Proof.
  induction n as [|n IH]; [reflexivity|].
  cbn [fill list_ascii_of_string replicate app]. rewrite IH. reflexivity.
Qed.

Lemma decimal_value_zeros n ds :
  decimal_value (replicate n "0"%char ++ ds) = decimal_value ds.
Proof.
  induction n as [|n IH]; [reflexivity|].
  cbn [replicate app]. rewrite decimal_value_zero_l. exact IH.
Qed.

(** A digit is shown by ten decimal places. *)
Lemma decimal_w10_spec d :
  0 <= d < base_ ->
  exists ds,
    list_ascii_of_string (decimal_w10 d) = ds /\
    forallb isdigit ds = true /\ decimal_value ds = d /\ length ds = 10%nat.
Proof.
  intros Hd. rewrite base_eq in Hd.
  destruct (decimal_spec d ltac:(lia)) as (ds & Hds & Hdig & Hval & Hlen & _).
  unfold decimal_w10. rewrite string_length_list, Hds.
  exists (replicate (10 - length ds) "0"%char ++ ds)%list.
  split; [rewrite fill_list, Hds; reflexivity|].
  split.
  { rewrite forallb_app, Hdig, andb_true_r.
    induction (10 - length ds)%nat as [|k IHk]; [reflexivity|exact IHk]. }
  split; [rewrite decimal_value_zeros; exact Hval|].
  rewrite length_app, length_replicate. lia.
Qed.

Lemma list_ascii_inj s t :
  list_ascii_of_string s = list_ascii_of_string t -> s = t.
Proof.
  intros H. rewrite <- (string_of_list_ascii_of_string s),
    <- (string_of_list_ascii_of_string t), H. reflexivity.
Qed.

Lemma spaced_length ds :
  digits_ok ds -> String.length (spaced ds) = (11 * length ds)%nat.
Proof.
  induction ds as [|d ds IH]; intros Hok; [reflexivity|].
  apply Forall_cons in Hok as [Hd Hok].
  destruct (decimal_w10_spec d Hd) as (cs & Hcs & _ & _ & Hlen).
  cbn [spaced length]. rewrite string_length_list, !list_ascii_app, !length_app.
  rewrite Hcs, Hlen, <- (string_length_list (spaced ds)), (IH Hok).
  cbn [list_ascii_of_string length]. lia.
Qed.

Lemma spaced_inj ds es :
  digits_ok ds -> digits_ok es -> spaced ds = spaced es -> ds = es.
Proof.
  revert es. induction ds as [|d ds IH]; intros es Hds Hes H.
  - destruct es as [|e es]; [reflexivity|exfalso].
    apply (f_equal String.length) in H.
    rewrite (spaced_length _ Hes) in H. cbn in H. lia.
  - destruct es as [|e es].
    { exfalso. apply (f_equal String.length) in H.
      rewrite (spaced_length _ Hds) in H. cbn in H. lia. }
    apply Forall_cons in Hds as [Hd Hds]. apply Forall_cons in Hes as [He Hes].
    destruct (decimal_w10_spec d Hd) as (cd & Hcd & _ & Hvd & Hld).
    destruct (decimal_w10_spec e He) as (ce & Hce & _ & Hve & Hle).
    cbn [spaced] in H. apply (f_equal list_ascii_of_string) in H.
    rewrite !list_ascii_app, Hcd, Hce in H.
    apply app_inj_1 in H as [H1 H2]; [|lia].
    cbn [list_ascii_of_string app] in H2. injection H2 as H2.
    apply list_ascii_inj in H2.
    f_equal; [rewrite <- Hvd, <- Hve, H1; reflexivity|].
    apply IH; assumption.
Qed.

(** The loop that writes the digits from [n - 1] down to 0. *)
Lemma spaced_loop ds n :
  forall oss,
    (n <= length ds)%nat ->
    downto_ n (Z.of_nat n - 1)
      (fun i oss => d ← get ds i; Done (oss ++ decimal_w10 d ++ " "))
      oss
    = Done (oss ++ spaced (reverse (take n ds))).
Proof.
  induction n as [|n IH]; intros oss Hn; cbn [downto_].
  { rewrite take_0. change (reverse []) with (@nil Z). cbn [spaced].
    rewrite string_app_nil_r. reflexivity. }
  rewrite (get_in_range ds) by lia. cbn [mbind outcome_bind].
  replace (Z.to_nat (Z.of_nat (S n) - 1)) with n by lia.
  replace (Z.of_nat (S n) - 1 - 1) with (Z.of_nat n - 1) by lia.
  rewrite IH by lia.
  rewrite (take_S_r _ n (digit ds n)) by (apply digit_lookup; lia).
  rewrite reverse_app. change (reverse [digit ds n]) with [digit ds n].
  cbn [app spaced]. rewrite !string_app_assoc. reflexivity.
Qed.

Lemma toRawString_spec x :
  wf x ->
  toRawString x
  = Done (if isZero x then "0"
          else spaced (reverse (take (trim (digits_ x) numDigits_) (digits_ x)))).
Proof.
  intros Hx. pose proof Hx as Hx'. apply wf_spec in Hx' as [Hl Hok].
  pose proof numDigits_pos as HN.
  pose proof (trim_le (digits_ x) numDigits_) as Hle.
  unfold toRawString, isZero. rewrite raw_start_trim.
  destruct (trim (digits_ x) numDigits_) as [|m] eqn:E.
  - change (Z.of_nat 0 - 1 =? -1) with true. change (0 =? 0)%nat with true.
    cbv iota. rewrite (get_in_range (digits_ x) 0) by lia.
    cbn [mbind outcome_bind]. change (Z.to_nat 0) with O.
    rewrite (proj1 (trim_zero_iff _ _) E O) by lia. reflexivity.
  - destruct (Z.eqb_spec (Z.of_nat (S m) - 1) (-1)) as [|_]; [lia|].
    change (S m =? 0)%nat with false. cbv iota.
    unfold for_downto.
    replace (Z.to_nat (Z.of_nat (S m) - 1 - 0 + 1)) with (S m) by lia.
    rewrite spaced_loop by lia. reflexivity.
Qed.

Lemma Done_inj {A : Type} (a b : A) : Done a = Done b -> a = b.
Proof. intros [= H]. exact H. Qed.

Lemma spaced_not_zero ds : digits_ok ds -> "0" <> spaced ds.
Proof.
  intros Hds E. apply (f_equal String.length) in E.
  rewrite (spaced_length _ Hds) in E. cbn [String.length] in E. lia.
Qed.

(** X24.  The raw format tells values apart: two well-formed objects with the
    same raw text are equal. *)
Theorem toRawString_injective x y :
  wf x -> wf y -> toRawString x = toRawString y -> x = y.
Proof.
  intros Hx Hy H.
  rewrite (toRawString_spec x Hx), (toRawString_spec y Hy) in H.
  apply Done_inj in H. unfold isZero in H.
  pose proof Hx as Hx'. apply wf_spec in Hx' as [Hlx Hokx].
  pose proof Hy as Hy'. apply wf_spec in Hy' as [Hly Hoky].
  assert (Hux : uval (digits_ x)
                = uval (take (trim (digits_ x) numDigits_) (digits_ x))).
  { apply uval_take_significant. intros j Hj.
    apply (trim_zero_above _ numDigits_). lia. }
  assert (Huy : uval (digits_ y)
                = uval (take (trim (digits_ y) numDigits_) (digits_ y))).
  { apply uval_take_significant. intros j Hj.
    apply (trim_zero_above _ numDigits_). lia. }
  apply wf_eq; [exact Hx|exact Hy|]. rewrite Hux, Huy. clear Hux Huy Hx Hy.
  revert H.
  generalize (trim (digits_ x) numDigits_) (trim (digits_ y) numDigits_).
  intros mx my H.
  assert (Htx : digits_ok (reverse (take mx (digits_ x))))
    by (apply Forall_reverse, Forall_take, Hokx).
  assert (Hty : digits_ok (reverse (take my (digits_ y))))
    by (apply Forall_reverse, Forall_take, Hoky).
  destruct (Nat.eqb_spec mx 0) as [Emx|Hmx];
    destruct (Nat.eqb_spec my 0) as [Emy|Hmy].
  - rewrite Emx, Emy, !take_0. reflexivity.
  - exfalso. exact (spaced_not_zero _ Hty H).
  - exfalso. symmetry in H. exact (spaced_not_zero _ Htx H).
  - apply spaced_inj in H; [|assumption|assumption].
    apply (f_equal reverse) in H. rewrite !reverse_involutive in H.
    rewrite H. reflexivity.
Qed.

Lemma nonneg_uval x : wf x -> 0 <= value x -> uval (digits_ x) = value x.
Proof.
  intros Hx Hv. pose proof (value_range x Hx). pose proof modulus_half.
  rewrite <- (value_mod x Hx). apply Z.mod_small. lia.
Qed.

Lemma value_of_uval_mod r z :
  wf r -> uval (digits_ r) = z mod modulus -> value r = wrap z.
Proof. intros Hr Hu. rewrite (value_wrap r Hr), Hu. apply wrap_mod. Qed.

Lemma modulus_gt_1 : 1 < modulus.
Proof. pose proof modulus_large. pose proof modulus_quarter. pose proof modulus_half. lia. Qed.

Lemma wf_two : wf (HugeInt_ll 2).
Proof. apply HugeInt_ll_spec. lia. Qed.

Lemma value_two : value (HugeInt_ll 2) = 2.
Proof. apply HugeInt_ll_spec. lia. Qed.

Lemma le_op_one n :
  wf n -> - (modulus / 2) + 2 <= value n ->
  (le_op n (HugeInt_ll 1) = true <-> value n <= 1).
Proof.
  intros Hn Hv. pose proof (value_range n Hn) as Hr.
  unfold le_op. pose proof (gt_op_value n _ Hn wf_one) as Hgt.
  rewrite value_one, wrap_small in Hgt by lia.
  destruct (gt_op n (HugeInt_ll 1)); cbn [negb].
  - pose proof (proj1 Hgt eq_refl). split; [discriminate|lia].
  - split; [intros _|reflexivity].
    destruct (Z.le_gt_cases (value n) 1) as [|Hc]; [assumption|].
    assert (false = true) by (apply Hgt; lia). discriminate.
Qed.

Lemma ge_op_one i :
  wf i -> - (modulus / 2) < value i ->
  (ge_op i (HugeInt_ll 1) = true <-> 1 <= value i).
Proof.
  intros Hi Hv. pose proof (value_range i Hi) as Hr.
  unfold ge_op. pose proof (lt_op_value i _ Hi wf_one) as Hlt.
  rewrite value_one, wrap_small in Hlt by lia.
  destruct (lt_op i (HugeInt_ll 1)); cbn [negb].
  - pose proof (proj1 Hlt eq_refl). split; [discriminate|lia].
  - split; [intros _|reflexivity].
    destruct (Z.le_gt_cases 1 (value i)) as [|Hc]; [assumption|].
    assert (false = true) by (apply Hlt; lia). discriminate.
Qed.

Lemma factorial_pos k : 0 < factorial k.
Proof. induction k as [|k IH]; cbn [factorial]; lia. Qed.

Lemma factorial_recursive_spec fuel :
  forall n,
    wf n -> - (modulus / 2) + 2 <= value n ->
    (Z.to_nat (value n) < fuel)%nat ->
    exists r,
      factorial_recursive fuel n = Done r /\ wf r /\
      uval (digits_ r) = factorial (Z.to_nat (value n)) mod modulus.
Proof.
  induction fuel as [|fuel IH]; intros n Hn Hv Hf; [lia|].
  cbn [factorial_recursive]. pose proof modulus_gt_1 as HM.
  pose proof (le_op_one n Hn Hv) as Hle.
  pose proof (value_range n Hn) as Hr.
  destruct (le_op n (HugeInt_ll 1)).
  - pose proof (proj1 Hle eq_refl) as H1.
    exists (HugeInt_ll 1). split; [reflexivity|]. split; [apply wf_one|].
    rewrite uval_one.
    assert (factorial (Z.to_nat (value n)) = 1) as ->.
    { destruct (Z.to_nat (value n)) as [|[|k]] eqn:E; [reflexivity|reflexivity|lia]. }
    symmetry. apply Z.mod_small. lia.
  - assert (H2 : 2 <= value n).
    { destruct (Z.le_gt_cases 2 (value n)) as [|Hc]; [assumption|].
      assert (false = true) by (apply Hle; lia). discriminate. }
    destruct (sub_spec n _ Hn wf_one) as [Ws _].
    assert (Vs : value (sub n (HugeInt_ll 1)) = value n - 1).
    { rewrite (sub_value _ _ Hn wf_one), value_one. apply wrap_small. lia. }
    destruct (IH (sub n (HugeInt_ll 1)) Ws ltac:(lia) ltac:(lia)) as (r & Hrec & Wr & Ur).
    rewrite Hrec. cbn [mbind outcome_bind].
    exists (mul n r). split; [reflexivity|].
    destruct (mul_spec n r Hn Wr) as [Wm Um]. split; [exact Wm|].
    rewrite Um, Ur, Zmult_mod_idemp_r, (nonneg_uval n Hn) by lia.
    rewrite Vs. f_equal.
    replace (Z.to_nat (value n)) with (S (Z.to_nat (value n - 1))) by lia.
    cbn [factorial]. f_equal. lia.
Qed.

Lemma factorial_loop_spec fuel :
  forall i result,
    wf i -> wf result -> - (modulus / 2) < value i ->
    (Z.to_nat (value i) < fuel)%nat ->
    exists r,
      factorial_loop fuel i result = Done r /\ wf r /\
      uval (digits_ r)
      = (uval (digits_ result) * factorial (Z.to_nat (value i))) mod modulus.
Proof.
  induction fuel as [|fuel IH]; intros i result Hi Hres Hv Hf; [lia|].
  cbn [factorial_loop]. pose proof modulus_gt_1 as HM.
  pose proof (ge_op_one i Hi Hv) as Hge.
  pose proof (value_range i Hi) as Hr.
  destruct (ge_op i (HugeInt_ll 1)).
  - pose proof (proj1 Hge eq_refl) as H1.
    destruct (mul_spec result i Hres Hi) as [Wm Um].
    destruct (sub_spec i _ Hi wf_one) as [Ws _].
    assert (Vs : value (sub i (HugeInt_ll 1)) = value i - 1).
    { rewrite (sub_value _ _ Hi wf_one), value_one. apply wrap_small. lia. }
    unfold mul_assign, pre_decrement.
    rewrite (assign_spec result _ (wf_length _ Hres) (wf_length _ Wm)).
    rewrite (assign_spec i _ (wf_length _ Hi) (wf_length _ Ws)).
    destruct (IH (sub i (HugeInt_ll 1)) (mul result i) Ws Wm ltac:(lia) ltac:(lia))
      as (r & Hloop & Wr & Ur).
    exists r. split; [exact Hloop|]. split; [exact Wr|].
    rewrite Ur, Um, Zmult_mod_idemp_l, (nonneg_uval i Hi) by lia.
    rewrite Vs. f_equal.
    replace (Z.to_nat (value i)) with (S (Z.to_nat (value i - 1))) by lia.
    cbn [factorial]. rewrite Nat2Z.inj_succ, Z2Nat.id by lia.
    generalize (factorial (Z.to_nat (value i - 1))) (uval (digits_ result)) (value i).
    intros; ring.
  - assert (H0 : value i <= 0).
    { destruct (Z.le_gt_cases (value i) 0) as [|Hc]; [assumption|].
      assert (false = true) by (apply Hge; lia). discriminate. }
    exists result. split; [reflexivity|]. split; [exact Hres|].
    replace (Z.to_nat (value i)) with O by lia. cbn [factorial].
    rewrite Z.mul_1_r. symmetry. apply Z.mod_small, uval_range, Hres.
Qed.

Lemma factorial_iterative_spec fuel n :
  wf n -> - (modulus / 2) < value n ->
  (Z.to_nat (value n) < fuel)%nat ->
  exists r,
    factorial_iterative fuel n = Done r /\ wf r /\
    uval (digits_ r) = factorial (Z.to_nat (value n)) mod modulus.
Proof.
  intros Hn Hv Hf. unfold factorial_iterative. pose proof modulus_gt_1 as HM.
  destruct (eq_op n (HugeInt_ll 0)) eqn:E.
  - rewrite HugeInt_ll_0 in E.
    apply (eq_op_value n _ Hn wf_default) in E. rewrite value_default in E.
    exists (HugeInt_ll 1). split; [reflexivity|]. split; [apply wf_one|].
    rewrite E, uval_one. symmetry. apply Z.mod_small. cbn. lia.
  - rewrite (HugeInt_copy_spec n (wf_length n Hn)).
    destruct (factorial_loop_spec fuel n (HugeInt_ll 1) Hn wf_one Hv Hf)
      as (r & Hloop & Wr & Ur).
    exists r. split; [exact Hloop|]. split; [exact Wr|].
    rewrite Ur, uval_one. f_equal. lia.
Qed.

Lemma fibonacci_SS j : fibonacci (S (S j)) = fibonacci (S j) + fibonacci j.
Proof. reflexivity. Qed.

Lemma fibonacci_nonneg k : 0 <= fibonacci k /\ 0 <= fibonacci (S k).
Proof.
  induction k as [|k [IH1 IH2]]; [cbn; lia|].
  split; [exact IH2|]. rewrite fibonacci_SS. lia.
Qed.

Lemma wrap_sub_r a b : wrap (a - wrap b) = wrap (a - b).
Proof.
  replace (a - wrap b) with (- wrap b + a) by lia.
  rewrite <- wrap_add_l, wrap_opp, wrap_add_l. f_equal. lia.
Qed.

Lemma uval_two : uval (digits_ (HugeInt_ll 2)) = 2.
Proof. rewrite (nonneg_uval _ wf_two); rewrite value_two; lia. Qed.

Lemma fibonacci_base n :
  wf n ->
  (eq_op n HugeInt_default || eq_op n (HugeInt_ll 1) = true
   <-> value n = 0 \/ value n = 1).
Proof.
  intros Hn. rewrite orb_true_iff.
  rewrite (eq_op_value n _ Hn wf_default), (eq_op_value n _ Hn wf_one).
  rewrite value_default, value_one. reflexivity.
Qed.

Lemma fibonacci_recursive_spec fuel :
  forall n,
    wf n -> 0 <= value n -> (Z.to_nat (value n) < fuel)%nat ->
    exists r,
      fibonacci_recursive fuel n = Done r /\ wf r /\
      uval (digits_ r) = fibonacci (Z.to_nat (value n)) mod modulus.
Proof.
  induction fuel as [|fuel IH]; intros n Hn Hv Hf; [lia|].
  cbn [fibonacci_recursive]. pose proof modulus_gt_1 as HM.
  pose proof (fibonacci_base n Hn) as Hb.
  pose proof (value_range n Hn) as Hr.
  destruct (eq_op n HugeInt_default || eq_op n (HugeInt_ll 1)).
  - pose proof (proj1 Hb eq_refl) as H1.
    exists n. split; [reflexivity|]. split; [exact Hn|].
    rewrite (nonneg_uval n Hn Hv).
    destruct H1 as [E|E]; rewrite E; reflexivity.
  - assert (H2 : 2 <= value n).
    { destruct (Z.le_gt_cases 2 (value n)) as [|Hc]; [assumption|].
      assert (false = true) by (apply Hb; lia). discriminate. }
    destruct (sub_spec n _ Hn wf_one) as [W1 _].
    destruct (sub_spec n _ Hn wf_two) as [W2 _].
    assert (V1 : value (sub n (HugeInt_ll 1)) = value n - 1).
    { rewrite (sub_value _ _ Hn wf_one), value_one. apply wrap_small. lia. }
    assert (V2 : value (sub n (HugeInt_ll 2)) = value n - 2).
    { rewrite (sub_value _ _ Hn wf_two), value_two. apply wrap_small. lia. }
    destruct (IH _ W1 ltac:(lia) ltac:(lia)) as (a & Ha & Wa & Ua).
    destruct (IH _ W2 ltac:(lia) ltac:(lia)) as (b & Hb' & Wb & Ub).
    rewrite Ha. cbn [mbind outcome_bind]. rewrite Hb'. cbn [mbind outcome_bind].
    exists (add a b). split; [reflexivity|].
    destruct (add_spec a b Wa Wb) as [Ws Us]. split; [exact Ws|].
    rewrite Us, Ua, Ub, <- Zplus_mod, V1, V2. f_equal.
    replace (Z.to_nat (value n)) with (S (S (Z.to_nat (value n - 2)))) by lia.
    replace (Z.to_nat (value n - 1)) with (S (Z.to_nat (value n - 2))) by lia.
    rewrite fibonacci_SS. reflexivity.
Qed.

Lemma fibonacci_loop_spec fuel :
  forall n i retval fib_nm1 fib_nm2 (j : nat),
    wf n -> wf i -> wf retval -> wf fib_nm1 -> wf fib_nm2 ->
    2 <= value n -> (2 <= j <= Z.to_nat (value n) + 1)%nat ->
    uval (digits_ i) = Z.of_nat j mod modulus ->
    uval (digits_ fib_nm1) = fibonacci (j - 1) mod modulus ->
    uval (digits_ fib_nm2) = fibonacci (j - 2) mod modulus ->
    ((2 < j)%nat -> uval (digits_ retval) = fibonacci (j - 1) mod modulus) ->
    (Z.to_nat (value n) + 1 - j < fuel)%nat ->
    exists r,
      fibonacci_loop fuel n i retval fib_nm1 fib_nm2 = Done r /\ wf r /\
      uval (digits_ r) = fibonacci (Z.to_nat (value n)) mod modulus.
Proof.
  induction fuel as [|fuel IH];
    intros n i retval f1 f2 j Hn Hi Hret Hf1 Hf2 Hv Hj Ui U1 U2 Ur Hfuel; [lia|].
  cbn [fibonacci_loop]. pose proof (value_range n Hn) as Hr.
  assert (Hlt : lt_op n i = true <-> (j = Z.to_nat (value n) + 1)%nat).
  { rewrite (lt_op_value n i Hn Hi), (value_of_uval_mod i _ Hi Ui), wrap_sub_r.
    rewrite wrap_small by lia. lia. }
  unfold le_op, gt_op. destruct (lt_op n i); cbn [negb].
  - pose proof (proj1 Hlt eq_refl) as E.
    exists retval. split; [reflexivity|]. split; [exact Hret|].
    rewrite Ur by lia. f_equal. f_equal. lia.
  - assert (Hj' : (j <= Z.to_nat (value n))%nat).
    { destruct (Nat.le_gt_cases j (Z.to_nat (value n))) as [|Hc]; [assumption|].
      assert (false = true) by (apply Hlt; lia). discriminate. }
    destruct (add_spec f1 f2 Hf1 Hf2) as [Ws Us].
    destruct (add_spec i _ Hi wf_one) as [Wi Uinc].
    unfold pre_increment.
    rewrite (assign_spec retval _ (wf_length _ Hret) (wf_length _ Ws)).
    rewrite (assign_spec f2 _ (wf_length _ Hf2) (wf_length _ Hf1)).
    rewrite (assign_spec f1 _ (wf_length _ Hf1) (wf_length _ Ws)).
    rewrite (assign_spec i _ (wf_length _ Hi) (wf_length _ Wi)).
    assert (Hfj : uval (digits_ (add f1 f2)) = fibonacci (S j - 1) mod modulus).
    { rewrite Us, U1, U2, <- Zplus_mod. f_equal.
      replace (S j - 1)%nat with (S (S (j - 2))) by lia.
      replace (j - 1)%nat with (S (j - 2)) by lia.
      rewrite fibonacci_SS. reflexivity. }
    apply (IH n _ _ _ _ (S j)).
    + exact Hn.
    + exact Wi.
    + exact Ws.
    + exact Ws.
    + exact Hf1.
    + exact Hv.
    + lia.
    + rewrite Uinc, Ui, uval_one, Zplus_mod_idemp_l. f_equal. lia.
    + exact Hfj.
    + rewrite U1. reflexivity.
    + intros _. exact Hfj.
    + lia.
Qed.

Lemma fibonacci_iterative_spec fuel n :
  wf n -> 0 <= value n -> (Z.to_nat (value n) < fuel)%nat ->
  exists r,
    fibonacci_iterative fuel n = Done r /\ wf r /\
    uval (digits_ r) = fibonacci (Z.to_nat (value n)) mod modulus.
Proof.
  intros Hn Hv Hf. unfold fibonacci_iterative. pose proof modulus_large as HL.
  pose proof modulus_quarter as HQ. pose proof modulus_half as HH.
  pose proof (fibonacci_base n Hn) as Hb.
  destruct (eq_op n HugeInt_default || eq_op n (HugeInt_ll 1)).
  - pose proof (proj1 Hb eq_refl) as H1.
    exists n. split; [reflexivity|]. split; [exact Hn|].
    rewrite (nonneg_uval n Hn Hv).
    destruct H1 as [E|E]; rewrite E; reflexivity.
  - assert (H2 : 2 <= value n).
    { destruct (Z.le_gt_cases 2 (value n)) as [|Hc]; [assumption|].
      assert (false = true) by (apply Hb; lia). discriminate. }
    rewrite (HugeInt_copy_spec _ (wf_length _ wf_one)).
    rewrite (HugeInt_copy_spec _ (wf_length _ wf_default)).
    apply (fibonacci_loop_spec fuel n _ _ _ _ 2).
    + exact Hn.
    + exact wf_two.
    + exact wf_default.
    + exact wf_one.
    + exact wf_default.
    + exact H2.
    + lia.
    + rewrite uval_two. change (Z.of_nat 2) with 2.
      symmetry. apply Z.mod_small. lia.
    + rewrite uval_one. change (fibonacci (2 - 1)) with 1.
      symmetry. apply Z.mod_small. lia.
    + rewrite uval_default. change (fibonacci (2 - 2)) with 0.
      symmetry. apply Z.mod_small. lia.
    + intros Hc. lia.
    + lia.
Qed.

(** For a negative count the loop is not entered. *)
Lemma fibonacci_iterative_negative fuel n :
  wf n -> - (modulus / 2) + 2 <= value n < 0 ->
  fibonacci_iterative (S fuel) n = Done HugeInt_default.
Proof.
  intros Hn Hv. unfold fibonacci_iterative.
  pose proof (fibonacci_base n Hn) as Hb.
  destruct (eq_op n HugeInt_default || eq_op n (HugeInt_ll 1)).
  - pose proof (proj1 Hb eq_refl). lia.
  - cbn [fibonacci_loop]. unfold le_op, gt_op.
    assert (lt_op n (HugeInt_ll 2) = true) as ->; [|reflexivity].
    apply (lt_op_value n _ Hn wf_two). rewrite value_two, wrap_small; lia.
Qed.

(** ** Machine arithmetic of the long division *)

Lemma i64_small z : - 2 ^ 63 <= z < 2 ^ 63 -> i64 z = z.
Proof. intros H. unfold i64. rewrite Z.mod_small; lia. Qed.

Lemma i64_u64_sub x y : i64 (u64 x - y) = i64 (x - y).
Proof.
  unfold i64, u64.
  replace (x mod 2 ^ 64 - y + 2 ^ 63) with (x mod 2 ^ 64 + (- y + 2 ^ 63)) by lia.
  rewrite Zplus_mod_idemp_l. do 2 f_equal. lia.
Qed.

Lemma i64_u64_add x y : i64 (u64 x + u64 y) = i64 (x + y).
Proof.
  unfold i64, u64.
  replace (x mod 2 ^ 64 + y mod 2 ^ 64 + 2 ^ 63)
    with (x mod 2 ^ 64 + (y mod 2 ^ 64 + 2 ^ 63)) by lia.
  rewrite Zplus_mod_idemp_l.
  replace (x + (y mod 2 ^ 64 + 2 ^ 63)) with (y mod 2 ^ 64 + (x + 2 ^ 63)) by lia.
  rewrite Zplus_mod_idemp_l. do 2 f_equal. lia.
Qed.

Lemma shiftr_32 z : Z.shiftr z 32 = z / base_.
Proof. rewrite Z.shiftr_div_pow2 by lia. reflexivity. Qed.

Lemma land_low z : Z.land z 4294967295 = z mod base_.
Proof. change 4294967295 with (Z.ones 32). rewrite Z.land_ones by lia. reflexivity. Qed.

Lemma u32_mod z : u32 z = z mod base_.
Proof. reflexivity. Qed.

(** ** The quotient digit and its estimate *)

Section Estimate.
Variables X v1 v2 Vlow t2 u2 Ulow : Z.
Hypothesis HX : 0 < X.
Hypothesis HVlow : 0 <= Vlow < X.
Hypothesis HUlow : 0 <= Ulow < X.
Hypothesis Hv1 : base_ <= 2 * v1.
Hypothesis Hv1' : v1 < base_.
Hypothesis Hv2 : 0 <= v2 < base_.
Hypothesis Hu2 : 0 <= u2 < base_.
Hypothesis Ht2 : 0 <= t2.

Let V := (v1 * base_ + v2) * X + Vlow.
Let U := (t2 * base_ + u2) * X + Ulow.

Lemma estimate_V_pos : 0 < V.
Proof using HX HVlow HUlow Hv1 Hv1' Hv2 Hu2 Ht2.
  subst V. rewrite base_eq in *. nia.
Qed.

(** The first estimate is not below the digit. *)
Lemma estimate_upper : U / V <= t2 / v1.
Proof using HX HVlow HUlow Hv1 Hv1' Hv2 Hu2 Ht2.
  pose proof estimate_V_pos as HV.
  apply Z.div_le_lower_bound; [rewrite base_eq in *; lia|].
  pose proof (Z.mul_div_le U V HV) as Hq.
  assert (Hq0 : 0 <= U / V).
  { apply Z.div_pos; [|lia]. subst U. rewrite base_eq in *. nia. }
  destruct (Z.le_gt_cases (v1 * (U / V)) t2) as [|Hc]; [assumption|exfalso].
  assert (H1 : (t2 + 1) * base_ * X <= v1 * (U / V) * base_ * X).
  { apply Z.mul_le_mono_nonneg_r; [lia|].
    apply Z.mul_le_mono_nonneg_r; [rewrite base_eq; lia|]. lia. }
  assert (H2 : v1 * (U / V) * base_ * X <= V * (U / V)).
  { subst V. rewrite base_eq in *. nia. }
  assert (H3 : U < (t2 + 1) * base_ * X).
  { subst U. rewrite base_eq in *. nia. }
  lia.
Qed.

(** A failed second-order test shows an overestimate. *)
Lemma estimate_too_large qhat rhat :
  qhat * v1 + rhat = t2 -> 0 <= qhat ->
  base_ * rhat + u2 < qhat * v2 -> U / V < qhat.
Proof using HX HVlow HUlow Hv1 Hv1' Hv2 Hu2 Ht2.
  intros HE Hq Htest. pose proof estimate_V_pos as HV.
  apply Z.div_lt_upper_bound; [exact HV|].
  assert (H1 : t2 * base_ + u2 + 1 <= qhat * (v1 * base_ + v2)).
  { rewrite <- HE. rewrite base_eq in *. nia. }
  assert (H2 : (t2 * base_ + u2 + 1) * X <= qhat * (v1 * base_ + v2) * X).
  { apply Z.mul_le_mono_nonneg_r; lia. }
  subst U V. rewrite base_eq in *. nia.
Qed.

(** A passed test leaves an estimate at most one above the digit. *)
Lemma estimate_close qhat rhat :
  qhat * v1 + rhat = t2 -> 0 <= qhat <= base_ ->
  qhat * v2 <= base_ * rhat + u2 -> qhat <= U / V + 1.
Proof using HX HVlow HUlow Hv1 Hv1' Hv2 Hu2 Ht2.
  intros HE Hq Htest. pose proof estimate_V_pos as HV.
  destruct (Z.eq_dec qhat 0) as [->|Hnz].
  { assert (0 <= U / V); [|lia]. apply Z.div_pos; [|lia].
    subst U. rewrite base_eq in *. nia. }
  assert (qhat - 1 <= U / V); [|lia].
  apply Z.div_le_lower_bound; [exact HV|].
  assert (H1 : qhat * (v1 * base_ + v2) <= t2 * base_ + u2).
  { rewrite <- HE. rewrite base_eq in *. nia. }
  assert (H2 : (qhat - 1) * (v1 * base_ + v2 + 1) <= t2 * base_ + u2).
  { rewrite base_eq in *. nia. }
  assert (H3 : (qhat - 1) * (v1 * base_ + v2 + 1) * X <= (t2 * base_ + u2) * X).
  { apply Z.mul_le_mono_nonneg_r; lia. }
  assert (H4 : V <= (v1 * base_ + v2 + 1) * X).
  { subst V.
    replace ((v1 * base_ + v2 + 1) * X) with ((v1 * base_ + v2) * X + X) by ring.
    lia. }
  assert (H5 : V * (qhat - 1) <= (v1 * base_ + v2 + 1) * X * (qhat - 1)).
  { apply Z.mul_le_mono_nonneg_r; lia. }
  subst U. lia.
Qed.
End Estimate.

(** ** Loops with checked accesses *)

Lemma upto_ind {S : Type} (P : nat -> S -> Prop) (body : Z -> S -> outcome S) n :
  forall lo s,
    P O s ->
    (forall j s, (j < n)%nat -> P j s ->
       exists s', body (lo + Z.of_nat j) s = Done s' /\ P (Datatypes.S j) s') ->
    exists s', upto_ n lo body s = Done s' /\ P n s'.
Proof.
  revert P. induction n as [|n IH]; intros P lo s H0 Hstep; cbn [upto_].
  { exists s. split; [reflexivity|exact H0]. }
  destruct (Hstep O s ltac:(lia) H0) as (s1 & E1 & H1).
  rewrite Z.add_0_r in E1. rewrite E1. cbn [mbind outcome_bind].
  apply (IH (fun j => P (Datatypes.S j))); [exact H1|].
  intros j s2 Hj Hs2. destruct (Hstep (Datatypes.S j) s2 ltac:(lia) Hs2) as (s3 & E3 & H3).
  exists s3. split; [|exact H3]. rewrite <- E3. f_equal. lia.
Qed.

Lemma downto_ind {S : Type} (P : nat -> S -> Prop) (body : Z -> S -> outcome S) n :
  forall lo s,
    P n s ->
    (forall j s, (j < n)%nat -> P (Datatypes.S j) s ->
       exists s', body (lo + Z.of_nat j) s = Done s' /\ P j s') ->
    exists s', downto_ n (lo + Z.of_nat n - 1) body s = Done s' /\ P O s'.
Proof.
  induction n as [|n IH]; intros lo s Hn Hstep; cbn [downto_].
  { exists s. split; [reflexivity|exact Hn]. }
  destruct (Hstep n s ltac:(lia) Hn) as (s1 & E1 & H1).
  replace (lo + Z.of_nat (Datatypes.S n) - 1) with (lo + Z.of_nat n) by lia.
  rewrite E1. cbn [mbind outcome_bind].
  replace (lo + Z.of_nat n - 1) with (lo + Z.of_nat n - 1) by lia.
  apply IH; [exact H1|]. intros j s2 Hj Hs2. apply Hstep; [lia|exact Hs2].
Qed.

Lemma set_in_range ds j v :
  0 <= j < Z.of_nat (length ds) -> set ds j v = Done (<[Z.to_nat j := v]> ds).
Proof.
  intros Hj. unfold set.
  destruct (Z.leb_spec 0 j) as [_|]; [|lia].
  destruct (Z.ltb_spec j (Z.of_nat (length ds))) as [_|]; [|lia].
  reflexivity.
Qed.

Lemma digit_insert_eq ds i v : (i < length ds)%nat -> digit (<[i := v]> ds) i = v.
Proof. intros Hi. unfold digit. rewrite list_lookup_insert_eq by lia. reflexivity. Qed.

Lemma digit_insert_ne ds i j v : i <> j -> digit (<[i := v]> ds) j = digit ds j.
Proof. intros Hi. unfold digit. rewrite list_lookup_insert_ne by lia. reflexivity. Qed.

(** ** Bits that do not overlap *)

Lemma lor_disjoint a b s :
  0 <= s -> 0 <= b < 2 ^ s -> 0 <= a -> a mod 2 ^ s = 0 -> Z.lor a b = a + b.
Proof.
  intros Hs Hb Ha Hmod.
  assert (Hland : Z.land a b = 0).
  { apply Z.bits_inj'. intros k Hk. rewrite Z.land_spec, Z.bits_0.
    destruct (Z.lt_ge_cases k s) as [Hlt|Hge].
    - assert (Z.testbit a k = false) as ->; [|reflexivity].
      rewrite (Z.div_mod a (2 ^ s)) by lia. rewrite Hmod, Z.add_0_r.
      rewrite Z.mul_comm. apply Z.mul_pow2_bits_low. lia.
    - assert (Z.testbit b k = false) as ->; [|apply andb_false_r].
      destruct (Z.eq_dec b 0) as [->|Hnz]; [apply Z.bits_0|].
      apply Z.bits_above_log2; [lia|].
      apply Z.log2_lt_pow2; [lia|].
      eapply Z.lt_le_trans; [apply Hb|]. apply Z.pow_le_mono_r; lia. }
  rewrite <- Z.lxor_lor by exact Hland. symmetry. apply Z.add_nocarry_lxor. exact Hland.
Qed.

(** ** Normalisation *)

Lemma normalising_shift_spec fuel :
  forall vn s0,
    0 < vn < 2 ^ 32 -> 2 ^ 32 <= vn * 2 ^ Z.of_nat fuel -> 0 <= s0 ->
    exists s,
      normalising_shift fuel vn s0 = Done s /\ s0 <= s /\
      2 ^ 31 <= vn * 2 ^ (s - s0) < 2 ^ 32.
Proof.
  induction fuel as [|fuel IH]; intros vn s0 Hvn Hfuel Hs0.
  { cbn in Hfuel. lia. }
  cbn [normalising_shift]. change (Z.shiftr base_ 1) with (2 ^ 31).
  destruct (Z.ltb_spec vn (2 ^ 31)) as [Hlt|Hge].
  - assert (Hd : u32 (Z.shiftl vn 1) = 2 * vn).
    { rewrite Z.shiftl_mul_pow2 by lia. unfold u32. rewrite Z.mod_small; lia. }
    rewrite Hd.
    destruct (IH (2 * vn) (s0 + 1)) as (s & Hs & Hle & Hr); [lia| |lia|].
    { rewrite Nat2Z.inj_succ, Z.pow_succ_r in Hfuel by lia. lia. }
    exists s. split; [exact Hs|]. split; [lia|].
    replace (s - s0) with (Z.succ (s - (s0 + 1))) by lia.
    rewrite Z.pow_succ_r by lia. lia.
  - exists s0. split; [reflexivity|]. split; [lia|].
    rewrite Z.sub_diag. change (2 ^ 0) with 1. lia.
Qed.

Lemma pow2_split s : 0 <= s <= 32 -> 2 ^ s * 2 ^ (32 - s) = base_.
Proof.
  intros Hs. rewrite <- Z.pow_add_r by lia.
  replace (s + (32 - s)) with 32 by lia. reflexivity.
Qed.

(** A digit's bits and those that enter from the digit below. *)
Lemma shifted_digit d dj s :
  0 <= s <= 31 -> 0 <= d < base_ -> 0 <= dj < base_ ->
  u32 (Z.lor (u32 (Z.shiftl d s)) (Z.shiftr dj (32 - s)))
  = (d * 2 ^ s) mod base_ + dj / 2 ^ (32 - s) /\
  0 <= (d * 2 ^ s) mod base_ + dj / 2 ^ (32 - s) < base_.
Proof.
  intros Hs Hd Hdj. pose proof (pow2_split s ltac:(lia)) as Hsplit.
  assert (Hp : 0 < 2 ^ s) by (apply Z.pow_pos_nonneg; lia).
  assert (Hp' : 0 < 2 ^ (32 - s)) by (apply Z.pow_pos_nonneg; lia).
  rewrite Z.shiftl_mul_pow2, Z.shiftr_div_pow2 by lia.
  unfold u32. change (2 ^ 32) with base_.
  set (a := (d * 2 ^ s) mod base_). set (b := dj / 2 ^ (32 - s)).
  assert (Ha : 0 <= a < base_) by (apply Z.mod_pos_bound; rewrite base_eq; lia).
  assert (Hb : 0 <= b < 2 ^ s).
  { subst b. split; [apply Z.div_pos; lia|].
    apply Z.div_lt_upper_bound; [lia|]. rewrite Z.mul_comm, Hsplit. lia. }
  assert (Hmod : a mod 2 ^ s = 0).
  { subst a. rewrite Z.mod_mod_divide; [apply Z.mod_mul; lia|].
    exists (2 ^ (32 - s)). rewrite <- Hsplit. ring. }
  rewrite (lor_disjoint a b s) by lia.
  assert (Hsum : 0 <= a + b < base_).
  { pose proof (Z.div_mod a (2 ^ s) ltac:(lia)) as Hdm. rewrite Hmod in Hdm.
    assert (a / 2 ^ s < 2 ^ (32 - s)).
    { apply Z.div_lt_upper_bound; [lia|]. rewrite Hsplit. lia. }
    nia. }
  split; [apply Z.mod_small; exact Hsum|exact Hsum].
Qed.

Lemma shifted_left_range ds s i :
  digits_ok ds -> 0 <= s <= 31 -> 0 <= shifted_left ds s i < base_.
Proof.
  intros Hok Hs. unfold shifted_left. destruct i as [|j].
  - rewrite Z.add_0_r. apply Z.mod_pos_bound. rewrite base_eq. lia.
  - apply shifted_digit; [exact Hs|apply digit_range, Hok|apply digit_range, Hok].
Qed.

Lemma shift_digits_left_spec ds m s :
  (1 <= m <= length ds)%nat -> digits_ok ds -> 0 <= s <= 31 ->
  exists ds',
    shift_digits_left ds (Z.of_nat m) s = Done ds' /\
    length ds' = length ds /\ digits_ok ds' /\
    drop m ds' = drop m ds /\
    forall i, (i < m)%nat -> digit ds' i = shifted_left ds s i.
Proof.
  intros Hm Hok Hs. unfold shift_digits_left, for_downto.
  replace (Z.to_nat (Z.of_nat m - 1 - 1 + 1)) with (m - 1)%nat by lia.
  replace (Z.of_nat m - 1) with (1 + Z.of_nat (m - 1) - 1) by lia.
  pose (P := fun (j : nat) (st : list Z) =>
    length st = length ds /\ digits_ok st /\
    (forall i, (i <= j)%nat -> digit st i = digit ds i) /\
    (forall i, (j < i < m)%nat -> digit st i = shifted_left ds s i) /\
    drop m st = drop m ds).
  match goal with
  | |- context [downto_ ?c ?hi ?body ?s0] =>
      destruct (downto_ind P body (m - 1) 1 ds) as (st & -> & Hl & Hst & Hlow & Hhigh & Hdrop)
  end.
  { unfold P. split; [reflexivity|]. split; [exact Hok|].
    split; [reflexivity|]. split; [intros i Hi; lia|reflexivity]. }
  { intros j st Hj (Hl & Hst & Hlow & Hhigh & Hdrop).
    rewrite (get_in_range st) by lia. cbn [mbind outcome_bind].
    rewrite (get_in_range st) by lia. cbn [mbind outcome_bind].
    rewrite set_in_range by lia.
    replace (Z.to_nat (1 + Z.of_nat j)) with (S j) by lia.
    replace (Z.to_nat (1 + Z.of_nat j - 1)) with j by lia.
    rewrite (Hlow (S j)), (Hlow j) by lia.
    destruct (shifted_digit (digit ds (S j)) (digit ds j) s Hs
                (digit_range _ _ Hok) (digit_range _ _ Hok)) as [Hv Hr].
    rewrite Hv. eexists. split; [reflexivity|]. unfold P.
    rewrite length_insert. split; [exact Hl|].
    split; [apply digits_ok_insert; [exact Hst|exact Hr]|].
    split; [intros i Hi; rewrite digit_insert_ne by lia; apply Hlow; lia|].
    split; [|rewrite drop_insert_lt by lia; exact Hdrop].
    intros i Hi. destruct (decide (i = S j)) as [->|Hne].
    - rewrite digit_insert_eq by lia. reflexivity.
    - rewrite digit_insert_ne by lia. apply Hhigh. lia. }
  cbn [mbind outcome_bind].
  rewrite (get_in_range st) by lia. cbn [mbind outcome_bind].
  rewrite set_in_range by lia. change (Z.to_nat 0) with O.
  rewrite (Hlow O) by lia.
  assert (Hv : u32 (Z.shiftl (digit ds 0) s) = shifted_left ds s 0).
  { unfold shifted_left. rewrite Z.shiftl_mul_pow2, Z.add_0_r by lia. reflexivity. }
  rewrite Hv. eexists. split; [reflexivity|].
  rewrite length_insert. split; [exact Hl|].
  split; [apply digits_ok_insert; [exact Hst|apply shifted_left_range; assumption]|].
  split; [rewrite drop_insert_lt by lia; exact Hdrop|].
  intros i Hi. destruct (decide (i = O)) as [->|Hne].
  - rewrite digit_insert_eq by lia. reflexivity.
  - rewrite digit_insert_ne by lia. apply Hhigh. lia.
Qed.

(** The value of the shifted digits: the bits that leave the top digit
    are those of [digit ds (m - 1) / 2 ^ (32 - s)]. *)
Lemma shifted_left_value ds ds' s :
  0 <= s <= 31 -> digits_ok ds ->
  forall i,
    (i <= length ds)%nat -> (i <= length ds')%nat ->
    (forall j, (j < i)%nat -> digit ds' j = shifted_left ds s j) ->
    uval (take i ds')
    + base_ ^ Z.of_nat i
      * match i with O => 0 | S j => digit ds j / 2 ^ (32 - s) end
    = uval (take i ds) * 2 ^ s.
Proof.
  intros Hs Hok. pose proof (pow2_split s ltac:(lia)) as Hsplit.
  assert (Hp : 0 < 2 ^ s) by (apply Z.pow_pos_nonneg; lia).
  assert (Hp' : 0 < 2 ^ (32 - s)) by (apply Z.pow_pos_nonneg; lia).
  induction i as [|i IH]; intros Hi Hi' Hdig.
  { rewrite !take_0. cbn [uval]. lia. }
  specialize (IH ltac:(lia) ltac:(lia) ltac:(intros j Hj; apply Hdig; lia)).
  rewrite (uval_take_S ds' i (digit ds' i)) by (apply digit_lookup; lia).
  rewrite (uval_take_S ds i (digit ds i)) by (apply digit_lookup; lia).
  rewrite (Hdig i) by lia. unfold shifted_left at 1.
  rewrite base_pow_S.
  set (c := match i with O => 0 | S j => digit ds j / 2 ^ (32 - s) end) in *.
  set (d := digit ds i).
  assert (Hd : d * 2 ^ s = (d * 2 ^ s) mod base_ + base_ * (d / 2 ^ (32 - s))).
  { rewrite (Z.div_mod (d * 2 ^ s) base_) at 1 by (rewrite base_eq; lia).
    rewrite <- Hsplit at 2. rewrite (Z.mul_comm (2 ^ s) (2 ^ (32 - s))).
    rewrite Z.div_mul_cancel_r by lia. lia. }
  pose proof (base_pow_pos i) as HB.
  generalize dependent (base_ ^ Z.of_nat i). intros Bi IH HB.
  generalize dependent (uval (take i ds')). intros u' IH.
  generalize dependent (uval (take i ds)). intros u IH.
  generalize dependent ((d * 2 ^ s) mod base_). intros lo Hd.
  generalize dependent (d / 2 ^ (32 - s)). intros hi Hd.
  nia.
Qed.

Lemma digit_drop ds i j : digit (drop i ds) j = digit ds (i + j).
Proof. unfold digit. rewrite lookup_drop. reflexivity. Qed.

Lemma drop_S_eq (ds es : list Z) i :
  drop i ds = drop i es -> drop (S i) ds = drop (S i) es.
Proof.
  intros H. replace (S i) with (i + 1)%nat by lia.
  rewrite <- !drop_drop, H. reflexivity.
Qed.

(** ** The second-order test *)

Lemma refine_qhat_S fuel dividend divisor k n qhat rhat :
  refine_qhat (S fuel) dividend divisor k n qhat rhat
  = if rhat <? base_ then
      v2 ← get divisor (n - 2);
      u2 ← get dividend (k + n - 2);
      if u64 (u64 (base_ * rhat) + u2) <? u64 (qhat * v2) then
        v1 ← get divisor (n - 1);
        refine_qhat fuel dividend divisor k n
          (u64 (qhat - 1)) (u64 (rhat + v1))
      else Done (qhat, rhat)
    else Done (qhat, rhat).
Proof. reflexivity. Qed.

Lemma refine_qhat_spec dividend divisor (k n : Z) v1 v2 u2 X Vlow Ulow t2 :
  get divisor (n - 2) = Done v2 ->
  get dividend (k + n - 2) = Done u2 ->
  get divisor (n - 1) = Done v1 ->
  0 < X -> 0 <= Vlow < X -> 0 <= Ulow < X ->
  base_ <= 2 * v1 -> v1 < base_ -> 0 <= v2 < base_ -> 0 <= u2 < base_ ->
  0 <= t2 ->
  forall fuel qhat rhat,
    qhat * v1 + rhat = t2 -> 0 <= qhat < base_ -> 0 <= rhat ->
    ((t2 * base_ + u2) * X + Ulow) / ((v1 * base_ + v2) * X + Vlow) <= qhat ->
    2 * base_ <= 2 * rhat + Z.of_nat fuel * base_ ->
    exists qhat' rhat',
      refine_qhat (S fuel) dividend divisor k n qhat rhat = Done (qhat', rhat') /\
      0 <= qhat' < base_ /\
      ((t2 * base_ + u2) * X + Ulow) / ((v1 * base_ + v2) * X + Vlow) <= qhat' /\
      qhat' <= ((t2 * base_ + u2) * X + Ulow) / ((v1 * base_ + v2) * X + Vlow) + 1.
Proof.
  intros Gv2 Gu2 Gv1 HX HVlow HUlow Hv1 Hv1' Hv2 Hu2 Ht2.
  set (q := ((t2 * base_ + u2) * X + Ulow) / ((v1 * base_ + v2) * X + Vlow)).
  assert (Hq0 : 0 <= q).
  { subst q. apply Z.div_pos.
    - rewrite base_eq in *. nia.
    - apply (estimate_V_pos X v1 v2 Vlow t2 u2 Ulow); assumption. }
  induction fuel as [|fuel IH]; intros qhat rhat HE Hqh Hrh Hle Hfuel.
  - rewrite refine_qhat_S.
    destruct (Z.ltb_spec rhat base_) as [Hlt|_]; [cbn in Hfuel; lia|].
    exists qhat, rhat. split; [reflexivity|]. split; [exact Hqh|]. split; [exact Hle|].
    apply (estimate_close X v1 v2 Vlow t2 u2 Ulow) with (rhat := rhat); try assumption; try lia.
    rewrite base_eq in *. nia.
  - rewrite refine_qhat_S.
    destruct (Z.ltb_spec rhat base_) as [Hlt|Hge].
    + rewrite Gv2, Gu2. cbn [mbind outcome_bind].
      assert (H1 : u64 (u64 (base_ * rhat) + u2) = base_ * rhat + u2).
      { rewrite (u64_small (base_ * rhat)) by (rewrite base_eq in *; nia).
        apply u64_small. rewrite base_eq in *. nia. }
      assert (H2 : u64 (qhat * v2) = qhat * v2)
        by (apply u64_small; rewrite base_eq in *; nia).
      rewrite H1, H2.
      destruct (Z.ltb_spec (base_ * rhat + u2) (qhat * v2)) as [Htest|Htest].
      * rewrite Gv1. cbn [mbind outcome_bind].
        pose proof (estimate_too_large X v1 v2 Vlow t2 u2 Ulow
                      HX HVlow HUlow Hv1 Hv1' Hv2 Hu2 Ht2 qhat rhat HE
                      ltac:(lia) Htest) as Hbig.
        fold q in Hbig.
        rewrite (u64_small (qhat - 1)) by (rewrite base_eq in *; lia).
        rewrite (u64_small (rhat + v1)) by (rewrite base_eq in *; lia).
        apply IH; try lia.
      * exists qhat, rhat. split; [reflexivity|]. split; [exact Hqh|].
        split; [exact Hle|].
        apply (estimate_close X v1 v2 Vlow t2 u2 Ulow) with (rhat := rhat);
          try assumption; lia.
    + exists qhat, rhat. split; [reflexivity|]. split; [exact Hqh|].
      split; [exact Hle|].
      apply (estimate_close X v1 v2 Vlow t2 u2 Ulow) with (rhat := rhat);
        try assumption; try lia.
      rewrite base_eq in *. nia.
Qed.

(** ** Multiply and subtract *)

Lemma multiply_subtract_loop dividend divisor (k n : nat) qhat
    (body : Z -> list Z * Z -> outcome (list Z * Z)) :
  (forall i dividend carry,
     body i (dividend, carry)
     = (vi ← get divisor i;
        let product := u64 (u32 qhat * vi) in
        uki ← get dividend (Z.of_nat k + i);
        let widedigit :=
          i64 (u64 (i64 (uki + carry)) - Z.land product 4294967295) in
        dividend ← set dividend (Z.of_nat k + i) (u32 widedigit);
        Done (dividend,
              i64 (u64 (Z.shiftr widedigit 32) - Z.shiftr product 32)))) ->
  (k + n <= length dividend)%nat -> (n <= length divisor)%nat ->
  digits_ok dividend -> digits_ok divisor -> 0 <= qhat < base_ ->
  exists dividend' carry,
    upto_ n 0 body (dividend, 0) = Done (dividend', carry) /\
    length dividend' = length dividend /\ digits_ok dividend' /\
    take k dividend' = take k dividend /\
    drop (k + n) dividend' = drop (k + n) dividend /\
    - base_ <= carry <= 0 /\
    uval (take n (drop k dividend')) + base_ ^ Z.of_nat n * carry
    = uval (take n (drop k dividend)) - qhat * uval (take n divisor).
Proof.
  intros Hbody Hk Hn Hok Hokv Hq.
  pose (P := fun (j : nat) (st : list Z * Z) =>
    length (fst st) = length dividend /\ digits_ok (fst st) /\
    take k (fst st) = take k dividend /\
    drop (k + j) (fst st) = drop (k + j) dividend /\
    - base_ <= snd st <= 0 /\
    uval (take j (drop k (fst st))) + base_ ^ Z.of_nat j * snd st
    = uval (take j (drop k dividend)) - qhat * uval (take j divisor)).
  destruct (upto_ind P body n 0 (dividend, 0)) as ([dv carry] & E & HP).
  { unfold P. cbn [fst snd]. rewrite !take_0. cbn [uval].
    repeat split; try reflexivity; try exact Hok; rewrite base_eq; lia. }
  { intros j [dv carry] Hj (Hl & Hdv & Htake & Hdrop & Hc & Hval).
    cbn [fst snd] in *. rewrite Hbody, Z.add_0_l.
    rewrite (get_in_range divisor) by lia. cbn [mbind outcome_bind].
    rewrite (get_in_range dv) by lia. cbn [mbind outcome_bind].
    rewrite Nat2Z.id. replace (Z.to_nat (Z.of_nat k + Z.of_nat j)) with (k + j)%nat by lia.
    set (vi := digit divisor j). set (uki := digit dv (k + j)).
    assert (Huki : uki = digit dividend (k + j)).
    { subst uki. rewrite <- (Nat.add_0_r (k + j)), <- !digit_drop, Hdrop. reflexivity. }
    pose proof (digit_range divisor j Hokv) as Hvi. fold vi in Hvi.
    pose proof (digit_range dv (k + j) Hdv) as Hu. fold uki in Hu.
    assert (Hu32 : u32 qhat = qhat) by (rewrite u32_mod; apply Z.mod_small; lia).
    rewrite Hu32.
    assert (Hprod : u64 (qhat * vi) = qhat * vi)
      by (apply u64_small; rewrite base_eq in *; nia).
    rewrite Hprod, land_low.
    pose proof (Z.mod_pos_bound (qhat * vi) base_ ltac:(rewrite base_eq; lia)) as Hlow.
    pose proof (Z.div_mod (qhat * vi) base_ ltac:(rewrite base_eq; lia)) as Hdm.
    assert (Hhigh : 0 <= qhat * vi / base_ <= base_ - 2).
    { split; [apply Z.div_pos; rewrite base_eq in *; nia|].
      assert (qhat * vi / base_ < base_ - 1); [|lia].
      apply Z.div_lt_upper_bound; rewrite base_eq in *; nia. }
    set (plow := (qhat * vi) mod base_) in *.
    set (phigh := qhat * vi / base_) in *.
    rewrite (i64_small (uki + carry)) by (rewrite base_eq in *; lia).
    rewrite (i64_u64_sub (uki + carry) plow),
      (i64_small (uki + carry - plow)) by (rewrite base_eq in *; lia).
    set (w := uki + carry - plow).
    rewrite !shiftr_32. change (qhat * vi / base_) with phigh.
    pose proof (Z.mod_pos_bound w base_ ltac:(rewrite base_eq; lia)) as Hwm.
    pose proof (Z.div_mod w base_ ltac:(rewrite base_eq; lia)) as Hwd.
    assert (Hwq : -2 <= w / base_ <= 0).
    { split.
      - apply Z.div_le_lower_bound; rewrite base_eq in *; lia.
      - assert (w / base_ < 1); [|lia].
        apply Z.div_lt_upper_bound; rewrite base_eq in *; lia. }
    rewrite (i64_u64_sub (w / base_) phigh),
      (i64_small (w / base_ - phigh)) by (rewrite base_eq in *; lia).
    rewrite set_in_range by lia.
    replace (Z.to_nat (Z.of_nat k + Z.of_nat j)) with (k + j)%nat by lia.
    eexists. split; [reflexivity|]. unfold P. cbn [fst snd].
    rewrite length_insert. split; [exact Hl|].
    split; [apply digits_ok_insert; [exact Hdv|apply u32_range]|].
    split; [rewrite take_insert_ge by lia; exact Htake|].
    split.
    { replace (k + S j)%nat with (S (k + j)) by lia.
      rewrite drop_insert_lt by lia. apply drop_S_eq, Hdrop. }
    split; [rewrite base_eq in *; lia|].
    rewrite drop_insert_ge by lia. replace (k + j - k)%nat with j by lia.
    rewrite (uval_take_S _ j (u32 w))
      by (apply list_lookup_insert_eq; rewrite length_drop; lia).
    rewrite take_insert_ge by lia.
    rewrite (uval_take_S (drop k dividend) j uki)
      by (rewrite Huki, <- digit_drop; apply digit_lookup; rewrite length_drop; lia).
    rewrite (uval_take_S divisor j vi) by (apply digit_lookup; lia).
    rewrite base_pow_S, u32_mod.
    pose proof (base_pow_pos j) as HB.
    generalize dependent (base_ ^ Z.of_nat j). intros Bj Hval HB.
    generalize dependent (uval (take j (drop k dv))). intros a Hval.
    generalize dependent (uval (take j (drop k dividend))). intros b Hval.
    generalize dependent (uval (take j divisor)). intros c Hval.
    assert (Hw : w = uki + carry - plow) by reflexivity.
    clearbody w plow phigh. nia. }
  destruct HP as (Hl & Hdv & Htake & Hdrop & Hc & Hval). cbn [fst snd] in *.
  exists dv, carry. repeat split; try assumption; lia.
Qed.

(** ** Adding the divisor back *)

Lemma add_back_loop dividend divisor (k n : nat)
    (body : Z -> list Z * Z -> outcome (list Z * Z)) :
  (forall i dividend widedigit,
     body i (dividend, widedigit)
     = (uki ← get dividend (Z.of_nat k + i);
        vi ← get divisor i;
        let widedigit := i64 (u64 widedigit + u64 (uki + vi)) in
        dividend ← set dividend (Z.of_nat k + i) (u32 widedigit);
        Done (dividend, Z.shiftr widedigit 32))) ->
  (k + n <= length dividend)%nat -> (n <= length divisor)%nat ->
  digits_ok dividend -> digits_ok divisor ->
  exists dividend' carry,
    upto_ n 0 body (dividend, 0) = Done (dividend', carry) /\
    length dividend' = length dividend /\ digits_ok dividend' /\
    take k dividend' = take k dividend /\
    drop (k + n) dividend' = drop (k + n) dividend /\
    0 <= carry <= 1 /\
    uval (take n (drop k dividend')) + base_ ^ Z.of_nat n * carry
    = uval (take n (drop k dividend)) + uval (take n divisor).
Proof.
  intros Hbody Hk Hn Hok Hokv.
  pose (P := fun (j : nat) (st : list Z * Z) =>
    length (fst st) = length dividend /\ digits_ok (fst st) /\
    take k (fst st) = take k dividend /\
    drop (k + j) (fst st) = drop (k + j) dividend /\
    0 <= snd st <= 1 /\
    uval (take j (drop k (fst st))) + base_ ^ Z.of_nat j * snd st
    = uval (take j (drop k dividend)) + uval (take j divisor)).
  destruct (upto_ind P body n 0 (dividend, 0)) as ([dv carry] & E & HP).
  { unfold P. cbn [fst snd]. rewrite !take_0. cbn [uval].
    repeat split; try reflexivity; try exact Hok; lia. }
  { intros j [dv carry] Hj (Hl & Hdv & Htake & Hdrop & Hc & Hval).
    cbn [fst snd] in *. rewrite Hbody, Z.add_0_l.
    rewrite (get_in_range dv) by lia. cbn [mbind outcome_bind].
    rewrite (get_in_range divisor) by lia. cbn [mbind outcome_bind].
    rewrite Nat2Z.id. replace (Z.to_nat (Z.of_nat k + Z.of_nat j)) with (k + j)%nat by lia.
    set (vi := digit divisor j). set (uki := digit dv (k + j)).
    assert (Huki : uki = digit dividend (k + j)).
    { subst uki. rewrite <- (Nat.add_0_r (k + j)), <- !digit_drop, Hdrop. reflexivity. }
    pose proof (digit_range divisor j Hokv) as Hvi. fold vi in Hvi.
    pose proof (digit_range dv (k + j) Hdv) as Hu. fold uki in Hu.
    rewrite i64_u64_add, (i64_small (carry + (uki + vi))) by (rewrite base_eq in *; lia).
    set (w := carry + (uki + vi)).
    rewrite shiftr_32.
    pose proof (Z.mod_pos_bound w base_ ltac:(rewrite base_eq; lia)) as Hwm.
    pose proof (Z.div_mod w base_ ltac:(rewrite base_eq; lia)) as Hwd.
    assert (Hwq : 0 <= w / base_ <= 1).
    { split.
      - apply Z.div_pos; rewrite base_eq in *; lia.
      - assert (w / base_ < 2); [|lia].
        apply Z.div_lt_upper_bound; rewrite base_eq in *; lia. }
    rewrite set_in_range by lia.
    replace (Z.to_nat (Z.of_nat k + Z.of_nat j)) with (k + j)%nat by lia.
    eexists. split; [reflexivity|]. unfold P. cbn [fst snd].
    rewrite length_insert. split; [exact Hl|].
    split; [apply digits_ok_insert; [exact Hdv|apply u32_range]|].
    split; [rewrite take_insert_ge by lia; exact Htake|].
    split.
    { replace (k + S j)%nat with (S (k + j)) by lia.
      rewrite drop_insert_lt by lia. apply drop_S_eq, Hdrop. }
    split; [lia|].
    rewrite drop_insert_ge by lia. replace (k + j - k)%nat with j by lia.
    rewrite (uval_take_S _ j (u32 w))
      by (apply list_lookup_insert_eq; rewrite length_drop; lia).
    rewrite take_insert_ge by lia.
    rewrite (uval_take_S (drop k dividend) j uki)
      by (rewrite Huki, <- digit_drop; apply digit_lookup; rewrite length_drop; lia).
    rewrite (uval_take_S divisor j vi) by (apply digit_lookup; lia).
    rewrite base_pow_S, u32_mod.
    pose proof (base_pow_pos j) as HB.
    generalize dependent (base_ ^ Z.of_nat j). intros Bj Hval HB.
    generalize dependent (uval (take j (drop k dv))). intros a Hval.
    generalize dependent (uval (take j (drop k dividend))). intros b Hval.
    generalize dependent (uval (take j divisor)). intros c Hval.
    assert (Hw : w = carry + (uki + vi)) by reflexivity.
    clearbody w. nia. }
  destruct HP as (Hl & Hdv & Htake & Hdrop & Hc & Hval). cbn [fst snd] in *.
  exists dv, carry. repeat split; try assumption; lia.
Qed.

Lemma take_drop_insert_above (ds : list Z) k n i v :
  (k + n <= i)%nat ->
  take n (drop k (<[i := v]> ds)) = take n (drop k ds).
Proof.
  intros Hi. rewrite drop_insert_ge by lia. apply take_insert_ge. lia.
Qed.

(** A number of [S (S c)] digits: its two top digits and the rest. *)
Lemma uval_top_two ds c :
  (S (S c) <= length ds)%nat ->
  uval (take (S (S c)) ds)
  = (digit ds (S c) * base_ + digit ds c) * base_ ^ Z.of_nat c + uval (take c ds).
Proof.
  intros Hl.
  rewrite (uval_take_S ds (S c) (digit ds (S c))) by (apply digit_lookup; lia).
  rewrite (uval_take_S ds c (digit ds c)) by (apply digit_lookup; lia).
  rewrite base_pow_S. ring.
Qed.

Lemma uval_take_bound ds c :
  digits_ok ds -> (c <= length ds)%nat ->
  0 <= uval (take c ds) < base_ ^ Z.of_nat c.
Proof.
  intros Hok Hc.
  assert (H : digits_ok (take c ds)) by (apply Forall_take; exact Hok).
  apply uval_bound in H. rewrite length_take_le in H by lia. exact H.
Qed.

Lemma two_digits_range a b :
  0 <= a < base_ -> 0 <= b < base_ ->
  0 <= a * base_ /\ a * base_ + b < base_ * base_.
Proof. rewrite base_eq. nia. Qed.

(** One round of the long division: when the first estimate does not
    exceed [base_], the round stores the quotient digit and leaves the
    remainder in the [n] digits from [k] on. *)
Lemma divide_step_spec divisor (n k : nat) dividend quotient :
  (2 <= n)%nat -> (n <= length divisor)%nat ->
  (k + n < length dividend)%nat -> (k < length quotient)%nat ->
  digits_ok divisor -> digits_ok dividend ->
  base_ <= 2 * digit divisor (n - 1) ->
  uval (take (S n) (drop k dividend)) < base_ * uval (take n divisor) ->
  digit dividend (k + n) < digit divisor (n - 1) \/
  digit divisor (n - 2) < digit divisor (n - 1) ->
  exists dividend',
    divide_step divisor (Z.of_nat n) (Z.of_nat k) (dividend, quotient)
    = Done (dividend',
            <[k := uval (take (S n) (drop k dividend)) / uval (take n divisor)]>
              quotient) /\
    length dividend' = length dividend /\ digits_ok dividend' /\
    take k dividend' = take k dividend /\
    uval (take n (drop k dividend'))
    = uval (take (S n) (drop k dividend)) mod uval (take n divisor).
Proof.
  intros Hn Hlv Hkn Hkq Hokv Hoku Hnorm Hlt Hsafe.
  destruct n as [|[|c]]; [lia|lia|]. clear Hn.
  set (n := S (S c)) in *.
  set (v1 := digit divisor (n - 1)) in *. set (v2 := digit divisor (n - 2)) in *.
  set (ukn := digit dividend (k + n)) in *.
  set (ukn1 := digit dividend (k + n - 1)).
  set (u2 := digit dividend (k + n - 2)).
  set (X := base_ ^ Z.of_nat c).
  set (Vlow := uval (take c divisor)).
  set (Ulow := uval (take c (drop k dividend))).
  set (t2 := ukn * base_ + ukn1).
  pose proof (digit_range divisor (n - 1) Hokv) as Rv1. fold v1 in Rv1.
  pose proof (digit_range divisor (n - 2) Hokv) as Rv2. fold v2 in Rv2.
  pose proof (digit_range dividend (k + n) Hoku) as Rukn. fold ukn in Rukn.
  pose proof (digit_range dividend (k + n - 1) Hoku) as Rukn1. fold ukn1 in Rukn1.
  pose proof (digit_range dividend (k + n - 2) Hoku) as Ru2. fold u2 in Ru2.
  assert (HX : 0 < X) by apply base_pow_pos.
  assert (RVlow : 0 <= Vlow < X) by (apply uval_take_bound; [exact Hokv|lia]).
  assert (RUlow : 0 <= Ulow < X).
  { apply uval_take_bound; [apply Forall_drop; exact Hoku|rewrite length_drop; lia]. }
  assert (HV : uval (take n divisor) = (v1 * base_ + v2) * X + Vlow).
  { subst n. rewrite uval_top_two by lia. subst v1 v2 X Vlow.
    replace (S (S c) - 1)%nat with (S c) by lia.
    replace (S (S c) - 2)%nat with c by lia. reflexivity. }
  assert (HU : uval (take (S n) (drop k dividend))
               = (t2 * base_ + u2) * X + Ulow).
  { rewrite (uval_take_S _ n ukn)
      by (subst ukn; rewrite <- digit_drop; apply digit_lookup;
          rewrite length_drop; lia).
    subst n. rewrite uval_top_two by (rewrite length_drop; lia).
    rewrite !digit_drop, !base_pow_S. subst t2 ukn1 u2 X Ulow.
    replace (k + S (S c) - 1)%nat with (k + S c)%nat by lia.
    replace (k + S (S c) - 2)%nat with (k + c)%nat by lia. ring. }
  set (Vv := uval (take n divisor)) in *.
  set (U := uval (take (S n) (drop k dividend))) in *.
  destruct (two_digits_range ukn ukn1 Rukn Rukn1) as [Ht2a Ht2'].
  fold t2 in Ht2'.
  assert (Ht2 : 0 <= t2) by (subst t2; lia).
  assert (HU0 : 0 <= U).
  { subst U. apply uval_take_bound;
      [apply Forall_drop; exact Hoku|rewrite length_drop; lia]. }
  assert (HVpos : 0 < Vv).
  { rewrite HV. apply (estimate_V_pos X v1 v2 Vlow t2 u2 Ulow); try assumption; lia. }
  set (q := U / Vv).
  assert (Hq : 0 <= q < base_).
  { subst q. split.
    - apply Z.div_pos; lia.
    - apply Z.div_lt_upper_bound; lia. }
  assert (Hqle : q <= t2 / v1).
  { subst q. rewrite HU, HV.
    apply (estimate_upper X v1 v2 Vlow t2 u2 Ulow); try assumption; lia. }
  assert (Hest : t2 / v1 <= base_).
  { assert (Hcap : t2 <= v1 * base_ + v2).
    { assert ((t2 * base_ + u2) * X < base_ * ((v1 * base_ + v2 + 1) * X)).
      { replace ((v1 * base_ + v2 + 1) * X) with ((v1 * base_ + v2) * X + X) by ring.
        assert (base_ * Vv < base_ * ((v1 * base_ + v2) * X + X)).
        { apply Z.mul_lt_mono_pos_l; [rewrite base_eq; lia|]. lia. }
        lia. }
      assert (t2 * base_ + u2 < base_ * (v1 * base_ + v2 + 1)).
      { apply (Z.mul_lt_mono_pos_r X); [exact HX|]. lia. }
      rewrite base_eq in *. lia. }
    assert (t2 / v1 < base_ + 1); [|lia].
    apply Z.div_lt_upper_bound; [rewrite base_eq in *; lia|].
    destruct Hsafe as [Hs|Hs].
    - subst t2. rewrite base_eq in *. nia.
    - rewrite base_eq in *. nia. }
  pose proof (Z.div_mod t2 v1 ltac:(rewrite base_eq in *; lia)) as Hdm.
  pose proof (Z.mod_pos_bound t2 v1 ltac:(rewrite base_eq in *; lia)) as Hmb.
  assert (Hqh0 : 0 <= t2 / v1) by (apply Z.div_pos; rewrite base_eq in *; lia).
  (* the estimate after the first correction *)
  set (qh1 := if t2 / v1 =? base_ then base_ - 1 else t2 / v1).
  set (rh1 := if t2 / v1 =? base_ then t2 mod v1 + v1 else t2 mod v1).
  assert (H1 : qh1 * v1 + rh1 = t2 /\ 0 <= qh1 < base_ /\ 0 <= rh1 /\ q <= qh1).
  { subst qh1 rh1. destruct (Z.eqb_spec (t2 / v1) base_) as [E|E].
    - split; [rewrite E in Hdm; lia|]. split; [rewrite base_eq; lia|]. lia.
    - split; [lia|]. split; [lia|]. lia. }
  destruct H1 as (HE1 & Rqh1 & Rrh1 & Hq1).
  unfold divide_step.
  rewrite (get_in_range dividend (Z.of_nat k + Z.of_nat n)) by lia.
  cbn [mbind outcome_bind].
  rewrite (get_in_range dividend (Z.of_nat k + Z.of_nat n - 1)) by lia.
  cbn [mbind outcome_bind].
  rewrite (get_in_range divisor (Z.of_nat n - 1)) by lia.
  cbn [mbind outcome_bind].
  replace (Z.to_nat (Z.of_nat k + Z.of_nat n)) with (k + n)%nat by lia.
  replace (Z.to_nat (Z.of_nat k + Z.of_nat n - 1)) with (k + n - 1)%nat by lia.
  replace (Z.to_nat (Z.of_nat n - 1)) with (n - 1)%nat by lia.
  fold ukn ukn1 v1.
  assert (Hr0 : u64 (u64 (ukn * base_) + ukn1) = t2).
  { change 18446744073709551616 with (base_ * base_) in *.
    rewrite (u64_small (ukn * base_)) by (change 18446744073709551616 with (base_ * base_); lia).
    apply u64_small. change 18446744073709551616 with (base_ * base_). subst t2. lia. }
  rewrite Hr0. unfold divide, modulo.
  destruct (Z.eqb_spec v1 0) as [|_]; [rewrite base_eq in *; lia|].
  cbn [mbind outcome_bind].
  assert (Hclamp :
    (if t2 / v1 =? base_
     then Done (u64 (t2 / v1 - 1), u64 (t2 mod v1 + v1))
     else Done (t2 / v1, t2 mod v1)) = Done (qh1, rh1)).
  { subst qh1 rh1. destruct (Z.eqb_spec (t2 / v1) base_) as [E|E]; [|reflexivity].
    rewrite E, !u64_small by (rewrite base_eq in *; lia). reflexivity. }
  rewrite Hclamp. cbn [mbind outcome_bind].
  destruct (refine_qhat_spec dividend divisor (Z.of_nat k) (Z.of_nat n)
              v1 v2 u2 X Vlow Ulow t2) with (fuel := 3%nat) (qhat := qh1) (rhat := rh1)
    as (qh & rh & -> & Rqh & Hqlo & Hqhi).
  { rewrite get_in_range by lia.
    replace (Z.to_nat (Z.of_nat n - 2)) with (n - 2)%nat by lia. reflexivity. }
  { rewrite get_in_range by lia.
    replace (Z.to_nat (Z.of_nat k + Z.of_nat n - 2)) with (k + n - 2)%nat by lia.
    reflexivity. }
  { rewrite get_in_range by lia.
    replace (Z.to_nat (Z.of_nat n - 1)) with (n - 1)%nat by lia. reflexivity. }
  { exact HX. } { exact RVlow. } { exact RUlow. } { exact Hnorm. } { lia. }
  { exact Rv2. } { exact Ru2. } { exact Ht2. } { exact HE1. } { exact Rqh1. }
  { exact Rrh1. } { rewrite <- HU, <- HV. exact Hq1. }
  { change (Z.of_nat 3) with 3. lia. }
  rewrite <- HU, <- HV in Hqlo, Hqhi. fold q in Hqlo, Hqhi.
  cbn [mbind outcome_bind].
  (* multiply and subtract *)
  unfold for_upto. rewrite Z.sub_0_r, Nat2Z.id.
  match goal with
  | |- context [upto_ n 0 ?body (dividend, 0)] =>
      destruct (multiply_subtract_loop dividend divisor k n qh body)
        as (dv1 & carry & -> & Hl1 & Hok1 & Htk1 & Hdr1 & Rc & Hval1)
  end.
  { intros i d cy. reflexivity. } { lia. } { lia. } { exact Hoku. }
  { exact Hokv. } { exact Rqh. }
  cbn [mbind outcome_bind].
  assert (Hukn1 : digit dv1 (k + n) = ukn).
  { subst ukn. rewrite <- (Nat.add_0_r (k + n)), <- !digit_drop, Hdr1. reflexivity. }
  rewrite (get_in_range dv1 (Z.of_nat k + Z.of_nat n)) by lia.
  cbn [mbind outcome_bind].
  replace (Z.to_nat (Z.of_nat k + Z.of_nat n)) with (k + n)%nat by lia.
  rewrite Hukn1, (i64_small (ukn + carry)) by (rewrite base_eq in *; lia).
  rewrite set_in_range by lia. cbn [mbind outcome_bind].
  rewrite set_in_range by lia. cbn [mbind outcome_bind].
  replace (Z.to_nat (Z.of_nat k + Z.of_nat n)) with (k + n)%nat by lia.
  rewrite Nat2Z.id.
  assert (Hu32q : u32 qh = qh) by (rewrite u32_mod; apply Z.mod_small; lia).
  rewrite Hu32q.
  (* the remainder of the round *)
  pose proof (Z.div_mod U Vv ltac:(lia)) as HUdm. fold q in HUdm.
  pose proof (Z.mod_pos_bound U Vv ltac:(lia)) as HUmb.
  set (r := U mod Vv) in *.
  assert (HVn : Vv < base_ ^ Z.of_nat n).
  { subst Vv. apply uval_take_bound; [exact Hokv|lia]. }
  assert (Hnew : 0 <= uval (take n (drop k dv1)) < base_ ^ Z.of_nat n).
  { apply uval_take_bound; [apply Forall_drop; exact Hok1|rewrite length_drop; lia]. }
  assert (HUn : U = uval (take n (drop k dividend)) + base_ ^ Z.of_nat n * ukn).
  { subst U ukn. rewrite (uval_take_S _ n (digit dividend (k + n)))
      by (rewrite <- digit_drop; apply digit_lookup; rewrite length_drop; lia).
    reflexivity. }
  assert (Htot : uval (take n (drop k dv1)) + base_ ^ Z.of_nat n * (ukn + carry)
                 = U - qh * Vv) by (rewrite HUn; lia).
  pose proof (base_pow_pos n) as HBn.
  destruct (Z.ltb_spec (ukn + carry) 0) as [Hneg|Hnonneg].
  - (* the estimate was one too large *)
    assert (Hqh : qh = q + 1).
    { assert (q < qh); [|lia].
      destruct (Z.le_gt_cases qh q) as [Hc|]; [exfalso|lia].
      assert (qh * Vv <= q * Vv) by (apply Z.mul_le_mono_nonneg_r; lia).
      assert (base_ ^ Z.of_nat n * (ukn + carry) <= base_ ^ Z.of_nat n * (-1))
        by (apply Z.mul_le_mono_nonneg_l; lia).
      lia. }
    rewrite (get_in_range (<[k := qh]> quotient)) by (rewrite length_insert; lia).
    cbn [mbind outcome_bind]. rewrite Nat2Z.id, digit_insert_eq by lia.
    rewrite set_in_range by (rewrite length_insert; lia).
    cbn [mbind outcome_bind]. rewrite Nat2Z.id, list_insert_insert_eq.
    assert (Hu32q' : u32 (qh - 1) = q)
      by (rewrite u32_mod, Hqh; replace (q + 1 - 1) with q by lia;
          apply Z.mod_small; lia).
    rewrite Hu32q'.
    set (dv2 := <[(k + n)%nat := u32 (ukn + carry)]> dv1).
    assert (Hl2 : length dv2 = length dividend) by (subst dv2; rewrite length_insert; exact Hl1).
    assert (Hok2 : digits_ok dv2)
      by (subst dv2; apply digits_ok_insert; [exact Hok1|apply u32_range]).
    match goal with
    | |- context [upto_ n 0 ?body (dv2, 0)] =>
        destruct (add_back_loop dv2 divisor k n body)
          as (dv3 & acc & -> & Hl3 & Hok3 & Htk3 & Hdr3 & Ra & Hval3)
    end.
    { intros i d w. reflexivity. } { lia. } { lia. } { exact Hok2. } { exact Hokv. }
    cbn [mbind outcome_bind].
    rewrite (get_in_range dv3) by lia. cbn [mbind outcome_bind].
    rewrite set_in_range by lia.
    replace (Z.to_nat (Z.of_nat k + Z.of_nat n)) with (k + n)%nat by lia.
    eexists. split; [reflexivity|].
    rewrite length_insert. split; [lia|].
    split; [apply digits_ok_insert; [exact Hok3|apply u32_range]|].
    split.
    { rewrite take_insert_ge by lia. rewrite Htk3. subst dv2.
      rewrite take_insert_ge by lia. exact Htk1. }
    rewrite take_drop_insert_above by lia.
    assert (Hnew3 : 0 <= uval (take n (drop k dv3)) < base_ ^ Z.of_nat n).
    { apply uval_take_bound; [apply Forall_drop; exact Hok3|rewrite length_drop; lia]. }
    assert (Hdv2 : take n (drop k dv2) = take n (drop k dv1))
      by (subst dv2; apply take_drop_insert_above; lia).
    rewrite Hdv2 in Hval3.
    assert (Hacc : acc = - (ukn + carry)).
    { assert (uval (take n (drop k dv3)) + base_ ^ Z.of_nat n * (acc + (ukn + carry)) = r)
        by lia.
      destruct (Z.lt_trichotomy (acc + (ukn + carry)) 0) as [Hc|[Hc|Hc]]; [exfalso| lia |exfalso].
      - assert (base_ ^ Z.of_nat n * (acc + (ukn + carry)) <= base_ ^ Z.of_nat n * (-1))
          by (apply Z.mul_le_mono_nonneg_l; lia).
        lia.
      - assert (base_ ^ Z.of_nat n * 1 <= base_ ^ Z.of_nat n * (acc + (ukn + carry)))
          by (apply Z.mul_le_mono_nonneg_l; lia).
        lia. }
    subst acc. lia.
  - (* the estimate was the digit *)
    assert (Hqh : qh = q).
    { assert (qh <= q); [|lia].
      destruct (Z.le_gt_cases qh q) as [|Hc]; [assumption|exfalso].
      assert (Hqq : qh = q + 1) by lia.
      assert (0 <= base_ ^ Z.of_nat n * (ukn + carry))
        by (apply Z.mul_nonneg_nonneg; lia).
      rewrite Hqq in Htot. lia. }
    rewrite Hqh. eexists. split; [reflexivity|].
    rewrite length_insert. split; [exact Hl1|].
    split; [apply digits_ok_insert; [exact Hok1|apply u32_range]|].
    split; [rewrite take_insert_ge by lia; exact Htk1|].
    rewrite take_drop_insert_above by lia.
    rewrite Hqh in Htot.
    assert (Hz : ukn + carry = 0).
    { destruct (Z.eq_dec (ukn + carry) 0) as [|Hnz]; [assumption|exfalso].
      assert (base_ ^ Z.of_nat n * 1 <= base_ ^ Z.of_nat n * (ukn + carry))
        by (apply Z.mul_le_mono_nonneg_l; lia).
      lia. }
    rewrite Hz in Htot. lia.
Qed.

Lemma uval_take_add ds c j :
  (c <= length ds)%nat ->
  uval (take (c + j) ds)
  = uval (take c ds) + base_ ^ Z.of_nat c * uval (take j (drop c ds)).
Proof.
  intros Hc. rewrite <- (take_drop c ds) at 1.
  rewrite take_app_add' by (rewrite length_take_le; lia).
  rewrite uval_app, length_take_le by lia. reflexivity.
Qed.

Lemma uval_drop_digit ds c j :
  (c < length ds)%nat ->
  uval (take (S j) (drop c ds))
  = digit ds c + base_ * uval (take j (drop (S c) ds)).
Proof.
  intros Hc. rewrite (drop_S ds (digit ds c) c) by (apply digit_lookup; lia).
  reflexivity.
Qed.

(** The main loop of Algorithm D, [rounds] rounds from the top: the
    quotient digits found so far and the remainder in [dividend]. *)
Lemma long_division_loop divisor (n m : nat) dividend quotient :
  (2 <= n <= m)%nat -> (n <= length divisor)%nat ->
  (m < length dividend)%nat -> (m - n < length quotient)%nat ->
  digits_ok divisor -> digits_ok dividend -> digits_ok quotient ->
  base_ <= 2 * digit divisor (n - 1) ->
  uval (drop (m - n + 1) quotient) = 0 ->
  uval (take n (drop (m - n + 1) dividend)) < uval (take n divisor) ->
  digit dividend m < digit divisor (n - 1) ->
  m = n \/ digit divisor (n - 2) < digit divisor (n - 1) ->
  exists dividend' quotient',
    downto_ (m - n + 1) (Z.of_nat (m - n))
      (divide_step divisor (Z.of_nat n)) (dividend, quotient)
    = Done (dividend', quotient') /\
    length dividend' = length dividend /\ digits_ok dividend' /\
    length quotient' = length quotient /\ digits_ok quotient' /\
    uval (take (m + 1) dividend)
    = uval (take n divisor) * uval quotient' + uval (take n dividend') /\
    uval (take n dividend') < uval (take n divisor).
Proof.
  intros Hnm Hlv Hlu Hlq Hokv Hoku Hokq Hnorm Hq0 Hinit Htop Hsafe.
  set (Vv := uval (take n divisor)) in *.
  set (A := uval (take (m + 1) dividend)).
  pose (P := fun (c : nat) (st : list Z * list Z) =>
    length (fst st) = length dividend /\ digits_ok (fst st) /\
    length (snd st) = length quotient /\ digits_ok (snd st) /\
    uval (take n (drop c (fst st))) < Vv /\
    A = Vv * base_ ^ Z.of_nat c * uval (drop c (snd st))
        + uval (take (c + n) (fst st)) /\
    (c = (m - n + 1)%nat -> digit (fst st) m < digit divisor (n - 1))).
  replace (Z.of_nat (m - n)) with (0 + Z.of_nat (m - n + 1) - 1) by lia.
  destruct (downto_ind P (divide_step divisor (Z.of_nat n)) (m - n + 1) 0
              (dividend, quotient)) as ([dv qv] & E & HP).
  { unfold P. cbn [fst snd]. split; [reflexivity|]. split; [exact Hoku|].
    split; [reflexivity|]. split; [exact Hokq|]. split; [exact Hinit|].
    split; [|intros _; exact Htop].
    rewrite Hq0, Z.mul_0_r, Z.add_0_l. subst A. f_equal. f_equal. lia. }
  { intros c [dv qv] Hc (Hl & Hdv & Hlq' & Hqv & HR & HA & Hfirst).
    cbn [fst snd] in *. rewrite Z.add_0_l.
    assert (HU : uval (take (S n) (drop c dv)) < base_ * Vv).
    { rewrite uval_drop_digit by lia.
      pose proof (digit_range dv c Hdv). rewrite base_eq in *. lia. }
    destruct (divide_step_spec divisor n c dv qv) as (dv' & -> & Hl' & Hdv' & Htk & Hrem);
      try assumption; try lia.
    { destruct (decide (S c = (m - n + 1)%nat)) as [Ec|Ec].
      - left. replace (c + n)%nat with m by lia. apply Hfirst. exact Ec.
      - right. destruct Hsafe as [Hs|Hs]; [lia|exact Hs]. }
    fold Vv in Hrem |- *.
    set (U := uval (take (S n) (drop c dv))) in *.
    assert (HU0 : 0 <= U).
    { subst U. apply uval_take_bound;
        [apply Forall_drop; exact Hdv|rewrite length_drop; lia]. }
    assert (HVpos : 0 < Vv) by (rewrite base_eq in HU; lia).
    pose proof (Z.div_mod U Vv ltac:(lia)) as HUdm.
    pose proof (Z.mod_pos_bound U Vv ltac:(lia)) as HUmb.
    assert (Hq : 0 <= U / Vv < base_).
    { split; [apply Z.div_pos; lia|apply Z.div_lt_upper_bound; lia]. }
    eexists. split; [reflexivity|]. unfold P. cbn [fst snd].
    rewrite length_insert.
    split; [lia|]. split; [exact Hdv'|]. split; [exact Hlq'|].
    split; [apply digits_ok_insert; [exact Hqv|exact Hq]|].
    split; [rewrite Hrem; lia|].
    split; [|intros Ec; lia].
    rewrite HA.
    rewrite (uval_drop (<[c := U / Vv]> qv) c (U / Vv))
      by (apply list_lookup_insert_eq; lia).
    rewrite drop_insert_lt by lia.
    rewrite (uval_take_add dv' c n) by lia. rewrite Htk, Hrem.
    replace (S c + n)%nat with (c + S n)%nat by lia.
    rewrite (uval_take_add dv c (S n)) by lia. fold U.
    rewrite base_pow_S.
    generalize (base_ ^ Z.of_nat c) (uval (drop (S c) qv)) (uval (take c dv)).
    intros Bc Qh low. clear - HUdm. nia. }
  destruct HP as (Hl & Hdv & Hlq' & Hqv & HR & HA & _). cbn [fst snd] in *.
  exists dv, qv. split; [exact E|].
  split; [exact Hl|]. split; [exact Hdv|]. split; [exact Hlq'|].
  split; [exact Hqv|]. split; [|exact HR].
  rewrite drop_0, Z.pow_0_r, Z.mul_1_r in HA. exact HA.
Qed.

(** ** Taking the normalisation back *)

(** A digit's upper bits and those that enter from the digit above. *)
Lemma unshifted_digit di dj s :
  0 <= s <= 31 -> 0 <= di < base_ -> 0 <= dj < base_ ->
  u32 (Z.lor (Z.shiftr di s) (u64 (Z.shiftl dj (32 - s))))
  = di / 2 ^ s + dj mod 2 ^ s * 2 ^ (32 - s) /\
  0 <= di / 2 ^ s + dj mod 2 ^ s * 2 ^ (32 - s) < base_.
Proof.
  intros Hs Hdi Hdj. pose proof (pow2_split s ltac:(lia)) as Hsplit.
  assert (Hp : 0 < 2 ^ s) by (apply Z.pow_pos_nonneg; lia).
  assert (Hp' : 0 < 2 ^ (32 - s)) by (apply Z.pow_pos_nonneg; lia).
  assert (Hp32 : 2 ^ (32 - s) <= base_).
  { rewrite <- Hsplit. nia. }
  rewrite Z.shiftl_mul_pow2, Z.shiftr_div_pow2 by lia.
  set (b := di / 2 ^ s). set (a := dj * 2 ^ (32 - s)).
  assert (Hb : 0 <= b < 2 ^ (32 - s)).
  { subst b. split; [apply Z.div_pos; lia|].
    apply Z.div_lt_upper_bound; [lia|]. rewrite Hsplit. lia. }
  assert (Ha : 0 <= a < base_ * base_).
  { subst a. rewrite base_eq in *. nia. }
  rewrite (u64_small a) by (change 18446744073709551616 with (base_ * base_); lia).
  rewrite Z.lor_comm, (lor_disjoint a b (32 - s)); try lia;
    [|subst a; apply Z.mod_mul; lia].
  pose proof (Z.mod_pos_bound dj (2 ^ s) Hp) as Hm.
  assert (Hmod : a mod base_ = dj mod 2 ^ s * 2 ^ (32 - s)).
  { subst a. rewrite <- Hsplit.
    rewrite Z.mul_mod_distr_r by lia. reflexivity. }
  assert (Hr : 0 <= dj mod 2 ^ s * 2 ^ (32 - s) + b < base_).
  { rewrite <- Hsplit. nia. }
  rewrite u32_mod, <- Zplus_mod_idemp_l, Hmod.
  rewrite Z.mod_small by exact Hr. split; lia.
Qed.

Lemma shifted_right_value ds rd s n :
  0 <= s <= 31 -> (1 <= n)%nat ->
  (n <= length ds)%nat -> (n <= length rd)%nat ->
  (forall i, (i < n)%nat -> digit rd i = shifted_right ds s n i) ->
  uval (take n rd) * 2 ^ s + digit ds 0 mod 2 ^ s = uval (take n ds).
Proof.
  intros Hs Hn Hl Hl' Hdig. pose proof (pow2_split s ltac:(lia)) as Hsplit.
  assert (Hp : 0 < 2 ^ s) by (apply Z.pow_pos_nonneg; lia).
  assert (Hpre : forall i, (i < n)%nat ->
            uval (take i rd) * 2 ^ s + digit ds 0 mod 2 ^ s
            = uval (take i ds) + base_ ^ Z.of_nat i * (digit ds i mod 2 ^ s)).
  { induction i as [|i IH]; intros Hi.
    - rewrite !take_0. cbn [uval]. change (Z.of_nat 0) with 0. rewrite Z.pow_0_r. lia.
    - specialize (IH ltac:(lia)).
      rewrite (uval_take_S rd i (digit rd i)) by (apply digit_lookup; lia).
      rewrite (uval_take_S ds i (digit ds i)) by (apply digit_lookup; lia).
      rewrite (Hdig i) by lia. unfold shifted_right.
      destruct (Nat.eqb_spec (S i) n) as [|_]; [lia|].
      rewrite base_pow_S.
      pose proof (Z.div_mod (digit ds i) (2 ^ s) ltac:(lia)) as Hdm.
      set (hi := digit ds i / 2 ^ s) in *. set (lo := digit ds i mod 2 ^ s) in *.
      set (lo' := digit ds (S i) mod 2 ^ s) in *.
      set (r := uval (take i rd)) in *. set (d := uval (take i ds)) in *.
      set (Bi := base_ ^ Z.of_nat i) in *. set (di := digit ds i) in *.
      set (e0 := digit ds 0 mod 2 ^ s) in *.
      rewrite <- Hsplit. set (p := 2 ^ s) in *. set (c := 2 ^ (32 - s)) in *.
      clearbody hi lo lo' r d Bi di e0 p c. clear - IH Hdm. nia. }
  destruct n as [|i]; [lia|]. specialize (Hpre i ltac:(lia)).
  rewrite (uval_take_S rd i (digit rd i)) by (apply digit_lookup; lia).
  rewrite (uval_take_S ds i (digit ds i)) by (apply digit_lookup; lia).
  rewrite (Hdig i) by lia. unfold shifted_right.
  rewrite Nat.eqb_refl.
  pose proof (Z.div_mod (digit ds i) (2 ^ s) ltac:(lia)) as Hdm.
  set (hi := digit ds i / 2 ^ s) in *. set (lo := digit ds i mod 2 ^ s) in *.
  set (r := uval (take i rd)) in *. set (d := uval (take i ds)) in *.
  set (Bi := base_ ^ Z.of_nat i) in *. set (di := digit ds i) in *.
  set (e0 := digit ds 0 mod 2 ^ s) in *. set (p := 2 ^ s) in *.
  clearbody hi lo r d Bi di e0 p. clear - Hpre Hdm. nia.
Qed.

Lemma shifted_right_range ds s n i :
  digits_ok ds -> 0 <= s <= 31 -> 0 <= shifted_right ds s n i < base_.
Proof.
  intros Hok Hs. unfold shifted_right.
  pose proof (digit_range ds i Hok) as Hd.
  destruct (S i =? n)%nat.
  - assert (Hp : 0 < 2 ^ s) by (apply Z.pow_pos_nonneg; lia).
    split; [apply Z.div_pos; lia|].
    apply Z.le_lt_trans with (digit ds i); [|lia].
    apply Z.div_le_upper_bound; [lia|]. nia.
  - apply unshifted_digit; [exact Hs|exact Hd|apply digit_range, Hok].
Qed.

(** The loop that writes the remainder, and the store of its top
    digit. *)
Lemma remainder_loop dividend r0 s (n : nat)
    (body : Z -> list Z -> outcome (list Z)) :
  (forall i rd,
     body i rd
     = (di ← get dividend i;
        dj ← get dividend (i + 1);
        set rd i (u32 (Z.lor (Z.shiftr di s) (u64 (Z.shiftl dj (32 - s))))))) ->
  (1 <= n <= length dividend)%nat -> (n <= length r0)%nat ->
  digits_ok dividend -> digits_ok r0 -> 0 <= s <= 31 ->
  exists rd1,
    upto_ (n - 1) 0 body r0 = Done rd1 /\
    length rd1 = length r0 /\
    digits_ok (<[(n - 1)%nat := (digit dividend (n - 1) / 2 ^ s)]> rd1) /\
    drop n (<[(n - 1)%nat := (digit dividend (n - 1) / 2 ^ s)]> rd1) = drop n r0 /\
    forall i, (i < n)%nat ->
      digit (<[(n - 1)%nat := (digit dividend (n - 1) / 2 ^ s)]> rd1) i
      = shifted_right dividend s n i.
Proof.
  intros Hbody Hn Hr Hok Hok0 Hs.
  pose (P := fun (j : nat) (rd : list Z) =>
    length rd = length r0 /\ digits_ok rd /\ drop j rd = drop j r0 /\
    forall i, (i < j)%nat -> digit rd i = shifted_right dividend s n i).
  destruct (upto_ind P body (n - 1) 0 r0) as (rd & E & Hl & Hrd & Hdrop & Hdig).
  { unfold P. split; [reflexivity|]. split; [exact Hok0|].
    split; [reflexivity|]. intros i Hi. lia. }
  { intros j rd Hj (Hl & Hrd & Hdrop & Hdig). rewrite Hbody, Z.add_0_l.
    rewrite (get_in_range dividend) by lia. cbn [mbind outcome_bind].
    rewrite (get_in_range dividend) by lia. cbn [mbind outcome_bind].
    rewrite set_in_range by lia.
    rewrite Nat2Z.id. replace (Z.to_nat (Z.of_nat j + 1)) with (S j) by lia.
    destruct (unshifted_digit (digit dividend j) (digit dividend (S j)) s Hs
                (digit_range _ _ Hok) (digit_range _ _ Hok)) as [Hv Hrange].
    rewrite Hv. eexists. split; [reflexivity|]. unfold P.
    rewrite length_insert. split; [exact Hl|].
    split; [apply digits_ok_insert; [exact Hrd|exact Hrange]|].
    split; [rewrite drop_insert_lt by lia; apply drop_S_eq, Hdrop|].
    intros i Hi. destruct (decide (i = j)) as [->|Hne].
    - rewrite digit_insert_eq by lia. unfold shifted_right.
      destruct (Nat.eqb_spec (S j) n) as [|_]; [lia|]. reflexivity.
    - rewrite digit_insert_ne by lia. apply Hdig. lia. }
  exists rd. split; [exact E|]. split; [exact Hl|].
  assert (Hlast : digit dividend (n - 1) / 2 ^ s = shifted_right dividend s n (n - 1)).
  { unfold shifted_right. destruct (Nat.eqb_spec (S (n - 1)) n) as [_|]; [reflexivity|lia]. }
  rewrite Hlast.
  split; [apply digits_ok_insert; [exact Hrd|apply shifted_right_range; assumption]|].
  split.
  { rewrite drop_insert_lt by lia.
    pose proof (drop_S_eq _ _ _ Hdrop) as Hd'.
    replace (S (n - 1)) with n in Hd' by lia. exact Hd'. }
  intros i Hi. destruct (decide (i = (n - 1)%nat)) as [->|Hne].
  - rewrite digit_insert_eq by lia. reflexivity.
  - rewrite digit_insert_ne by lia. apply Hdig. lia.
Qed.

Lemma uval_significant ds n :
  length ds = numDigits_ -> trim ds numDigits_ = n ->
  uval ds = uval (take n ds).
Proof.
  intros Hl <-. apply uval_take_significant. intros j Hj.
  apply (trim_zero_above _ numDigits_). lia.
Qed.

Lemma scaled_division ua ub p Q R :
  0 < p -> 0 < ub -> ua * p = ub * p * Q + R -> 0 <= R < ub * p ->
  Q = ua / ub /\ R = ua mod ub * p.
Proof.
  intros Hp Hub HE HR.
  assert (HRp : R = (ua - ub * Q) * p) by lia.
  assert (Ht : 0 <= ua - ub * Q < ub) by nia.
  assert (HQ : Q = ua / ub) by (apply (Z.div_unique_pos ua ub Q (ua - ub * Q)); lia).
  split; [exact HQ|].
  rewrite HRp. f_equal.
  apply (Z.mod_unique_pos ua ub Q (ua - ub * Q)); lia.
Qed.

(** Case 3 of [unsigned_divide]: the long division in full. *)
Lemma unsigned_divide_case_3 a b remainder :
  wf a -> wf b ->
  (forall r0, remainder = Some r0 -> wf r0) ->
  (2 <= trim (digits_ b) numDigits_ <= trim (digits_ a) numDigits_)%nat ->
  (trim (digits_ a) numDigits_ < numDigits_)%nat ->
  trim (digits_ a) numDigits_ = trim (digits_ b) numDigits_ \/
  (forall s V,
     normalising_shift 33
       (digit (digits_ b) (trim (digits_ b) numDigits_ - 1)) 0 = Done s ->
     shift_digits_left (digits_ b)
       (Z.of_nat (trim (digits_ b) numDigits_)) s = Done V ->
     digit V (trim (digits_ b) numDigits_ - 2)
     < digit V (trim (digits_ b) numDigits_ - 1)) ->
  exists q r,
    unsigned_divide a b remainder
    = Done (q, match remainder with Some _ => Some r | None => None end) /\
    wf q /\ uval (digits_ q) = uval (digits_ a) / uval (digits_ b) /\
    forall r0, remainder = Some r0 ->
      wf r /\
      uval (take (trim (digits_ b) numDigits_) (digits_ r))
      = uval (digits_ a) mod uval (digits_ b) /\
      drop (trim (digits_ b) numDigits_) (digits_ r)
      = drop (trim (digits_ b) numDigits_) (digits_ r0).
Proof.
  intros Ha Hb Hrem Hnm HmN Hsafe.
  pose proof Ha as Ha'. apply wf_spec in Ha' as [Hla Hoka].
  pose proof Hb as Hb'. apply wf_spec in Hb' as [Hlb Hokb].
  pose proof (uval_significant _ _ Hla eq_refl) as Hua.
  pose proof (uval_significant _ _ Hlb eq_refl) as Hub.
  pose proof (trim_le (digits_ b) numDigits_) as HnN.
  unfold unsigned_divide.
  rewrite !significant_trim by lia. cbn [mbind outcome_bind].
  destruct (trim (digits_ b) numDigits_) as [|[|c]] eqn:En; [lia|lia|].
  pose proof (trim_top_nonzero _ _ _ En) as Hvn0.
  set (n := S (S c)) in *.
  set (m := trim (digits_ a) numDigits_) in *.
  set (ua := uval (digits_ a)) in *. set (ub := uval (digits_ b)) in *.
  clearbody m. clear En.
  destruct (Z.ltb_spec (Z.of_nat m) (Z.of_nat n)) as [|_]; [lia|].
  destruct (Z.ltb_spec (Z.of_nat n) 2) as [|_]; [lia|].
  rewrite (get_in_range (digits_ b)) by lia. cbn [mbind outcome_bind].
  replace (Z.to_nat (Z.of_nat n - 1)) with (n - 1)%nat by lia.
  set (vn := digit (digits_ b) (n - 1)) in *.
  replace (S c) with (n - 1)%nat in Hvn0 by lia. fold vn in Hvn0.
  pose proof (digit_range (digits_ b) (n - 1) Hokb) as Rvn. fold vn in Rvn.
  destruct (normalising_shift_spec 33 vn 0) as (s & Es & Hs0 & Hs).
  { rewrite base_eq in Rvn. lia. } { change (Z.of_nat 33) with 33. lia. } { lia. }
  rewrite Z.sub_0_r in Hs.
  assert (Hs31 : s <= 31).
  { destruct (Z.le_gt_cases s 31) as [|Hc]; [assumption|exfalso].
    assert (2 ^ 32 <= 2 ^ s) by (apply Z.pow_le_mono_r; lia).
    nia. }
  assert (Hp : 0 < 2 ^ s) by (apply Z.pow_pos_nonneg; lia).
  assert (Hp' : 0 < 2 ^ (32 - s)) by (apply Z.pow_pos_nonneg; lia).
  pose proof (pow2_split s ltac:(lia)) as Hsplit.
  rewrite Es. cbn [mbind outcome_bind].
  destruct (shift_digits_left_spec (digits_ b) n s ltac:(lia) Hokb ltac:(lia))
    as (V & EV & HlV & HokV & HdropV & HdigV).
  specialize (HdigV) as HdigV'.
  rewrite EV. cbn [mbind outcome_bind].
  (* the scaled divisor *)
  assert (Hvn_hi : vn / 2 ^ (32 - s) = 0).
  { apply Z.div_small. split; [lia|].
    apply (Z.mul_lt_mono_pos_l (2 ^ s)); [lia|]. rewrite Hsplit, base_eq. lia. }
  assert (HVv : uval (take n V) = ub * 2 ^ s).
  { pose proof (shifted_left_value (digits_ b) V s ltac:(lia) Hokb n
                  ltac:(lia) ltac:(lia) HdigV) as Hval.
    change (match n with
            | O => 0
            | S j => digit (digits_ b) j / 2 ^ (32 - s)
            end) with (vn / 2 ^ (32 - s)) in Hval.
    rewrite Hvn_hi, Z.mul_0_r, Z.add_0_r in Hval. rewrite Hval, Hub. reflexivity. }
  assert (Hv1 : vn * 2 ^ s <= digit V (n - 1)).
  { rewrite (HdigV (n - 1)%nat) by lia. unfold shifted_left. fold vn.
    rewrite (Z.mod_small (vn * 2 ^ s)) by (rewrite base_eq; lia).
    replace (n - 1)%nat with (S c) by lia.
    assert (0 <= digit (digits_ b) c / 2 ^ (32 - s)); [|lia].
    apply Z.div_pos; [apply digit_range, Hokb|lia]. }
  (* the scaled dividend *)
  rewrite (get_in_range (digits_ a)) by lia. cbn [mbind outcome_bind].
  replace (Z.to_nat (Z.of_nat m - 1)) with (m - 1)%nat by lia.
  set (dm1 := digit (digits_ a) (m - 1)).
  pose proof (digit_range (digits_ a) (m - 1) Hoka) as Rdm1. fold dm1 in Rdm1.
  rewrite Z.shiftr_div_pow2 by lia.
  set (um := dm1 / 2 ^ (32 - s)).
  assert (Rum : 0 <= um < 2 ^ s).
  { subst um. split; [apply Z.div_pos; lia|].
    apply Z.div_lt_upper_bound; [lia|]. rewrite Z.mul_comm, Hsplit. lia. }
  assert (Hum32 : u32 um = um).
  { rewrite u32_mod. apply Z.mod_small. rewrite <- Hsplit. nia. }
  rewrite Hum32, set_in_range by lia. cbn [mbind outcome_bind]. rewrite Nat2Z.id.
  set (dv1 := <[m := um]> (digits_ a)).
  assert (Hl1 : length dv1 = numDigits_) by (subst dv1; rewrite length_insert; exact Hla).
  assert (Hok1 : digits_ok dv1).
  { subst dv1. apply digits_ok_insert; [exact Hoka|]. rewrite <- Hsplit. nia. }
  destruct (shift_digits_left_spec dv1 m s ltac:(lia) Hok1 ltac:(lia))
    as (dv2 & E2 & Hl2 & Hok2 & Hdrop2 & Hdig2).
  rewrite E2. cbn [mbind outcome_bind].
  assert (Hdm : digit dv2 m = um).
  { rewrite <- (Nat.add_0_r m), <- digit_drop, Hdrop2, digit_drop, Nat.add_0_r.
    subst dv1. apply digit_insert_eq. lia. }
  assert (HA : uval (take (m + 1) dv2) = ua * 2 ^ s).
  { pose proof (shifted_left_value dv1 dv2 s ltac:(lia) Hok1 m
                  ltac:(lia) ltac:(lia) Hdig2) as Hval.
    destruct m as [|m']; [lia|].
    replace (S m' + 1)%nat with (S (S m')) by lia.
    rewrite (uval_take_S dv2 (S m') um)
      by (rewrite <- Hdm; apply digit_lookup; lia).
    assert (Hd1 : digit dv1 m' = dm1).
    { subst dv1 dm1. rewrite digit_insert_ne by lia. f_equal. lia. }
    rewrite Hd1 in Hval. fold um in Hval.
    assert (Htk : take (S m') dv1 = take (S m') (digits_ a))
      by (subst dv1; apply take_insert_ge; lia).
    rewrite Htk, <- Hua in Hval. lia. }
  (* the rounds *)
  unfold for_downto.
  replace (Z.to_nat (Z.of_nat m - Z.of_nat n - 0 + 1)) with (m - n + 1)%nat by lia.
  replace (Z.of_nat m - Z.of_nat n) with (Z.of_nat (m - n)) by lia.
  destruct (long_division_loop V n m dv2 zero_digits)
    as (dv & qv & -> & Hldv & Hokdv & Hlqv & Hokqv & Hdiv & Hrlt).
  { lia. } { lia. } { lia. } { unfold zero_digits. rewrite length_replicate. lia. }
  { exact HokV. } { exact Hok2. } { apply digits_ok_replicate. }
  { change base_ with (2 * 2 ^ 31). lia. }
  { unfold zero_digits. rewrite drop_replicate. apply uval_replicate. }
  { replace (take n (drop (m - n + 1) dv2))
      with (take (S (n - 1)) (drop (m - n + 1) dv2)) by (f_equal; lia).
    replace (take n V) with (take (S (n - 1)) V) by (f_equal; lia).
    rewrite (uval_take_S (drop (m - n + 1) dv2) (n - 1) um).
    2:{ rewrite <- Hdm, lookup_drop.
        replace (m - n + 1 + (n - 1))%nat with m by lia. apply digit_lookup. lia. }
    pose proof (uval_take_bound (drop (m - n + 1) dv2) (n - 1)
                  ltac:(apply Forall_drop; exact Hok2)
                  ltac:(rewrite length_drop; lia)) as Hlow.
    rewrite (uval_take_S V (n - 1) (digit V (n - 1))) by (apply digit_lookup; lia).
    pose proof (uval_take_bound V (n - 1) HokV ltac:(lia)) as HlowV.
    pose proof (base_pow_pos (n - 1)) as HB.
    assert (um + 1 <= digit V (n - 1)) by nia.
    generalize dependent (base_ ^ Z.of_nat (n - 1)). intros Bn Hlow HlowV HB.
    nia. }
  { rewrite Hdm. nia. }
  { destruct Hsafe as [Hs1|Hs2]; [left; exact Hs1|right].
    apply (Hs2 s V).
    - replace (S (S c) - 1)%nat with (n - 1)%nat by lia. exact Es.
    - exact EV. }
  cbn [mbind outcome_bind].
  rewrite HA, HVv in Hdiv. rewrite HVv in Hrlt.
  assert (Hub0 : 0 < ub).
  { pose proof (uval_take_bound dv n Hokdv ltac:(lia)). nia. }
  destruct (scaled_division ua ub (2 ^ s) (uval qv) (uval (take n dv)) Hp Hub0 Hdiv)
    as [HQ HR].
  { split; [apply uval_take_bound; [exact Hokdv|lia]|exact Hrlt]. }
  assert (Wq : wf (mkHugeInt qv)).
  { apply wf_spec. cbn [digits_]. split; [|exact Hokqv].
    rewrite Hlqv. unfold zero_digits. apply length_replicate. }
  destruct remainder as [r0|].
  - specialize (Hrem r0 eq_refl). pose proof Hrem as Hr'.
    apply wf_spec in Hr' as [Hlr Hokr].
    unfold for_upto. replace (Z.to_nat (Z.of_nat n - 1 - 0)) with (n - 1)%nat by lia.
    match goal with
    | |- context [upto_ (n - 1) 0 ?body (digits_ r0)] =>
        destruct (remainder_loop dv (digits_ r0) s n body)
          as (rd1 & -> & Hlrd & Hokrd & Hdroprd & Hdigrd)
    end.
    { intros i rd. reflexivity. } { lia. } { lia. } { exact Hokdv. } { exact Hokr. }
    { lia. }
    cbn [mbind outcome_bind].
    rewrite (get_in_range dv) by lia. cbn [mbind outcome_bind].
    rewrite set_in_range by lia. cbn [mbind outcome_bind].
    replace (Z.to_nat (Z.of_nat n - 1)) with (n - 1)%nat by lia.
    rewrite Z.shiftr_div_pow2 by lia.
    set (rd := <[(n - 1)%nat := (digit dv (n - 1) / 2 ^ s)]> rd1) in *.
    assert (Hlrd' : length rd = numDigits_)
      by (subst rd; rewrite length_insert; lia).
    exists (mkHugeInt qv), (mkHugeInt rd). split; [reflexivity|].
    split; [exact Wq|]. split; [exact HQ|].
    intros r0' [= <-]. cbn [digits_].
    split; [apply wf_spec; cbn [digits_]; split; assumption|].
    split; [|exact Hdroprd].
    pose proof (shifted_right_value dv rd s n ltac:(lia) ltac:(lia) ltac:(lia)
                  ltac:(lia) Hdigrd) as Hval.
    rewrite HR in Hval.
    pose proof (Z.mod_pos_bound (digit dv 0) (2 ^ s) Hp) as He0.
    generalize dependent (digit dv 0 mod 2 ^ s). intros e0 Hval He0.
    generalize dependent (uval (take n rd)). intros x Hval.
    generalize dependent (ua mod ub). intros t _ Hval.
    clear - Hval He0 Hp. nia.
  - exists (mkHugeInt qv), HugeInt_default. split; [reflexivity|].
    split; [exact Wq|]. split; [exact HQ|]. intros r0 [=].
Qed.

Lemma uval_take_drop ds n :
  (n <= length ds)%nat ->
  uval ds = uval (take n ds) + base_ ^ Z.of_nat n * uval (drop n ds).
Proof.
  intros Hn. rewrite <- (take_drop n ds) at 1.
  rewrite uval_app, length_take_le by lia. reflexivity.
Qed.

(** The number of significant digits of a value in [base_^k, base_^(k+1)). *)
Lemma trim_digits ds k :
  digits_ok ds -> length ds = numDigits_ ->
  base_ ^ Z.of_nat k <= uval ds < base_ ^ Z.of_nat (S k) ->
  trim ds numDigits_ = S k.
Proof.
  intros Hok Hl Hv.
  pose proof (trim_below ds (S k) Hok Hl ltac:(lia)).
  pose proof (trim_above ds k Hok Hl ltac:(lia)). lia.
Qed.

(** The remainder object after a long division that started from a
    zero-initialised one. *)
Lemma remainder_value r n t :
  wf r -> (n <= numDigits_)%nat ->
  uval (take n (digits_ r)) = t ->
  drop n (digits_ r) = drop n (digits_ HugeInt_default) ->
  uval (digits_ r) = t.
Proof.
  intros Hr Hn Ht Hd. apply wf_spec in Hr as [Hl _].
  rewrite (uval_take_drop (digits_ r) n) by lia.
  rewrite Ht, Hd. cbn [HugeInt_default digits_]. unfold zero_digits.
  rewrite drop_replicate, uval_replicate. lia.
Qed.

(** X18.  Long division of operands with equally many digits, two at least
    and not reaching the top slot: the quotient returned and the
    remainder left in a zero-initialised object are the quotient and
    the remainder of the unsigned values. *)
Theorem unsigned_divide_same_length a b k :
  wf a -> wf b -> (1 <= k)%nat -> (S k < numDigits_)%nat ->
  base_ ^ Z.of_nat k <= uval (digits_ a) < base_ ^ Z.of_nat (S k) ->
  base_ ^ Z.of_nat k <= uval (digits_ b) < base_ ^ Z.of_nat (S k) ->
  exists q r,
    unsigned_divide a b None = Done (q, None) /\
    unsigned_divide a b (Some HugeInt_default) = Done (q, Some r) /\
    wf q /\ wf r /\
    uval (digits_ q) = uval (digits_ a) / uval (digits_ b) /\
    uval (digits_ r) = uval (digits_ a) mod uval (digits_ b).
Proof.
  intros Ha Hb Hk HkN Hua Hub.
  pose proof Ha as Ha'. apply wf_spec in Ha' as [Hla Hoka].
  pose proof Hb as Hb'. apply wf_spec in Hb' as [Hlb Hokb].
  pose proof (trim_digits _ k Hoka Hla Hua) as Hm.
  pose proof (trim_digits _ k Hokb Hlb Hub) as Hn.
  destruct (unsigned_divide_case_3 a b None Ha Hb) as (q & r & E & Wq & Uq & _).
  { intros r0 [=]. } { rewrite Hm, Hn. lia. } { rewrite Hm. lia. }
  { left. rewrite Hm, Hn. reflexivity. }
  destruct (unsigned_divide_case_3 a b (Some HugeInt_default) Ha Hb)
    as (q' & r' & E' & Wq' & Uq' & Hr').
  { intros r0 [= <-]. apply wf_default. } { rewrite Hm, Hn. lia. }
  { rewrite Hm. lia. } { left. rewrite Hm, Hn. reflexivity. }
  destruct (Hr' _ eq_refl) as (Wr & Ur & Dr).
  assert (q' = q) as -> by (apply wf_eq; [exact Wq'|exact Wq|rewrite Uq, Uq'; reflexivity]).
  exists q, r'. split; [exact E|]. split; [exact E'|].
  split; [exact Wq|]. split; [exact Wr|]. split; [exact Uq|].
  apply (remainder_value r' (trim (digits_ b) numDigits_));
    [exact Wr|rewrite Hn; lia|exact Ur|exact Dr].
Qed.

(** Case 1 of [unsigned_divide] in terms of values. *)
Lemma unsigned_divide_fewer a b :
  wf a -> wf b ->
  (trim (digits_ a) numDigits_ < trim (digits_ b) numDigits_)%nat ->
  exists q r,
    unsigned_divide a b None = Done (q, None) /\
    unsigned_divide a b (Some HugeInt_default) = Done (q, Some r) /\
    wf q /\ wf r /\
    uval (digits_ q) = uval (digits_ a) / uval (digits_ b) /\
    uval (digits_ r) = uval (digits_ a) mod uval (digits_ b).
Proof.
  intros Ha Hb Hmn.
  pose proof Ha as Ha'. pose proof Hb as Hb'.
  apply wf_spec in Ha' as [Hla Hoka]. apply wf_spec in Hb' as [Hlb Hokb].
  assert (Hpos : 0 < uval (digits_ b)).
  { destruct (trim (digits_ b) numDigits_) as [|j] eqn:E; [lia|].
    pose proof (trim_top_nonzero _ _ _ E) as Hnz.
    pose proof (trim_le (digits_ b) numDigits_) as Hle. rewrite E in Hle.
    pose proof (uval_ge_top (digits_ b) j Hokb ltac:(lia)) as Hge.
    pose proof (digit_range (digits_ b) j Hokb) as Hr.
    pose proof (base_pow_pos j). nia. }
  pose proof (uval_range a Ha) as Hra.
  destruct (unsigned_divide_short_cases a b Ha Hb Hpos ltac:(left; exact Hmn))
    as (q & r & Hd & Hq & Hr & Hid & Hrem).
  pose proof (unsigned_divide_case_1 a b (Some HugeInt_default) Ha Hb) as H1.
  rewrite H1 in Hd; [|intros r0 [= <-]; apply length_default|exact Hmn].
  assert (Eq : q = HugeInt_default) by congruence.
  rewrite Eq in *. clear Eq.
  exists HugeInt_default, r.
  split.
  { apply (unsigned_divide_case_1 a b None Ha Hb); [intros r0 [=]|exact Hmn]. }
  split; [rewrite H1; [exact Hd|intros r0 [= <-]; apply length_default|exact Hmn]|].
  split; [exact Hq|]. split; [exact Hr|].
  rewrite uval_default in *.
  rewrite Z.div_small, Z.mod_small by lia. lia.
Qed.

Lemma normalising_shift_unique v s s' :
  0 <= s -> 0 <= s' ->
  2 ^ 31 <= v * 2 ^ s < 2 ^ 32 -> 2 ^ 31 <= v * 2 ^ s' < 2 ^ 32 -> s = s'.
Proof.
  assert (H : forall v s s', 0 <= s -> s < s' ->
            2 ^ 31 <= v * 2 ^ s -> v * 2 ^ s' < 2 ^ 32 -> False).
  { clear. intros v s s' Hs Hlt H1 H2.
    assert (Hp : 0 < 2 ^ s) by (apply Z.pow_pos_nonneg; lia).
    assert (Hd : 2 * 2 ^ s <= 2 ^ s').
    { replace (2 * 2 ^ s) with (2 ^ (s + 1)) by (rewrite Z.pow_add_r; lia).
      apply Z.pow_le_mono_r; lia. }
    assert (0 < v) by nia.
    assert (v * (2 * 2 ^ s) <= v * 2 ^ s') by (apply Z.mul_le_mono_nonneg_l; lia).
    lia. }
  intros Hs Hs' [A1 A2] [B1 B2].
  destruct (Z.lt_trichotomy s s') as [Hlt|[Heq|Hgt]]; [exfalso|exact Heq|exfalso].
  - exact (H v s s' Hs Hlt A1 B2).
  - exact (H v s' s Hs' Hgt B1 A2).
Qed.

(** The two leading digits of a number, read off its value. *)
Lemma top_two_of_value ds c :
  digits_ok ds -> (S (S c) <= length ds)%nat ->
  digit ds (S c) = uval (take (S (S c)) ds) / base_ ^ Z.of_nat (S c) /\
  digit ds c = (uval (take (S (S c)) ds) / base_ ^ Z.of_nat c) mod base_.
Proof.
  intros Hok Hl. rewrite (uval_top_two ds c Hl).
  pose proof (uval_take_bound ds c Hok ltac:(lia)) as Hlow.
  pose proof (digit_range ds (S c) Hok) as R1.
  pose proof (digit_range ds c Hok) as R0.
  pose proof (base_pow_pos c) as HX.
  rewrite base_pow_S.
  set (X := base_ ^ Z.of_nat c) in *. set (low := uval (take c ds)) in *.
  set (d1 := digit ds (S c)) in *. set (d0 := digit ds c) in *.
  assert (HB : 0 < base_) by (rewrite base_eq; lia).
  assert (E : ((d1 * base_ + d0) * X + low) / X = d1 * base_ + d0).
  { symmetry. apply (Z.div_unique_pos _ X _ low); lia. }
  split.
  - rewrite (Z.mul_comm base_ X), <- Z.div_div by lia.
    rewrite E. apply (Z.div_unique_pos _ base_ _ d0); lia.
  - rewrite E. apply (Z.mod_unique_pos _ base_ d1 d0); lia.
Qed.

(** The leading digit of a number of [k + 1] digits. *)
Lemma top_digit_of_value ds k :
  digits_ok ds -> (S k <= length ds)%nat ->
  digit ds k = uval (take (S k) ds) / base_ ^ Z.of_nat k.
Proof.
  intros Hok Hl.
  rewrite (uval_take_S ds k (digit ds k)) by (apply digit_lookup; lia).
  pose proof (uval_take_bound ds k Hok ltac:(lia)) as Hlow.
  pose proof (base_pow_pos k).
  apply (Z.div_unique_pos _ _ _ (uval (take k ds))); lia.
Qed.

Lemma leading_digit_normalised vn low X s ub :
  0 <= s <= 31 -> 0 < X -> 0 <= low < X -> ub = low + X * vn ->
  2 ^ 31 * X <= ub * 2 ^ s < base_ * X ->
  2 ^ 31 <= vn * 2 ^ s < 2 ^ 32.
Proof.
  intros Hs HX Hlow -> Hnorm.
  assert (Hp : 0 < 2 ^ s) by (apply Z.pow_pos_nonneg; lia).
  assert (Hq : 2 ^ 31 = 2 ^ s * 2 ^ (31 - s)).
  { rewrite <- Z.pow_add_r by lia. f_equal. lia. }
  assert (Hp2 : 0 < 2 ^ (31 - s)) by (apply Z.pow_pos_nonneg; lia).
  change (2 ^ 32) with base_. rewrite Hq in *.
  set (P := 2 ^ s) in *. set (Q := 2 ^ (31 - s)) in *. clearbody P Q.
  clear Hq Hs. destruct Hnorm as [N1 N2].
  split.
  - assert (Q < vn + 1); [|nia].
    apply (Z.mul_lt_mono_pos_l X); [lia|].
    apply (Z.mul_lt_mono_pos_l P); [lia|].
    assert ((low + X * vn) * P < (X + X * vn) * P)
      by (apply Z.mul_lt_mono_pos_r; lia).
    lia.
  - apply (Z.mul_lt_mono_pos_l X); [lia|].
    assert (0 <= low * P) by (apply Z.mul_nonneg_nonneg; lia).
    lia.
Qed.

(** When the normalised divisor's second digit is below its leading
    digit, so are the digits that [unsigned_divide] computes. *)
Lemma dominant_digits ds (k : nat) (s : Z) :
  digits_ok ds -> length ds = numDigits_ -> (1 <= k)%nat ->
  trim ds numDigits_ = S k -> 0 <= s <= 31 ->
  2 ^ 31 * base_ ^ Z.of_nat k <= uval ds * 2 ^ s < base_ ^ Z.of_nat (S k) ->
  (uval ds * 2 ^ s / base_ ^ Z.of_nat (k - 1)) mod base_
  < uval ds * 2 ^ s / base_ ^ Z.of_nat k ->
  forall s' V,
    normalising_shift 33 (digit ds (trim ds numDigits_ - 1)) 0 = Done s' ->
    shift_digits_left ds (Z.of_nat (trim ds numDigits_)) s' = Done V ->
    digit V (trim ds numDigits_ - 2) < digit V (trim ds numDigits_ - 1).
Proof.
  intros Hok Hl Hk Hn Hs Hnorm Hdom.
  pose proof (trim_le ds numDigits_) as HkN. rewrite Hn in HkN.
  rewrite Hn. replace (S k - 1)%nat with k by (clear; lia).
  assert (HkL : (S k <= length ds)%nat) by (rewrite Hl; exact HkN).
  intros s' V Es EV.
  pose proof (uval_significant _ _ Hl Hn) as Hubt.
  pose proof (top_digit_of_value ds k Hok HkL) as Hvn.
  rewrite <- Hubt in Hvn.
  pose proof (digit_range ds k Hok) as Rvn.
  set (vn := digit ds k) in *.
  pose proof (uval_take_bound ds k Hok ltac:(clear - HkL; lia)) as Hlow.
  assert (Hsplit : uval ds = uval (take k ds) + base_ ^ Z.of_nat k * vn).
  { rewrite Hubt. apply uval_take_S. apply digit_lookup. exact HkL. }
  pose proof (base_pow_pos k) as HBk.
  assert (Hvns : 2 ^ 31 <= vn * 2 ^ s < 2 ^ 32).
  { apply (leading_digit_normalised vn (uval (take k ds)) (base_ ^ Z.of_nat k) s (uval ds));
      [exact Hs|exact HBk|exact Hlow|exact Hsplit|].
    rewrite <- base_pow_S. exact Hnorm. }
  assert (Hvn0 : 0 < vn).
  { assert (0 < 2 ^ s) by (apply Z.pow_pos_nonneg; clear - Hs; lia).
    clear - Hvns H. nia. }
  destruct (normalising_shift_spec 33 vn 0) as (s0 & Es0 & Hs0 & Hs0').
  { rewrite base_eq in Rvn. clear - Rvn Hvn0. lia. }
  { change (Z.of_nat 33) with 33. clear - Hvn0. lia. } { clear; lia. }
  rewrite Z.sub_0_r in Hs0'.
  assert (s' = s0) by congruence. subst s'.
  assert (s0 = s).
  { apply (normalising_shift_unique vn); [exact Hs0|apply Hs|exact Hs0'|exact Hvns]. }
  subst s0.
  destruct (shift_digits_left_spec ds (S k) s ltac:(clear - HkL; lia) Hok Hs)
    as (V' & EV' & HlV & HokV & HdropV & HdigV).
  assert (V' = V) by congruence. subst V'.
  assert (Hvn_hi : vn / 2 ^ (32 - s) = 0).
  { pose proof (pow2_split s ltac:(clear - Hs; lia)) as Hsp.
    assert (0 < 2 ^ (32 - s)) by (apply Z.pow_pos_nonneg; clear - Hs; lia).
    assert (0 < 2 ^ s) by (apply Z.pow_pos_nonneg; clear - Hs; lia).
    apply Z.div_small. split; [clear - Hvn0; lia|].
    apply (Z.mul_lt_mono_pos_l (2 ^ s)); [assumption|]. rewrite Hsp, base_eq.
    rewrite Z.mul_comm. apply Hvns. }
  assert (HVv : uval (take (S k) V) = uval ds * 2 ^ s).
  { pose proof (shifted_left_value ds V s Hs Hok (S k) HkL
                  ltac:(rewrite HlV; exact HkL) HdigV) as Hval.
    cbv beta iota in Hval. fold vn in Hval.
    rewrite Hvn_hi, Z.mul_0_r, Z.add_0_r in Hval. rewrite Hval, Hubt. reflexivity. }
  destruct k as [|c]; [exfalso; clear - Hk; lia|].
  destruct (top_two_of_value V c HokV ltac:(rewrite HlV; exact HkL)) as [H1 H0].
  replace (S (S c) - 2)%nat with c by (clear; lia).
  replace (S c - 1)%nat with c in Hdom by (clear; lia).
  rewrite H1, H0, HVv. exact Hdom.
Qed.

(** The long division is exact for every dividend that leaves the top
    digit slot free when the normalised divisor's second digit is below
    its leading digit. *)
Lemma long_division_dominant a b (k : nat) (s : Z) :
  wf a -> wf b -> (1 <= k)%nat -> 0 <= s <= 31 ->
  uval (digits_ a) < base_ ^ Z.of_nat (numDigits_ - 1) ->
  2 ^ 31 * base_ ^ Z.of_nat k <= uval (digits_ b) * 2 ^ s < base_ ^ Z.of_nat (S k) ->
  (uval (digits_ b) * 2 ^ s / base_ ^ Z.of_nat (k - 1)) mod base_
  < uval (digits_ b) * 2 ^ s / base_ ^ Z.of_nat k ->
  exists q r,
    unsigned_divide a b None = Done (q, None) /\
    unsigned_divide a b (Some HugeInt_default) = Done (q, Some r) /\
    wf q /\ wf r /\
    uval (digits_ q) = uval (digits_ a) / uval (digits_ b) /\
    uval (digits_ r) = uval (digits_ a) mod uval (digits_ b).
Proof.
  intros Ha Hb Hk Hs Htop Hnorm Hdom.
  pose proof Ha as Ha'. apply wf_spec in Ha' as [Hla Hoka].
  pose proof Hb as Hb'. apply wf_spec in Hb' as [Hlb Hokb].
  pose proof (trim_below _ (numDigits_ - 1) Hoka Hla Htop) as Hm. clear Htop.
  assert (Hub : base_ ^ Z.of_nat k <= uval (digits_ b) < base_ ^ Z.of_nat (S k)).
  { assert (Hp : 0 < 2 ^ s) by (apply Z.pow_pos_nonneg; clear - Hs; lia).
    assert (Hp31 : 2 ^ s <= 2 ^ 31) by (apply Z.pow_le_mono_r; clear - Hs; lia).
    pose proof (base_pow_pos k) as HBk.
    assert (Rb : 0 <= uval (digits_ b)) by (apply uval_bound; exact Hokb).
    set (ub := uval (digits_ b)) in *. set (X := base_ ^ Z.of_nat k) in *.
    set (Y := base_ ^ Z.of_nat (S k)) in *.
    clearbody ub X Y. clear - Hnorm Hp Hp31 HBk Rb. nia. }
  pose proof (trim_digits _ k Hokb Hlb Hub) as Hn.
  pose proof (dominant_digits _ k s Hokb Hlb Hk Hn Hs Hnorm Hdom) as Hsafe.
  destruct (Nat.lt_ge_cases (trim (digits_ a) numDigits_) (trim (digits_ b) numDigits_))
    as [Hfew|Hge].
  { exact (unsigned_divide_fewer a b Ha Hb Hfew). }
  assert (Hcase : (2 <= trim (digits_ b) numDigits_ <= trim (digits_ a) numDigits_)%nat).
  { rewrite Hn in *. clear - Hk Hge. lia. }
  assert (HmN : (trim (digits_ a) numDigits_ < numDigits_)%nat).
  { clear - Hm. unfold numDigits_ in *. lia. }
  assert (HnN : (trim (digits_ b) numDigits_ <= numDigits_)%nat) by apply trim_le.
  destruct (unsigned_divide_case_3 a b None Ha Hb) as (q & r & E & Wq & Uq & _).
  { intros r0 [=]. } { exact Hcase. } { exact HmN. } { right. exact Hsafe. }
  destruct (unsigned_divide_case_3 a b (Some HugeInt_default) Ha Hb)
    as (q' & r' & E' & Wq' & Uq' & Hr').
  { intros r0 [= <-]. apply wf_default. } { exact Hcase. } { exact HmN. }
  { right. exact Hsafe. }
  destruct (Hr' _ eq_refl) as (Wr & Ur & Dr).
  assert (q' = q) as -> by (apply wf_eq; [exact Wq'|exact Wq|rewrite Uq, Uq'; reflexivity]).
  exists q, r'. split; [exact E|]. split; [exact E'|].
  split; [exact Wq|]. split; [exact Wr|]. split; [exact Uq|].
  apply (remainder_value r' (trim (digits_ b) numDigits_));
    [exact Wr|exact HnN|exact Ur|exact Dr].
Qed.

(** The signed operators on top of an exact unsigned division of the
    magnitudes. *)
Lemma div_rem_of_unsigned a b :
  wf a -> wf b ->
  - (modulus / 2) < value a -> value b <> 0 ->
  (forall a' b', wf a' -> wf b' ->
     uval (digits_ a') = Z.abs (value a) -> uval (digits_ b') = Z.abs (value b) ->
     exists q r,
       unsigned_divide a' b' None = Done (q, None) /\
       unsigned_divide a' b' (Some HugeInt_default) = Done (q, Some r) /\
       wf q /\ wf r /\
       uval (digits_ q) = uval (digits_ a') / uval (digits_ b') /\
       uval (digits_ r) = uval (digits_ a') mod uval (digits_ b')) ->
  exists q r,
    div a b = Done q /\ rem a b = Done r /\ wf q /\ wf r /\
    value q = Z.quot (value a) (value b) /\
    value r = Z.rem (value a) (value b) /\
    eq_op (add (mul q b) r) a = true.
Proof.
  intros Ha Hb Hmin Hvb Hexact.
  pose proof modulus_half as Hh. pose proof (value_range a Ha) as Hra.
  destruct (magnitude_operand a Ha) as (Haa & Hua & Hsa).
  destruct (magnitude_operand b Hb) as (Hbb & Hub & Hsb).
  set (a' := if lt_op a (HugeInt_ll 0) then neg a else a) in *.
  set (b' := if lt_op b (HugeInt_ll 0) then neg b else b) in *.
  destruct (Hexact a' b' Haa Hbb Hua Hub)
    as (q0 & r0 & Hd1 & Hd2 & Hq0 & Hr0 & Huq & Hur).
  clear Hexact.
  rewrite Hua, Hub in Huq, Hur.
  set (A := Z.abs (value a)) in *. set (Bv := Z.abs (value b)) in *.
  assert (HBv : 0 < Bv) by (subst Bv; clear - Hvb; lia).
  assert (HA : 0 <= A < modulus / 2).
  { subst A. clear - Hmin Hra. lia. }
  pose proof (Z.mod_pos_bound A Bv HBv) as Hmod.
  assert (HqA : 0 <= A / Bv <= A).
  { split; [apply Z.div_pos; clear - HA HBv; lia|].
    apply Z.div_le_upper_bound; [exact HBv|]. clear - HA HBv. nia. }
  assert (HmA : A mod Bv <= A) by (apply Z.mod_le; clear - HA HBv; lia).
  assert (Hvq0 : value q0 = A / Bv).
  { rewrite (value_of_small q0 Hq0); [exact Huq|]. rewrite Huq.
    clear - HA HqA. lia. }
  assert (Hvr0 : value r0 = A mod Bv).
  { rewrite (value_of_small r0 Hr0); [exact Hur|]. rewrite Hur.
    clear - HA HmA. lia. }
  assert (Hnq : wf (neg q0) /\ value (neg q0) = - (A / Bv)).
  { destruct (neg_spec q0 Hq0) as [Hw _]. split; [exact Hw|].
    rewrite (neg_value q0 Hq0), Hvq0. apply wrap_small.
    clear - HA HqA. lia. }
  assert (Hnr : wf (neg r0) /\ value (neg r0) = - (A mod Bv)).
  { destruct (neg_spec r0 Hr0) as [Hw _]. split; [exact Hw|].
    rewrite (neg_value r0 Hr0), Hvr0. apply wrap_small.
    clear - HA HmA Hmod. lia. }
  destruct (truncated_division (value a) (value b) Hvb) as [Hquot Hrem].
  fold A Bv in Hquot, Hrem.
  assert (Hres : exists q r,
    div a b = Done q /\ rem a b = Done r /\ wf q /\ wf r /\
    value q = Z.quot (value a) (value b) /\
    value r = Z.rem (value a) (value b)).
  { unfold div, rem. subst a' b'. rewrite Hquot, Hrem.
    destruct (lt_op a (HugeInt_ll 0)), (lt_op b (HugeInt_ll 0));
      rewrite <- Hsa, <- Hsb; cbn [xorb];
      rewrite Hd1, Hd2; cbn [mbind outcome_bind default];
      [exists q0, (neg r0)|exists (neg q0), (neg r0)
      |exists (neg q0), r0|exists q0, r0]; tauto. }
  destruct Hres as (q & r & Hdq & Hdr & Hq & Hr & Hvq & Hvr).
  exists q, r. repeat (split; [assumption|]).
  destruct (mul_spec q b Hq Hb) as [Hm _].
  destruct (add_spec _ r Hm Hr) as [Hs _].
  apply (eq_op_eq _ _ Hs Ha), value_inj; [exact Hs|exact Ha|].
  rewrite (add_value _ _ Hm Hr), (mul_value q b Hq Hb), wrap_add_l.
  rewrite Hvq, Hvr. pose proof (Z.quot_rem' (value a) (value b)) as Hqr.
  transitivity (wrap (value a)); [f_equal; clear - Hqr; lia|apply wrap_small].
  clear - Hra. lia.
Qed.

Lemma top_slot_below_half : base_ ^ Z.of_nat (numDigits_ - 1) <= modulus / 2.
Proof.
  pose proof modulus_top as Htop. pose proof modulus_half as Hh.
  pose proof (base_pow_pos (numDigits_ - 1)) as Hp.
  set (X := base_ ^ Z.of_nat (numDigits_ - 1)) in *. clearbody X.
  set (h := modulus / 2) in *. clearbody h.
  rewrite base_eq in Htop. clear - Htop Hh Hp. lia.
Qed.

Lemma unsigned_divide_same_length_witness :
  exists q r,
    unsigned_divide (HugeInt_ll 9000000000000000000) (HugeInt_ll 4294967297) None
    = Done (q, None) /\
    unsigned_divide (HugeInt_ll 9000000000000000000) (HugeInt_ll 4294967297)
      (Some HugeInt_default) = Done (q, Some r) /\
    wf q /\ wf r /\
    uval (digits_ q)
    = uval (digits_ (HugeInt_ll 9000000000000000000))
      / uval (digits_ (HugeInt_ll 4294967297)) /\
    uval (digits_ r)
    = uval (digits_ (HugeInt_ll 9000000000000000000))
      mod uval (digits_ (HugeInt_ll 4294967297)).
Proof.
  apply (unsigned_divide_same_length
           (HugeInt_ll 9000000000000000000) (HugeInt_ll 4294967297) 1);
    [vm_compute; reflexivity|vm_compute; reflexivity
    |lia|unfold numDigits_; lia| |];
    vm_compute; (split; [discriminate|reflexivity]).
Defined.

(** X19.  Long division by a divisor of [k + 1] digits, two at least, whose
    normalised form [uval b * 2^s] has its second digit below its
    leading digit, for every dividend that leaves the top digit slot
    free: the quotient and the remainder returned are those of the
    unsigned values, so [a = q * b + r] and [0 <= r < b]. *)
Theorem unsigned_divide_dominant_divisor a b (k : nat) (s : Z) :
  wf a -> wf b -> (1 <= k)%nat -> 0 <= s <= 31 ->
  uval (digits_ a) < base_ ^ Z.of_nat (numDigits_ - 1) ->
  2 ^ 31 * base_ ^ Z.of_nat k <= uval (digits_ b) * 2 ^ s < base_ ^ Z.of_nat (S k) ->
  (uval (digits_ b) * 2 ^ s / base_ ^ Z.of_nat (k - 1)) mod base_
  < uval (digits_ b) * 2 ^ s / base_ ^ Z.of_nat k ->
  exists q r,
    unsigned_divide a b None = Done (q, None) /\
    unsigned_divide a b (Some HugeInt_default) = Done (q, Some r) /\
    wf q /\ wf r /\
    uval (digits_ q) = uval (digits_ a) / uval (digits_ b) /\
    uval (digits_ r) = uval (digits_ a) mod uval (digits_ b) /\
    uval (digits_ a) = uval (digits_ q) * uval (digits_ b) + uval (digits_ r) /\
    0 <= uval (digits_ r) < uval (digits_ b).
Proof.
  intros Ha Hb Hk Hs Htop Hnorm Hdom.
  destruct (long_division_dominant a b k s Ha Hb Hk Hs Htop Hnorm Hdom)
    as (q & r & E1 & E2 & Wq & Wr & Uq & Ur).
  exists q, r. split; [exact E1|]. split; [exact E2|].
  split; [exact Wq|]. split; [exact Wr|]. split; [exact Uq|]. split; [exact Ur|].
  assert (Hpos : 0 < uval (digits_ b)).
  { assert (Hp : 0 < 2 ^ s) by (apply Z.pow_pos_nonneg; clear - Hs; lia).
    pose proof (base_pow_pos k) as HBk.
    clear - Hnorm Hp HBk. nia. }
  rewrite Uq, Ur. clear - Hpos.
  pose proof (Z.div_mod (uval (digits_ a)) (uval (digits_ b)) ltac:(lia)).
  pose proof (Z.mod_pos_bound (uval (digits_ a)) (uval (digits_ b)) Hpos).
  lia.
Qed.

Lemma unsigned_divide_dominant_divisor_witness :
  exists q r,
    unsigned_divide (HugeInt_ll 9000000000000000000)
      (HugeInt_ll 4611686018427387909) None = Done (q, None) /\
    unsigned_divide (HugeInt_ll 9000000000000000000)
      (HugeInt_ll 4611686018427387909) (Some HugeInt_default) = Done (q, Some r) /\
    wf q /\ wf r /\
    uval (digits_ q)
    = uval (digits_ (HugeInt_ll 9000000000000000000))
      / uval (digits_ (HugeInt_ll 4611686018427387909)) /\
    uval (digits_ r)
    = uval (digits_ (HugeInt_ll 9000000000000000000))
      mod uval (digits_ (HugeInt_ll 4611686018427387909)) /\
    uval (digits_ (HugeInt_ll 9000000000000000000))
    = uval (digits_ q) * uval (digits_ (HugeInt_ll 4611686018427387909))
      + uval (digits_ r) /\
    0 <= uval (digits_ r) < uval (digits_ (HugeInt_ll 4611686018427387909)).
Proof.
  apply (unsigned_divide_dominant_divisor
           (HugeInt_ll 9000000000000000000) (HugeInt_ll 4611686018427387909) 1 1);
    [vm_compute; reflexivity|vm_compute; reflexivity|lia|lia
    |vm_compute; reflexivity
    |vm_compute; (split; [discriminate|reflexivity])
    |vm_compute; reflexivity].
Defined.

(** X20.  Signed division by a divisor of two digits or more whose normalised
    magnitude has its second digit below its leading digit, for every
    dividend whose magnitude leaves the top digit slot free: [a / b] and
    [a % b] are the quotient and the remainder truncated toward zero,
    and [(a / b) * b + (a % b) == a]. *)
Theorem div_rem_dominant_divisor a b (k : nat) (s : Z) :
  wf a -> wf b -> (1 <= k)%nat -> 0 <= s <= 31 ->
  Z.abs (value a) < base_ ^ Z.of_nat (numDigits_ - 1) ->
  2 ^ 31 * base_ ^ Z.of_nat k <= Z.abs (value b) * 2 ^ s < base_ ^ Z.of_nat (S k) ->
  (Z.abs (value b) * 2 ^ s / base_ ^ Z.of_nat (k - 1)) mod base_
  < Z.abs (value b) * 2 ^ s / base_ ^ Z.of_nat k ->
  exists q r,
    div a b = Done q /\ rem a b = Done r /\ wf q /\ wf r /\
    value q = Z.quot (value a) (value b) /\
    value r = Z.rem (value a) (value b) /\
    value a = value q * value b + value r /\
    eq_op (add (mul q b) r) a = true.
Proof.
  intros Ha Hb Hk Hs Htop Hnorm Hdom.
  pose proof top_slot_below_half as Hhalf.
  assert (Hmin : - (modulus / 2) < value a).
  { set (X := base_ ^ Z.of_nat (numDigits_ - 1)) in *. clearbody X.
    set (h := modulus / 2) in *. clearbody h. clear - Htop Hhalf. lia. }
  assert (Hvb : value b <> 0).
  { assert (Hp : 0 < 2 ^ s) by (apply Z.pow_pos_nonneg; clear - Hs; lia).
    pose proof (base_pow_pos k) as HBk.
    intros E. rewrite E in Hnorm. cbn [Z.abs] in Hnorm.
    clear - Hnorm Hp HBk. nia. }
  destruct (div_rem_of_unsigned a b Ha Hb Hmin Hvb)
    as (q & r & Hd & Hr & Wq & Wr & Vq & Vr & Hid).
  { intros a' b' Ha' Hb' Ua Ub.
    apply (long_division_dominant a' b' k s Ha' Hb' Hk Hs).
    - rewrite Ua. exact Htop.
    - rewrite Ub. exact Hnorm.
    - rewrite Ub. exact Hdom. }
  exists q, r. split; [exact Hd|]. split; [exact Hr|].
  split; [exact Wq|]. split; [exact Wr|]. split; [exact Vq|].
  split; [exact Vr|]. split; [|exact Hid].
  rewrite Vq, Vr. pose proof (Z.quot_rem' (value a) (value b)) as H.
  clear - H. lia.
Qed.

Lemma div_rem_dominant_divisor_witness :
  exists q r,
    div (HugeInt_ll (-9000000000000000000)) (HugeInt_ll 4611686018427387909) = Done q /\
    rem (HugeInt_ll (-9000000000000000000)) (HugeInt_ll 4611686018427387909) = Done r /\
    wf q /\ wf r /\
    value q = Z.quot (value (HugeInt_ll (-9000000000000000000)))
                     (value (HugeInt_ll 4611686018427387909)) /\
    value r = Z.rem (value (HugeInt_ll (-9000000000000000000)))
                    (value (HugeInt_ll 4611686018427387909)) /\
    value (HugeInt_ll (-9000000000000000000))
    = value q * value (HugeInt_ll 4611686018427387909) + value r /\
    eq_op (add (mul q (HugeInt_ll 4611686018427387909)) r)
          (HugeInt_ll (-9000000000000000000)) = true.
Proof.
  apply (div_rem_dominant_divisor
           (HugeInt_ll (-9000000000000000000)) (HugeInt_ll 4611686018427387909) 1 1);
    [vm_compute; reflexivity|vm_compute; reflexivity|lia|lia
    |vm_compute; reflexivity
    |vm_compute; (split; [discriminate|reflexivity])
    |vm_compute; reflexivity].
Defined.

(** ** The long division returns *)

Lemma u32_idem z : u32 (u32 z) = u32 z.
Proof. unfold u32. apply Z.mod_mod. lia. Qed.

Lemma u64_nonneg z : 0 <= u64 z.
Proof. unfold u64. apply Z.mod_pos_bound. lia. Qed.

(** The second-order test ends after two corrections at most, whatever
    the estimate. *)
Lemma refine_qhat_returns dividend divisor (k n : Z) v1 v2 u2 :
  get divisor (n - 2) = Done v2 ->
  get dividend (k + n - 2) = Done u2 ->
  get divisor (n - 1) = Done v1 ->
  base_ <= 2 * v1 -> v1 < base_ ->
  forall fuel qhat rhat,
    0 <= rhat -> 2 * base_ <= 2 * rhat + Z.of_nat fuel * base_ ->
    exists qhat' rhat',
      refine_qhat (S fuel) dividend divisor k n qhat rhat = Done (qhat', rhat').
Proof.
  intros Gv2 Gu2 Gv1 Hv1 Hv1'.
  induction fuel as [|fuel IH]; intros qhat rhat Hr Hm; rewrite refine_qhat_S.
  - destruct (Z.ltb_spec rhat base_) as [Hlt|_]; [exfalso; lia|].
    eexists _, _. reflexivity.
  - destruct (Z.ltb_spec rhat base_) as [Hlt|_]; [|eexists _, _; reflexivity].
    rewrite Gv2, Gu2. cbn [mbind outcome_bind].
    destruct (u64 (u64 (base_ * rhat) + u2) <? u64 (qhat * v2));
      [|eexists _, _; reflexivity].
    rewrite Gv1. cbn [mbind outcome_bind].
    assert (E : u64 (rhat + v1) = rhat + v1)
      by (apply u64_small; rewrite base_eq in *; lia).
    apply IH; rewrite E; lia.
Qed.

(** One round of the long division returns and keeps the arrays well
    formed, whatever the estimate. *)
Lemma divide_step_returns divisor (n k : nat) dividend quotient :
  (2 <= n)%nat -> (n <= length divisor)%nat ->
  (k + n < length dividend)%nat -> (k < length quotient)%nat ->
  digits_ok divisor -> digits_ok dividend -> digits_ok quotient ->
  base_ <= 2 * digit divisor (n - 1) ->
  exists dividend' quotient',
    divide_step divisor (Z.of_nat n) (Z.of_nat k) (dividend, quotient)
    = Done (dividend', quotient') /\
    length dividend' = length dividend /\ digits_ok dividend' /\
    length quotient' = length quotient /\ digits_ok quotient'.
Proof.
  intros Hn Hlv Hkn Hkq Hokv Hoku Hokq Hnorm.
  set (v1 := digit divisor (n - 1)) in *.
  set (ukn := digit dividend (k + n)).
  set (ukn1 := digit dividend (k + n - 1)).
  pose proof (digit_range divisor (n - 1) Hokv) as Rv1. fold v1 in Rv1.
  pose proof (digit_range dividend (k + n) Hoku) as Rukn. fold ukn in Rukn.
  pose proof (digit_range dividend (k + n - 1) Hoku) as Rukn1. fold ukn1 in Rukn1.
  unfold divide_step.
  rewrite (get_in_range dividend (Z.of_nat k + Z.of_nat n)) by lia.
  cbn [mbind outcome_bind].
  rewrite (get_in_range dividend (Z.of_nat k + Z.of_nat n - 1)) by lia.
  cbn [mbind outcome_bind].
  rewrite (get_in_range divisor (Z.of_nat n - 1)) by lia.
  cbn [mbind outcome_bind].
  replace (Z.to_nat (Z.of_nat k + Z.of_nat n)) with (k + n)%nat by lia.
  replace (Z.to_nat (Z.of_nat k + Z.of_nat n - 1)) with (k + n - 1)%nat by lia.
  replace (Z.to_nat (Z.of_nat n - 1)) with (n - 1)%nat by lia.
  fold ukn ukn1 v1.
  set (t2 := u64 (u64 (ukn * base_) + ukn1)).
  unfold divide, modulo.
  destruct (Z.eqb_spec v1 0) as [|_]; [rewrite base_eq in *; lia|].
  cbn [mbind outcome_bind].
  pose proof (Z.mod_pos_bound t2 v1 ltac:(rewrite base_eq in *; lia)) as Hmb.
  assert (Hclamp : exists qh1 rh1,
    (if t2 / v1 =? base_
     then Done (u64 (t2 / v1 - 1), u64 (t2 mod v1 + v1))
     else Done (t2 / v1, t2 mod v1)) = Done (qh1, rh1) /\ 0 <= rh1).
  { destruct (t2 / v1 =? base_).
    - eexists _, _. split; [reflexivity|apply u64_nonneg].
    - eexists _, _. split; [reflexivity|lia]. }
  destruct Hclamp as (qh1 & rh1 & -> & Rrh1). cbn [mbind outcome_bind].
  destruct (refine_qhat_returns dividend divisor (Z.of_nat k) (Z.of_nat n)
              v1 (digit divisor (n - 2)) (digit dividend (k + n - 2)))
    with (fuel := 3%nat) (qhat := qh1) (rhat := rh1) as (qh & rh & ->).
  { rewrite get_in_range by lia.
    replace (Z.to_nat (Z.of_nat n - 2)) with (n - 2)%nat by lia. reflexivity. }
  { rewrite get_in_range by lia.
    replace (Z.to_nat (Z.of_nat k + Z.of_nat n - 2)) with (k + n - 2)%nat by lia.
    reflexivity. }
  { rewrite get_in_range by lia.
    replace (Z.to_nat (Z.of_nat n - 1)) with (n - 1)%nat by lia. reflexivity. }
  { exact Hnorm. } { lia. } { exact Rrh1. }
  { change (Z.of_nat 3) with 3. rewrite base_eq in *. lia. }
  cbn [mbind outcome_bind].
  unfold for_upto. rewrite Z.sub_0_r, Nat2Z.id.
  match goal with
  | |- context [upto_ n 0 ?body (dividend, 0)] =>
      destruct (multiply_subtract_loop dividend divisor k n (u32 qh) body)
        as (dv1 & carry & -> & Hl1 & Hok1 & _)
  end.
  { intros i d cy. rewrite u32_idem. reflexivity. } { lia. } { lia. }
  { exact Hoku. } { exact Hokv. } { apply u32_range. }
  cbn [mbind outcome_bind].
  rewrite (get_in_range dv1 (Z.of_nat k + Z.of_nat n)) by lia.
  cbn [mbind outcome_bind].
  rewrite set_in_range by lia. cbn [mbind outcome_bind].
  rewrite set_in_range by lia. cbn [mbind outcome_bind].
  replace (Z.to_nat (Z.of_nat k + Z.of_nat n)) with (k + n)%nat by lia.
  rewrite Nat2Z.id.
  set (w := i64 (digit dv1 (k + n) + carry)).
  set (dv2 := <[(k + n)%nat := u32 w]> dv1).
  assert (Hl2 : length dv2 = length dividend)
    by (subst dv2; rewrite length_insert; exact Hl1).
  assert (Hok2 : digits_ok dv2)
    by (subst dv2; apply digits_ok_insert; [exact Hok1|apply u32_range]).
  assert (Hokq1 : digits_ok (<[k := u32 qh]> quotient))
    by (apply digits_ok_insert; [exact Hokq|apply u32_range]).
  destruct (w <? 0).
  - rewrite (get_in_range (<[k := u32 qh]> quotient)) by (rewrite length_insert; lia).
    cbn [mbind outcome_bind].
    rewrite set_in_range by (rewrite length_insert; lia).
    cbn [mbind outcome_bind]. rewrite Nat2Z.id.
    match goal with
    | |- context [upto_ n 0 ?body (dv2, 0)] =>
        destruct (add_back_loop dv2 divisor k n body)
          as (dv3 & acc & -> & Hl3 & Hok3 & _)
    end.
    { intros i d w'. reflexivity. } { lia. } { lia. } { exact Hok2. } { exact Hokv. }
    cbn [mbind outcome_bind].
    rewrite (get_in_range dv3) by lia. cbn [mbind outcome_bind].
    rewrite set_in_range by lia.
    eexists _, _. split; [reflexivity|].
    rewrite !length_insert.
    split; [lia|]. split; [apply digits_ok_insert; [exact Hok3|apply u32_range]|].
    split; [reflexivity|]. apply digits_ok_insert; [exact Hokq1|apply u32_range].
  - eexists _, _. split; [reflexivity|].
    rewrite length_insert.
    split; [exact Hl2|]. split; [exact Hok2|]. split; [reflexivity|exact Hokq1].
Qed.

(** The main loop returns. *)
Lemma long_division_returns divisor (n m : nat) dividend quotient :
  (2 <= n <= m)%nat -> (n <= length divisor)%nat ->
  (m < length dividend)%nat -> (m - n < length quotient)%nat ->
  digits_ok divisor -> digits_ok dividend -> digits_ok quotient ->
  base_ <= 2 * digit divisor (n - 1) ->
  exists dividend' quotient',
    downto_ (m - n + 1) (Z.of_nat (m - n))
      (divide_step divisor (Z.of_nat n)) (dividend, quotient)
    = Done (dividend', quotient') /\
    length dividend' = length dividend /\ digits_ok dividend' /\
    length quotient' = length quotient /\ digits_ok quotient'.
Proof.
  intros Hnm Hlv Hlu Hlq Hokv Hoku Hokq Hnorm.
  pose (P := fun (c : nat) (st : list Z * list Z) =>
    length (fst st) = length dividend /\ digits_ok (fst st) /\
    length (snd st) = length quotient /\ digits_ok (snd st)).
  replace (Z.of_nat (m - n)) with (0 + Z.of_nat (m - n + 1) - 1) by lia.
  destruct (downto_ind P (divide_step divisor (Z.of_nat n)) (m - n + 1) 0
              (dividend, quotient)) as ([dv qv] & E & HP).
  { unfold P. cbn [fst snd]. split; [reflexivity|]. split; [exact Hoku|].
    split; [reflexivity|exact Hokq]. }
  { intros c [dv qv] Hc (Hl & Hdv & Hlq' & Hqv).
    cbn [fst snd] in *. rewrite Z.add_0_l.
    destruct (divide_step_returns divisor n c dv qv)
      as (dv' & qv' & E & Hl' & Hok' & Hlq'' & Hokq'); try assumption; try lia.
    exists (dv', qv'). split; [exact E|].
    unfold P. cbn [fst snd].
    split; [lia|]. split; [exact Hok'|]. split; [lia|exact Hokq']. }
  exists dv, qv. split; [exact E|]. exact HP.
Qed.

(** Case 3 of [unsigned_divide] returns whenever the dividend leaves the
    top digit slot free. *)
Lemma unsigned_divide_case_3_returns a b remainder :
  wf a -> wf b ->
  (forall r0, remainder = Some r0 -> wf r0) ->
  (2 <= trim (digits_ b) numDigits_ <= trim (digits_ a) numDigits_)%nat ->
  (trim (digits_ a) numDigits_ < numDigits_)%nat ->
  exists q r,
    unsigned_divide a b remainder
    = Done (q, match remainder with Some _ => Some r | None => None end) /\
    wf q /\ wf r.
Proof.
  intros Ha Hb Hrem Hnm HmN.
  pose proof Ha as Ha'. apply wf_spec in Ha' as [Hla Hoka].
  pose proof Hb as Hb'. apply wf_spec in Hb' as [Hlb Hokb].
  pose proof (trim_le (digits_ b) numDigits_) as HnN.
  unfold unsigned_divide.
  rewrite !significant_trim by lia. cbn [mbind outcome_bind].
  destruct (trim (digits_ b) numDigits_) as [|[|c]] eqn:En; [lia|lia|].
  pose proof (trim_top_nonzero _ _ _ En) as Hvn0.
  set (n := S (S c)) in *.
  set (m := trim (digits_ a) numDigits_) in *.
  clearbody m. clear En.
  destruct (Z.ltb_spec (Z.of_nat m) (Z.of_nat n)) as [|_]; [lia|].
  destruct (Z.ltb_spec (Z.of_nat n) 2) as [|_]; [lia|].
  rewrite (get_in_range (digits_ b)) by lia. cbn [mbind outcome_bind].
  replace (Z.to_nat (Z.of_nat n - 1)) with (n - 1)%nat by lia.
  set (vn := digit (digits_ b) (n - 1)) in *.
  replace (S c) with (n - 1)%nat in Hvn0 by lia. fold vn in Hvn0.
  pose proof (digit_range (digits_ b) (n - 1) Hokb) as Rvn. fold vn in Rvn.
  destruct (normalising_shift_spec 33 vn 0) as (s & Es & Hs0 & Hs).
  { rewrite base_eq in Rvn. lia. } { change (Z.of_nat 33) with 33. lia. } { lia. }
  rewrite Z.sub_0_r in Hs.
  assert (Hs31 : s <= 31).
  { destruct (Z.le_gt_cases s 31) as [|Hc]; [assumption|exfalso].
    assert (2 ^ 32 <= 2 ^ s) by (apply Z.pow_le_mono_r; lia).
    nia. }
  assert (Hp : 0 < 2 ^ s) by (apply Z.pow_pos_nonneg; lia).
  assert (Hp' : 0 < 2 ^ (32 - s)) by (apply Z.pow_pos_nonneg; lia).
  pose proof (pow2_split s ltac:(lia)) as Hsplit.
  rewrite Es. cbn [mbind outcome_bind].
  destruct (shift_digits_left_spec (digits_ b) n s ltac:(lia) Hokb ltac:(lia))
    as (V & EV & HlV & HokV & HdropV & HdigV).
  rewrite EV. cbn [mbind outcome_bind].
  assert (Hv1 : vn * 2 ^ s <= digit V (n - 1)).
  { rewrite (HdigV (n - 1)%nat) by lia. unfold shifted_left. fold vn.
    rewrite (Z.mod_small (vn * 2 ^ s)) by (rewrite base_eq; lia).
    replace (n - 1)%nat with (S c) by lia.
    assert (0 <= digit (digits_ b) c / 2 ^ (32 - s)); [|lia].
    apply Z.div_pos; [apply digit_range, Hokb|lia]. }
  rewrite (get_in_range (digits_ a)) by lia. cbn [mbind outcome_bind].
  replace (Z.to_nat (Z.of_nat m - 1)) with (m - 1)%nat by lia.
  rewrite set_in_range by lia. cbn [mbind outcome_bind]. rewrite Nat2Z.id.
  set (dv1 := <[m := u32 (Z.shiftr (digit (digits_ a) (m - 1)) (32 - s))]> (digits_ a)).
  assert (Hl1 : length dv1 = numDigits_) by (subst dv1; rewrite length_insert; exact Hla).
  assert (Hok1 : digits_ok dv1)
    by (subst dv1; apply digits_ok_insert; [exact Hoka|apply u32_range]).
  destruct (shift_digits_left_spec dv1 m s ltac:(lia) Hok1 ltac:(lia))
    as (dv2 & E2 & Hl2 & Hok2 & _).
  rewrite E2. cbn [mbind outcome_bind].
  unfold for_downto.
  replace (Z.to_nat (Z.of_nat m - Z.of_nat n - 0 + 1)) with (m - n + 1)%nat by lia.
  replace (Z.of_nat m - Z.of_nat n) with (Z.of_nat (m - n)) by lia.
  destruct (long_division_returns V n m dv2 zero_digits)
    as (dv & qv & -> & Hldv & Hokdv & Hlqv & Hokqv).
  { lia. } { lia. } { lia. } { unfold zero_digits. rewrite length_replicate. lia. }
  { exact HokV. } { exact Hok2. } { apply digits_ok_replicate. }
  { change base_ with (2 * 2 ^ 31). lia. }
  cbn [mbind outcome_bind].
  assert (Wq : wf (mkHugeInt qv)).
  { apply wf_spec. cbn [digits_]. split; [|exact Hokqv].
    rewrite Hlqv. unfold zero_digits. apply length_replicate. }
  destruct remainder as [r0|].
  - specialize (Hrem r0 eq_refl). pose proof Hrem as Hr'.
    apply wf_spec in Hr' as [Hlr Hokr].
    unfold for_upto. replace (Z.to_nat (Z.of_nat n - 1 - 0)) with (n - 1)%nat by lia.
    match goal with
    | |- context [upto_ (n - 1) 0 ?body (digits_ r0)] =>
        destruct (remainder_loop dv (digits_ r0) s n body)
          as (rd1 & -> & Hlrd & Hokrd & _)
    end.
    { intros i rd. reflexivity. } { lia. } { lia. } { exact Hokdv. } { exact Hokr. }
    { lia. }
    cbn [mbind outcome_bind].
    rewrite (get_in_range dv) by lia. cbn [mbind outcome_bind].
    rewrite set_in_range by lia. cbn [mbind outcome_bind].
    replace (Z.to_nat (Z.of_nat n - 1)) with (n - 1)%nat by lia.
    rewrite Z.shiftr_div_pow2 by lia.
    eexists (mkHugeInt qv), (mkHugeInt _). split; [reflexivity|].
    split; [exact Wq|].
    apply wf_spec. cbn [digits_]. split; [rewrite length_insert; lia|exact Hokrd].
  - exists (mkHugeInt qv), HugeInt_default. split; [reflexivity|].
    split; [exact Wq|apply wf_default].
Qed.

(** [unsigned_divide] returns on every dividend that leaves the top
    digit slot free and every nonzero divisor. *)
Lemma unsigned_divide_returns a b remainder :
  wf a -> wf b ->
  (forall r0, remainder = Some r0 -> wf r0) ->
  0 < uval (digits_ b) ->
  uval (digits_ a) < base_ ^ Z.of_nat (numDigits_ - 1) ->
  exists q r,
    unsigned_divide a b remainder
    = Done (q, match remainder with Some _ => Some r | None => None end) /\
    wf q /\ wf r.
Proof.
  intros Ha Hb Hrem Hpos Htop.
  pose proof Ha as Ha'. apply wf_spec in Ha' as [Hla Hoka].
  pose proof Hb as Hb'. apply wf_spec in Hb' as [Hlb Hokb].
  pose proof (trim_below _ (numDigits_ - 1) Hoka Hla Htop) as Hm. clear Htop.
  assert (HmN : (trim (digits_ a) numDigits_ < numDigits_)%nat).
  { clear - Hm. unfold numDigits_ in *. lia. }
  assert (Hlen : forall r0, remainder = Some r0 -> length (digits_ r0) = numDigits_).
  { intros r0 E. apply (proj1 (proj1 (wf_spec r0) (Hrem r0 E))). }
  assert (Hn1 : (1 <= trim (digits_ b) numDigits_)%nat).
  { destruct (trim (digits_ b) numDigits_) as [|j] eqn:E; [exfalso|clear; lia].
    assert (Hz : uval (digits_ b) = 0).
    { apply (uval_zero_iff _ Hokb). rewrite Hlb.
      apply (trim_zero_iff _ numDigits_). exact E. }
    clear - Hz Hpos. lia. }
  destruct (Nat.lt_ge_cases (trim (digits_ a) numDigits_) (trim (digits_ b) numDigits_))
    as [Hfew|Hge].
  { rewrite (unsigned_divide_case_1 a b remainder Ha Hb Hlen Hfew).
    destruct remainder as [r0|].
    - eexists HugeInt_default, (mkHugeInt _). split; [reflexivity|].
      split; [apply wf_default|].
      pose proof (Hrem r0 eq_refl) as Hr0. apply wf_spec in Hr0 as [Hlr Hokr].
      apply wf_spec. cbn [digits_]. split.
      + rewrite length_app, length_take_le, length_drop by (rewrite Hla; clear - HmN; lia).
        rewrite Hlr. clear - HmN. lia.
      + apply Forall_app. split; [apply Forall_take; exact Hoka|apply Forall_drop; exact Hokr].
    - exists HugeInt_default, HugeInt_default. split; [reflexivity|].
      split; apply wf_default. }
  destruct (Nat.eq_dec (trim (digits_ b) numDigits_) 1%nat) as [Hone|Hmany].
  { destruct (unsigned_divide_case_2 a b remainder Ha Hb Hlen Hone)
      as (q & E & Wq & _ & Rb & _).
    { rewrite Hone in Hge. exact Hge. }
    rewrite E. destruct remainder as [r0|].
    - eexists q, (mkHugeInt _). split; [reflexivity|]. split; [exact Wq|].
      pose proof (Hrem r0 eq_refl) as Hr0. apply wf_spec in Hr0 as [Hlr Hokr].
      apply wf_spec. cbn [digits_]. split; [rewrite length_insert; exact Hlr|].
      apply digits_ok_insert; [exact Hokr|].
      pose proof (Z.mod_pos_bound (uval (digits_ a)) (uval (digits_ b)) Hpos) as Hmb.
      clear - Hmb Rb. lia.
    - exists q, HugeInt_default. split; [reflexivity|].
      split; [exact Wq|apply wf_default]. }
  apply (unsigned_divide_case_3_returns a b remainder Ha Hb Hrem);
    [clear - Hn1 Hmany Hge; lia|exact HmN].
Qed.

(** X29.  Division returns: for every dividend whose magnitude leaves the top
    digit slot free and every nonzero divisor, of any number of digits,
    [a / b] and [a % b] return well-formed objects; no array access is
    out of bounds and every loop ends, also where the quotient digits
    come out wrong. *)
Theorem division_returns a b :
  wf a -> wf b -> value b <> 0 ->
  Z.abs (value a) < base_ ^ Z.of_nat (numDigits_ - 1) ->
  exists q r, div a b = Done q /\ rem a b = Done r /\ wf q /\ wf r.
Proof.
  intros Ha Hb Hvb Htop.
  destruct (magnitude_operand a Ha) as (Haa & Hua & Hsa).
  destruct (magnitude_operand b Hb) as (Hbb & Hub & Hsb).
  set (a' := if lt_op a (HugeInt_ll 0) then neg a else a) in *.
  set (b' := if lt_op b (HugeInt_ll 0) then neg b else b) in *.
  assert (Hpos : 0 < uval (digits_ b')) by (rewrite Hub; clear - Hvb; lia).
  rewrite <- Hua in Htop.
  destruct (unsigned_divide_returns a' b' None Haa Hbb ltac:(intros r0 [=]) Hpos Htop)
    as (q1 & _ & E1 & Wq1 & _).
  destruct (unsigned_divide_returns a' b' (Some HugeInt_default) Haa Hbb
              ltac:(intros r0 [= <-]; apply wf_default) Hpos Htop)
    as (q2 & r2 & E2 & _ & Wr2).
  pose proof (proj1 (neg_spec q1 Wq1)) as Wnq.
  pose proof (proj1 (neg_spec r2 Wr2)) as Wnr.
  unfold div, rem. subst a' b'.
  destruct (lt_op a (HugeInt_ll 0)), (lt_op b (HugeInt_ll 0));
    rewrite E1, E2; cbn [mbind outcome_bind default];
    eexists _, _; (split; [reflexivity|]); (split; [reflexivity|]);
    (split; assumption).
Qed.

Lemma division_returns_witness :
  exists q r,
    div estimate_dividend estimate_divisor = Done q /\
    rem estimate_dividend estimate_divisor = Done r /\ wf q /\ wf r.
Proof.
  apply (division_returns estimate_dividend estimate_divisor);
    [vm_compute; reflexivity|vm_compute; reflexivity
    |vm_compute; discriminate|vm_compute; reflexivity].
Defined.

(** ** The driver's limits *)

Lemma factorial_mono k j : (k <= j)%nat -> factorial k <= factorial j.
Proof.
  induction 1 as [|j Hle IH]; [lia|].
  pose proof (factorial_pos j) as Hp. pose proof (factorial_pos k) as Hk.
  change (factorial (S j)) with (Z.of_nat (S j) * factorial j).
  set (fj := factorial j) in *. set (fk := factorial k) in *. clearbody fj fk.
  nia.
Qed.

Lemma fibonacci_mono k j : (k <= j)%nat -> fibonacci k <= fibonacci j.
Proof.
  assert (Hstep : forall i, fibonacci i <= fibonacci (S i)).
  { intros [|i]; [cbn; lia|]. rewrite fibonacci_SS.
    pose proof (fibonacci_nonneg i) as [H _]. lia. }
  induction 1 as [|j Hle IH]; [lia|]. pose proof (Hstep j). lia.
Qed.

Lemma bound_step_ok k m e f :
  0 < k -> 0 < m -> 0 <= e -> 0 <= f <= m * 2 ^ e ->
  0 < fst (bound_step k (m, e)) /\ 0 <= snd (bound_step k (m, e)) /\
  k * f <= fst (bound_step k (m, e)) * 2 ^ snd (bound_step k (m, e)).
Proof.
  intros Hk Hm He Hf. unfold bound_step.
  assert (Hp : 0 < 2 ^ e) by (apply Z.pow_pos_nonneg; lia).
  assert (Hkf : k * f <= k * m * 2 ^ e).
  { rewrite <- Z.mul_assoc. apply Z.mul_le_mono_nonneg_l; lia. }
  destruct (k * m <? 2 ^ 64); cbn [fst snd].
  - split; [nia|]. split; [exact He|exact Hkf].
  - assert (Hq : 0 <= k * m / 2 ^ 11) by (apply Z.div_pos; nia).
    split; [lia|]. split; [lia|].
    rewrite Z.pow_add_r by lia.
    pose proof (Z.div_mod (k * m) (2 ^ 11) ltac:(lia)) as Hdm.
    pose proof (Z.mod_pos_bound (k * m) (2 ^ 11) ltac:(lia)) as Hmb.
    assert (Hkm : k * m <= (k * m / 2 ^ 11 + 1) * 2 ^ 11) by lia.
    eapply Z.le_trans; [exact Hkf|].
    rewrite (Z.mul_comm (2 ^ e)), Z.mul_assoc.
    apply Z.mul_le_mono_nonneg_r; [lia|exact Hkm].
Qed.

Lemma factorial_bound_ok n :
  0 < fst (factorial_bound n) /\ 0 <= snd (factorial_bound n) /\
  factorial n <= fst (factorial_bound n) * 2 ^ snd (factorial_bound n).
Proof.
  induction n as [|n (Hm & He & Hf)].
  { cbn. lia. }
  change (factorial_bound (S n)) with (bound_step (Z.of_nat (S n)) (factorial_bound n)).
  change (factorial (S n)) with (Z.of_nat (S n) * factorial n).
  destruct (factorial_bound n) as [m e]. cbn [fst snd] in *.
  apply bound_step_ok; [lia|exact Hm|exact He|].
  pose proof (factorial_pos n). lia.
Qed.

(** The factorial of the largest argument accepted is representable. *)
Lemma factorial_limit_small : factorial 1100 < modulus / 2.
Proof.
  rewrite modulus_half_eq.
  pose proof (factorial_bound_ok 1100) as (Hm & He & Hf).
  assert (E : factorial_bound 1100 = (4707104335227825017, 9471))
    by (vm_compute; reflexivity).
  rewrite E in Hf. cbn [fst snd] in Hf. clear Hm He E.
  eapply Z.le_lt_trans; [exact Hf|].
  replace 9599 with (128 + 9471) by reflexivity.
  rewrite Z.pow_add_r by (clear; lia).
  apply Z.mul_lt_mono_pos_r; [apply Z.pow_pos_nonneg; clear; lia|].
  clear. reflexivity.
Qed.

Lemma fibonacci_bound n :
  8 ^ Z.of_nat n * fibonacci n <= 13 ^ Z.of_nat n /\
  8 ^ Z.of_nat (S n) * fibonacci (S n) <= 13 ^ Z.of_nat (S n).
Proof.
  induction n as [|n [IH1 IH2]].
  { cbn. lia. }
  split; [exact IH2|].
  rewrite fibonacci_SS.
  rewrite (Nat2Z.inj_succ (S n)), !Z.pow_succ_r by lia.
  rewrite (Nat2Z.inj_succ n), !Z.pow_succ_r in IH2 by lia.
  rewrite (Nat2Z.inj_succ n), !Z.pow_succ_r by lia.
  assert (H8 : 0 < 8 ^ Z.of_nat n) by (apply Z.pow_pos_nonneg; lia).
  assert (H13 : 0 < 13 ^ Z.of_nat n) by (apply Z.pow_pos_nonneg; lia).
  set (P := 8 ^ Z.of_nat n) in *. set (Q := 13 ^ Z.of_nat n) in *.
  set (f1 := fibonacci (S n)) in *. set (f0 := fibonacci n) in *.
  clearbody P Q f1 f0. nia.
Qed.

(** A Fibonacci number has at most five bits for every seven steps of
    its index. *)
Lemma fibonacci_bits (k : nat) :
  fibonacci (7 * k + 1) < 2 ^ (5 * Z.of_nat k + 1).
Proof.
  pose proof (proj1 (fibonacci_bound (7 * k + 1))) as H.
  replace (Z.of_nat (7 * k + 1)) with (7 * Z.of_nat k + 1) in H by lia.
  set (K := Z.of_nat k) in *. assert (HK : 0 <= K) by (subst K; lia).
  set (f := fibonacci (7 * k + 1)) in *. clearbody K f. clear k.
  assert (H13 : 13 ^ (7 * K + 1) < 2 ^ (26 * K + 4)).
  { rewrite !Z.pow_add_r, !Z.pow_mul_r by lia.
    assert (H1 : (13 ^ 7) ^ K <= (2 ^ 26) ^ K).
    { apply Z.pow_le_mono_l. split; [discriminate|]. discriminate. }
    assert (H2 : 0 < (13 ^ 7) ^ K) by (apply Z.pow_pos_nonneg; [reflexivity|exact HK]).
    change (13 ^ 1) with 13. change (2 ^ 4) with 16.
    set (A := (13 ^ 7) ^ K) in *. set (B := (2 ^ 26) ^ K) in *. clearbody A B.
    lia. }
  assert (H8 : 8 ^ (7 * K + 1) = 2 ^ (21 * K + 3)).
  { change 8 with (2 ^ 3). rewrite <- Z.pow_mul_r by lia. f_equal. lia. }
  assert (Hsplit : 2 ^ (26 * K + 4) = 2 ^ (21 * K + 3) * 2 ^ (5 * K + 1)).
  { rewrite <- Z.pow_add_r by lia. f_equal. lia. }
  assert (Hp : 0 < 2 ^ (21 * K + 3)) by (apply Z.pow_pos_nonneg; lia).
  rewrite H8 in H. rewrite Hsplit in H13.
  set (P := 2 ^ (21 * K + 3)) in *. set (Q := 2 ^ (5 * K + 1)) in *.
  set (T := 13 ^ (7 * K + 1)) in *. clearbody P Q T.
  nia.
Qed.

(** The Fibonacci number of the largest argument accepted is
    representable. *)
Lemma fibonacci_limit_small : fibonacci (Z.to_nat 13000) < modulus / 2.
Proof.
  rewrite modulus_half_eq.
  pose proof (fibonacci_bits 1857) as H.
  replace (Z.to_nat 13000) with (7 * 1857 + 1)%nat by reflexivity.
  eapply Z.lt_le_trans; [exact H|].
  clear. apply Z.pow_le_mono_r; [reflexivity|]. discriminate.
Qed.

(** What the driver's range check accepts, as a bound on the value. *)
Lemma within_limit n limit (L : Z) :
  wf n -> wf limit -> value limit = L -> 0 <= L < 2 ^ 63 ->
  lt_op n (HugeInt_ll 0) = false -> gt_op n limit = false ->
  0 <= value n <= L.
Proof.
  intros Hn Hl HL RL Hlo Hhi.
  pose proof (value_range n Hn) as Rn.
  pose proof modulus_large as HM. pose proof modulus_quarter as HQ.
  rewrite HugeInt_ll_0 in Hlo.
  pose proof (lt_op_default n Hn) as Hlt.
  pose proof (gt_op_value n limit Hn Hl) as Hgt. rewrite HL in Hgt.
  assert (H0 : 0 <= value n).
  { destruct (Z.lt_ge_cases (value n) 0) as [Hc|]; [exfalso|assumption].
    apply Hlt in Hc. rewrite Hc in Hlo. discriminate Hlo. }
  split; [exact H0|].
  destruct (Z.le_gt_cases (value n) L) as [|Hc]; [assumption|exfalso].
  assert (Hw : wrap (L - value n) = L - value n).
  { apply wrap_small.
    set (h := modulus / 2) in *. set (q := modulus / 4) in *.
    clearbody h q. clear - Rn H0 RL HM HQ Hc. lia. }
  rewrite Hw in Hgt.
  assert (Ht : gt_op n limit = true) by (apply Hgt; clear - Hc; lia).
  rewrite Ht in Hhi. discriminate Hhi.
Qed.

(** X30.  The driver's limits avoid overflow: for every argument that is
    neither below 0 nor above [FACTORIAL_LIMIT], [factorial_iterative]
    returns the factorial itself, not a reduced value; and for every
    argument neither below 0 nor above [FIBONACCI_LIMIT],
    [fibonacci_iterative] returns the Fibonacci number itself. *)
Theorem limits_avoid_overflow n fuel :
  wf n -> lt_op n (HugeInt_ll 0) = false ->
  (Z.to_nat (value n) < fuel)%nat ->
  (gt_op n FACTORIAL_LIMIT = false ->
   exists r,
     factorial_iterative fuel n = Done r /\ wf r /\
     value r = factorial (Z.to_nat (value n))) /\
  (gt_op n FIBONACCI_LIMIT = false ->
   exists r,
     fibonacci_iterative fuel n = Done r /\ wf r /\
     value r = fibonacci (Z.to_nat (value n))).
Proof.
  intros Hn Hlo Hfuel.
  pose proof modulus_large as HM. pose proof modulus_quarter as HQ.
  split; intros Hhi.
  - assert (Hv : 0 <= value n <= 1100).
    { apply (within_limit n FACTORIAL_LIMIT); try assumption.
      - apply HugeInt_ll_spec. clear. lia.
      - apply HugeInt_ll_spec. clear. lia.
      - clear. lia. }
    destruct (factorial_iterative_spec fuel n Hn) as (r & E & Wr & Ur);
      [clear - Hv HM HQ; lia|exact Hfuel|].
    exists r. split; [exact E|]. split; [exact Wr|].
    rewrite (value_of_uval_mod r _ Wr Ur). apply wrap_small.
    pose proof (factorial_pos (Z.to_nat (value n))) as Hp.
    pose proof (factorial_mono (Z.to_nat (value n)) 1100 ltac:(clear - Hv; lia)) as Hle.
    pose proof factorial_limit_small as Hs.
    set (h := modulus / 2) in *. clearbody h.
    set (f := factorial (Z.to_nat (value n))) in *.
    set (g := factorial 1100) in *. clearbody f g.
    clear - Hp Hle Hs. lia.
  - assert (Hv : 0 <= value n <= 13000).
    { apply (within_limit n FIBONACCI_LIMIT); try assumption.
      - apply HugeInt_ll_spec. clear. lia.
      - apply HugeInt_ll_spec. clear. lia.
      - clear. lia. }
    destruct (fibonacci_iterative_spec fuel n Hn) as (r & E & Wr & Ur);
      [clear - Hv; lia|exact Hfuel|].
    exists r. split; [exact E|]. split; [exact Wr|].
    rewrite (value_of_uval_mod r _ Wr Ur). apply wrap_small.
    pose proof (proj1 (fibonacci_nonneg (Z.to_nat (value n)))) as Hp.
    pose proof (fibonacci_mono (Z.to_nat (value n)) (Z.to_nat 13000)
                  ltac:(clear - Hv; lia)) as Hle.
    pose proof fibonacci_limit_small as Hs.
    set (h := modulus / 2) in *. clearbody h.
    set (f := fibonacci (Z.to_nat (value n))) in *.
    set (g := fibonacci (Z.to_nat 13000)) in *. clearbody f g.
    clear - Hp Hle Hs. lia.
Qed.

Lemma limits_avoid_overflow_witness :
  (gt_op (HugeInt_ll 20) FACTORIAL_LIMIT = false ->
   exists r,
     factorial_iterative 21 (HugeInt_ll 20) = Done r /\ wf r /\
     value r = factorial (Z.to_nat (value (HugeInt_ll 20)))) /\
  (gt_op (HugeInt_ll 20) FIBONACCI_LIMIT = false ->
   exists r,
     fibonacci_iterative 21 (HugeInt_ll 20) = Done r /\ wf r /\
     value r = fibonacci (Z.to_nat (value (HugeInt_ll 20)))).
Proof.
  apply (limits_avoid_overflow (HugeInt_ll 20) 21);
    [vm_compute; reflexivity|vm_compute; reflexivity|vm_compute; lia].
Defined.



Lemma render_parse_round_trip_witness :
  exists s,
    toDecimalString getMinimum = Done s /\
    HugeInt_str (without_separators s) = Returned getMinimum.
Proof.
  apply (render_parse_round_trip getMinimum). vm_compute. reflexivity.
Defined.



Lemma toRawString_injective_witness :
  HugeInt_ll 7 = add (HugeInt_ll 3) (HugeInt_ll 4).
Proof.
  apply (toRawString_injective (HugeInt_ll 7) (add (HugeInt_ll 3) (HugeInt_ll 4)));
    vm_compute; reflexivity.
Defined.

(** X25.  [factorial_recursive] returns the factorial of its argument reduced
    into the representable range, after a recursion as deep as the
    argument is large; an argument below 2, a negative one included,
    gives 1. *)
Theorem factorial_recursive_value fuel n :
  wf n -> - (modulus / 2) + 2 <= value n ->
  (Z.to_nat (value n) < fuel)%nat ->
  exists r,
    factorial_recursive fuel n = Done r /\ wf r /\
    value r = wrap (factorial (Z.to_nat (value n))) /\
    (value n <= 1 -> r = HugeInt_ll 1).
Proof.
  intros Hn Hv Hf.
  destruct (factorial_recursive_spec fuel n Hn Hv Hf) as (r & E & Wr & Ur).
  exists r. split; [exact E|]. split; [exact Wr|].
  split; [exact (value_of_uval_mod r _ Wr Ur)|].
  intros H1. apply wf_eq; [exact Wr|exact wf_one|].
  rewrite Ur, uval_one.
  assert (Z.to_nat (value n) = 0%nat \/ Z.to_nat (value n) = 1%nat) as [->| ->]
    by (clear - H1; lia);
    apply Z.mod_small; pose proof modulus_gt_1 as HM; cbn [factorial];
    change (Z.of_nat 1) with 1; clear - HM; lia.
Qed.

Lemma factorial_recursive_value_witness :
  exists r,
    factorial_recursive 6 (HugeInt_ll 5) = Done r /\ wf r /\
    value r = wrap (factorial (Z.to_nat (value (HugeInt_ll 5)))) /\
    (value (HugeInt_ll 5) <= 1 -> r = HugeInt_ll 1).
Proof.
  apply (factorial_recursive_value 6 (HugeInt_ll 5));
    [vm_compute; reflexivity|vm_compute; discriminate|vm_compute; lia].
Defined.

(** X26.  [factorial_iterative] returns the factorial of its argument reduced
    into the representable range, after as many rounds as the argument
    is large; 0, 1 and the negative arguments give 1. *)
Theorem factorial_iterative_value fuel n :
  wf n -> - (modulus / 2) < value n ->
  (Z.to_nat (value n) < fuel)%nat ->
  exists r,
    factorial_iterative fuel n = Done r /\ wf r /\
    value r = wrap (factorial (Z.to_nat (value n))) /\
    (value n <= 1 -> r = HugeInt_ll 1).
Proof.
  intros Hn Hv Hf.
  destruct (factorial_iterative_spec fuel n Hn Hv Hf) as (r & E & Wr & Ur).
  exists r. split; [exact E|]. split; [exact Wr|].
  split; [exact (value_of_uval_mod r _ Wr Ur)|].
  intros H1. apply wf_eq; [exact Wr|exact wf_one|].
  rewrite Ur, uval_one.
  assert (Z.to_nat (value n) = 0%nat \/ Z.to_nat (value n) = 1%nat) as [->| ->]
    by (clear - H1; lia);
    apply Z.mod_small; pose proof modulus_gt_1 as HM; cbn [factorial];
    change (Z.of_nat 1) with 1; clear - HM; lia.
Qed.

Lemma factorial_iterative_value_witness :
  exists r,
    factorial_iterative 6 (HugeInt_ll 5) = Done r /\ wf r /\
    value r = wrap (factorial (Z.to_nat (value (HugeInt_ll 5)))) /\
    (value (HugeInt_ll 5) <= 1 -> r = HugeInt_ll 1).
Proof.
  apply (factorial_iterative_value 6 (HugeInt_ll 5));
    [vm_compute; reflexivity|vm_compute; reflexivity|vm_compute; lia].
Defined.

(** On a negative argument each call of [fibonacci_recursive] makes a
    further call on the argument less one. *)
Lemma fibonacci_recursive_unbounded fuel :
  forall n,
    wf n -> value n < 0 -> - (modulus / 2) + Z.of_nat fuel <= value n ->
    fibonacci_recursive fuel n = OutOfFuel.
Proof.
  induction fuel as [|fuel IH]; intros n Hn Hneg Hlow; [reflexivity|].
  cbn [fibonacci_recursive].
  pose proof (fibonacci_base n Hn) as Hb.
  destruct (eq_op n HugeInt_default || eq_op n (HugeInt_ll 1)).
  - exfalso. pose proof (proj1 Hb eq_refl) as H. clear - H Hneg. lia.
  - destruct (sub_spec n (HugeInt_ll 1) Hn wf_one) as [Ws _].
    assert (Vs : value (sub n (HugeInt_ll 1)) = value n - 1).
    { rewrite (sub_value _ _ Hn wf_one), value_one. apply wrap_small.
      pose proof (value_range n Hn) as Hr. clear - Hr Hlow Hneg. lia. }
    rewrite (IH (sub n (HugeInt_ll 1)) Ws); [reflexivity| |];
      rewrite Vs; clear - Hneg Hlow; lia.
Qed.

(** X27.  [fibonacci_recursive] returns the Fibonacci number of a non-negative
    argument, reduced into the representable range.  On a negative
    argument it does not return: the recursion is deeper than any bound
    below the distance from the argument to the minimum. *)
Theorem fibonacci_recursive_value fuel n :
  wf n ->
  (0 <= value n -> (Z.to_nat (value n) < fuel)%nat ->
   exists r,
     fibonacci_recursive fuel n = Done r /\ wf r /\
     value r = wrap (fibonacci (Z.to_nat (value n)))) /\
  (value n < 0 -> - (modulus / 2) + Z.of_nat fuel <= value n ->
   fibonacci_recursive fuel n = OutOfFuel).
Proof.
  intros Hn. split.
  - intros Hv Hf.
    destruct (fibonacci_recursive_spec fuel n Hn Hv Hf) as (r & E & Wr & Ur).
    exists r. split; [exact E|]. split; [exact Wr|].
    exact (value_of_uval_mod r _ Wr Ur).
  - intros Hneg Hlow. exact (fibonacci_recursive_unbounded fuel n Hn Hneg Hlow).
Qed.

Lemma fibonacci_recursive_value_witness :
  (0 <= value (HugeInt_ll 7) -> (Z.to_nat (value (HugeInt_ll 7)) < 8)%nat ->
   exists r,
     fibonacci_recursive 8 (HugeInt_ll 7) = Done r /\ wf r /\
     value r = wrap (fibonacci (Z.to_nat (value (HugeInt_ll 7))))) /\
  (value (HugeInt_ll 7) < 0 -> - (modulus / 2) + Z.of_nat 8 <= value (HugeInt_ll 7) ->
   fibonacci_recursive 8 (HugeInt_ll 7) = OutOfFuel).
Proof.
  apply (fibonacci_recursive_value 8 (HugeInt_ll 7)). vm_compute. reflexivity.
Defined.

(** X28.  [fibonacci_iterative] returns the Fibonacci number of a non-negative
    argument, reduced into the representable range, and 0 on a negative
    argument. *)
Theorem fibonacci_iterative_value fuel n :
  wf n -> - (modulus / 2) + 2 <= value n ->
  (Z.to_nat (value n) < fuel)%nat ->
  exists r,
    fibonacci_iterative fuel n = Done r /\ wf r /\
    value r = wrap (fibonacci (Z.to_nat (value n))) /\
    (value n < 0 -> r = HugeInt_default).
Proof.
  intros Hn Hv Hf.
  destruct (Z.lt_ge_cases (value n) 0) as [Hneg|Hpos].
  - destruct fuel as [|fuel]; [exfalso; clear - Hf; lia|].
    exists HugeInt_default.
    split; [apply (fibonacci_iterative_negative fuel n Hn); clear - Hv Hneg; lia|].
    split; [exact wf_default|]. split; [|reflexivity].
    rewrite value_default.
    replace (Z.to_nat (value n)) with 0%nat by (clear - Hneg; lia).
    cbn [fibonacci]. symmetry. apply wrap_small.
    pose proof modulus_large. pose proof modulus_quarter. lia.
  - destruct (fibonacci_iterative_spec fuel n Hn Hpos Hf) as (r & E & Wr & Ur).
    exists r. split; [exact E|]. split; [exact Wr|].
    split; [exact (value_of_uval_mod r _ Wr Ur)|].
    intros Hneg. exfalso. clear - Hneg Hpos. lia.
Qed.

Lemma fibonacci_iterative_value_witness :
  exists r,
    fibonacci_iterative 21 (HugeInt_ll 20) = Done r /\ wf r /\
    value r = wrap (fibonacci (Z.to_nat (value (HugeInt_ll 20)))) /\
    (value (HugeInt_ll 20) < 0 -> r = HugeInt_default).
Proof.
  apply (fibonacci_iterative_value 21 (HugeInt_ll 20));
    [vm_compute; reflexivity|vm_compute; discriminate|vm_compute; lia].
Defined.
